(** * clox: the single-pass bytecode compiler (chunk.c, compiler.c)

    A shallow embedding of the chunk writer and of the compiler, and the
    properties of the specification checked against it.

    Conventions of the embedding.
    - C [int] values are [Z]; a [uint8_t] conversion is written out as
      [_ mod 256] where the source converts.
    - A growable array ([code], [lines], the constant pool) is the list of its
      [count] elements.  The fixed arrays [locals[UINT8_COUNT]] and
      [upvalues[UINT8_COUNT]] are lists of 256 cells next to their counters.
    - The linked chain [current -> enclosing -> ...] is the list [compilers]
      (head = [current], empty = NULL); likewise [classes] for
      [currentClass].
    - The scanner is not part of these sources: the token stream it yields,
      closed by a [TOKEN_EOF], is the list [scanner]; past its end
      [scanToken] keeps yielding [TOKEN_EOF].
    - [stderr] is the list [diagnostics] of (token, message) pairs, one per
      call of [errorAt] that prints.
    - Functions that recurse through the grammar take fuel; every call and
      every loop iteration costs one unit.  Enough fuel always exists
      ([compile_returns]). *)

From stdpp Require Import base list strings.
From Stdlib Require Import ZArith Lia.

Local Open Scope string_scope.
Local Open Scope list_scope.
Local Open Scope Z_scope.

(** ** Tokens (scanner.h) *)

Inductive TokenType :=
| TOKEN_LEFT_PAREN | TOKEN_RIGHT_PAREN | TOKEN_LEFT_BRACE | TOKEN_RIGHT_BRACE
| TOKEN_COMMA | TOKEN_DOT | TOKEN_MINUS | TOKEN_PLUS | TOKEN_SEMICOLON
| TOKEN_SLASH | TOKEN_STAR
| TOKEN_BANG | TOKEN_BANG_EQUAL | TOKEN_EQUAL | TOKEN_EQUAL_EQUAL
| TOKEN_GREATER | TOKEN_GREATER_EQUAL | TOKEN_LESS | TOKEN_LESS_EQUAL
| TOKEN_IDENTIFIER | TOKEN_STRING | TOKEN_NUMBER
| TOKEN_AND | TOKEN_CLASS | TOKEN_ELSE | TOKEN_FALSE | TOKEN_FOR | TOKEN_FUN
| TOKEN_IF | TOKEN_NIL | TOKEN_OR | TOKEN_PRINT | TOKEN_RETURN | TOKEN_SUPER
| TOKEN_THIS | TOKEN_TRUE | TOKEN_VAR | TOKEN_WHILE
| TOKEN_ERROR | TOKEN_EOF.

Definition TokenType_eqb (a b : TokenType) : bool :=
  match a, b with
  | TOKEN_LEFT_PAREN, TOKEN_LEFT_PAREN | TOKEN_RIGHT_PAREN, TOKEN_RIGHT_PAREN
  | TOKEN_LEFT_BRACE, TOKEN_LEFT_BRACE | TOKEN_RIGHT_BRACE, TOKEN_RIGHT_BRACE
  | TOKEN_COMMA, TOKEN_COMMA | TOKEN_DOT, TOKEN_DOT | TOKEN_MINUS, TOKEN_MINUS
  | TOKEN_PLUS, TOKEN_PLUS | TOKEN_SEMICOLON, TOKEN_SEMICOLON
  | TOKEN_SLASH, TOKEN_SLASH | TOKEN_STAR, TOKEN_STAR | TOKEN_BANG, TOKEN_BANG
  | TOKEN_BANG_EQUAL, TOKEN_BANG_EQUAL | TOKEN_EQUAL, TOKEN_EQUAL
  | TOKEN_EQUAL_EQUAL, TOKEN_EQUAL_EQUAL | TOKEN_GREATER, TOKEN_GREATER
  | TOKEN_GREATER_EQUAL, TOKEN_GREATER_EQUAL | TOKEN_LESS, TOKEN_LESS
  | TOKEN_LESS_EQUAL, TOKEN_LESS_EQUAL | TOKEN_IDENTIFIER, TOKEN_IDENTIFIER
  | TOKEN_STRING, TOKEN_STRING | TOKEN_NUMBER, TOKEN_NUMBER
  | TOKEN_AND, TOKEN_AND | TOKEN_CLASS, TOKEN_CLASS | TOKEN_ELSE, TOKEN_ELSE
  | TOKEN_FALSE, TOKEN_FALSE | TOKEN_FOR, TOKEN_FOR | TOKEN_FUN, TOKEN_FUN
  | TOKEN_IF, TOKEN_IF | TOKEN_NIL, TOKEN_NIL | TOKEN_OR, TOKEN_OR
  | TOKEN_PRINT, TOKEN_PRINT | TOKEN_RETURN, TOKEN_RETURN
  | TOKEN_SUPER, TOKEN_SUPER | TOKEN_THIS, TOKEN_THIS | TOKEN_TRUE, TOKEN_TRUE
  | TOKEN_VAR, TOKEN_VAR | TOKEN_WHILE, TOKEN_WHILE | TOKEN_ERROR, TOKEN_ERROR
  | TOKEN_EOF, TOKEN_EOF => true
  | _, _ => false
  end.

(** [start] holds the [length] bytes the token points at. *)
Record Token := mkToken { type : TokenType; start : string; line : Z }.

(** ** Chunks (chunk.h, chunk.c) *)

Inductive OpCode :=
| OP_CONSTANT | OP_NIL | OP_TRUE | OP_FALSE | OP_POP
| OP_GET_LOCAL | OP_SET_LOCAL | OP_GET_GLOBAL | OP_DEFINE_GLOBAL | OP_SET_GLOBAL
| OP_GET_UPVALUE | OP_SET_UPVALUE | OP_GET_PROPERTY | OP_SET_PROPERTY
| OP_GET_SUPER | OP_EQUAL | OP_GREATER | OP_LESS
| OP_ADD | OP_SUBSTRACT | OP_MULTIPLY | OP_DIVIDE | OP_NOT | OP_NEGATE
| OP_PRINT | OP_JUMP | OP_JUMP_IF_FALSE | OP_LOOP | OP_CALL | OP_INVOKE
| OP_SUPER_INVOKE | OP_CLOSURE | OP_CLOSE_UPVALUE | OP_RETURN
| OP_CLASS | OP_INHERIT | OP_METHOD.

Record Chunk_ (V : Type) := mkChunk {
  code : list Z;
  lines : list Z;
  constants : list V
}.
Arguments mkChunk {V}.
Arguments code {V}.
Arguments lines {V}.
Arguments constants {V}.

Record ObjFunction_ (V : Type) := mkFunction {
  arity : Z;
  upvalueCount : Z;
  chunk : Chunk_ V;
  fname : option string
}.
Arguments mkFunction {V}.
Arguments arity {V}.
Arguments upvalueCount {V}.
Arguments chunk {V}.
Arguments fname {V}.

(** Runtime values the compiler stores in a constant pool: a number (kept
    as the text handed to [strtod]), an interned string, a function. *)
#[local] Set Warnings "-register-all".
Inductive Value :=
| NUMBER_VAL (text : string)
| OBJ_STRING (chars : string)
| OBJ_FUNCTION (f : ObjFunction_ Value).

Abbreviation Chunk := (Chunk_ Value).
Abbreviation ObjFunction := (ObjFunction_ Value).

Definition count (c : Chunk) : Z := Z.of_nat (length (code c)).

Definition initChunk : Chunk := mkChunk [] [] [].

Definition writeChunk (c : Chunk) (byte : Z) (ln : Z) : Chunk :=
  mkChunk (code c ++ [byte]) (lines c ++ [ln]) (constants c).

Definition addConstant (c : Chunk) (value : Value) : Z * Chunk :=
  let c' := mkChunk (code c) (lines c) (constants c ++ [value]) in
  (Z.of_nat (length (constants c')) - 1, c').

(** ** Compiler data (compiler.c) *)

Record Parser := mkParser {
  current : Token;
  previous : Token;
  hadError : bool;
  panicMode : bool
}.

Definition PREC_NONE : Z := 0.
Definition PREC_ASSIGNMENT : Z := 1.
Definition PREC_OR : Z := 2.
Definition PREC_AND : Z := 3.
Definition PREC_EQUALITY : Z := 4.
Definition PREC_COMPARISON : Z := 5.
Definition PREC_TERM : Z := 6.
Definition PREC_FACTOR : Z := 7.
Definition PREC_UNARY : Z := 8.
Definition PREC_CALL : Z := 9.
Definition PREC_PRIMARY : Z := 10.

(** The handlers a [ParseRule] can point at. *)
Inductive ParseFn :=
| fn_grouping | fn_call | fn_dot | fn_unary | fn_binary | fn_variable
| fn_string | fn_number | fn_and | fn_literal | fn_or | fn_super | fn_this.

Record ParseRule := mkRule {
  prefix : option ParseFn;
  infix : option ParseFn;
  precedence : Z
}.

Record Local := mkLocal { name : Token; depth : Z; isCaptured : bool }.

Record Upvalue := mkUpvalue { index : Z; isLocal : bool }.

Inductive FunctionType :=
| TYPE_FUNCTION | TYPE_INITIALIZER | TYPE_METHOD | TYPE_SCRIPT.

Definition FunctionType_eqb (a b : FunctionType) : bool :=
  match a, b with
  | TYPE_FUNCTION, TYPE_FUNCTION | TYPE_INITIALIZER, TYPE_INITIALIZER
  | TYPE_METHOD, TYPE_METHOD | TYPE_SCRIPT, TYPE_SCRIPT => true
  | _, _ => false
  end.

Record Compiler := mkCompiler {
  function : ObjFunction;
  ftype : FunctionType;
  locals : list Local;
  localCount : Z;
  upvalues : list Upvalue;
  scopeDepth : Z
}.

Record ClassCompiler := mkClassCompiler { hasSuperclass : bool }.

Definition UINT8_MAX : Z := 255.
Definition UINT8_COUNT : Z := 256.
Definition UINT16_MAX : Z := 65535.

(** The process-wide state: [parser], [current], [currentClass], plus the
    scanner's remaining tokens and what was printed on stderr. *)
Record State := mkState {
  scanner : list Token;
  parser : Parser;
  compilers : list Compiler;
  classes : list ClassCompiler;
  diagnostics : list (Token * string)
}.

(** Cells that were never written. *)
Definition noToken : Token := mkToken TOKEN_ERROR "" 0.
Definition noLocal : Local := mkLocal noToken 0 false.
Definition noUpvalue : Upvalue := mkUpvalue 0 false.
Definition noFunction : ObjFunction := mkFunction 0 0 initChunk None.
Definition noCompiler : Compiler :=
  mkCompiler noFunction TYPE_SCRIPT [] 0 [] 0.

(** *** Field updates *)

Definition set_parser (p : Parser) (st : State) : State :=
  mkState (scanner st) p (compilers st) (classes st) (diagnostics st).
Definition set_compilers (cs : list Compiler) (st : State) : State :=
  mkState (scanner st) (parser st) cs (classes st) (diagnostics st).
Definition set_classes (cl : list ClassCompiler) (st : State) : State :=
  mkState (scanner st) (parser st) (compilers st) cl (diagnostics st).

Definition set_chunk (ch : Chunk) (f : ObjFunction) : ObjFunction :=
  mkFunction (arity f) (upvalueCount f) ch (fname f).
Definition set_function (f : ObjFunction) (c : Compiler) : Compiler :=
  mkCompiler f (ftype c) (locals c) (localCount c) (upvalues c) (scopeDepth c).
Definition set_locals (ls : list Local) (n : Z) (c : Compiler) : Compiler :=
  mkCompiler (function c) (ftype c) ls n (upvalues c) (scopeDepth c).
Definition set_scopeDepth (d : Z) (c : Compiler) : Compiler :=
  mkCompiler (function c) (ftype c) (locals c) (localCount c) (upvalues c) d.

(** [*current] and what a write through [current] does to the chain. *)
Definition cur (st : State) : Compiler := hd noCompiler (compilers st).

Definition with_current (f : Compiler -> Compiler) (st : State) : State :=
  match compilers st with
  | [] => st
  | c :: enclosing => set_compilers (f c :: enclosing) st
  end.

Definition currentChunk (st : State) : Chunk := chunk (function (cur st)).

Definition with_currentChunk (f : Chunk -> Chunk) : State -> State :=
  with_current (fun c => set_function (set_chunk (f (chunk (function c))) (function c)) c).

(** ** Parser driver *)

Definition errorAt (token : Token) (message : string) (st : State) : State :=
  let p := parser st in
  if panicMode p then st
  else
    mkState (scanner st)
            (mkParser (current p) (previous p) true true)
            (compilers st) (classes st)
            (diagnostics st ++ [(token, message)]).

Definition error (message : string) (st : State) : State :=
  errorAt (previous (parser st)) message st.

Definition errorAtCurrent (message : string) (st : State) : State :=
  errorAt (current (parser st)) message st.

Definition eofToken : Token := mkToken TOKEN_EOF "" 0.

Definition set_current (t : Token) (rest : list Token) (st : State) : State :=
  let p := parser st in
  mkState rest (mkParser t (previous p) (hadError p) (panicMode p))
          (compilers st) (classes st) (diagnostics st).

(** The [for (;;)] of [advance]: scan until a token is not [TOKEN_ERROR]. *)
Fixpoint advance_scan (src : list Token) (st : State) : State :=
  match src with
  | [] => set_current eofToken [] st
  | t :: rest =>
      let st1 := set_current t rest st in
      if TokenType_eqb (type t) TOKEN_ERROR
      then advance_scan rest (errorAtCurrent (start t) st1)
      else st1
  end.

Definition advance (st : State) : State :=
  let p := parser st in
  advance_scan (scanner st)
    (set_parser (mkParser (current p) (current p) (hadError p) (panicMode p)) st).

Definition check (ty : TokenType) (st : State) : bool :=
  TokenType_eqb ty (type (current (parser st))).

Definition consume (ty : TokenType) (message : string) (st : State) : State :=
  if TokenType_eqb (type (current (parser st))) ty then advance st
  else errorAtCurrent message st.

Definition match_ (ty : TokenType) (st : State) : bool * State :=
  if negb (check ty st) then (false, st) else (true, advance st).

(** ** Computations that may need the grammar's recursion

    [None] is "no result": the fuel ran out, or a NULL handler was called. *)

Definition M (A : Type) : Type := State -> option (A * State).

Definition ret {A} (a : A) : M A := fun st => Some (a, st).

Definition bind {A B} (m : M A) (k : A -> M B) : M B :=
  fun st => match m st with
            | Some (a, st') => k a st'
            | None => None
            end.

Definition noResult {A} : M A := fun _ => None.

(** A step that always returns. *)
Definition lift {A} (f : State -> A * State) : M A := fun st => Some (f st).
Definition exec (f : State -> State) : M unit := fun st => Some (tt, f st).
Definition get {A} (f : State -> A) : M A := fun st => Some (f st, st).

Notation "x <- m ;; k" := (bind m (fun x => k))
  (at level 100, m at next level, right associativity).
Notation "m ;; k" := (bind m (fun _ => k))
  (at level 100, right associativity).

(** [flag && match(ty)], with C's short circuit. *)
Definition and_match (flag : bool) (ty : TokenType) : M bool :=
  if flag then lift (match_ ty) else ret false.

Definition when (b : bool) (f : State -> State) : M unit :=
  if b then exec f else ret tt.

Section Compiler.

(** chunk.h is not part of these sources: the numbering of the [OpCode]
    enumeration is a parameter of the development. *)
Variable op : OpCode -> Z.

(** ** Emitter *)

Definition emitByte (byte : Z) (st : State) : State :=
  with_currentChunk
    (fun c => writeChunk c byte (line (previous (parser st)))) st.

Definition emitJump (instruction : Z) (st : State) : Z * State :=
  let st1 := emitByte instruction st in
  let st2 := emitByte 255 st1 in
  let st3 := emitByte 255 st2 in
  (count (currentChunk st3) - 2, st3).

Definition emitBytes (byte1 byte2 : Z) (st : State) : State :=
  emitByte byte2 (emitByte byte1 st).

Definition emitLoop (loopStart : Z) (st : State) : State :=
  let st1 := emitByte (op OP_LOOP) st in
  let offset := count (currentChunk st1) - loopStart + 2 in
  let st2 := if offset >? UINT16_MAX then error "Loop body too large." st1
             else st1 in
  let st3 := emitByte (Z.land (Z.shiftr offset 8) 255) st2 in
  emitByte (Z.land offset 255) st3.

Definition emitReturn (st : State) : State :=
  let st1 := if FunctionType_eqb (ftype (cur st)) TYPE_INITIALIZER
             then emitBytes (op OP_GET_LOCAL) 0 st
             else emitByte (op OP_NIL) st in
  emitByte (op OP_RETURN) st1.

Definition makeConstant (value : Value) (st : State) : Z * State :=
  let constant := fst (addConstant (currentChunk st) value) in
  let st1 := with_currentChunk (fun c => snd (addConstant c value)) st in
  if constant >? UINT8_MAX
  then (0, error "Too many constants in one chunks." st1)
  else (constant, st1).

Definition emitConstant (value : Value) (st : State) : State :=
  let '(k, st1) := makeConstant value st in
  emitBytes (op OP_CONSTANT) k st1.

(** [code[offset] = v]: an in-place write. *)
Definition poke (offset : Z) (v : Z) (c : Chunk) : Chunk :=
  mkChunk (<[Z.to_nat offset := v]> (code c)) (lines c) (constants c).

Definition patchJump (offset : Z) (st : State) : State :=
  let jump := count (currentChunk st) - offset - 2 in
  let st1 := if jump >? UINT16_MAX then error "Cannot jump this far !" st
             else st in
  let st2 := with_currentChunk (poke offset (Z.land (Z.shiftr jump 8) 255)) st1 in
  with_currentChunk (poke (offset + 1) (Z.land jump 255)) st2.

(** object.c is not part of these sources; [newFunction] yields a function
    with arity 0, no upvalue, no name and an empty chunk. *)
Definition newFunction : ObjFunction := mkFunction 0 0 initChunk None.

(** A token of which only [start] and [length] are set. *)
Definition syntheticToken (text : string) : Token := mkToken TOKEN_ERROR text 0.

Definition initCompiler (ty : FunctionType) (st : State) : State :=
  let f := newFunction in
  let f := if negb (FunctionType_eqb ty TYPE_SCRIPT)
           then mkFunction (arity f) (upvalueCount f) (chunk f)
                           (Some (start (previous (parser st))))
           else f in
  let slot0 :=
    mkLocal (if negb (FunctionType_eqb ty TYPE_FUNCTION)
             then syntheticToken "this" else syntheticToken "")
            0 false in
  let compiler :=
    mkCompiler f ty
               (<[0%nat := slot0]> (replicate (Z.to_nat UINT8_COUNT) noLocal)) 1
               (replicate (Z.to_nat UINT8_COUNT) noUpvalue) 0 in
  set_compilers (compiler :: compilers st) st.

Definition endCompiler (st : State) : ObjFunction * State :=
  let st1 := emitReturn st in
  let f := function (cur st1) in
  (f, set_compilers (tl (compilers st1)) st1).

Definition beginScope (st : State) : State :=
  with_current (fun c => set_scopeDepth (scopeDepth c + 1) c) st.

Definition local_at (c : Compiler) (i : Z) : Local :=
  nth (Z.to_nat i) (locals c) noLocal.

(** The [while] of [endScope]; it runs at most [localCount] times. *)
Fixpoint endScope_loop (n : nat) (st : State) : State :=
  match n with
  | O => st
  | S n' =>
      let c := cur st in
      if (localCount c >? 0)
         && (depth (local_at c (localCount c - 1)) >? scopeDepth c)
      then
        let st1 := if isCaptured (local_at c (localCount c - 1))
                   then emitByte (op OP_CLOSE_UPVALUE) st
                   else emitByte (op OP_POP) st in
        endScope_loop n'
          (with_current (fun c => set_locals (locals c) (localCount c - 1) c) st1)
      else st
  end.

Definition endScope (st : State) : State :=
  let st1 := with_current (fun c => set_scopeDepth (scopeDepth c - 1) c) st in
  endScope_loop (Z.to_nat (localCount (cur st1))) st1.

(** ** Scope and resolver *)

Definition identifierConstant (nm : Token) (st : State) : Z * State :=
  makeConstant (OBJ_STRING (start nm)) st.

(** Same length and same bytes. *)
Definition identifiersEqual (a b : Token) : bool := String.eqb (start a) (start b).

(** The [for] of [resolveLocal], at [i = n - 1]. *)
Fixpoint resolveLocal_loop (c : Compiler) (nm : Token) (n : nat) (st : State)
  : Z * State :=
  match n with
  | O => (-1, st)
  | S i =>
      let local := local_at c (Z.of_nat i) in
      if identifiersEqual (name local) nm then
        (Z.of_nat i,
         if depth local =? -1
         then error "Can't read local variable in its own initializer." st
         else st)
      else resolveLocal_loop c nm i st
  end.

Definition resolveLocal (c : Compiler) (nm : Token) (st : State) : Z * State :=
  resolveLocal_loop c nm (Z.to_nat (localCount c)) st.

Definition upvalue_at (c : Compiler) (i : Z) : Upvalue :=
  nth (Z.to_nat i) (upvalues c) noUpvalue.

(** The [for] of [addUpvalue], from index [i] with [k] entries left. *)
Fixpoint addUpvalue_scan (c : Compiler) (idx : Z) (isLoc : bool) (i : Z) (k : nat)
  : option Z :=
  match k with
  | O => None
  | S k' =>
      let upvalue := upvalue_at c i in
      if (index upvalue =? idx) && Bool.eqb (isLocal upvalue) isLoc
      then Some i
      else addUpvalue_scan c idx isLoc (i + 1) k'
  end.

Definition addUpvalue (c : Compiler) (idx : Z) (isLoc : bool) (st : State)
  : Z * Compiler * State :=
  let n := upvalueCount (function c) in
  match addUpvalue_scan c idx isLoc 0 (Z.to_nat n) with
  | Some i => (i, c, st)
  | None =>
      if n =? UINT8_COUNT
      then (0, c, error "Too many closure variable in function." st)
      else
        let f := function c in
        (n,
         mkCompiler (mkFunction (arity f) (n + 1) (chunk f) (fname f))
                    (ftype c) (locals c) (localCount c)
                    (<[Z.to_nat n := mkUpvalue idx isLoc]> (upvalues c))
                    (scopeDepth c),
         st)
  end.

Definition capture (i : Z) (c : Compiler) : Compiler :=
  let l := local_at c i in
  set_locals (<[Z.to_nat i := mkLocal (name l) (depth l) true]> (locals c))
             (localCount c) c.

(** [resolveUpvalue] on the chain that starts at [compiler]; it yields the
    chain as it has been written. *)
Fixpoint resolveUpvalue (chain : list Compiler) (nm : Token) (st : State)
  : Z * list Compiler * State :=
  match chain with
  | [] => (-1, chain, st)
  | compiler :: enclosing =>
      match enclosing with
      | [] => (-1, chain, st)
      | parent :: outer =>
          let '(local, st1) := resolveLocal parent nm st in
          if negb (local =? -1) then
            let '(i, compiler', st2) :=
              addUpvalue compiler (local mod 256) true st1 in
            (i, compiler' :: capture local parent :: outer, st2)
          else
            let '(upvalue, enclosing', st2) := resolveUpvalue enclosing nm st1 in
            if negb (upvalue =? -1) then
              let '(i, compiler', st3) :=
                addUpvalue compiler (upvalue mod 256) false st2 in
              (i, compiler' :: enclosing', st3)
            else (-1, compiler :: enclosing', st2)
      end
  end.

Definition resolveUpvalue_current (nm : Token) (st : State) : Z * State :=
  let '(i, chain, st1) := resolveUpvalue (compilers st) nm st in
  (i, set_compilers chain st1).

Definition addLocal (nm : Token) (st : State) : State :=
  let c := cur st in
  if localCount c =? UINT8_COUNT
  then error "Too many local variables in function (max 256)." st
  else
    with_current
      (fun c => set_locals
                  (<[Z.to_nat (localCount c) := mkLocal nm (-1) false]> (locals c))
                  (localCount c + 1) c)
      st.

(** The [for] of [declareVariable], at [i = n - 1]. *)
Fixpoint declareVariable_loop (c : Compiler) (nm : Token) (n : nat) (st : State)
  : State :=
  match n with
  | O => st
  | S i =>
      let local := local_at c (Z.of_nat i) in
      if negb (depth local =? -1) && (depth local <? scopeDepth c) then st
      else
        let st1 := if identifiersEqual nm (name local)
                   then error "Already a variable with this name in this scope." st
                   else st in
        declareVariable_loop c nm i st1
  end.

Definition declareVariable (st : State) : State :=
  let c := cur st in
  if scopeDepth c =? 0 then st
  else
    let nm := previous (parser st) in
    addLocal nm (declareVariable_loop c nm (Z.to_nat (localCount c)) st).

Definition parseVariable (errorMessage : string) (st : State) : Z * State :=
  let st1 := consume TOKEN_IDENTIFIER errorMessage st in
  let st2 := declareVariable st1 in
  if scopeDepth (cur st2) >? 0 then (0, st2)
  else identifierConstant (previous (parser st2)) st2.

Definition markInitialized (st : State) : State :=
  let c := cur st in
  if scopeDepth c =? 0 then st
  else
    let l := local_at c (localCount c - 1) in
    with_current
      (fun c => set_locals
                  (<[Z.to_nat (localCount c - 1) :=
                       mkLocal (name l) (scopeDepth c) (isCaptured l)]> (locals c))
                  (localCount c) c)
      st.

Definition defineVariable (global : Z) (st : State) : State :=
  if scopeDepth (cur st) >? 0 then markInitialized st
  else emitBytes (op OP_DEFINE_GLOBAL) global st.

(** ** The parse rules *)

Definition getRule (ty : TokenType) : ParseRule :=
  match ty with
  | TOKEN_LEFT_PAREN => mkRule (Some fn_grouping) (Some fn_call) PREC_CALL
  | TOKEN_DOT => mkRule None (Some fn_dot) PREC_CALL
  | TOKEN_MINUS => mkRule (Some fn_unary) (Some fn_binary) PREC_TERM
  | TOKEN_PLUS => mkRule None (Some fn_binary) PREC_TERM
  | TOKEN_SLASH => mkRule None (Some fn_binary) PREC_FACTOR
  | TOKEN_STAR => mkRule None (Some fn_binary) PREC_FACTOR
  | TOKEN_BANG => mkRule (Some fn_unary) None PREC_NONE
  | TOKEN_BANG_EQUAL => mkRule None (Some fn_binary) PREC_EQUALITY
  | TOKEN_EQUAL_EQUAL => mkRule None (Some fn_binary) PREC_EQUALITY
  | TOKEN_GREATER => mkRule None (Some fn_binary) PREC_COMPARISON
  | TOKEN_GREATER_EQUAL => mkRule None (Some fn_binary) PREC_COMPARISON
  | TOKEN_LESS => mkRule None (Some fn_binary) PREC_COMPARISON
  | TOKEN_LESS_EQUAL => mkRule None (Some fn_binary) PREC_COMPARISON
  | TOKEN_IDENTIFIER => mkRule (Some fn_variable) None PREC_NONE
  | TOKEN_STRING => mkRule (Some fn_string) None PREC_NONE
  | TOKEN_NUMBER => mkRule (Some fn_number) None PREC_NONE
  | TOKEN_AND => mkRule None (Some fn_and) PREC_AND
  | TOKEN_FALSE => mkRule (Some fn_literal) None PREC_NONE
  | TOKEN_NIL => mkRule (Some fn_literal) None PREC_NONE
  | TOKEN_OR => mkRule None (Some fn_or) PREC_OR
  | TOKEN_SUPER => mkRule (Some fn_super) None PREC_NONE
  | TOKEN_THIS => mkRule (Some fn_this) None PREC_NONE
  | TOKEN_TRUE => mkRule (Some fn_literal) None PREC_NONE
  | TOKEN_RIGHT_PAREN | TOKEN_LEFT_BRACE | TOKEN_RIGHT_BRACE | TOKEN_COMMA
  | TOKEN_SEMICOLON | TOKEN_EQUAL | TOKEN_CLASS | TOKEN_ELSE | TOKEN_FOR
  | TOKEN_FUN | TOKEN_IF | TOKEN_PRINT | TOKEN_RETURN | TOKEN_VAR | TOKEN_WHILE
  | TOKEN_ERROR | TOKEN_EOF => mkRule None None PREC_NONE
  end.

(** ** Expressions: the Pratt engine and its handlers *)

Inductive ExprCall :=
| call_parsePrecendence (precedence : Z)
| call_infixLoop (precedence : Z) (canAssign : bool)
| call_argumentLoop (argCount : Z).

Section Expressions.

(** The recursive calls: [parsePrecendence], its [while], and the
    [do..while] of [argumentList]. *)
Variable rec : ExprCall -> M Z.

Definition expression : M Z := rec (call_parsePrecendence PREC_ASSIGNMENT).

Definition binary (_canAssign : bool) : M Z :=
  operatorType <- get (fun st => type (previous (parser st))) ;;
  let rule := getRule operatorType in
  rec (call_parsePrecendence (precedence rule + 1)) ;;
  exec (match operatorType with
        | TOKEN_BANG_EQUAL => emitBytes (op OP_EQUAL) (op OP_NOT)
        | TOKEN_EQUAL_EQUAL => emitByte (op OP_EQUAL)
        | TOKEN_GREATER => emitByte (op OP_GREATER)
        | TOKEN_GREATER_EQUAL => emitBytes (op OP_LESS) (op OP_NOT)
        | TOKEN_LESS => emitByte (op OP_LESS)
        | TOKEN_LESS_EQUAL => emitBytes (op OP_GREATER) (op OP_NOT)
        | TOKEN_PLUS => emitByte (op OP_ADD)
        | TOKEN_MINUS => emitByte (op OP_SUBSTRACT)
        | TOKEN_STAR => emitByte (op OP_MULTIPLY)
        | TOKEN_SLASH => emitByte (op OP_DIVIDE)
        | _ => fun st => st
        end) ;;
  ret 0.

(** One round of the [do..while] of [argumentList], the counter a
    [uint8_t]. *)
Definition argumentLoop (argCount : Z) : M Z :=
  expression ;;
  when (argCount =? 255) (error "Can't have more than 255 arguments.") ;;
  let argCount := (argCount + 1) mod 256 in
  more <- lift (match_ TOKEN_COMMA) ;;
  if more then rec (call_argumentLoop argCount) else ret argCount.

Definition argumentList : M Z :=
  closing <- get (check TOKEN_RIGHT_PAREN) ;;
  argCount <- (if negb closing then rec (call_argumentLoop 0) else ret 0) ;;
  exec (consume TOKEN_RIGHT_PAREN "Expect ')' after arguments.") ;;
  ret argCount.

Definition call (_canAssign : bool) : M Z :=
  argCount <- argumentList ;;
  exec (emitBytes (op OP_CALL) argCount) ;;
  ret 0.

Definition dot (canAssign : bool) : M Z :=
  exec (consume TOKEN_IDENTIFIER "Expect property name after '.'.") ;;
  nm <- lift (fun st => identifierConstant (previous (parser st)) st) ;;
  assign <- and_match canAssign TOKEN_EQUAL ;;
  if assign then
    expression ;;
    exec (emitBytes (op OP_SET_PROPERTY) nm) ;;
    ret 0
  else
    paren <- lift (match_ TOKEN_LEFT_PAREN) ;;
    if paren then
      argCount <- argumentList ;;
      exec (emitBytes (op OP_INVOKE) nm) ;;
      exec (emitByte argCount) ;;
      ret 0
    else
      exec (emitBytes (op OP_GET_PROPERTY) nm) ;;
      ret 0.

Definition literal (_canAssign : bool) : M Z :=
  operatorType <- get (fun st => type (previous (parser st))) ;;
  exec (match operatorType with
        | TOKEN_NIL => emitByte (op OP_NIL)
        | TOKEN_TRUE => emitByte (op OP_TRUE)
        | TOKEN_FALSE => emitByte (op OP_FALSE)
        | _ => fun st => st
        end) ;;
  ret 0.

Definition grouping (_canAssign : bool) : M Z :=
  expression ;;
  exec (consume TOKEN_RIGHT_PAREN "Expect ')' after expression.") ;;
  ret 0.

Definition number (_canAssign : bool) : M Z :=
  exec (fun st => emitConstant (NUMBER_VAL (start (previous (parser st)))) st) ;;
  ret 0.

Definition or_ (_canAssign : bool) : M Z :=
  elseJump <- lift (emitJump (op OP_JUMP_IF_FALSE)) ;;
  endJump <- lift (emitJump (op OP_JUMP)) ;;
  exec (patchJump elseJump) ;;
  exec (emitByte (op OP_POP)) ;;
  rec (call_parsePrecendence PREC_OR) ;;
  exec (patchJump endJump) ;;
  ret 0.

(** The lexeme without its two quotes. *)
Definition string_ (_canAssign : bool) : M Z :=
  exec (fun st =>
          let s := start (previous (parser st)) in
          emitConstant (OBJ_STRING (String.substring 1 (String.length s - 2) s)) st) ;;
  ret 0.

Definition namedVariable (nm : Token) (canAssign : bool) : M Z :=
  arg <- lift (fun st => resolveLocal (cur st) nm st) ;;
  resolved <-
    (if negb (arg =? -1) then ret (OP_GET_LOCAL, OP_SET_LOCAL, arg)
     else
       arg <- lift (resolveUpvalue_current nm) ;;
       if negb (arg =? -1) then ret (OP_GET_UPVALUE, OP_SET_UPVALUE, arg)
       else
         arg <- lift (identifierConstant nm) ;;
         ret (OP_GET_GLOBAL, OP_SET_GLOBAL, arg)) ;;
  let '(getOp, setOp, arg) := resolved in
  assign <- and_match canAssign TOKEN_EQUAL ;;
  if assign then
    expression ;;
    exec (emitBytes (op setOp) (arg mod 256)) ;;
    ret 0
  else
    exec (emitBytes (op getOp) (arg mod 256)) ;;
    ret 0.

Definition variable (canAssign : bool) : M Z :=
  nm <- get (fun st => previous (parser st)) ;;
  namedVariable nm canAssign.

Definition super_ (_canAssign : bool) : M Z :=
  exec (fun st =>
          match classes st with
          | [] => error "Can't use 'super' outside of a class." st
          | currentClass :: _ =>
              if negb (hasSuperclass currentClass)
              then error "Can't use 'super' in a class with no superclass." st
              else st
          end) ;;
  exec (consume TOKEN_DOT "Expect '.' after 'super'.") ;;
  exec (consume TOKEN_IDENTIFIER "Expect superclass method name.") ;;
  nm <- lift (fun st => identifierConstant (previous (parser st)) st) ;;
  namedVariable (syntheticToken "this") false ;;
  paren <- lift (match_ TOKEN_LEFT_PAREN) ;;
  if paren then
    argCount <- argumentList ;;
    namedVariable (syntheticToken "super") false ;;
    exec (emitBytes (op OP_SUPER_INVOKE) nm) ;;
    exec (emitByte argCount) ;;
    ret 0
  else
    namedVariable (syntheticToken "super") false ;;
    exec (emitBytes (op OP_GET_SUPER) nm) ;;
    ret 0.

Definition this_ (_canAssign : bool) : M Z :=
  cls <- get classes ;;
  match cls with
  | [] => exec (error "Can't use 'this' outside of a class.") ;; ret 0
  | _ :: _ => variable false
  end.

Definition unary (_canAssign : bool) : M Z :=
  operatorType <- get (fun st => type (previous (parser st))) ;;
  rec (call_parsePrecendence PREC_UNARY) ;;
  exec (match operatorType with
        | TOKEN_BANG => emitByte (op OP_NOT)
        | TOKEN_MINUS => emitByte (op OP_NEGATE)
        | _ => fun st => st
        end) ;;
  ret 0.

Definition and_ (_canAssign : bool) : M Z :=
  endJump <- lift (emitJump (op OP_JUMP_IF_FALSE)) ;;
  exec (emitByte (op OP_POP)) ;;
  rec (call_parsePrecendence PREC_AND) ;;
  exec (patchJump endJump) ;;
  ret 0.

(** A call through a [ParseFn]. *)
Definition callParseFn (fn : ParseFn) (canAssign : bool) : M Z :=
  match fn with
  | fn_grouping => grouping canAssign
  | fn_call => call canAssign
  | fn_dot => dot canAssign
  | fn_unary => unary canAssign
  | fn_binary => binary canAssign
  | fn_variable => variable canAssign
  | fn_string => string_ canAssign
  | fn_number => number canAssign
  | fn_and => and_ canAssign
  | fn_literal => literal canAssign
  | fn_or => or_ canAssign
  | fn_super => super_ canAssign
  | fn_this => this_ canAssign
  end.

(** The [while] of [parsePrecendence]. *)
Definition infixLoop (prec : Z) (canAssign : bool) : M Z :=
  next <- get (fun st => type (current (parser st))) ;;
  if prec <=? precedence (getRule next) then
    exec advance ;;
    operator <- get (fun st => type (previous (parser st))) ;;
    match infix (getRule operator) with
    | None => noResult
    | Some infixRule =>
        callParseFn infixRule canAssign ;;
        rec (call_infixLoop prec canAssign)
    end
  else ret 0.

Definition parsePrecendence (prec : Z) : M Z :=
  exec advance ;;
  first <- get (fun st => type (previous (parser st))) ;;
  match prefix (getRule first) with
  | None => exec (error "Expect expression.") ;; ret 0
  | Some prefixRule =>
      let canAssign := prec <=? PREC_ASSIGNMENT in
      callParseFn prefixRule canAssign ;;
      rec (call_infixLoop prec canAssign) ;;
      stray <- and_match canAssign TOKEN_EQUAL ;;
      when stray (error "Invalid assignement target.") ;;
      ret 0
  end.

Definition exprStep (c : ExprCall) : M Z :=
  match c with
  | call_parsePrecendence prec => parsePrecendence prec
  | call_infixLoop prec canAssign => infixLoop prec canAssign
  | call_argumentLoop argCount => argumentLoop argCount
  end.

End Expressions.

Fixpoint runExpr (fuel : nat) (c : ExprCall) : M Z :=
  match fuel with
  | O => noResult
  | S fuel' => exprStep (runExpr fuel') c
  end.

(** ** Declarations and statements *)

Inductive StmtCall :=
| call_declaration
| call_statement
| call_blockLoop
| call_parameterLoop
| call_methodLoop
| call_synchronizeLoop
| call_compileLoop.

Section Statements.

(** The expression parser with the fuel that is left, and the recursive
    calls: [declaration], [statement] and the loops of [block], [function],
    [classDeclaration], [synchronize] and [compile]. *)
Variable expr : ExprCall -> M Z.
Variable rec : StmtCall -> M Z.

Definition declaration : M Z := rec call_declaration.
Definition statement : M Z := rec call_statement.

Definition blockLoop : M Z :=
  closing <- get (check TOKEN_RIGHT_BRACE) ;;
  eof <- get (check TOKEN_EOF) ;;
  if negb closing && negb eof then
    declaration ;;
    rec call_blockLoop
  else ret 0.

Definition block : M Z :=
  rec call_blockLoop ;;
  exec (consume TOKEN_RIGHT_BRACE "Expect '}' after block.") ;;
  ret 0.

(** One round of the [do..while] over the parameters of [function]. *)
Definition parameterLoop : M Z :=
  exec (with_current (fun c =>
          let f := function c in
          set_function (mkFunction (arity f + 1) (upvalueCount f) (chunk f) (fname f)) c)) ;;
  n <- get (fun st => arity (function (cur st))) ;;
  when (n >? 255) (errorAtCurrent "Can't have more than 255 parameters.") ;;
  constant <- lift (parseVariable "Expect parameter name.") ;;
  exec (defineVariable constant) ;;
  more <- lift (match_ TOKEN_COMMA) ;;
  if more then rec call_parameterLoop else ret 0.

(** The [for] that writes the trailer of [OP_CLOSURE]. *)
Fixpoint emitUpvalues (compiler : Compiler) (i : Z) (k : nat) (st : State) : State :=
  match k with
  | O => st
  | S k' =>
      let u := upvalue_at compiler i in
      let st1 := emitByte (if isLocal u then 1 else 0) st in
      emitUpvalues compiler (i + 1) k' (emitByte (index u) st1)
  end.

(** [compiler], the local of [function], is [*current] until [endCompiler]
    unlinks it. *)
Definition function_ (ty : FunctionType) : M Z :=
  exec (initCompiler ty) ;;
  exec beginScope ;;
  exec (consume TOKEN_LEFT_PAREN "Expect '(' after function name.") ;;
  closing <- get (check TOKEN_RIGHT_PAREN) ;;
  (if negb closing then rec call_parameterLoop else ret 0) ;;
  exec (consume TOKEN_RIGHT_PAREN "Expect ')' after parameters.") ;;
  exec (consume TOKEN_LEFT_BRACE "Expect '{' before function body.") ;;
  block ;;
  compiler <- get cur ;;
  f <- lift endCompiler ;;
  k <- lift (makeConstant (OBJ_FUNCTION f)) ;;
  exec (emitBytes (op OP_CLOSURE) k) ;;
  exec (emitUpvalues compiler 0 (Z.to_nat (upvalueCount f))) ;;
  ret 0.

Definition method : M Z :=
  exec (consume TOKEN_IDENTIFIER "Expect method name.") ;;
  constant <- lift (fun st => identifierConstant (previous (parser st)) st) ;;
  nm <- get (fun st => start (previous (parser st))) ;;
  let ty := if String.eqb nm "init" then TYPE_INITIALIZER else TYPE_METHOD in
  function_ ty ;;
  exec (emitBytes (op OP_METHOD) constant) ;;
  ret 0.

Definition methodLoop : M Z :=
  closing <- get (check TOKEN_RIGHT_BRACE) ;;
  eof <- get (check TOKEN_EOF) ;;
  if negb closing && negb eof then
    method ;;
    rec call_methodLoop
  else ret 0.

(** [classCompiler], the local of [classDeclaration], is the head of
    [classes] while the class is compiled; its flag is also kept in
    [inherits]. *)
Definition classDeclaration : M Z :=
  exec (consume TOKEN_IDENTIFIER "Expect class name.") ;;
  className <- get (fun st => previous (parser st)) ;;
  nameConstant <- lift (fun st => identifierConstant (previous (parser st)) st) ;;
  exec declareVariable ;;
  exec (emitBytes (op OP_CLASS) nameConstant) ;;
  exec (defineVariable nameConstant) ;;
  exec (fun st => set_classes (mkClassCompiler false :: classes st) st) ;;
  inherits <- lift (match_ TOKEN_LESS) ;;
  (if inherits then
     exec (consume TOKEN_IDENTIFIER "Expect superclass name.") ;;
     variable expr false ;;
     superName <- get (fun st => previous (parser st)) ;;
     when (identifiersEqual className superName)
          (error "A class can't inherit from itself") ;;
     exec beginScope ;;
     exec (addLocal (syntheticToken "super")) ;;
     exec (defineVariable 0) ;;
     namedVariable expr className false ;;
     exec (emitByte (op OP_INHERIT)) ;;
     exec (fun st => set_classes (mkClassCompiler true :: tl (classes st)) st)
   else ret tt) ;;
  namedVariable expr className false ;;
  exec (consume TOKEN_LEFT_BRACE "Expect '{' before class body.") ;;
  rec call_methodLoop ;;
  exec (consume TOKEN_RIGHT_BRACE "Expect '}' after class body.") ;;
  exec (emitByte (op OP_POP)) ;;
  when inherits endScope ;;
  exec (fun st => set_classes (tl (classes st)) st) ;;
  ret 0.

Definition funDeclaration : M Z :=
  global <- lift (parseVariable "Expect function name") ;;
  exec markInitialized ;;
  function_ TYPE_FUNCTION ;;
  exec (defineVariable global) ;;
  ret 0.

Definition varDeclaration : M Z :=
  global <- lift (parseVariable "Expect variable name.") ;;
  init <- lift (match_ TOKEN_EQUAL) ;;
  (if init then expression expr else exec (emitByte (op OP_NIL)) ;; ret 0) ;;
  exec (consume TOKEN_SEMICOLON "Expect ';' after variable declaration.") ;;
  exec (defineVariable global) ;;
  ret 0.

Definition expressionStatement : M Z :=
  expression expr ;;
  exec (consume TOKEN_SEMICOLON "Expect ';' after expression.") ;;
  exec (emitByte (op OP_POP)) ;;
  ret 0.

Definition forStatement : M Z :=
  exec beginScope ;;
  exec (consume TOKEN_LEFT_PAREN "Expect '(' after 'for'.") ;;
  none <- lift (match_ TOKEN_SEMICOLON) ;;
  (if none then ret 0
   else
     var <- lift (match_ TOKEN_VAR) ;;
     if var then varDeclaration else expressionStatement) ;;
  loopStart <- get (fun st => count (currentChunk st)) ;;
  noCondition <- lift (match_ TOKEN_SEMICOLON) ;;
  exitJump <-
    (if negb noCondition then
       expression expr ;;
       exec (consume TOKEN_SEMICOLON "Expect ';' after loop condition.") ;;
       exitJump <- lift (emitJump (op OP_JUMP_IF_FALSE)) ;;
       exec (emitByte (op OP_POP)) ;;
       ret exitJump
     else ret (-1)) ;;
  noIncrement <- lift (match_ TOKEN_RIGHT_PAREN) ;;
  loopStart <-
    (if negb noIncrement then
       bodyJump <- lift (emitJump (op OP_JUMP)) ;;
       incrementStart <- get (fun st => count (currentChunk st)) ;;
       expression expr ;;
       exec (emitByte (op OP_POP)) ;;
       exec (consume TOKEN_RIGHT_PAREN "Expect ')' after for clause.") ;;
       exec (emitLoop loopStart) ;;
       exec (patchJump bodyJump) ;;
       ret incrementStart
     else ret loopStart) ;;
  statement ;;
  exec (emitLoop loopStart) ;;
  (if negb (exitJump =? -1) then
     exec (patchJump exitJump) ;;
     exec (emitByte (op OP_POP))
   else ret tt) ;;
  exec endScope ;;
  ret 0.

Definition ifStatement : M Z :=
  exec (consume TOKEN_LEFT_PAREN "Expect '(' after 'if'.") ;;
  expression expr ;;
  exec (consume TOKEN_RIGHT_PAREN "Expect ')' after condiftion.") ;;
  thenJump <- lift (emitJump (op OP_JUMP_IF_FALSE)) ;;
  exec (emitByte (op OP_POP)) ;;
  statement ;;
  elseJump <- lift (emitJump (op OP_JUMP)) ;;
  exec (patchJump thenJump) ;;
  exec (emitByte (op OP_POP)) ;;
  else_ <- lift (match_ TOKEN_ELSE) ;;
  (if else_ then statement else ret 0) ;;
  exec (patchJump elseJump) ;;
  ret 0.

Definition printStatement : M Z :=
  expression expr ;;
  exec (consume TOKEN_SEMICOLON "Expect ';' after value.") ;;
  exec (emitByte (op OP_PRINT)) ;;
  ret 0.

Definition returnStatement : M Z :=
  ty <- get (fun st => ftype (cur st)) ;;
  when (FunctionType_eqb ty TYPE_SCRIPT) (error "can't return from top-level code.") ;;
  bare <- lift (match_ TOKEN_SEMICOLON) ;;
  if bare then
    exec emitReturn ;;
    ret 0
  else
    ty <- get (fun st => ftype (cur st)) ;;
    when (FunctionType_eqb ty TYPE_INITIALIZER)
         (error "Can't return a value from an initializer.") ;;
    expression expr ;;
    exec (consume TOKEN_SEMICOLON "Expect ';' after return value.") ;;
    exec (emitByte (op OP_RETURN)) ;;
    ret 0.

Definition whileStatement : M Z :=
  loopStart <- get (fun st => count (currentChunk st)) ;;
  exec (consume TOKEN_LEFT_PAREN "Expect '(' after 'while'.") ;;
  expression expr ;;
  exec (consume TOKEN_RIGHT_PAREN "Expect ')' after 'while' condition.") ;;
  exitJump <- lift (emitJump (op OP_JUMP_IF_FALSE)) ;;
  exec (emitByte (op OP_POP)) ;;
  statement ;;
  exec (emitLoop loopStart) ;;
  exec (patchJump exitJump) ;;
  exec (emitByte (op OP_POP)) ;;
  ret 0.

(** The [while] of [synchronize]. *)
Definition synchronizeLoop : M Z :=
  p <- get parser ;;
  if negb (TokenType_eqb (type (current p)) TOKEN_EOF) then
    if TokenType_eqb (type (previous p)) TOKEN_SEMICOLON then ret 0
    else
      match type (current p) with
      | TOKEN_CLASS | TOKEN_FUN | TOKEN_VAR | TOKEN_FOR | TOKEN_IF
      | TOKEN_WHILE | TOKEN_PRINT | TOKEN_RETURN => ret 0
      | _ =>
          exec advance ;;
          rec call_synchronizeLoop
      end
  else ret 0.

Definition synchronize : M Z :=
  exec (fun st =>
          let p := parser st in
          set_parser (mkParser (current p) (previous p) (hadError p) false) st) ;;
  rec call_synchronizeLoop.

Definition declaration_ : M Z :=
  class <- lift (match_ TOKEN_CLASS) ;;
  (if class then classDeclaration
   else
     var <- lift (match_ TOKEN_VAR) ;;
     if var then varDeclaration
     else
       fun_ <- lift (match_ TOKEN_FUN) ;;
       if fun_ then funDeclaration else statement) ;;
  panic <- get (fun st => panicMode (parser st)) ;;
  if panic then synchronize else ret 0.

Definition statement_ : M Z :=
  print <- lift (match_ TOKEN_PRINT) ;;
  if print then printStatement
  else
    brace <- lift (match_ TOKEN_LEFT_BRACE) ;;
    if brace then
      exec beginScope ;;
      block ;;
      exec endScope ;;
      ret 0
    else
      if_ <- lift (match_ TOKEN_IF) ;;
      if if_ then ifStatement
      else
        return_ <- lift (match_ TOKEN_RETURN) ;;
        if return_ then returnStatement
        else
          while <- lift (match_ TOKEN_WHILE) ;;
          if while then whileStatement
          else
            for_ <- lift (match_ TOKEN_FOR) ;;
            if for_ then forStatement else expressionStatement.

(** The [while] of [compile]. *)
Definition compileLoop : M Z :=
  eof <- lift (match_ TOKEN_EOF) ;;
  if negb eof then
    declaration ;;
    rec call_compileLoop
  else ret 0.

Definition stmtStep (c : StmtCall) : M Z :=
  match c with
  | call_declaration => declaration_
  | call_statement => statement_
  | call_blockLoop => blockLoop
  | call_parameterLoop => parameterLoop
  | call_methodLoop => methodLoop
  | call_synchronizeLoop => synchronizeLoop
  | call_compileLoop => compileLoop
  end.

End Statements.

Fixpoint runStmt (fuel : nat) (c : StmtCall) : M Z :=
  match fuel with
  | O => noResult
  | S fuel' => stmtStep (runExpr fuel') (runStmt fuel') c
  end.

(** ** The entry point *)

(** The state [compile] starts from: [initScanner(source)], no compiler, no
    class, an unused parser. *)
Definition initScanner (source : list Token) : State :=
  mkState source (mkParser noToken noToken false false) [] [] [].

(** [compile] yields the function, or NULL after an error, together with
    the final state (what was printed is in [diagnostics]). *)
Definition compile (fuel : nat) (source : list Token)
  : option (option ObjFunction * State) :=
  let st := initCompiler TYPE_SCRIPT (initScanner source) in
  let p := parser st in
  let st := set_parser (mkParser (current p) (previous p) false false) st in
  let st := advance st in
  match runStmt fuel call_compileLoop st with
  | None => None
  | Some (_, st) =>
      let '(f, st) := endCompiler st in
      Some (if hadError (parser st) then None else Some f, st)
  end.

End Compiler.

(** * Properties *)

(** ** Reasoning about computations *)

(** [m] keeps [I]: whenever [m] returns from a state in [I], it returns in
    a state in [I]. *)
Definition keeps {A} (I : State -> Prop) (m : M A) : Prop :=
  forall st a st', m st = Some (a, st') -> I st -> I st'.

(** [f] keeps [I], for a step that always returns. *)
Definition stable (I : State -> Prop) (f : State -> State) : Prop :=
  forall st, I st -> I (f st).

Lemma bind_Some {A B} (m : M A) (k : A -> M B) st b st' :
  bind m k st = Some (b, st') ->
  exists a st1, m st = Some (a, st1) /\ k a st1 = Some (b, st').
Proof.
  unfold bind. destruct (m st) as [[a st1]|] eqn:E; [|discriminate].
  intros H. exists a, st1. split; [reflexivity|exact H].
Qed.

Lemma keeps_ret {A} I (a : A) : keeps I (ret a).
Proof. intros st a' st' H. inversion H. subst. auto. Qed.

Lemma keeps_bind {A B} I (m : M A) (k : A -> M B) :
  keeps I m -> (forall a, keeps I (k a)) -> keeps I (bind m k).
Proof.
  intros Hm Hk st b st' H HI.
  apply bind_Some in H as (a & st1 & H1 & H2).
  eapply Hk; [exact H2|]. eapply Hm; eauto.
Qed.

Lemma keeps_noResult {A} I : keeps I (@noResult A).
Proof. intros st a st' H. discriminate. Qed.

Lemma keeps_exec I f : stable I f -> keeps I (exec f).
Proof. intros Hf st a st' H HI. inversion H. subst. auto. Qed.

Lemma keeps_get {A} I (f : State -> A) : keeps I (get f).
Proof. intros st a st' H HI. inversion H. subst. auto. Qed.

Lemma keeps_lift {A} I (f : State -> A * State) :
  stable I (fun st => snd (f st)) -> keeps I (lift f).
Proof.
  intros Hf st a st' H HI. inversion H as [E]. specialize (Hf st HI).
  simpl in Hf. rewrite E in Hf. exact Hf.
Qed.

Lemma keeps_when I b f : stable I f -> keeps I (when b f).
Proof. intros Hf. destruct b; [apply keeps_exec, Hf|apply keeps_ret]. Qed.

Lemma stable_id I : stable I (fun st => st).
Proof. intros st H. exact H. Qed.



(** ** What the parser driver leaves alone *)

Lemma compilers_errorAt tok msg st : compilers (errorAt tok msg st) = compilers st.
Proof. unfold errorAt. destruct (panicMode (parser st)); reflexivity. Qed.

Lemma compilers_error msg st : compilers (error msg st) = compilers st.
Proof. apply compilers_errorAt. Qed.

Lemma compilers_errorAtCurrent msg st :
  compilers (errorAtCurrent msg st) = compilers st.
Proof. apply compilers_errorAt. Qed.

Lemma compilers_advance_scan src st :
  compilers (advance_scan src st) = compilers st.
Proof.
  revert st. induction src as [|t rest IH]; intros st; simpl; [reflexivity|].
  destruct (TokenType_eqb (type t) TOKEN_ERROR); [|reflexivity].
  rewrite IH. unfold errorAtCurrent. rewrite compilers_errorAt. reflexivity.
Qed.

Lemma compilers_advance st : compilers (advance st) = compilers st.
Proof. unfold advance. rewrite compilers_advance_scan. reflexivity. Qed.

Lemma compilers_consume ty msg st : compilers (consume ty msg st) = compilers st.
Proof.
  unfold consume. destruct (TokenType_eqb _ _);
    [apply compilers_advance|apply compilers_errorAtCurrent].
Qed.

Lemma compilers_match ty st : compilers (snd (match_ ty st)) = compilers st.
Proof.
  unfold match_. destruct (negb (check ty st)); simpl;
    [reflexivity|apply compilers_advance].
Qed.

Lemma cur_error msg st : cur (error msg st) = cur st.
Proof. unfold cur. rewrite compilers_error. reflexivity. Qed.

(** An invariant of the compiler chain alone. *)
Definition on_chain (P : list Compiler -> Prop) (st : State) : Prop :=
  P (compilers st).

Lemma stable_chain_error P msg : stable (on_chain P) (error msg).
Proof. intros st. unfold on_chain. rewrite compilers_error. auto. Qed.

Lemma stable_chain_errorAtCurrent P msg : stable (on_chain P) (errorAtCurrent msg).
Proof. intros st. unfold on_chain. rewrite compilers_errorAtCurrent. auto. Qed.

Lemma stable_chain_advance P : stable (on_chain P) advance.
Proof. intros st. unfold on_chain. rewrite compilers_advance. auto. Qed.

Lemma stable_chain_consume P ty msg : stable (on_chain P) (consume ty msg).
Proof. intros st. unfold on_chain. rewrite compilers_consume. auto. Qed.

Lemma stable_chain_match P ty : stable (on_chain P) (fun st => snd (match_ ty st)).
Proof. intros st. unfold on_chain. rewrite compilers_match. auto. Qed.



Lemma keeps_and_match P flag ty : keeps (on_chain P) (and_match flag ty).
Proof.
  destruct flag; simpl; [apply keeps_lift, stable_chain_match|apply keeps_ret].
Qed.

(** ** Every compilation returns

    The fuel of [runExpr] and [runStmt] bounds the depth of the recursion.
    The tokens still ahead bound what a call can consume, and every loop
    of the grammar consumes a token in each round: with enough fuel every
    call returns. *)

(** *** Tokens ahead *)

(** The tokens the parser has not consumed: those the scanner still holds,
    and the current one unless it is [TOKEN_EOF]. *)
Definition at_eof (st : State) : bool :=
  TokenType_eqb (type (current (parser st))) TOKEN_EOF.

Definition ahead (st : State) : nat :=
  (length (scanner st) + if at_eof st then 0 else 1)%nat.

(** Where the parser stands. *)
Definition position (st : State) : list Token * Token :=
  (scanner st, current (parser st)).

Lemma ahead_position st st' : position st' = position st -> ahead st' = ahead st.
Proof.
  unfold position, ahead, at_eof. intros H. inversion H as [[H1 H2]].
  rewrite H1, H2. reflexivity.
Qed.

Lemma at_eof_position st st' : position st' = position st -> at_eof st' = at_eof st.
Proof.
  unfold position, at_eof. intros H. inversion H as [[H1 H2]].
  rewrite H2. reflexivity.
Qed.

Lemma position_errorAt tok msg st : position (errorAt tok msg st) = position st.
Proof. unfold errorAt. destruct (panicMode (parser st)); reflexivity. Qed.

Lemma position_error msg st : position (error msg st) = position st.
Proof. apply position_errorAt. Qed.

Lemma position_errorAtCurrent msg st : position (errorAtCurrent msg st) = position st.
Proof. apply position_errorAt. Qed.

Lemma position_with_current g st : position (with_current g st) = position st.
Proof. unfold with_current. destruct (compilers st); reflexivity. Qed.

Lemma position_emitByte byte st : position (emitByte byte st) = position st.
Proof. apply position_with_current. Qed.

Lemma position_emitBytes b1 b2 st : position (emitBytes b1 b2 st) = position st.
Proof. unfold emitBytes. rewrite !position_emitByte. reflexivity. Qed.

Lemma position_emitJump i st : position (snd (emitJump i st)) = position st.
Proof. unfold emitJump. simpl. rewrite !position_emitByte. reflexivity. Qed.

Lemma position_emitLoop op loopStart st : position (emitLoop op loopStart st) = position st.
Proof.
  unfold emitLoop. rewrite !position_emitByte.
  destruct (_ >? _); [rewrite position_error|]; apply position_emitByte.
Qed.

Lemma position_emitReturn op st : position (emitReturn op st) = position st.
Proof.
  unfold emitReturn. rewrite position_emitByte.
  destruct (FunctionType_eqb _ _); [apply position_emitBytes|apply position_emitByte].
Qed.

Lemma position_makeConstant v st : position (snd (makeConstant v st)) = position st.
Proof.
  unfold makeConstant, with_currentChunk. destruct (_ >? _); simpl;
    [rewrite position_error|]; apply position_with_current.
Qed.

Lemma position_identifierConstant nm st :
  position (snd (identifierConstant nm st)) = position st.
Proof. apply position_makeConstant. Qed.

Lemma position_emitConstant op v st : position (emitConstant op v st) = position st.
Proof.
  unfold emitConstant. pose proof (position_makeConstant v st) as H.
  destruct (makeConstant v st) as [k st1]. simpl in H.
  rewrite position_emitBytes. exact H.
Qed.

Lemma position_patchJump offset st : position (patchJump offset st) = position st.
Proof.
  unfold patchJump, with_currentChunk. rewrite !position_with_current.
  destruct (_ >? _); [apply position_error|reflexivity].
Qed.

Lemma position_resolveLocal c nm st : position (snd (resolveLocal c nm st)) = position st.
Proof.
  unfold resolveLocal. induction (Z.to_nat (localCount c)) as [|i IH]; simpl;
    [reflexivity|].
  destruct (identifiersEqual _ _); simpl; [|exact IH].
  destruct (_ =? _); [apply position_error|reflexivity].
Qed.

Lemma position_addUpvalue c idx b st :
  position (snd (addUpvalue c idx b st)) = position st.
Proof.
  unfold addUpvalue. destruct (addUpvalue_scan _ _ _ _ _); [reflexivity|].
  destruct (_ =? _); simpl; [apply position_error|reflexivity].
Qed.

Lemma position_resolveUpvalue chain nm st :
  position (snd (resolveUpvalue chain nm st)) = position st.
Proof.
  revert st. induction chain as [|c enclosing IH]; intros st; [reflexivity|].
  simpl. destruct enclosing as [|parent outer]; [reflexivity|].
  pose proof (position_resolveLocal parent nm st) as E1.
  destruct (resolveLocal parent nm st) as [local st1]. simpl in E1.
  destruct (negb (local =? -1)).
  - pose proof (position_addUpvalue c (local mod 256) true st1) as E2.
    destruct (addUpvalue c (local mod 256) true st1) as [[i c'] st2].
    simpl in *. congruence.
  - specialize (IH st1).
    destruct (resolveUpvalue (parent :: outer) nm st1) as [[up enclosing'] st2].
    simpl in IH.
    destruct (negb (up =? -1)); [|simpl; congruence].
    pose proof (position_addUpvalue c (up mod 256) false st2) as E2.
    destruct (addUpvalue c (up mod 256) false st2) as [[i c'] st3].
    simpl in *. congruence.
Qed.

Lemma position_resolveUpvalue_current nm st :
  position (snd (resolveUpvalue_current nm st)) = position st.
Proof.
  unfold resolveUpvalue_current.
  pose proof (position_resolveUpvalue (compilers st) nm st) as E.
  destruct (resolveUpvalue (compilers st) nm st) as [[i chain] st1]. exact E.
Qed.

(** [advance] consumes the current token. *)
Lemma ahead_advance_scan src st : (ahead (advance_scan src st) <= length src)%nat.
Proof.
  revert st. induction src as [|t rest IH]; intros st; simpl.
  - unfold ahead, at_eof. simpl. lia.
  - destruct (TokenType_eqb (type t) TOKEN_ERROR).
    + specialize (IH (errorAtCurrent (start t) (set_current t rest st))). lia.
    + unfold ahead, at_eof. simpl. destruct (TokenType_eqb _ _); lia.
Qed.

Lemma ahead_advance st :
  (ahead (advance st) <= ahead st)%nat
  /\ (at_eof st = false -> (ahead (advance st) < ahead st)%nat).
Proof.
  unfold advance.
  pose proof (ahead_advance_scan (scanner st)
                (set_parser (mkParser (current (parser st)) (current (parser st))
                               (hadError (parser st)) (panicMode (parser st))) st))
    as H.
  unfold ahead at 2 4. split; [lia|]. intros ->. lia.
Qed.

Lemma previous_advance_scan src st :
  previous (parser (advance_scan src st)) = previous (parser st).
Proof.
  revert st. induction src as [|t rest IH]; intros st; simpl; [reflexivity|].
  destruct (TokenType_eqb (type t) TOKEN_ERROR); [|reflexivity].
  rewrite IH. unfold errorAtCurrent, errorAt. simpl.
  destruct (panicMode (parser st)); reflexivity.
Qed.

Lemma previous_advance st : previous (parser (advance st)) = current (parser st).
Proof. unfold advance. rewrite previous_advance_scan. reflexivity. Qed.

Lemma ahead_consume ty msg st :
  (ahead (consume ty msg st) <= ahead st)%nat.
Proof.
  unfold consume. destruct (TokenType_eqb _ _).
  - apply ahead_advance.
  - rewrite (ahead_position st (errorAtCurrent msg st)); [lia|].
    apply position_errorAtCurrent.
Qed.

Lemma ahead_match ty st : (ahead (snd (match_ ty st)) <= ahead st)%nat.
Proof.
  unfold match_. destruct (negb (check ty st)); simpl; [lia|apply ahead_advance].
Qed.

Lemma match_true ty st :
  fst (match_ ty st) = true ->
  check ty st = true /\ snd (match_ ty st) = advance st.
Proof.
  unfold match_. destruct (check ty st); simpl; [auto|discriminate].
Qed.

Lemma match_false ty st :
  fst (match_ ty st) = false -> check ty st = false /\ snd (match_ ty st) = st.
Proof.
  unfold match_. destruct (check ty st); simpl; [discriminate|auto].
Qed.

Lemma check_not_eof ty st :
  check ty st = true -> ty <> TOKEN_EOF -> at_eof st = false.
Proof.
  unfold check, at_eof. intros H Hne.
  destruct ty, (type (current (parser st))); try discriminate; try reflexivity;
    congruence.
Qed.

(** *** Returning with enough fuel *)

(** With enough fuel, [m] returns from [st], in a state in [Post]. *)
Definition returns {A} (m : nat -> M A) (st : State) (Post : State -> Prop) : Prop :=
  exists f0 a st',
    (forall f, (f0 <= f)%nat -> m f st = Some (a, st')) /\ Post st'.

Lemma returns_bind {A B} (m : nat -> M A) (k : nat -> A -> M B) st
    (P Q : State -> Prop) :
  returns m st P ->
  (forall a st1, P st1 -> returns (fun f => k f a) st1 Q) ->
  returns (fun f => bind (m f) (k f)) st Q.
Proof.
  intros (f0 & a & st1 & Hm & HP) Hk.
  destruct (Hk a st1 HP) as (f1 & b & st2 & Hk' & HQ).
  exists (Nat.max f0 f1), b, st2. split; [|exact HQ].
  intros f Hf. unfold bind. rewrite Hm by lia. apply Hk'. lia.
Qed.

Lemma returns_now {A} (m : M A) a st st' (Q : State -> Prop) :
  m st = Some (a, st') -> Q st' -> returns (fun _ => m) st Q.
Proof. intros H HQ. exists 0%nat, a, st'. split; [intros; exact H|exact HQ]. Qed.

Lemma returns_weaken {A} (m : nat -> M A) st (P Q : State -> Prop) :
  returns m st P -> (forall s, P s -> Q s) -> returns m st Q.
Proof.
  intros (f0 & a & st' & H & HP) HPQ. exists f0, a, st'. split; [exact H|auto].
Qed.

(** At most [n] tokens are ahead. *)
Definition bounded (n : nat) (st : State) : Prop := (ahead st <= n)%nat.

Lemma returns_ret {A} (a : A) st n : bounded n st -> returns (fun _ => ret a) st (bounded n).
Proof. intros H. apply (returns_now _ a st st); [reflexivity|exact H]. Qed.

Lemma returns_get {A} (g : State -> A) st n :
  bounded n st -> returns (fun _ => get g) st (bounded n).
Proof. intros H. apply (returns_now _ (g st) st st); [reflexivity|exact H]. Qed.

Lemma returns_exec g st n :
  (ahead (g st) <= ahead st)%nat -> bounded n st ->
  returns (fun _ => exec g) st (bounded n).
Proof.
  intros Hg H. apply (returns_now _ tt st (g st)); [reflexivity|].
  unfold bounded in *. lia.
Qed.

Lemma returns_lift {A} (g : State -> A * State) st n :
  (ahead (snd (g st)) <= ahead st)%nat -> bounded n st ->
  returns (fun _ => lift g) st (bounded n).
Proof.
  intros Hg H. apply (returns_now _ (fst (g st)) st (snd (g st))).
  - unfold lift. destruct (g st); reflexivity.
  - unfold bounded in *. lia.
Qed.

Lemma returns_when b g st n :
  (ahead (g st) <= ahead st)%nat -> bounded n st ->
  returns (fun _ => when b g) st (bounded n).
Proof.
  intros Hg H. destruct b; [apply returns_exec; assumption|apply returns_ret, H].
Qed.

Lemma returns_and_match flag ty st n :
  bounded n st -> returns (fun _ => and_match flag ty) st (bounded n).
Proof.
  intros H. destruct flag; simpl; [|apply returns_ret, H].
  apply returns_lift; [apply ahead_match|exact H].
Qed.

Lemma ahead_steady st st' : position st' = position st -> (ahead st' <= ahead st)%nat.
Proof. intros H. rewrite (ahead_position _ _ H). lia. Qed.

Create HintDb ahead.
#[local] Hint Resolve position_error position_errorAtCurrent position_emitByte
  position_emitBytes position_emitJump position_emitLoop position_emitReturn
  position_makeConstant position_identifierConstant position_emitConstant
  position_patchJump position_resolveLocal position_resolveUpvalue_current
  : ahead.
#[local] Hint Resolve ahead_consume ahead_match : ahead.
#[local] Hint Extern 1 (ahead (advance _) <= ahead _)%nat =>
  apply ahead_advance : ahead.
#[local] Hint Extern 5 (ahead _ <= ahead _)%nat => apply ahead_steady : ahead.
#[local] Hint Extern 1 (ahead ?s <= ahead ?s)%nat => apply Nat.le_refl : ahead.

Ltac ahead_goal :=
  cbv beta;
  repeat match goal with
         | |- (ahead (match ?x with _ => _ end) <= _)%nat => destruct x
         | |- (ahead ((match ?x with _ => _ end) _) <= _)%nat => destruct x
         | |- (ahead (if ?x then _ else _) <= _)%nat => destruct x
         end;
  cbv beta; auto with ahead.

(** One step through a computation, the assertion being [bounded n]. *)
Ltac returns_step n :=
  match goal with
  | |- returns (fun f => bind (@?m f) (@?k f)) ?st _ =>
      apply (returns_bind m k st (bounded n) (bounded n));
      [|let a := fresh "a" in
        let st1 := fresh "st" in
        let H := fresh "Hst" in
        intros a st1 H]; cbv beta
  | |- returns (fun _ => ret _) _ _ => apply returns_ret; assumption
  | |- returns (fun _ => get _) _ _ => apply returns_get; assumption
  | |- returns (fun _ => exec _) _ _ => apply returns_exec; [ahead_goal|assumption]
  | |- returns (fun _ => lift _) _ _ => apply returns_lift; [ahead_goal|assumption]
  | |- returns (fun _ => when _ _) _ _ => apply returns_when; [ahead_goal|assumption]
  | |- returns (fun _ => and_match _ _) _ _ => apply returns_and_match; assumption
  | |- returns (fun f => if ?b then _ else _) _ _ => destruct b
  | |- returns (fun f => match ?x with _ => _ end) _ _ => destruct x
  end.

(** *** Expressions return *)

Lemma returns_runExpr op c st (Q : State -> Prop) :
  returns (fun f => exprStep op (runExpr op f) c) st Q ->
  returns (fun f => runExpr op f c) st Q.
Proof.
  intros (f0 & a & st' & H & HQ). exists (S f0), a, st'. split; [|exact HQ].
  intros f Hf. destruct f as [|f]; [lia|]. simpl. apply H. lia.
Qed.

(** With at most [n] tokens ahead, the three recursive calls return, with
    at most [n] tokens ahead. *)
Definition expressions_return (op : OpCode -> Z) (n : nat) : Prop :=
  (forall prec st,
     1 <= prec -> bounded n st ->
     returns (fun f => runExpr op f (call_parsePrecendence prec)) st (bounded n))
  /\ (forall prec canAssign st,
        1 <= prec -> bounded n st ->
        returns (fun f => runExpr op f (call_infixLoop prec canAssign)) st (bounded n))
  /\ (forall argCount st,
        bounded n st ->
        returns (fun f => runExpr op f (call_argumentLoop argCount)) st (bounded n)).

Lemma precedence_nonneg ty : 0 <= precedence (getRule ty).
Proof. destruct ty; simpl; unfold PREC_NONE, PREC_CALL, PREC_TERM, PREC_FACTOR,
  PREC_EQUALITY, PREC_COMPARISON, PREC_AND, PREC_OR; lia. Qed.

Lemma infix_of_operator ty :
  1 <= precedence (getRule ty) -> exists fn, infix (getRule ty) = Some fn.
Proof.
  destruct ty; simpl; unfold PREC_NONE; intros H; try lia; eexists; reflexivity.
Qed.

Ltac prec_goal :=
  unfold PREC_OR, PREC_AND, PREC_UNARY, PREC_ASSIGNMENT;
  first [lia
        |match goal with
         | |- context [precedence (getRule ?t)] =>
             pose proof (precedence_nonneg t); lia
         end].

Section ExpressionsReturn.

Variable op : OpCode -> Z.
Variable n : nat.
Hypothesis IH : expressions_return op n.

Ltac go :=
  repeat returns_step n;
  try (apply IH; [prec_goal|assumption]);
  try (apply IH; assumption).

Lemma returns_expression st :
  bounded n st -> returns (fun f => expression (runExpr op f)) st (bounded n).
Proof. intros H. unfold expression. apply IH; [unfold PREC_ASSIGNMENT; lia|exact H]. Qed.

Lemma returns_argumentList st :
  bounded n st -> returns (fun f => argumentList (runExpr op f)) st (bounded n).
Proof. intros H. unfold argumentList. go. Qed.

Lemma returns_namedVariable nm canAssign st :
  bounded n st ->
  returns (fun f => namedVariable op (runExpr op f) nm canAssign) st (bounded n).
Proof. intros H. unfold namedVariable, expression. go. Qed.

Lemma returns_callParseFn fn canAssign st :
  bounded n st ->
  returns (fun f => callParseFn op (runExpr op f) fn canAssign) st (bounded n).
Proof.
  intros H.
  destruct fn; simpl;
    unfold grouping, call, dot, unary, binary, variable, string_, number, and_,
           literal, or_, super_, this_, variable, expression;
    repeat first [apply returns_argumentList; assumption
                 |apply returns_namedVariable; assumption
                 |returns_step n];
    try (apply IH; [prec_goal|assumption]).
Qed.

End ExpressionsReturn.

Lemma at_eof_true st : at_eof st = true -> type (current (parser st)) = TOKEN_EOF.
Proof. unfold at_eof. destruct (type (current (parser st))); simpl; congruence. Qed.

Lemma at_eof_false st : at_eof st = false -> (1 <= ahead st)%nat.
Proof. unfold ahead. intros ->. lia. Qed.

Lemma operator_not_eof prec st :
  1 <= prec -> (prec <=? precedence (getRule (type (current (parser st))))) = true ->
  at_eof st = false.
Proof.
  intros Hp H. apply Z.leb_le in H.
  destruct (at_eof st) eqn:E; [|reflexivity].
  apply at_eof_true in E. rewrite E in H. simpl in H. unfold PREC_NONE in H. lia.
Qed.

Lemma bounded_weaken m n :
  (m <= n)%nat -> forall A (k : nat -> M A) st,
  returns k st (bounded m) -> returns k st (bounded n).
Proof.
  intros Hmn A k st H. apply (returns_weaken _ _ _ _ H).
  unfold bounded. intros. lia.
Qed.

(** After [advance] from a state that is not at the end, one token fewer
    is ahead. *)
Lemma returns_advance n st :
  at_eof st = false -> bounded (S n) st ->
  returns (fun _ => exec advance) st (bounded n).
Proof.
  intros E H. apply (returns_now _ tt st (advance st)); [reflexivity|].
  pose proof (proj2 (ahead_advance st) E). unfold bounded in *. lia.
Qed.

Lemma returns_get_bind {A B} (g : State -> A) (k : nat -> A -> M B) st Q :
  returns (fun f => k f (g st)) st Q ->
  returns (fun f => bind (get g) (k f)) st Q.
Proof. intros H. exact H. Qed.

Lemma returns_lift_bind {A B} (g : State -> A * State) (k : nat -> A -> M B) st Q :
  returns (fun f => k f (fst (g st))) (snd (g st)) Q ->
  returns (fun f => bind (lift g) (k f)) st Q.
Proof.
  intros (f0 & a & st' & H & HQ). exists f0, a, st'. split; [|exact HQ].
  intros f Hf. unfold bind, lift. destruct (g st). apply H, Hf.
Qed.

Lemma returns_exec_bind {B} (g : State -> State) (k : nat -> unit -> M B) st Q :
  returns (fun f => k f tt) (g st) Q ->
  returns (fun f => bind (exec g) (k f)) st Q.
Proof. intros H. exact H. Qed.

Section ExpressionsStep.

Variable op : OpCode -> Z.
Variable n : nat.
Hypothesis IH : forall m, (m < n)%nat -> expressions_return op m.

Lemma returns_parsePrecendence prec st :
  1 <= prec -> bounded n st ->
  returns (fun f => runExpr op f (call_parsePrecendence prec)) st (bounded n).
Proof.
  intros Hp Hst. apply returns_runExpr. simpl. unfold parsePrecendence.
  destruct (at_eof st) eqn:E.
  - apply (returns_bind _ _ st
             (fun s => bounded n s /\ type (previous (parser s)) = TOKEN_EOF)).
    + apply (returns_now _ tt st (advance st)); [reflexivity|]. split.
      * pose proof (proj1 (ahead_advance st)). unfold bounded in *. lia.
      * rewrite previous_advance. apply at_eof_true, E.
    + intros [] st1 [Hst1 Hprev]. apply returns_get_bind. rewrite Hprev. simpl.
      repeat returns_step n.
  - pose proof (at_eof_false st E) as Hpos.
    destruct n as [|n']; [unfold bounded in Hst; lia|].
    pose proof (IH n' (Nat.lt_succ_diag_r n')) as IH'.
    apply (bounded_weaken n' (S n')); [lia|].
    apply (returns_bind _ _ st (bounded n') (bounded n'));
      [apply returns_advance; assumption|].
    intros [] st1 Hst1.
    repeat first [apply returns_callParseFn; assumption | returns_step n'].
    apply IH'; assumption.
Qed.

Lemma returns_infixLoop prec canAssign st :
  1 <= prec -> bounded n st ->
  returns (fun f => runExpr op f (call_infixLoop prec canAssign)) st (bounded n).
Proof.
  intros Hp Hst. apply returns_runExpr. simpl. unfold infixLoop.
  apply returns_get_bind.
  destruct (prec <=? precedence (getRule (type (current (parser st))))) eqn:Hle;
    [|apply returns_ret, Hst].
  pose proof (operator_not_eof prec st Hp Hle) as E.
  pose proof (at_eof_false st E) as Hpos.
  destruct n as [|n']; [unfold bounded in Hst; lia|].
  pose proof (IH n' (Nat.lt_succ_diag_r n')) as IH'.
  apply (bounded_weaken n' (S n')); [lia|].
  apply (returns_bind _ _ st
           (fun s => bounded n' s
                     /\ type (previous (parser s)) = type (current (parser st)))).
  - apply (returns_now _ tt st (advance st)); [reflexivity|]. split.
    + pose proof (proj2 (ahead_advance st) E). unfold bounded in *. lia.
    + rewrite previous_advance. reflexivity.
  - intros [] st1 [Hst1 Hprev]. apply returns_get_bind. rewrite Hprev.
    destruct (infix_of_operator (type (current (parser st)))) as [fn Hfn].
    { apply Z.leb_le in Hle. lia. }
    rewrite Hfn.
    repeat first [apply returns_callParseFn; assumption | returns_step n'].
    apply IH'; assumption.
Qed.

Lemma returns_argumentLoop argCount st :
  bounded n st ->
  returns (fun f => runExpr op f (call_argumentLoop argCount)) st (bounded n).
Proof.
  intros Hst. apply returns_runExpr. simpl. unfold argumentLoop, expression.
  apply (returns_bind _ _ st (bounded n) (bounded n)).
  { apply returns_parsePrecendence; [unfold PREC_ASSIGNMENT; lia|exact Hst]. }
  intros a st1 Hst1.
  apply (returns_bind _ _ st1 (bounded n) (bounded n)).
  { returns_step n. }
  intros [] st2 Hst2.
  apply returns_lift_bind.
  destruct (match_ TOKEN_COMMA st2) as [more st3] eqn:Hm. simpl.
  destruct more.
  - destruct (match_true TOKEN_COMMA st2) as [Hc Hadv]; [rewrite Hm; reflexivity|].
    rewrite Hm in Hadv. simpl in Hadv. subst st3.
    assert (E : at_eof st2 = false) by (apply (check_not_eof _ _ Hc); discriminate).
    pose proof (at_eof_false st2 E) as Hpos.
    destruct n as [|n']; [unfold bounded in Hst2; lia|].
    apply (bounded_weaken n' (S n')); [lia|].
    apply (IH n' (Nat.lt_succ_diag_r n')).
    pose proof (proj2 (ahead_advance st2) E). unfold bounded in *. lia.
  - destruct (match_false TOKEN_COMMA st2) as [_ Hsame]; [rewrite Hm; reflexivity|].
    rewrite Hm in Hsame. simpl in Hsame. subst st3.
    apply returns_ret, Hst2.
Qed.

End ExpressionsStep.

Lemma expressions_return_all op n : expressions_return op n.
Proof.
  induction n as [n IH] using (well_founded_induction lt_wf).
  split; [|split].
  - intros. apply returns_parsePrecendence; assumption.
  - intros. apply returns_infixLoop; assumption.
  - intros. apply returns_argumentLoop; assumption.
Qed.

(** *** Statements: what leaves the parser where it stands *)

Lemma position_beginScope st : position (beginScope st) = position st.
Proof. apply position_with_current. Qed.

Lemma position_endScope_loop op k st :
  position (endScope_loop op k st) = position st.
Proof.
  revert st. induction k as [|k IH]; intros st; simpl; [reflexivity|].
  destruct (_ && _); [|reflexivity].
  rewrite IH, position_with_current.
  destruct (isCaptured _); apply position_emitByte.
Qed.

Lemma position_endScope op st : position (endScope op st) = position st.
Proof. unfold endScope. rewrite position_endScope_loop. apply position_with_current. Qed.

Lemma position_addLocal nm st : position (addLocal nm st) = position st.
Proof.
  unfold addLocal. destruct (_ =? _);
    [apply position_error|apply position_with_current].
Qed.

Lemma position_declareVariable_loop c nm k st :
  position (declareVariable_loop c nm k st) = position st.
Proof.
  revert st. induction k as [|k IH]; intros st; simpl; [reflexivity|].
  destruct (_ && _); [reflexivity|]. rewrite IH.
  destruct (identifiersEqual _ _); [apply position_error|reflexivity].
Qed.

Lemma position_declareVariable st : position (declareVariable st) = position st.
Proof.
  unfold declareVariable. destruct (_ =? _); [reflexivity|].
  rewrite position_addLocal. apply position_declareVariable_loop.
Qed.

Lemma position_markInitialized st : position (markInitialized st) = position st.
Proof.
  unfold markInitialized. destruct (_ =? _);
    [reflexivity|apply position_with_current].
Qed.

Lemma position_defineVariable op global st :
  position (defineVariable op global st) = position st.
Proof.
  unfold defineVariable. destruct (_ >? _);
    [apply position_markInitialized|apply position_emitBytes].
Qed.

Lemma position_initCompiler ty st : position (initCompiler ty st) = position st.
Proof. reflexivity. Qed.

Lemma position_endCompiler op st : position (snd (endCompiler op st)) = position st.
Proof. unfold endCompiler. simpl. apply (position_emitReturn op st). Qed.

Lemma position_emitUpvalues compiler i k st :
  position (emitUpvalues compiler i k st) = position st.
Proof.
  revert i st. induction k as [|k IH]; intros i st; simpl; [reflexivity|].
  rewrite IH, !position_emitByte. reflexivity.
Qed.

Lemma position_set_classes cl st : position (set_classes cl st) = position st.
Proof. reflexivity. Qed.

(** The parser has moved on, one token at least, or stands where it stood. *)
Definition forward (st s : State) : Prop :=
  (ahead s <= length (scanner st))%nat \/ position s = position st.

Lemma forward_steady st s : position s = position st -> forward st s.
Proof. right. assumption. Qed.

Lemma forward_trans a b c : forward a b -> forward b c -> forward a c.
Proof.
  unfold forward. intros [Hab|Hab] [Hbc|Hbc].
  - left. unfold ahead in Hab. lia.
  - left. rewrite (ahead_position _ _ Hbc). exact Hab.
  - left. unfold position in Hab. injection Hab as Hs _. rewrite <- Hs. exact Hbc.
  - right. congruence.
Qed.

Lemma forward_ahead st s : forward st s -> (ahead s <= ahead st)%nat.
Proof.
  intros [H|H]; [unfold ahead at 2; lia|rewrite (ahead_position _ _ H); lia].
Qed.

Lemma ahead_advance_onward st : (ahead (advance st) <= length (scanner st))%nat.
Proof. unfold advance. apply ahead_advance_scan. Qed.

Lemma forward_advance st : forward st (advance st).
Proof. left. apply ahead_advance_onward. Qed.

Lemma forward_consume ty msg st : forward st (consume ty msg st).
Proof.
  unfold consume. destruct (TokenType_eqb _ _);
    [apply forward_advance|right; apply position_errorAtCurrent].
Qed.

Lemma forward_match ty st : forward st (snd (match_ ty st)).
Proof.
  unfold match_. destruct (negb _); simpl; [right; reflexivity|apply forward_advance].
Qed.

Lemma forward_parseVariable msg st : forward st (snd (parseVariable msg st)).
Proof.
  unfold parseVariable.
  apply (forward_trans _ (consume TOKEN_IDENTIFIER msg st)); [apply forward_consume|].
  right. destruct (_ >? _); simpl;
    [|rewrite position_identifierConstant]; apply position_declareVariable.
Qed.

Lemma ahead_parseVariable msg st :
  (ahead (snd (parseVariable msg st)) <= ahead st)%nat.
Proof. apply forward_ahead, forward_parseVariable. Qed.

#[local] Hint Resolve position_beginScope position_endScope position_addLocal
  position_declareVariable position_markInitialized position_defineVariable
  position_initCompiler position_endCompiler position_emitUpvalues
  position_set_classes position_with_current : ahead.
#[local] Hint Resolve ahead_parseVariable : ahead.

(** *** Statements return *)

Lemma returns_runStmt op c st (Q : State -> Prop) :
  returns (fun f => stmtStep op (runExpr op f) (runStmt op f) c) st Q ->
  returns (fun f => runStmt op f c) st Q.
Proof.
  intros (f0 & a & st' & H & HQ). exists (S f0), a, st'. split; [|exact HQ].
  intros f Hf. destruct f as [|f]; [lia|]. simpl. apply H. lia.
Qed.

(** With at most [m] tokens ahead, every recursive call of the statement
    level returns, with at most [m] tokens ahead. *)
Definition statements_return (op : OpCode -> Z) (m : nat) : Prop :=
  forall c st,
    bounded m st -> returns (fun f => runStmt op f c) st (bounded m).

Section StatementsAt.

Variable op : OpCode -> Z.
Variable m : nat.
Hypothesis IH : statements_return op m.

Ltac go :=
  repeat first
    [ apply IH; assumption
    | apply returns_expression; [apply expressions_return_all|assumption]
    | apply returns_namedVariable; [apply expressions_return_all|assumption]
    | returns_step m ].

Lemma returns_block st :
  bounded m st ->
  returns (fun f => block (runStmt op f)) st (bounded m).
Proof. intros H. unfold block. go. Qed.

Lemma returns_function_ ty st :
  bounded m st ->
  returns (fun f => function_ op (runStmt op f) ty) st (bounded m).
Proof. intros H. unfold function_, block. go. Qed.

Lemma returns_classDeclaration st :
  bounded m st ->
  returns (fun f => classDeclaration op (runExpr op f) (runStmt op f)) st (bounded m).
Proof. intros H. unfold classDeclaration, variable. go. Qed.

Lemma returns_funDeclaration st :
  bounded m st ->
  returns (fun f => funDeclaration op (runStmt op f)) st (bounded m).
Proof.
  intros H. unfold funDeclaration.
  repeat first [apply returns_function_; assumption | returns_step m].
Qed.

Lemma returns_varDeclaration st :
  bounded m st ->
  returns (fun f => varDeclaration op (runExpr op f)) st (bounded m).
Proof. intros H. unfold varDeclaration. go. Qed.

Lemma returns_expressionStatement st :
  bounded m st ->
  returns (fun f => expressionStatement op (runExpr op f)) st (bounded m).
Proof. intros H. unfold expressionStatement. go. Qed.

Lemma returns_forStatement st :
  bounded m st ->
  returns (fun f => forStatement op (runExpr op f) (runStmt op f)) st (bounded m).
Proof.
  intros H. unfold forStatement, statement.
  repeat first [ apply returns_varDeclaration; assumption
               | apply returns_expressionStatement; assumption
               | apply IH; assumption
               | apply returns_expression; [apply expressions_return_all|assumption]
               | returns_step m ].
Qed.

Lemma returns_ifStatement st :
  bounded m st ->
  returns (fun f => ifStatement op (runExpr op f) (runStmt op f)) st (bounded m).
Proof. intros H. unfold ifStatement, statement. go. Qed.

Lemma returns_printStatement st :
  bounded m st ->
  returns (fun f => printStatement op (runExpr op f)) st (bounded m).
Proof. intros H. unfold printStatement. go. Qed.

Lemma returns_returnStatement st :
  bounded m st ->
  returns (fun f => returnStatement op (runExpr op f)) st (bounded m).
Proof. intros H. unfold returnStatement. go. Qed.

Lemma returns_whileStatement st :
  bounded m st ->
  returns (fun f => whileStatement op (runExpr op f) (runStmt op f)) st (bounded m).
Proof. intros H. unfold whileStatement, statement. go. Qed.

End StatementsAt.

(** **** Assertions that moving forward keeps *)

Definition closed (I : State -> Prop) : Prop :=
  forall s s', I s -> forward s s' -> I s'.

Lemma closed_bounded k : closed (bounded k).
Proof.
  intros s s' H Hf. pose proof (forward_ahead _ _ Hf). unfold bounded in *. lia.
Qed.

Lemma closed_forward st : closed (forward st).
Proof. intros s s' H Hf. exact (forward_trans _ _ _ H Hf). Qed.

(** Neither [}] nor the end of the source is next. *)
Definition open (st : State) : Prop :=
  check TOKEN_RIGHT_BRACE st = false /\ check TOKEN_EOF st = false.

(** Forward of [st], and past the token that was next if that was neither
    [}] nor the end. *)
Definition past (st s : State) : Prop :=
  forward st s /\ (open st -> bounded (length (scanner st)) s).

Lemma closed_past st : closed (past st).
Proof.
  intros s s' [H Ho] Hf. split; [exact (forward_trans _ _ _ H Hf)|].
  intros Hopen. exact (closed_bounded _ _ _ (Ho Hopen) Hf).
Qed.

Lemma open_position st s : position s = position st -> open st -> open s.
Proof.
  unfold open, check, position. intros H. injection H as _ Hc. rewrite Hc. auto.
Qed.

Lemma past_after st s s' : forward st s -> past s s' -> past st s'.
Proof.
  intros Hf [Hf' Ho]. split; [exact (forward_trans _ _ _ Hf Hf')|].
  intros Hopen. destruct Hf as [Hf|Hf].
  - pose proof (forward_ahead _ _ Hf'). unfold bounded. lia.
  - specialize (Ho (open_position _ _ Hf Hopen)).
    unfold position in Hf. injection Hf as Hs _. rewrite <- Hs. exact Ho.
Qed.

Lemma check_eof st : check TOKEN_EOF st = at_eof st.
Proof. unfold check, at_eof. destruct (type (current (parser st))); reflexivity. Qed.

Lemma scanner_below k st :
  at_eof st = false -> bounded k st -> (length (scanner st) < k)%nat.
Proof. unfold bounded, ahead. intros ->. lia. Qed.

Lemma scanner_bounded k st : bounded k st -> (length (scanner st) <= k)%nat.
Proof. unfold bounded, ahead. lia. Qed.

Section Closed.

Variable I : State -> Prop.
Hypothesis HI : closed I.

Lemma closed_ret {A} (a : A) s : I s -> returns (fun _ => ret a) s I.
Proof. intros H. apply (returns_now _ a s s); [reflexivity|exact H]. Qed.

Lemma closed_get {A} (g : State -> A) s : I s -> returns (fun _ => get g) s I.
Proof. intros H. apply (returns_now _ (g s) s s); [reflexivity|exact H]. Qed.

Lemma closed_exec g s : forward s (g s) -> I s -> returns (fun _ => exec g) s I.
Proof.
  intros Hg H. apply (returns_now _ tt s (g s)); [reflexivity|exact (HI _ _ H Hg)].
Qed.

Lemma closed_lift {A} (g : State -> A * State) s :
  forward s (snd (g s)) -> I s -> returns (fun _ => lift g) s I.
Proof.
  intros Hg H. apply (returns_now _ (fst (g s)) s (snd (g s))).
  - unfold lift. destruct (g s); reflexivity.
  - exact (HI _ _ H Hg).
Qed.

Lemma closed_when b g s : forward s (g s) -> I s -> returns (fun _ => when b g) s I.
Proof. intros Hg H. destruct b; [apply closed_exec; assumption|apply closed_ret, H]. Qed.

End Closed.

Create HintDb forward.
#[local] Hint Resolve forward_advance forward_consume forward_match
  forward_parseVariable : forward.
#[local] Hint Extern 5 (forward _ _) => apply forward_steady; auto with ahead : forward.
#[local] Hint Extern 1 (forward ?s ?s) => right; reflexivity : forward.

Ltac forward_goal :=
  cbv beta;
  repeat match goal with
         | |- forward _ (match ?x with _ => _ end) => destruct x
         | |- forward _ ((match ?x with _ => _ end) _) => destruct x
         | |- forward _ (if ?x then _ else _) => destruct x
         end;
  cbv beta; auto with forward.

(** One step through a computation, the assertion [I] being closed. *)
Ltac closed_step I HI :=
  match goal with
  | |- returns (fun f => bind (@?m f) (@?k f)) ?st _ =>
      apply (returns_bind m k st I I);
      [|let a := fresh "a" in
        let st1 := fresh "st" in
        let H := fresh "Hst" in
        intros a st1 H]; cbv beta
  | |- returns (fun _ => ret _) _ _ => apply closed_ret; assumption
  | |- returns (fun _ => get _) _ _ => apply closed_get; assumption
  | |- returns (fun _ => exec _) _ _ =>
      apply (closed_exec I HI); [forward_goal|assumption]
  | |- returns (fun _ => lift _) _ _ =>
      apply (closed_lift I HI); [forward_goal|assumption]
  | |- returns (fun _ => when _ _) _ _ =>
      apply (closed_when I HI); [forward_goal|assumption]
  | |- returns (fun f => if ?b then _ else _) _ _ => destruct b
  end.

(** After [match], either the token was there and the parser has moved past
    it, or the parser stands where it stood. *)
Lemma returns_match_bind {B} ty (k : nat -> bool -> M B) st Q :
  ty <> TOKEN_EOF ->
  (at_eof st = false -> returns (fun f => k f true) (advance st) Q) ->
  (check ty st = false -> returns (fun f => k f false) st Q) ->
  returns (fun f => bind (lift (match_ ty)) (k f)) st Q.
Proof.
  intros Hty Htrue Hfalse. apply returns_lift_bind.
  destruct (fst (match_ ty st)) eqn:E.
  - destruct (match_true _ _ E) as [Hc ->]. apply Htrue.
    exact (check_not_eof _ _ Hc Hty).
  - destruct (match_false _ _ E) as [Hc ->]. apply Hfalse, Hc.
Qed.

(** [parsePrecendence] starts with [advance]. *)
Lemma returns_parsePrecendence_after op k prec st :
  1 <= prec -> bounded k (advance st) ->
  returns (fun f => runExpr op f (call_parsePrecendence prec)) st (bounded k).
Proof.
  intros Hp Hst. apply returns_runExpr. simpl. unfold parsePrecendence.
  pose proof (expressions_return_all op k) as IH.
  apply returns_exec_bind. revert Hst. generalize (advance st). intros st0 Hst.
  repeat first [apply returns_callParseFn; assumption | returns_step k].
  apply IH; assumption.
Qed.

(** An expression consumes its first token. *)
Lemma returns_expression_onward op st :
  returns (fun f => expression (runExpr op f)) st (bounded (length (scanner st))).
Proof.
  unfold expression. apply returns_parsePrecendence_after;
    [unfold PREC_ASSIGNMENT; lia|apply ahead_advance_onward].
Qed.

Section StatementsStep.

Variable op : OpCode -> Z.
Variable n : nat.
Hypothesis IH : forall m, (m < n)%nat -> statements_return op m.

Lemma returns_synchronizeLoop st :
  bounded n st ->
  returns (fun f => runStmt op f call_synchronizeLoop) st (forward st).
Proof.
  intros Hst. apply returns_runStmt. cbn [stmtStep]. unfold synchronizeLoop.
  apply returns_get_bind.
  assert (Hret : returns (fun _ : nat => ret 0) st (forward st)).
  { apply closed_ret. right. reflexivity. }
  destruct (negb _) eqn:E; [|exact Hret].
  destruct (TokenType_eqb (type (previous (parser st))) TOKEN_SEMICOLON);
    [exact Hret|].
  assert (Hmove : returns
            (fun f => bind (exec advance) (fun _ => runStmt op f call_synchronizeLoop))
            st (forward st)).
  { apply returns_exec_bind.
    assert (Hk : (length (scanner st) < n)%nat).
    { apply scanner_below; [|exact Hst]. apply negb_true_iff in E. exact E. }
    apply (returns_weaken _ _ (bounded (length (scanner st)))).
    - apply (IH _ Hk). apply ahead_advance_onward.
    - intros s Hs. left. exact Hs. }
  destruct (type (current (parser st))); first [exact Hret|exact Hmove].
Qed.

Lemma returns_expressionStatement_onward st :
  returns (fun f => expressionStatement op (runExpr op f)) st
          (bounded (length (scanner st))).
Proof.
  unfold expressionStatement.
  apply (returns_bind _ _ st (bounded (length (scanner st)))
           (bounded (length (scanner st))));
    [apply returns_expression_onward|].
  intros a st1 Hst1. repeat returns_step (length (scanner st)).
Qed.

Lemma returns_statement_ st :
  bounded n st ->
  returns (fun f => statement_ op (runExpr op f) (runStmt op f)) st
          (bounded (length (scanner st))).
Proof.
  intros Hst. unfold statement_.
  repeat (apply returns_match_bind;
          [discriminate
          |intros E; pose proof (IH _ (scanner_below _ _ E Hst)) as IHk;
           pose proof (ahead_advance_onward st) as Hadv
          |intros _]).
  - apply returns_printStatement; assumption.
  - repeat first [apply returns_block; assumption
                 |returns_step (length (scanner st))].
  - apply returns_ifStatement; assumption.
  - apply returns_returnStatement; assumption.
  - apply returns_whileStatement; assumption.
  - apply returns_forStatement; assumption.
  - apply returns_expressionStatement_onward.
Qed.

Lemma returns_synchronize k st :
  (k <= n)%nat -> bounded k st ->
  returns (fun f => synchronize (runStmt op f)) st (bounded k).
Proof.
  intros Hk Hst. unfold synchronize. apply returns_exec_bind.
  apply (returns_weaken _ _ (forward st)).
  - apply (returns_weaken _ _ (forward
             (set_parser (mkParser (current (parser st)) (previous (parser st))
                            (hadError (parser st)) false) st))).
    + apply returns_synchronizeLoop. unfold bounded in *.
      change (ahead (set_parser _ st)) with (ahead st). lia.
    + intros s Hs. apply (forward_trans _ _ _ (forward_steady _ _ eq_refl) Hs).
  - intros s Hs. exact (closed_bounded _ _ _ Hst Hs).
Qed.

Lemma returns_declaration_ st :
  bounded n st ->
  returns (fun f => declaration_ op (runExpr op f) (runStmt op f)) st
          (bounded (length (scanner st))).
Proof.
  intros Hst. unfold declaration_.
  assert (Htail : forall (a : Z) st1,
            bounded (length (scanner st)) st1 ->
            returns (fun f =>
                       bind (get (fun st => panicMode (parser st)))
                            (fun panic => if panic then synchronize (runStmt op f)
                                          else ret 0))
                    st1 (bounded (length (scanner st)))).
  { intros _ st1 Hst1. apply returns_get_bind.
    destruct (panicMode (parser st1)); [|apply returns_ret, Hst1].
    apply returns_synchronize; [apply scanner_bounded, Hst|exact Hst1]. }
  apply returns_match_bind; [discriminate|intros E|intros _].
  { pose proof (IH _ (scanner_below _ _ E Hst)) as IHk.
    apply (returns_bind _ _ _ (bounded (length (scanner st)))
             (bounded (length (scanner st)))); [|exact Htail].
    apply returns_classDeclaration; [exact IHk|apply ahead_advance_onward]. }
  apply (returns_bind _ _ _ (bounded (length (scanner st)))
           (bounded (length (scanner st)))); [|exact Htail].
  repeat (apply returns_match_bind;
          [discriminate
          |intros E; pose proof (IH _ (scanner_below _ _ E Hst)) as IHk;
           pose proof (ahead_advance_onward st) as Hadv
          |intros _]).
  - apply returns_varDeclaration; assumption.
  - apply returns_funDeclaration; assumption.
  - unfold statement. apply returns_runStmt. cbn [stmtStep].
    apply returns_statement_, Hst.
Qed.

Lemma returns_blockLoop st :
  bounded n st ->
  returns (fun f => runStmt op f call_blockLoop) st (past st).
Proof.
  intros Hst. apply returns_runStmt. cbn [stmtStep]. unfold blockLoop.
  do 2 apply returns_get_bind.
  destruct (check TOKEN_RIGHT_BRACE st) eqn:Eb; cbn [negb andb].
  { apply closed_ret. split; [right; reflexivity|]. intros [H _]. congruence. }
  destruct (check TOKEN_EOF st) eqn:Ee; cbn [negb andb].
  { apply closed_ret. split; [right; reflexivity|]. intros [_ H]. congruence. }
  rewrite check_eof in Ee.
  pose proof (IH _ (scanner_below _ _ Ee Hst)) as IHk.
  apply (returns_weaken _ _ (bounded (length (scanner st)))).
  - apply (returns_bind _ _ st (bounded (length (scanner st)))
             (bounded (length (scanner st)))).
    + unfold declaration. apply returns_runStmt. cbn [stmtStep].
      apply returns_declaration_, Hst.
    + intros a st1 Hst1. apply IHk, Hst1.
  - intros s Hs. split; [left; exact Hs|intros _; exact Hs].
Qed.

Lemma returns_parameterLoop st :
  bounded n st ->
  returns (fun f => runStmt op f call_parameterLoop) st (forward st).
Proof.
  intros Hst. apply returns_runStmt. cbn [stmtStep]. unfold parameterLoop.
  enough (H : forall s, forward st s ->
            returns (fun f => parameterLoop op (runStmt op f)) s (forward st))
    by (apply H; right; reflexivity).
  intros s Hs. unfold parameterLoop.
  repeat first
    [ match goal with
      | |- returns (fun f => bind (lift (match_ _)) _) _ _ =>
          apply returns_match_bind; [discriminate|intros E|intros _]
      end
    | closed_step (forward st) (closed_forward st) ].
  match goal with
  | E : at_eof ?s = false, H : forward st ?s |- returns _ (advance ?s) _ =>
      apply (returns_weaken _ _ (bounded (length (scanner s))));
      [apply (IH (length (scanner s)));
       [apply scanner_below; [exact E|exact (closed_bounded _ _ _ Hst H)]
       |apply ahead_advance_onward]
      |intros x Hx; apply (forward_trans _ _ _ H); left; exact Hx]
  end.
Qed.

(** [function] moves past the token that was next, unless that was [}] or
    the end of the source. *)
Lemma returns_function_past ty st :
  bounded n st ->
  returns (fun f => function_ op (runStmt op f) ty) st (past st).
Proof.
  intros Hst. unfold function_, block.
  enough (H : forall s, forward st s ->
            returns (fun f => function_ op (runStmt op f) ty) s (past st))
    by (apply H; right; reflexivity).
  intros s Hs. unfold function_, block.
  do 7 (apply (returns_bind _ _ _ (forward st));
        [repeat first
           [ match goal with
             | H : forward st ?s
               |- returns (fun f => runStmt op f call_parameterLoop) ?s _ =>
                 apply (returns_weaken _ _ (forward s));
                 [apply returns_parameterLoop; exact (closed_bounded _ _ _ Hst H)
                 |intros x Hx; exact (forward_trans _ _ _ H Hx)]
             end
           | closed_step (forward st) (closed_forward st) ]
        |clear s Hs; intros ? s Hs]).
  apply (returns_bind _ _ _ (past st)).
  { apply (returns_bind _ _ _ (past st)).
    - apply (returns_weaken _ _ (past s)).
      + apply returns_blockLoop. exact (closed_bounded _ _ _ Hst Hs).
      + intros x Hx. exact (past_after _ _ _ Hs Hx).
    - intros ? s1 Hs1. repeat closed_step (past st) (closed_past st). }
  intros ? s1 Hs1. repeat closed_step (past st) (closed_past st).
Qed.

Lemma returns_method st :
  open st -> bounded n st ->
  returns (fun f => method op (runStmt op f)) st (bounded (length (scanner st))).
Proof.
  intros Hopen Hst.
  apply (returns_weaken _ _ (past st)); [|intros s [_ H]; exact (H Hopen)].
  enough (H : forall s, forward st s ->
            returns (fun f => method op (runStmt op f)) s (past st))
    by (apply H; right; reflexivity).
  intros s Hs. unfold method.
  do 3 (apply (returns_bind _ _ _ (forward st));
        [closed_step (forward st) (closed_forward st)
        |clear s Hs; intros ? s Hs]).
  apply (returns_bind _ _ _ (past st)).
  - apply (returns_weaken _ _ (past s)).
    + apply returns_function_past. exact (closed_bounded _ _ _ Hst Hs).
    + intros x Hx. exact (past_after _ _ _ Hs Hx).
  - intros ? s1 Hs1. repeat closed_step (past st) (closed_past st).
Qed.

Lemma returns_methodLoop st :
  bounded n st ->
  returns (fun f => runStmt op f call_methodLoop) st (bounded n).
Proof.
  intros Hst. apply returns_runStmt. cbn [stmtStep]. unfold methodLoop.
  do 2 apply returns_get_bind.
  destruct (check TOKEN_RIGHT_BRACE st) eqn:Eb; cbn [negb andb];
    [apply returns_ret, Hst|].
  destruct (check TOKEN_EOF st) eqn:Ee; cbn [negb andb];
    [apply returns_ret, Hst|].
  assert (Hk : (length (scanner st) < n)%nat).
  { apply scanner_below; [|exact Hst]. rewrite <- check_eof. exact Ee. }
  apply (bounded_weaken (length (scanner st)) n); [lia|].
  apply (returns_bind _ _ st (bounded (length (scanner st)))).
  - apply returns_method; [split; assumption|exact Hst].
  - intros a st1 Hst1. apply (IH _ Hk), Hst1.
Qed.

Lemma returns_compileLoop st :
  bounded n st ->
  returns (fun f => runStmt op f call_compileLoop) st (bounded n).
Proof.
  intros Hst. apply returns_runStmt. cbn [stmtStep]. unfold compileLoop.
  apply returns_lift_bind.
  destruct (fst (match_ TOKEN_EOF st)) eqn:E; cbn [negb].
  - apply returns_ret. pose proof (ahead_match TOKEN_EOF st).
    unfold bounded in *. lia.
  - destruct (match_false _ _ E) as [Hc ->]. rewrite check_eof in Hc.
    pose proof (scanner_below _ _ Hc Hst) as Hk.
    apply (bounded_weaken (length (scanner st)) n); [lia|].
    apply (returns_bind _ _ st (bounded (length (scanner st)))).
    + unfold declaration. apply returns_runStmt. cbn [stmtStep].
      apply returns_declaration_, Hst.
    + intros a st1 Hst1. apply (IH _ Hk), Hst1.
Qed.

End StatementsStep.

Lemma statements_return_all op n : statements_return op n.
Proof.
  induction n as [n IH] using (well_founded_induction lt_wf).
  intros c st Hst. destruct c.
  - apply (bounded_weaken (length (scanner st)) n); [apply scanner_bounded, Hst|].
    apply returns_runStmt. cbn [stmtStep]. apply (returns_declaration_ op n IH), Hst.
  - apply (bounded_weaken (length (scanner st)) n); [apply scanner_bounded, Hst|].
    apply returns_runStmt. cbn [stmtStep]. apply (returns_statement_ op n IH), Hst.
  - apply (returns_weaken _ _ (past st)); [apply (returns_blockLoop op n IH), Hst|].
    intros s [Hs _]. exact (closed_bounded _ _ _ Hst Hs).
  - apply (returns_weaken _ _ (forward st));
      [apply (returns_parameterLoop op n IH), Hst|].
    intros s Hs. exact (closed_bounded _ _ _ Hst Hs).
  - apply (returns_methodLoop op n IH), Hst.
  - apply (returns_weaken _ _ (forward st));
      [apply (returns_synchronizeLoop op n IH), Hst|].
    intros s Hs. exact (closed_bounded _ _ _ Hst Hs).
  - apply (returns_compileLoop op n IH), Hst.
Qed.

(** With enough fuel, [compile] returns, whatever the source. *)
Lemma compile_returns op source :
  exists fuel0 r, forall fuel, (fuel0 <= fuel)%nat -> compile op fuel source = Some r.
Proof.
  unfold compile.
  set (st := advance _).
  destruct (statements_return_all op (ahead st) call_compileLoop st)
    as (f0 & a & st' & H & _); [unfold bounded; lia|].
  destruct (endCompiler op st') as [f st2] eqn:Eend.
  exists f0, (if hadError (parser st2) then None else Some f, st2).
  intros fuel Hf. rewrite (H fuel Hf), Eend. reflexivity.
Qed.

(** ** Code and lines in lockstep *)

(** Every chunk reachable from a value has as many line numbers as code
    bytes. *)
Fixpoint value_aligned (v : Value) : Prop :=
  match v with
  | OBJ_FUNCTION (mkFunction _ _ (mkChunk code lines constants) _) =>
      length code = length lines
      /\ (fix all (vs : list Value) : Prop :=
            match vs with
            | [] => True
            | v :: vs => value_aligned v /\ all vs
            end) constants
  | _ => True
  end.

Definition chunk_aligned (c : Chunk) : Prop :=
  length (code c) = length (lines c) /\ Forall value_aligned (constants c).

Definition compiler_aligned (c : Compiler) : Prop :=
  chunk_aligned (chunk (function c)).

(** Every chunk under construction, with every function already stored in
    a constant pool. *)
Definition aligned : State -> Prop := on_chain (Forall compiler_aligned).

Lemma value_aligned_function (f : ObjFunction) :
  value_aligned (OBJ_FUNCTION f) <-> chunk_aligned (chunk f).
Proof.
  destruct f as [a u [cd ls cs] n]. unfold chunk_aligned. simpl.
  assert (E : forall vs : list Value,
             (fix all (vs : list Value) : Prop :=
                match vs with
                | [] => True
                | v :: vs => value_aligned v /\ all vs
                end) vs <-> Forall value_aligned vs).
  { induction vs as [|v vs IH].
    - split; auto.
    - rewrite Forall_cons. rewrite IH. reflexivity. }
  rewrite E. reflexivity.
Qed.

Lemma chunk_aligned_init : chunk_aligned initChunk.
Proof. split; [reflexivity|constructor]. Qed.

Lemma chunk_aligned_write c byte ln :
  chunk_aligned c -> chunk_aligned (writeChunk c byte ln).
Proof.
  intros [H1 H2]. split; [|exact H2].
  simpl. rewrite !length_app. simpl. lia.
Qed.

Lemma chunk_aligned_poke c offset v : chunk_aligned c -> chunk_aligned (poke offset v c).
Proof.
  intros [H1 H2]. split; [|exact H2]. simpl. rewrite length_insert. exact H1.
Qed.

Lemma chunk_aligned_addConstant c v :
  value_aligned v -> chunk_aligned c -> chunk_aligned (snd (addConstant c v)).
Proof.
  intros Hv [H1 H2]. split; [exact H1|]. simpl.
  apply Forall_app. split; [exact H2|]. constructor; [exact Hv|constructor].
Qed.

Lemma aligned_with_current g st :
  (forall c, compiler_aligned c -> compiler_aligned (g c)) ->
  aligned st -> aligned (with_current g st).
Proof.
  intros Hg H. unfold aligned, on_chain, with_current in *.
  destruct (compilers st) as [|c cs] eqn:E; [rewrite E; exact H|]. simpl.
  inversion H; subst. constructor; auto.
Qed.

Lemma aligned_with_currentChunk g st :
  (forall c, chunk_aligned c -> chunk_aligned (g c)) ->
  aligned st -> aligned (with_currentChunk g st).
Proof.
  intros Hg. apply aligned_with_current. intros c Hc.
  unfold compiler_aligned in *. simpl. auto.
Qed.


Lemma aligned_emitByte byte st : aligned st -> aligned (emitByte byte st).
Proof.
  apply aligned_with_currentChunk. intros c. apply chunk_aligned_write.
Qed.

Lemma aligned_error msg st : aligned st -> aligned (error msg st).
Proof. apply stable_chain_error. Qed.

Lemma aligned_emitBytes b1 b2 st : aligned st -> aligned (emitBytes b1 b2 st).
Proof. intros H. unfold emitBytes. auto using aligned_emitByte. Qed.

Lemma aligned_emitJump i st : aligned st -> aligned (snd (emitJump i st)).
Proof. intros H. unfold emitJump. simpl. auto using aligned_emitByte. Qed.

Lemma aligned_emitLoop op loopStart st : aligned st -> aligned (emitLoop op loopStart st).
Proof.
  intros H. unfold emitLoop.
  repeat apply aligned_emitByte.
  destruct (_ >? _); auto using aligned_error, aligned_emitByte.
Qed.

Lemma aligned_emitReturn op st : aligned st -> aligned (emitReturn op st).
Proof.
  intros H. unfold emitReturn. apply aligned_emitByte.
  destruct (FunctionType_eqb _ _); auto using aligned_emitBytes, aligned_emitByte.
Qed.

Lemma aligned_makeConstant v st :
  value_aligned v -> aligned st -> aligned (snd (makeConstant v st)).
Proof.
  intros Hv H. unfold makeConstant.
  assert (aligned (with_currentChunk (fun c => snd (addConstant c v)) st)).
  { apply aligned_with_currentChunk; [|exact H].
    intros c. apply chunk_aligned_addConstant, Hv. }
  destruct (_ >? _); simpl; auto using aligned_error.
Qed.

Lemma aligned_emitConstant op v st :
  value_aligned v -> aligned st -> aligned (emitConstant op v st).
Proof.
  intros Hv H. unfold emitConstant.
  pose proof (aligned_makeConstant v st Hv H) as H1.
  destruct (makeConstant v st) as [k st1]. simpl in H1.
  apply aligned_emitBytes, H1.
Qed.

Lemma aligned_patchJump offset st : aligned st -> aligned (patchJump offset st).
Proof.
  intros H. unfold patchJump.
  repeat (apply aligned_with_currentChunk; [intros c; apply chunk_aligned_poke|]).
  destruct (_ >? _); auto using aligned_error.
Qed.

Lemma aligned_initCompiler ty st : aligned st -> aligned (initCompiler ty st).
Proof.
  intros H. unfold initCompiler, aligned, on_chain. simpl.
  constructor; [|exact H].
  unfold compiler_aligned. simpl.
  destruct (negb (FunctionType_eqb ty TYPE_SCRIPT)); apply chunk_aligned_init.
Qed.

Lemma aligned_cur_default st : aligned st -> compiler_aligned (cur st).
Proof.
  unfold aligned, on_chain, cur. destruct (compilers st); intros H.
  - apply chunk_aligned_init.
  - inversion H; auto.
Qed.

Lemma aligned_endCompiler op st :
  aligned st ->
  aligned (snd (endCompiler op st))
  /\ value_aligned (OBJ_FUNCTION (fst (endCompiler op st))).
Proof.
  intros H. apply (aligned_emitReturn op) in H.
  unfold endCompiler. simpl. split.
  - unfold aligned, on_chain in *. simpl.
    destruct (compilers (emitReturn op st)); [constructor|].
    inversion H; auto.
  - apply value_aligned_function. apply aligned_cur_default, H.
Qed.

(** The resolver writes flags and upvalue tables only. *)

Lemma compilers_resolveLocal_loop c nm n st :
  compilers (snd (resolveLocal_loop c nm n st)) = compilers st.
Proof.
  induction n as [|i IH]; simpl; [reflexivity|].
  destruct (identifiersEqual _ _); simpl; [|exact IH].
  destruct (_ =? _); [apply compilers_error|reflexivity].
Qed.

Lemma compilers_resolveLocal c nm st :
  compilers (snd (resolveLocal c nm st)) = compilers st.
Proof. apply compilers_resolveLocal_loop. Qed.

Lemma compilers_addUpvalue c idx b st :
  compilers (snd (addUpvalue c idx b st)) = compilers st.
Proof.
  unfold addUpvalue. destruct (addUpvalue_scan _ _ _ _ _); [reflexivity|].
  destruct (_ =? _); simpl; [apply compilers_error|reflexivity].
Qed.


(** A property of single compilers that [capture] and [addUpvalue] keep
    holds along the chain [resolveUpvalue] yields. *)
Lemma resolveUpvalue_Forall (P : Compiler -> Prop) :
  (forall c i, P c -> P (capture i c)) ->
  (forall c idx b st, P c -> P (snd (fst (addUpvalue c idx b st)))) ->
  forall chain nm st,
    Forall P chain -> Forall P (snd (fst (resolveUpvalue chain nm st))).
Proof.
  intros Hcap Hadd chain nm.
  induction chain as [|c enclosing IH]; intros st H; [exact H|].
  simpl. destruct enclosing as [|parent outer]; [exact H|].
  destruct (resolveLocal parent nm st) as [local st1].
  inversion H as [|? ? Hc Henc]; subst.
  destruct (negb (local =? -1)).
  - specialize (Hadd c (local mod 256) true st1 Hc).
    destruct (addUpvalue c (local mod 256) true st1) as [[i c'] st2].
    simpl in *. inversion Henc; subst. repeat constructor; auto.
  - specialize (IH st1 Henc).
    destruct (resolveUpvalue (parent :: outer) nm st1) as [[up enclosing'] st2].
    simpl in IH.
    destruct (negb (up =? -1)); [|simpl; constructor; auto].
    specialize (Hadd c (up mod 256) false st2 Hc).
    destruct (addUpvalue c (up mod 256) false st2) as [[i c'] st3].
    simpl in *. constructor; auto.
Qed.

Lemma chunk_addUpvalue c idx b st :
  chunk (function (snd (fst (addUpvalue c idx b st)))) = chunk (function c).
Proof.
  unfold addUpvalue. destruct (addUpvalue_scan _ _ _ _ _); [reflexivity|].
  destruct (_ =? _); reflexivity.
Qed.

Lemma aligned_resolveLocal nm st :
  aligned st -> aligned (snd (resolveLocal (cur st) nm st)).
Proof. unfold aligned, on_chain. rewrite compilers_resolveLocal. auto. Qed.

Lemma aligned_resolveUpvalue_current nm st :
  aligned st -> aligned (snd (resolveUpvalue_current nm st)).
Proof.
  intros H. unfold resolveUpvalue_current.
  pose proof (resolveUpvalue_Forall compiler_aligned) as HF.
  specialize (HF (fun c i Hc => Hc)).
  assert (Hadd : forall c idx b st, compiler_aligned c ->
                   compiler_aligned (snd (fst (addUpvalue c idx b st)))).
  { intros c idx b st0 Hc. unfold compiler_aligned.
    rewrite chunk_addUpvalue. exact Hc. }
  specialize (HF Hadd (compilers st) nm st H).
  destruct (resolveUpvalue (compilers st) nm st) as [[i chain] st1].
  exact HF.
Qed.

Lemma aligned_identifierConstant nm st :
  aligned st -> aligned (snd (identifierConstant nm st)).
Proof. apply aligned_makeConstant. exact I. Qed.

Lemma aligned_keep_chunk g st :
  (forall c, chunk (function (g c)) = chunk (function c)) ->
  aligned st -> aligned (with_current g st).
Proof.
  intros Hg. apply aligned_with_current. intros c Hc.
  unfold compiler_aligned. rewrite Hg. exact Hc.
Qed.

Lemma aligned_beginScope st : aligned st -> aligned (beginScope st).
Proof. apply aligned_keep_chunk. reflexivity. Qed.

Lemma aligned_endScope_loop op n st : aligned st -> aligned (endScope_loop op n st).
Proof.
  revert st. induction n as [|n IH]; intros st H; simpl; [exact H|].
  destruct (_ && _); [|exact H].
  apply IH. apply aligned_keep_chunk; [reflexivity|].
  destruct (isCaptured _); apply aligned_emitByte, H.
Qed.

Lemma aligned_endScope op st : aligned st -> aligned (endScope op st).
Proof.
  intros H. unfold endScope. apply aligned_endScope_loop.
  apply aligned_keep_chunk; [reflexivity|exact H].
Qed.

Lemma aligned_addLocal nm st : aligned st -> aligned (addLocal nm st).
Proof.
  intros H. unfold addLocal. destruct (_ =? _); [apply aligned_error, H|].
  apply aligned_keep_chunk; [reflexivity|exact H].
Qed.

Lemma compilers_declareVariable_loop c nm n st :
  compilers (declareVariable_loop c nm n st) = compilers st.
Proof.
  revert st. induction n as [|i IH]; intros st; simpl; [reflexivity|].
  destruct (_ && _); [reflexivity|]. rewrite IH.
  destruct (identifiersEqual _ _); [apply compilers_error|reflexivity].
Qed.

Lemma aligned_declareVariable st : aligned st -> aligned (declareVariable st).
Proof.
  intros H. unfold declareVariable. destruct (_ =? _); [exact H|].
  apply aligned_addLocal. unfold aligned, on_chain.
  rewrite compilers_declareVariable_loop. exact H.
Qed.

Lemma aligned_consume ty msg st : aligned st -> aligned (consume ty msg st).
Proof. apply stable_chain_consume. Qed.

Lemma aligned_parseVariable msg st : aligned st -> aligned (snd (parseVariable msg st)).
Proof.
  intros H. unfold parseVariable.
  assert (H2 : aligned (declareVariable (consume TOKEN_IDENTIFIER msg st)))
    by auto using aligned_declareVariable, aligned_consume.
  destruct (_ >? _); [exact H2|]. apply aligned_identifierConstant, H2.
Qed.

Lemma aligned_markInitialized st : aligned st -> aligned (markInitialized st).
Proof.
  intros H. unfold markInitialized. destruct (_ =? _); [exact H|].
  apply aligned_keep_chunk; [reflexivity|exact H].
Qed.

Lemma aligned_defineVariable op g st : aligned st -> aligned (defineVariable op g st).
Proof.
  intros H. unfold defineVariable.
  destruct (_ >? _); [apply aligned_markInitialized|apply aligned_emitBytes]; exact H.
Qed.

Lemma aligned_emitUpvalues compiler i k st :
  aligned st -> aligned (emitUpvalues compiler i k st).
Proof.
  revert i st. induction k as [|k IH]; intros i st H; simpl; [exact H|].
  apply IH. auto using aligned_emitByte.
Qed.

Lemma aligned_advance st : aligned st -> aligned (advance st).
Proof. apply stable_chain_advance. Qed.

Lemma aligned_errorAtCurrent msg st : aligned st -> aligned (errorAtCurrent msg st).
Proof. apply stable_chain_errorAtCurrent. Qed.

Lemma aligned_match ty st : aligned st -> aligned (snd (match_ ty st)).
Proof. apply stable_chain_match. Qed.

Create HintDb aligned.
#[local] Hint Resolve aligned_emitByte aligned_error aligned_emitBytes
  aligned_emitJump aligned_emitLoop aligned_emitReturn aligned_makeConstant
  aligned_emitConstant aligned_patchJump aligned_initCompiler
  aligned_resolveLocal aligned_resolveUpvalue_current
  aligned_identifierConstant aligned_beginScope aligned_endScope
  aligned_addLocal aligned_declareVariable aligned_consume
  aligned_parseVariable aligned_markInitialized aligned_defineVariable
  aligned_emitUpvalues aligned_advance aligned_errorAtCurrent aligned_match
  : aligned.
#[local] Hint Extern 2 (aligned (with_current _ _)) =>
  apply aligned_keep_chunk; [reflexivity|] : aligned.
#[local] Hint Extern 1 (value_aligned (NUMBER_VAL _)) => exact I : aligned.
#[local] Hint Extern 1 (value_aligned (OBJ_STRING _)) => exact I : aligned.

(** One step through the structure of a computation. *)
Ltac keeps_step :=
  match goal with
  | |- keeps _ (bind _ _) => apply keeps_bind; [|intros ?]
  | |- keeps _ (ret _) => apply keeps_ret
  | |- keeps _ noResult => apply keeps_noResult
  | |- keeps _ (get _) => apply keeps_get
  | |- keeps _ (exec _) => apply keeps_exec
  | |- keeps _ (lift _) => apply keeps_lift
  | |- keeps _ (when _ _) => apply keeps_when
  | |- keeps _ (and_match _ _) => apply keeps_and_match
  | |- keeps _ (if ?b then _ else _) => destruct b
  | |- keeps _ (match ?x with _ => _ end) => destruct x
  | |- stable _ (match ?x with _ => _ end) => destruct x
  | |- stable _ (fun st => st) => apply stable_id
  end.

Ltac stable_aligned :=
  let st := fresh "st" in
  let H := fresh "H" in
  lazymatch goal with |- stable _ _ => idtac end;
  intros st H; cbn beta;
  repeat match goal with
         | |- aligned (match ?x with _ => _ end) => destruct x
         end;
  eauto with aligned.

Section AlignedExpressions.

Variable op : OpCode -> Z.
Variable rec : ExprCall -> M Z.
Hypothesis rec_aligned : forall c, keeps aligned (rec c).

Ltac go := repeat keeps_step; try apply rec_aligned; try stable_aligned.


Lemma keeps_aligned_argumentList : keeps aligned (argumentList rec).
Proof. unfold argumentList. go. Qed.

Lemma keeps_aligned_namedVariable nm canAssign :
  keeps aligned (namedVariable op rec nm canAssign).
Proof. unfold namedVariable, expression. go. Qed.

Lemma keeps_aligned_callParseFn fn canAssign :
  keeps aligned (callParseFn op rec fn canAssign).
Proof.
  pose proof keeps_aligned_argumentList.
  pose proof keeps_aligned_namedVariable.
  destruct fn; simpl;
    unfold grouping, call, dot, unary, binary, variable, string_, number, and_,
           literal, or_, super_, this_, variable, expression;
    go; auto.
Qed.

Lemma keeps_aligned_exprStep c : keeps aligned (exprStep op rec c).
Proof.
  pose proof keeps_aligned_callParseFn.
  destruct c; simpl; unfold parsePrecendence, infixLoop, argumentLoop, expression;
    go; auto.
Qed.

End AlignedExpressions.

Lemma keeps_aligned_runExpr op fuel c : keeps aligned (runExpr op fuel c).
Proof.
  revert c. induction fuel as [|fuel IH]; intros c; simpl.
  - apply keeps_noResult.
  - apply keeps_aligned_exprStep. exact IH.
Qed.

Lemma keeps_bind_lift {A B} I (f : State -> A * State) (k : A -> M B) :
  (forall st, I st -> I (snd (f st)) /\ keeps I (k (fst (f st)))) ->
  keeps I (bind (lift f) k).
Proof.
  intros H st b st' Hrun HI.
  apply bind_Some in Hrun as (a & st1 & H1 & H2).
  inversion H1 as [E]. destruct (H st HI) as [H3 H4].
  rewrite E in H3, H4. simpl in H3, H4. eapply H4; eauto.
Qed.

Section AlignedStatements.

Variable op : OpCode -> Z.
Variable expr : ExprCall -> M Z.
Variable rec : StmtCall -> M Z.
Hypothesis expr_aligned : forall c, keeps aligned (expr c).
Hypothesis rec_aligned : forall c, keeps aligned (rec c).

Ltac go :=
  repeat keeps_step; try apply rec_aligned; try apply expr_aligned;
  try apply keeps_aligned_namedVariable; try stable_aligned; auto.

Lemma keeps_aligned_block : keeps aligned (block rec).
Proof. unfold block. go. Qed.

Lemma keeps_aligned_function_ ty : keeps aligned (function_ op rec ty).
Proof.
  pose proof keeps_aligned_block.
  unfold function_.
  repeat match goal with
         | |- keeps _ (bind (lift (endCompiler _)) _) =>
             apply keeps_bind_lift; intros st Hst;
             destruct (aligned_endCompiler op st Hst); split; [assumption|]
         | _ => keeps_step
         end;
    try apply rec_aligned; try stable_aligned; auto.
Qed.

Lemma keeps_aligned_varDeclaration : keeps aligned (varDeclaration op expr).
Proof. unfold varDeclaration, expression. go. Qed.

Lemma keeps_aligned_expressionStatement : keeps aligned (expressionStatement op expr).
Proof. unfold expressionStatement, expression. go. Qed.

Lemma keeps_aligned_stmtStep c : keeps aligned (stmtStep op expr rec c).
Proof.
  pose proof keeps_aligned_block.
  pose proof keeps_aligned_function_.
  pose proof keeps_aligned_varDeclaration.
  pose proof keeps_aligned_expressionStatement.
  destruct c; simpl;
    unfold declaration_, statement_, blockLoop, parameterLoop, methodLoop,
           synchronizeLoop, compileLoop, classDeclaration, funDeclaration,
           forStatement, ifStatement, printStatement, returnStatement,
           whileStatement, synchronize, method, declaration, statement,
           variable, expression;
    go.
Qed.

End AlignedStatements.

Lemma keeps_aligned_runStmt op fuel c : keeps aligned (runStmt op fuel c).
Proof.
  revert c. induction fuel as [|fuel IH]; intros c; simpl.
  - apply keeps_noResult.
  - apply keeps_aligned_stmtStep; [apply keeps_aligned_runExpr|exact IH].
Qed.

Lemma aligned_initial source : aligned (initScanner source).
Proof. constructor. Qed.

(** C5: the code array and the lines array of every chunk have the same
    length, at every point of the compilation.  [initChunk] starts both
    empty; [writeChunk] appends exactly one byte and one line; every call of
    the compiler, from aligned chunks, returns with aligned chunks (the
    chunks under construction and every function stored in a constant
    pool); and so is what [compile] yields, which it does, whatever the
    source, once the fuel is enough. *)
Theorem code_and_lines_in_lockstep (op : OpCode -> Z) :
  (code initChunk = [] /\ lines initChunk = [])
  /\ (forall c byte ln,
        code (writeChunk c byte ln) = code c ++ [byte]
        /\ lines (writeChunk c byte ln) = lines c ++ [ln]
        /\ (length (code c) = length (lines c) ->
            length (code (writeChunk c byte ln))
            = length (lines (writeChunk c byte ln))))
  /\ (forall fuel c st r st',
        aligned st -> runExpr op fuel c st = Some (r, st') -> aligned st')
  /\ (forall fuel c st r st',
        aligned st -> runStmt op fuel c st = Some (r, st') -> aligned st')
  /\ (forall fuel source r st,
        compile op fuel source = Some (r, st) ->
        aligned st /\ forall f, r = Some f -> chunk_aligned (chunk f))
  /\ (forall source,
      exists fuel0 r st,
        (forall fuel, (fuel0 <= fuel)%nat -> compile op fuel source = Some (r, st))
        /\ aligned st
        /\ forall f, r = Some f -> chunk_aligned (chunk f)).
Proof.
  assert (Hcompile : forall fuel source r st,
            compile op fuel source = Some (r, st) ->
            aligned st /\ forall f, r = Some f -> chunk_aligned (chunk f)).
  { intros fuel source r st. unfold compile.
    set (st0 := advance _).
    assert (H0 : aligned st0).
    { apply aligned_advance.
      apply (aligned_initCompiler TYPE_SCRIPT (initScanner source)).
      apply aligned_initial. }
    destruct (runStmt op fuel call_compileLoop st0) as [[z st1]|] eqn:E;
      [|discriminate].
    assert (H1 : aligned st1) by (eapply keeps_aligned_runStmt; eauto).
    destruct (aligned_endCompiler op st1 H1) as [H2 H3].
    destruct (endCompiler op st1) as [f st2]. simpl in H2, H3.
    intros Hr. inversion Hr; subst. split; [exact H2|].
    intros f' Hf. destruct (hadError (parser st)); [discriminate|].
    inversion Hf; subst. apply value_aligned_function, H3. }
  split; [split; reflexivity|].
  split.
  { intros c byte ln. repeat split.
    simpl. rewrite !length_app. simpl. lia. }
  split.
  { intros fuel c st r st' H Hrun. eapply keeps_aligned_runExpr; eauto. }
  split.
  { intros fuel c st r st' H Hrun. eapply keeps_aligned_runStmt; eauto. }
  split; [exact Hcompile|].
  intros source. destruct (compile_returns op source) as (fuel0 & [r st] & H).
  exists fuel0, r, st. split; [exact H|].
  exact (Hcompile fuel0 source r st (H fuel0 (Nat.le_refl _))).
Qed.

(** ** The implicit return *)

(** What a write through [current] needs: a compiler is linked. *)
Definition linked (st : State) : Prop := compilers st <> [].

Lemma currentChunk_emitByte byte st :
  linked st ->
  currentChunk (emitByte byte st)
  = writeChunk (currentChunk st) byte (line (previous (parser st))).
Proof.
  unfold linked, emitByte, with_currentChunk, with_current, currentChunk, cur.
  destruct (compilers st) as [|c cs]; [congruence|]. reflexivity.
Qed.

Lemma linked_emitByte byte st : linked st -> linked (emitByte byte st).
Proof.
  unfold linked, emitByte, with_currentChunk, with_current.
  destruct (compilers st) as [|c cs]; [congruence|]. simpl. congruence.
Qed.

Lemma code_emitByte byte st :
  linked st ->
  code (currentChunk (emitByte byte st)) = code (currentChunk st) ++ [byte].
Proof. intros H. rewrite currentChunk_emitByte by exact H. reflexivity. Qed.

Lemma code_emitBytes b1 b2 st :
  linked st ->
  code (currentChunk (emitBytes b1 b2 st)) = code (currentChunk st) ++ [b1; b2].
Proof.
  intros H. unfold emitBytes.
  rewrite code_emitByte by (apply linked_emitByte, H).
  rewrite code_emitByte by exact H.
  rewrite <- app_assoc. reflexivity.
Qed.

Lemma linked_emitBytes b1 b2 st : linked st -> linked (emitBytes b1 b2 st).
Proof. intros H. unfold emitBytes. auto using linked_emitByte. Qed.

Lemma linked_advance st : linked st -> linked (advance st).
Proof. unfold linked. rewrite compilers_advance. auto. Qed.

Lemma linked_error msg st : linked st -> linked (error msg st).
Proof. unfold linked. rewrite compilers_error. auto. Qed.

Lemma currentChunk_advance st : currentChunk (advance st) = currentChunk st.
Proof. unfold currentChunk, cur. rewrite compilers_advance. reflexivity. Qed.

Lemma currentChunk_error msg st : currentChunk (error msg st) = currentChunk st.
Proof. unfold currentChunk. rewrite cur_error. reflexivity. Qed.

Lemma cur_advance st : cur (advance st) = cur st.
Proof. unfold cur. rewrite compilers_advance. reflexivity. Qed.

(** The bytes of the implicit return of a function of type [ty]. *)
Definition implicitReturn (op : OpCode -> Z) (ty : FunctionType) : list Z :=
  match ty with
  | TYPE_INITIALIZER => [op OP_GET_LOCAL; 0; op OP_RETURN]
  | _ => [op OP_NIL; op OP_RETURN]
  end.

Lemma code_emitReturn op st :
  linked st ->
  code (currentChunk (emitReturn op st))
  = code (currentChunk st) ++ implicitReturn op (ftype (cur st)).
Proof.
  intros H. unfold emitReturn.
  destruct (ftype (cur st)); simpl.
  - rewrite code_emitByte by (apply linked_emitByte, H).
    rewrite code_emitByte by exact H. rewrite <- app_assoc. reflexivity.
  - rewrite code_emitByte by (apply linked_emitBytes, H).
    rewrite code_emitBytes by exact H. rewrite <- app_assoc. reflexivity.
  - rewrite code_emitByte by (apply linked_emitByte, H).
    rewrite code_emitByte by exact H. rewrite <- app_assoc. reflexivity.
  - rewrite code_emitByte by (apply linked_emitByte, H).
    rewrite code_emitByte by exact H. rewrite <- app_assoc. reflexivity.
Qed.

(** C3: the implicit return is [OP_GET_LOCAL 0; OP_RETURN] in an
    initializer and [OP_NIL; OP_RETURN] in any other function.  [emitReturn]
    appends it to the current chunk; the function [endCompiler] yields, at
    the end of every compiled function, is the current chunk followed by it;
    and [returnStatement], on a [return] directly followed by [;], appends the
    same bytes and returns. *)
Theorem implicit_return_sequence (op : OpCode -> Z) (st : State) :
  linked st ->
  implicitReturn op TYPE_INITIALIZER = [op OP_GET_LOCAL; 0; op OP_RETURN]
  /\ (forall ty, ty <> TYPE_INITIALIZER ->
        implicitReturn op ty = [op OP_NIL; op OP_RETURN])
  /\ code (currentChunk (emitReturn op st))
     = code (currentChunk st) ++ implicitReturn op (ftype (cur st))
  /\ code (chunk (fst (endCompiler op st)))
     = code (currentChunk st) ++ implicitReturn op (ftype (cur st))
  /\ (forall expr,
        check TOKEN_SEMICOLON st = true ->
        exists st',
          returnStatement op expr st = Some (0, st')
          /\ code (currentChunk st')
             = code (currentChunk st) ++ implicitReturn op (ftype (cur st))).
Proof.
  intros H. split; [reflexivity|].
  split; [intros ty Hty; destruct ty; try reflexivity; congruence|].
  split; [apply code_emitReturn, H|].
  split; [apply (code_emitReturn op st H)|].
  intros expr Hsemi.
  set (st1 := if FunctionType_eqb (ftype (cur st)) TYPE_SCRIPT
              then error "can't return from top-level code." st else st).
  assert (E1 : compilers st1 = compilers st).
  { unfold st1. destruct (FunctionType_eqb _ _); [apply compilers_error|reflexivity]. }
  assert (E2 : check TOKEN_SEMICOLON st1 = true).
  { unfold st1. destruct (FunctionType_eqb _ _); [|exact Hsemi].
    unfold check, error, errorAt in *. destruct (panicMode (parser st)); exact Hsemi. }
  exists (emitReturn op (advance st1)). split.
  - unfold returnStatement, bind, get, when, lift, match_, exec, ret.
    unfold st1 in *.
    destruct (FunctionType_eqb (ftype (cur st)) TYPE_SCRIPT); rewrite E2;
      reflexivity.
  - rewrite code_emitReturn.
    + rewrite currentChunk_advance, cur_advance.
      unfold currentChunk, cur. rewrite E1. reflexivity.
    + apply linked_advance. unfold linked. rewrite E1. exact H.
Qed.

(** ** Forward jumps *)

Lemma low_byte x : Z.land x 255 = x mod 256.
Proof. change 255 with (Z.ones 8). rewrite Z.land_ones by lia. reflexivity. Qed.

Lemma high_byte x : Z.land (Z.shiftr x 8) 255 = (x / 256) mod 256.
Proof. rewrite low_byte, Z.shiftr_div_pow2 by lia. reflexivity. Qed.

Lemma big_endian_16 x :
  0 <= x <= UINT16_MAX ->
  256 * Z.land (Z.shiftr x 8) 255 + Z.land x 255 = x.
Proof.
  unfold UINT16_MAX. intros H. rewrite high_byte, low_byte.
  rewrite (Z.mod_small (x / 256)).
  - pose proof (Z.div_mod x 256). lia.
  - split; [apply Z.div_pos; lia|apply Z.div_lt_upper_bound; lia].
Qed.

Lemma currentChunk_with_currentChunk g st :
  linked st -> currentChunk (with_currentChunk g st) = g (currentChunk st).
Proof.
  unfold linked, with_currentChunk, with_current, currentChunk, cur.
  destruct (compilers st) as [|c cs]; [congruence|]. reflexivity.
Qed.

Lemma linked_with_current g st : linked st -> linked (with_current g st).
Proof.
  unfold linked, with_current.
  destruct (compilers st) as [|c cs]; [congruence|]. simpl. congruence.
Qed.

Lemma parser_with_current g st : parser (with_current g st) = parser st.
Proof. unfold with_current. destruct (compilers st); reflexivity. Qed.

Lemma diagnostics_with_current g st :
  diagnostics (with_current g st) = diagnostics st.
Proof. unfold with_current. destruct (compilers st); reflexivity. Qed.

(** What [error] does to the parser and to stderr: nothing in panic mode;
    otherwise one diagnostic at [previous], and both flags raised. *)
Lemma error_spec msg st :
  (panicMode (parser st) = true -> error msg st = st)
  /\ (panicMode (parser st) = false ->
      diagnostics (error msg st)
      = diagnostics st ++ [(previous (parser st), msg)]
      /\ hadError (parser (error msg st)) = true
      /\ panicMode (parser (error msg st)) = true).
Proof.
  unfold error, errorAt. split; intros H; rewrite H; [reflexivity|].
  repeat split.
Qed.

(** C2: a forward jump is emitted as the opcode and two [0xff]
    placeholders, and [emitJump] returns the offset of the first
    placeholder.  [patchJump offset], for a placeholder pair inside the
    chunk, takes [dist = count - offset - 2], calls [error "Cannot jump this
    far !"] exactly when [dist > 65535], and overwrites the pair with the
    high and the low byte of [dist] (big-endian: [256 * high + low = dist]
    whenever [dist] fits 16 bits); no other byte changes. *)
Theorem forward_jump_emitted_then_patched (instruction offset : Z) (st : State) :
  linked st ->
  0 <= offset -> offset + 1 < count (currentChunk st) ->
  let emitted := emitJump instruction st in
  let dist := count (currentChunk st) - offset - 2 in
  let patched := patchJump offset st in
  let high := Z.land (Z.shiftr dist 8) 255 in
  let low := Z.land dist 255 in
  (code (currentChunk (snd emitted))
   = code (currentChunk st) ++ [instruction; 255; 255]
   /\ fst emitted = count (currentChunk st) + 1)
  /\ (dist > UINT16_MAX ->
      parser patched = parser (error "Cannot jump this far !" st)
      /\ diagnostics patched = diagnostics (error "Cannot jump this far !" st))
  /\ (dist <= UINT16_MAX ->
      parser patched = parser st /\ diagnostics patched = diagnostics st)
  /\ code (currentChunk patched) !! Z.to_nat offset = Some high
  /\ code (currentChunk patched) !! Z.to_nat (offset + 1) = Some low
  /\ (dist <= UINT16_MAX -> 256 * high + low = dist)
  /\ length (code (currentChunk patched)) = length (code (currentChunk st))
  /\ (forall i, i <> Z.to_nat offset -> i <> Z.to_nat (offset + 1) ->
        code (currentChunk patched) !! i = code (currentChunk st) !! i).
Proof.
  intros Hl H0 H1. cbv zeta.
  set (dist := count (currentChunk st) - offset - 2).
  assert (Hlen : (Z.to_nat offset + 1 < length (code (currentChunk st)))%nat).
  { unfold count in H1. lia. }
  split.
  { unfold emitJump. cbn [fst snd].
    pose proof (linked_emitByte instruction st Hl) as Hl1.
    pose proof (linked_emitByte 255 _ Hl1) as Hl2.
    unfold count. rewrite !code_emitByte by assumption.
    rewrite !length_app. cbn [length]. rewrite <- !app_assoc.
    split; [reflexivity|lia]. }
  set (st1 := if dist >? UINT16_MAX then error "Cannot jump this far !" st else st).
  assert (Hl1 : linked st1).
  { unfold st1. destruct (_ >? _); [apply linked_error|]; exact Hl. }
  assert (Hc1 : currentChunk st1 = currentChunk st).
  { unfold st1. destruct (_ >? _); [apply currentChunk_error|reflexivity]. }
  assert (Hp : patchJump offset st
               = with_currentChunk (poke (offset + 1) (Z.land dist 255))
                   (with_currentChunk (poke offset (Z.land (Z.shiftr dist 8) 255)) st1))
    by reflexivity.
  assert (Hcode : code (currentChunk (patchJump offset st))
                  = <[Z.to_nat (offset + 1) := Z.land dist 255]>
                      (<[Z.to_nat offset := Z.land (Z.shiftr dist 8) 255]>
                         (code (currentChunk st)))).
  { rewrite Hp. rewrite currentChunk_with_currentChunk
      by (apply linked_with_current, Hl1).
    rewrite currentChunk_with_currentChunk by exact Hl1.
    rewrite Hc1. reflexivity. }
  assert (Hne : Z.to_nat (offset + 1) <> Z.to_nat offset) by lia.
  split.
  { intros Hgt. rewrite Hp. unfold with_currentChunk.
    rewrite !parser_with_current, !diagnostics_with_current.
    unfold st1. destruct (dist >? UINT16_MAX) eqn:E; [split; reflexivity|lia]. }
  split.
  { intros Hle. rewrite Hp. unfold with_currentChunk.
    rewrite !parser_with_current, !diagnostics_with_current.
    unfold st1. destruct (dist >? UINT16_MAX) eqn:E; [lia|split; reflexivity]. }
  split.
  { rewrite Hcode. rewrite list_lookup_insert_ne by exact Hne.
    apply list_lookup_insert_eq. lia. }
  split.
  { rewrite Hcode. apply list_lookup_insert_eq. rewrite length_insert. lia. }
  split.
  { intros Hle. apply big_endian_16. unfold dist, count in *. lia. }
  split.
  { rewrite Hcode, !length_insert. reflexivity. }
  intros i Hi1 Hi2. rewrite Hcode.
  rewrite !list_lookup_insert_ne by congruence. reflexivity.
Qed.

(** ** Exceeding an 8-bit index *)

Lemma resolveLocal_loop_none c nm n st :
  fst (resolveLocal_loop c nm n st) = -1 -> resolveLocal_loop c nm n st = (-1, st).
Proof.
  induction n as [|i IH]; simpl; [reflexivity|].
  destruct (identifiersEqual _ _); simpl; [lia|exact IH].
Qed.

Lemma resolveLocal_none c nm st :
  fst (resolveLocal c nm st) = -1 -> resolveLocal c nm st = (-1, st).
Proof. apply resolveLocal_loop_none. Qed.

Lemma makeConstant_spec v st :
  linked st ->
  let n := Z.of_nat (length (constants (currentChunk st))) in
  let st1 := with_currentChunk (fun c => snd (addConstant c v)) st in
  constants (currentChunk st1) = constants (currentChunk st) ++ [v]
  /\ code (currentChunk st1) = code (currentChunk st)
  /\ (n <= UINT8_MAX -> makeConstant v st = (n, st1))
  /\ (n > UINT8_MAX ->
      makeConstant v st = (0, error "Too many constants in one chunks." st1)).
Proof.
  intros Hl. cbv zeta. unfold makeConstant.
  rewrite currentChunk_with_currentChunk by exact Hl. cbn [addConstant fst snd constants code].
  rewrite length_app. cbn [length].
  replace (Z.of_nat (length (constants (currentChunk st)) + 1) - 1)
    with (Z.of_nat (length (constants (currentChunk st)))) by lia.
  repeat split.
  - intros H. destruct (_ >? _) eqn:E; [lia|reflexivity].
  - intros H. destruct (_ >? _) eqn:E; [reflexivity|lia].
Qed.

Lemma addUpvalue_full c idx isLoc st :
  upvalueCount (function c) = UINT8_COUNT ->
  addUpvalue_scan c idx isLoc 0 (Z.to_nat UINT8_COUNT) = None ->
  addUpvalue c idx isLoc st
  = (0, c, error "Too many closure variable in function." st).
Proof.
  intros Hn Hscan. unfold addUpvalue. rewrite Hn, Hscan. reflexivity.
Qed.

(** C9: past 256 entries the index handed out is 0.  [makeConstant] on a
    chunk that already holds 256 constants (or more) still appends the value,
    calls [error] and returns 0, and [emitConstant] then emits
    [OP_CONSTANT 0].  [addUpvalue] on a table of 256 upvalues none of which
    is the requested one calls [error], leaves the table as it is and returns
    0; a variable read resolved that way through a local of the enclosing
    function is emitted as [OP_GET_UPVALUE 0]. *)
Theorem index_overflow_yields_zero (op : OpCode -> Z) (st : State) :
  linked st ->
  (forall v,
     Z.of_nat (length (constants (currentChunk st))) >= UINT8_COUNT ->
     let st1 := with_currentChunk (fun c => snd (addConstant c v)) st in
     makeConstant v st = (0, error "Too many constants in one chunks." st1)
     /\ constants (currentChunk st1) = constants (currentChunk st) ++ [v]
     /\ code (currentChunk (emitConstant op v st))
        = code (currentChunk st) ++ [op OP_CONSTANT; 0])
  /\ (forall c idx isLoc,
        upvalueCount (function c) = UINT8_COUNT ->
        addUpvalue_scan c idx isLoc 0 (Z.to_nat UINT8_COUNT) = None ->
        addUpvalue c idx isLoc st
        = (0, c, error "Too many closure variable in function." st))
  /\ (forall rec nm c parent outer slot,
        compilers st = c :: parent :: outer ->
        fst (resolveLocal c nm st) = -1 ->
        fst (resolveLocal parent nm st) = slot -> slot <> -1 ->
        upvalueCount (function c) = UINT8_COUNT ->
        addUpvalue_scan c (slot mod 256) true 0 (Z.to_nat UINT8_COUNT) = None ->
        exists st',
          namedVariable op rec nm false st = Some (0, st')
          /\ code (currentChunk st')
             = code (currentChunk st) ++ [op OP_GET_UPVALUE; 0]).
Proof.
  intros Hl. split; [|split].
  - intros v Hn. cbv zeta.
    destruct (makeConstant_spec v st Hl) as (Hc & Hcode & _ & Hbig).
    unfold UINT8_COUNT, UINT8_MAX in *.
    rewrite Hbig by lia. split; [reflexivity|]. split; [exact Hc|].
    unfold emitConstant. rewrite Hbig by lia.
    rewrite code_emitBytes.
    + rewrite currentChunk_error, Hcode. reflexivity.
    + apply linked_error. unfold with_currentChunk. apply linked_with_current, Hl.
  - intros c idx isLoc. apply addUpvalue_full.
  - intros rec nm c parent outer slot Hch Hloc Hpar Hslot Hfull Hscan.
    assert (Hcur : cur st = c) by (unfold cur; rewrite Hch; reflexivity).
    unfold namedVariable, bind, lift, and_match, ret, exec.
    rewrite Hcur, (resolveLocal_none _ _ _ Hloc). simpl.
    unfold resolveUpvalue_current. rewrite Hch. simpl.
    destruct (resolveLocal parent nm st) as [slot' st1] eqn:E1.
    simpl in Hpar. subst slot'.
    destruct (slot =? -1) eqn:E2; [lia|]. simpl.
    rewrite addUpvalue_full by assumption. simpl.
    eexists. split; [reflexivity|].
    rewrite code_emitBytes.
    + unfold currentChunk, cur. simpl. rewrite Hch. reflexivity.
    + unfold linked. simpl. congruence.
Qed.

(** ** Resolving a name *)

(** [i] is the slot [resolveLocal] stops at: the topmost local of [c] named
    as [nm]. *)
Definition topmost_local (c : Compiler) (nm : Token) (i : Z) : Prop :=
  0 <= i < localCount c
  /\ identifiersEqual (name (local_at c i)) nm = true
  /\ forall j, i < j < localCount c ->
               identifiersEqual (name (local_at c j)) nm = false.

(** No local of [c] is named as [nm]. *)
Definition no_local (c : Compiler) (nm : Token) : Prop :=
  forall j, 0 <= j < localCount c ->
            identifiersEqual (name (local_at c j)) nm = false.

Definition read_own_initializer (c : Compiler) (i : Z) (st : State) : State :=
  if depth (local_at c i) =? -1
  then error "Can't read local variable in its own initializer." st
  else st.

Lemma resolveLocal_loop_found c nm st (i n : nat) :
  (i < n)%nat ->
  identifiersEqual (name (local_at c (Z.of_nat i))) nm = true ->
  (forall j, (i < j < n)%nat ->
             identifiersEqual (name (local_at c (Z.of_nat j))) nm = false) ->
  resolveLocal_loop c nm n st
  = (Z.of_nat i, read_own_initializer c (Z.of_nat i) st).
Proof.
  intros Hin Hi Habove. induction n as [|n IH]; [lia|].
  simpl. destruct (Nat.eq_dec i n) as [->|Hne].
  - rewrite Hi. reflexivity.
  - rewrite (Habove n) by lia. apply IH; [lia|].
    intros j Hj. apply Habove. lia.
Qed.

Lemma resolveLocal_found c nm st i :
  topmost_local c nm i ->
  resolveLocal c nm st = (i, read_own_initializer c i st).
Proof.
  intros (Hi & Hm & Habove). unfold resolveLocal.
  rewrite <- (Z2Nat.id i) by lia.
  apply resolveLocal_loop_found.
  - lia.
  - rewrite Z2Nat.id by lia. exact Hm.
  - intros j Hj. apply Habove. lia.
Qed.

Lemma resolveLocal_loop_absent c nm st (n : nat) :
  (forall j, (j < n)%nat ->
             identifiersEqual (name (local_at c (Z.of_nat j))) nm = false) ->
  resolveLocal_loop c nm n st = (-1, st).
Proof.
  intros H. induction n as [|n IH]; [reflexivity|].
  simpl. rewrite (H n) by lia. apply IH. intros j Hj. apply H. lia.
Qed.

Lemma resolveLocal_absent c nm st :
  no_local c nm -> resolveLocal c nm st = (-1, st).
Proof.
  intros H. apply resolveLocal_loop_absent. intros j Hj. apply H. lia.
Qed.

(** [resolveLocal] yields the topmost match, or -1 when there is none. *)
Lemma resolveLocal_loop_cases c nm st (n : nat) :
  (fst (resolveLocal_loop c nm n st) = -1
   /\ forall j, (j < n)%nat ->
                identifiersEqual (name (local_at c (Z.of_nat j))) nm = false)
  \/ (exists i, (i < n)%nat
        /\ fst (resolveLocal_loop c nm n st) = Z.of_nat i
        /\ identifiersEqual (name (local_at c (Z.of_nat i))) nm = true
        /\ forall j, (i < j < n)%nat ->
                     identifiersEqual (name (local_at c (Z.of_nat j))) nm = false).
Proof.
  induction n as [|n IH]; simpl.
  - left. split; [reflexivity|]. intros j Hj. lia.
  - destruct (identifiersEqual (name (local_at c (Z.of_nat n))) nm) eqn:E.
    + right. exists n. simpl.
      split; [lia|]. split; [reflexivity|]. split; [exact E|]. intros j Hj. lia.
    + destruct IH as [[H1 H2]|(i & Hi & H1 & H2 & H3)].
      * left. split; [exact H1|]. intros j Hj.
        destruct (Nat.eq_dec j n) as [->|]; [exact E|apply H2; lia].
      * right. exists i.
        split; [lia|]. split; [exact H1|]. split; [exact H2|]. intros j Hj.
        destruct (Nat.eq_dec j n) as [->|]; [exact E|apply H3; lia].
Qed.

Lemma resolveLocal_cases c nm st :
  (fst (resolveLocal c nm st) = -1 /\ no_local c nm)
  \/ topmost_local c nm (fst (resolveLocal c nm st)).
Proof.
  unfold resolveLocal.
  destruct (resolveLocal_loop_cases c nm st (Z.to_nat (localCount c)))
    as [[H1 H2]|(i & Hi & H1 & H2 & H3)].
  - left. split; [exact H1|]. intros j Hj.
    rewrite <- (Z2Nat.id j) by lia. apply H2. lia.
  - right. rewrite H1.
    split; [lia|]. split; [exact H2|]. intros j Hj.
    rewrite <- (Z2Nat.id j) by lia. apply H3. lia.
Qed.

(** C8: when the topmost local named as the variable is still being
    declared (depth -1), [resolveLocal] calls [error "Can't read local
    variable in its own initializer."] and returns the slot all the same;
    [namedVariable] then emits [OP_GET_LOCAL slot] for a read and, for an
    assignment, [OP_SET_LOCAL slot] after the assigned expression. *)
Theorem uninitialized_local_still_resolved
  (op : OpCode -> Z) (rec : ExprCall -> M Z) (nm : Token) (slot : Z) (st : State) :
  linked st ->
  localCount (cur st) <= UINT8_COUNT ->
  topmost_local (cur st) nm slot ->
  depth (local_at (cur st) slot) = -1 ->
  let reported :=
    error "Can't read local variable in its own initializer." st in
  resolveLocal (cur st) nm st = (slot, reported)
  /\ slot <> -1
  /\ (forall canAssign,
        canAssign && check TOKEN_EQUAL st = false ->
        namedVariable op rec nm canAssign st
        = Some (0, emitBytes (op OP_GET_LOCAL) slot reported)
        /\ code (currentChunk (emitBytes (op OP_GET_LOCAL) slot reported))
           = code (currentChunk st) ++ [op OP_GET_LOCAL; slot])
  /\ (forall r st2,
        check TOKEN_EQUAL st = true ->
        expression rec (advance reported) = Some (r, st2) ->
        linked st2 ->
        namedVariable op rec nm true st
        = Some (0, emitBytes (op OP_SET_LOCAL) slot st2)
        /\ code (currentChunk (emitBytes (op OP_SET_LOCAL) slot st2))
           = code (currentChunk st2) ++ [op OP_SET_LOCAL; slot]).
Proof.
  intros Hl Hcap Htop Hdepth. cbv zeta.
  set (reported := error "Can't read local variable in its own initializer." st).
  assert (Hres : resolveLocal (cur st) nm st = (slot, reported)).
  { rewrite (resolveLocal_found _ _ _ _ Htop). unfold read_own_initializer.
    rewrite Hdepth. reflexivity. }
  assert (Hslot : 0 <= slot < 256).
  { destruct Htop as (H & _). unfold UINT8_COUNT in Hcap. lia. }
  assert (Hmod : slot mod 256 = slot) by (apply Z.mod_small; exact Hslot).
  assert (Hne : (slot =? -1) = false) by lia.
  assert (Hchk : check TOKEN_EQUAL reported = check TOKEN_EQUAL st).
  { unfold reported, check, error, errorAt.
    destruct (panicMode (parser st)); reflexivity. }
  split; [exact Hres|]. split; [lia|]. split.
  - intros canAssign Hca. split.
    + unfold namedVariable, bind, lift, ret, exec. rewrite Hres, Hne. simpl.
      unfold and_match, lift, match_, ret.
      destruct canAssign; simpl in *.
      * rewrite Hchk, Hca. simpl. rewrite Hmod. reflexivity.
      * rewrite Hmod. reflexivity.
    + rewrite code_emitBytes by (apply linked_error, Hl).
      unfold reported. rewrite currentChunk_error. reflexivity.
  - intros r st2 Heq Hexpr Hl2. split.
    + unfold namedVariable, bind, lift, ret, exec. rewrite Hres, Hne. simpl.
      unfold and_match, lift, match_. rewrite Hchk, Heq. simpl.
      fold reported. rewrite Hexpr. rewrite Hmod. reflexivity.
    + apply code_emitBytes, Hl2.
Qed.

(** The arrays of a compiler have [UINT8_COUNT] cells and its counters stay
    within them. *)
Definition well_formed (c : Compiler) : Prop :=
  0 <= localCount c <= UINT8_COUNT
  /\ length (locals c) = Z.to_nat UINT8_COUNT
  /\ 0 <= upvalueCount (function c) <= UINT8_COUNT
  /\ length (upvalues c) = Z.to_nat UINT8_COUNT.

(** The upvalue table of [c] holds [u] at index [r]. *)
Definition recorded (c : Compiler) (r : Z) (u : Upvalue) : Prop :=
  0 <= r < upvalueCount (function c) /\ upvalue_at c r = u.

(** The upvalue table of [c] is full and does not hold [u]. *)
Definition table_full_without (c : Compiler) (u : Upvalue) : Prop :=
  upvalueCount (function c) = UINT8_COUNT
  /\ forall i, 0 <= i < UINT8_COUNT -> upvalue_at c i <> u.

Lemma upvalue_test u idx isLoc :
  (index u =? idx) && Bool.eqb (isLocal u) isLoc = true <-> u = mkUpvalue idx isLoc.
Proof.
  destruct u as [i l]. simpl. rewrite andb_true_iff, Z.eqb_eq, Bool.eqb_true_iff.
  split; [intros [-> ->]; reflexivity|intros H; inversion H; auto].
Qed.

Lemma addUpvalue_scan_Some c idx isLoc i k r :
  addUpvalue_scan c idx isLoc i k = Some r ->
  i <= r < i + Z.of_nat k /\ upvalue_at c r = mkUpvalue idx isLoc.
Proof.
  revert i. induction k as [|k IH]; intros i; simpl; [discriminate|].
  destruct ((index (upvalue_at c i) =? idx) && Bool.eqb (isLocal (upvalue_at c i)) isLoc)
    eqn:E.
  - intros H. inversion H; subst. split; [lia|]. apply upvalue_test, E.
  - intros H. apply IH in H. split; [lia|tauto].
Qed.

Lemma addUpvalue_scan_None c idx isLoc i k :
  addUpvalue_scan c idx isLoc i k = None ->
  forall j, i <= j < i + Z.of_nat k -> upvalue_at c j <> mkUpvalue idx isLoc.
Proof.
  revert i. induction k as [|k IH]; intros i; simpl; [intros _ j Hj; lia|].
  destruct ((index (upvalue_at c i) =? idx) && Bool.eqb (isLocal (upvalue_at c i)) isLoc)
    eqn:E; [discriminate|].
  intros H j Hj. destruct (Z.eq_dec j i) as [->|Hne].
  - intros Hu. apply upvalue_test in Hu. congruence.
  - apply (IH (i + 1) H). lia.
Qed.

Lemma nth_insert_eq {A} (l : list A) (i : nat) (x d : A) :
  (i < length l)%nat -> nth i (<[i := x]> l) d = x.
Proof. intros H. apply nth_lookup_Some, list_lookup_insert_eq, H. Qed.

Lemma nth_insert_ne {A} (l : list A) (i j : nat) (x d : A) :
  i <> j -> nth j (<[i := x]> l) d = nth j l d.
Proof. intros H. rewrite !nth_lookup, list_lookup_insert_ne by exact H. reflexivity. Qed.

(** [addUpvalue] either yields the index at which the table holds the
    upvalue (found, or appended when there was room), or finds the table
    full, calls [error] and yields 0. *)
Lemma addUpvalue_spec c idx isLoc st :
  well_formed c ->
  let r := fst (fst (addUpvalue c idx isLoc st)) in
  let c' := snd (fst (addUpvalue c idx isLoc st)) in
  let st' := snd (addUpvalue c idx isLoc st) in
  (recorded c' r (mkUpvalue idx isLoc) /\ st' = st
   /\ locals c' = locals c /\ localCount c' = localCount c
   /\ chunk (function c') = chunk (function c) /\ well_formed c'
   /\ forall i, 0 <= i < upvalueCount (function c) ->
                upvalue_at c' i = upvalue_at c i)
  \/ (table_full_without c (mkUpvalue idx isLoc) /\ r = 0 /\ c' = c
      /\ st' = error "Too many closure variable in function." st).
Proof.
  intros (Hlc & Hll & Huc & Hul). cbv zeta. unfold addUpvalue.
  destruct (addUpvalue_scan c idx isLoc 0 (Z.to_nat (upvalueCount (function c))))
    as [r|] eqn:E.
  - left. apply addUpvalue_scan_Some in E as [Hr Hu]. simpl.
    unfold recorded, well_formed. repeat split; auto; lia.
  - pose proof (addUpvalue_scan_None _ _ _ _ _ E) as Hnone.
    destruct (upvalueCount (function c) =? UINT8_COUNT) eqn:Efull.
    + right. simpl. unfold table_full_without.
      repeat split; [lia|]. intros i Hi. apply Hnone. lia.
    + left. simpl. unfold recorded, well_formed, upvalue_at. simpl.
      unfold UINT8_COUNT in *.
      repeat split; try lia; auto.
      * apply nth_insert_eq. lia.
      * rewrite length_insert. exact Hul.
      * intros i Hi. apply nth_insert_ne. lia.
Qed.

(** Resolving a name does not move the parser. *)

Lemma current_error msg st : current (parser (error msg st)) = current (parser st).
Proof. unfold error, errorAt. destruct (panicMode (parser st)); reflexivity. Qed.

Lemma current_read_own_initializer c i st :
  current (parser (read_own_initializer c i st)) = current (parser st).
Proof.
  unfold read_own_initializer. destruct (_ =? _); [apply current_error|reflexivity].
Qed.

Lemma current_addUpvalue c idx b st :
  current (parser (snd (addUpvalue c idx b st))) = current (parser st).
Proof.
  unfold addUpvalue. destruct (addUpvalue_scan _ _ _ _ _); [reflexivity|].
  destruct (_ =? _); simpl; [apply current_error|reflexivity].
Qed.

Lemma current_resolveLocal c nm st :
  current (parser (snd (resolveLocal c nm st))) = current (parser st).
Proof.
  unfold resolveLocal. induction (Z.to_nat (localCount c)) as [|i IH]; simpl;
    [reflexivity|].
  destruct (identifiersEqual _ _); simpl; [|exact IH].
  destruct (_ =? _); [apply current_error|reflexivity].
Qed.

Lemma current_resolveUpvalue chain nm st :
  current (parser (snd (resolveUpvalue chain nm st))) = current (parser st).
Proof.
  revert st. induction chain as [|c enclosing IH]; intros st; [reflexivity|].
  simpl. destruct enclosing as [|parent outer]; [reflexivity|].
  pose proof (current_resolveLocal parent nm st) as E1.
  destruct (resolveLocal parent nm st) as [local st1]. simpl in E1.
  destruct (negb (local =? -1)).
  - pose proof (current_addUpvalue c (local mod 256) true st1) as E2.
    destruct (addUpvalue c (local mod 256) true st1) as [[i c'] st2].
    simpl in *. congruence.
  - specialize (IH st1).
    destruct (resolveUpvalue (parent :: outer) nm st1) as [[up enclosing'] st2].
    simpl in IH.
    destruct (negb (up =? -1)); [|simpl; congruence].
    pose proof (current_addUpvalue c (up mod 256) false st2) as E2.
    destruct (addUpvalue c (up mod 256) false st2) as [[i c'] st3].
    simpl in *. congruence.
Qed.

Lemma current_resolveUpvalue_current nm st :
  current (parser (snd (resolveUpvalue_current nm st))) = current (parser st).
Proof.
  unfold resolveUpvalue_current.
  pose proof (current_resolveUpvalue (compilers st) nm st) as E.
  destruct (resolveUpvalue (compilers st) nm st) as [[i chain] st1]. exact E.
Qed.

Lemma current_makeConstant v st :
  current (parser (snd (makeConstant v st))) = current (parser st).
Proof.
  unfold makeConstant. destruct (_ >? _); simpl.
  - rewrite current_error. unfold with_currentChunk.
    rewrite parser_with_current. reflexivity.
  - unfold with_currentChunk. rewrite parser_with_current. reflexivity.
Qed.

Lemma makeConstant_range v st :
  0 <= fst (makeConstant v st) <= UINT8_MAX.
Proof.
  unfold makeConstant.
  destruct (fst (addConstant (currentChunk st) v) >? UINT8_MAX) eqn:E;
    cbn [fst]; unfold UINT8_MAX in *; [lia|].
  cbn [addConstant fst snd constants] in *.
  rewrite length_app in *. cbn [length] in *.
  rewrite Z.gtb_ltb in E. apply Z.ltb_ge in E. lia.
Qed.

(** What [namedVariable] emits once the name is resolved, in state [st1],
    to the operand [arg]: [getOp arg] for a read, and for an assignment
    [setOp arg] after the assigned expression. *)
Definition emits_variable (op : OpCode -> Z) (rec : ExprCall -> M Z)
    (nm : Token) (st : State) (getOp setOp : OpCode) (arg : Z) (st1 : State)
  : Prop :=
  (forall canAssign,
     canAssign && check TOKEN_EQUAL st = false ->
     namedVariable op rec nm canAssign st
     = Some (0, emitBytes (op getOp) arg st1))
  /\ (forall r st2,
        check TOKEN_EQUAL st = true ->
        expression rec (advance st1) = Some (r, st2) ->
        namedVariable op rec nm true st
        = Some (0, emitBytes (op setOp) arg st2)).

(** The tail of [namedVariable], after the resolution. *)
Definition namedVariable_emit (op : OpCode -> Z) (rec : ExprCall -> M Z)
    (canAssign : bool) (getOp setOp : OpCode) (arg : Z) : M Z :=
  assign <- and_match canAssign TOKEN_EQUAL ;;
  if assign then
    expression rec ;;
    exec (emitBytes (op setOp) (arg mod 256)) ;;
    ret 0
  else
    exec (emitBytes (op getOp) (arg mod 256)) ;;
    ret 0.

Lemma namedVariable_emit_spec op rec nm st getOp setOp arg st1 :
  0 <= arg < 256 ->
  current (parser st1) = current (parser st) ->
  (forall canAssign,
     namedVariable op rec nm canAssign st
     = namedVariable_emit op rec canAssign getOp setOp arg st1) ->
  emits_variable op rec nm st getOp setOp arg st1.
Proof.
  intros Harg Hcur Hnv.
  assert (Hchk : check TOKEN_EQUAL st1 = check TOKEN_EQUAL st).
  { unfold check. rewrite Hcur. reflexivity. }
  assert (Hmod : arg mod 256 = arg) by (apply Z.mod_small; exact Harg).
  split.
  - intros canAssign Hca. rewrite Hnv.
    unfold namedVariable_emit, bind, and_match, lift, match_, ret, exec.
    rewrite Hmod. destruct canAssign; simpl in *; [|reflexivity].
    rewrite Hchk, Hca. reflexivity.
  - intros r st2 Heq Hexpr. rewrite Hnv.
    unfold namedVariable_emit, bind, and_match, lift, match_, ret, exec.
    rewrite Hchk, Heq. simpl. rewrite Hexpr, Hmod. reflexivity.
Qed.

Lemma addUpvalue_range c idx isLoc st :
  well_formed c -> 0 <= fst (fst (addUpvalue c idx isLoc st)) < UINT8_COUNT.
Proof.
  intros Hwf.
  destruct (addUpvalue_spec c idx isLoc st Hwf)
    as [([Hr _] & _ & _ & _ & _ & (_ & _ & Hu & _) & _)|(_ & Hr & _)].
  - lia.
  - rewrite Hr. unfold UINT8_COUNT. lia.
Qed.

Lemma resolveUpvalue_range chain nm st :
  Forall well_formed chain ->
  let r := fst (fst (resolveUpvalue chain nm st)) in
  r = -1 \/ 0 <= r < UINT8_COUNT.
Proof.
  intros Hwf. cbv zeta. destruct chain as [|c enclosing]; [left; reflexivity|].
  simpl. destruct enclosing as [|parent outer]; [left; reflexivity|].
  inversion Hwf as [|? ? Hc _]; subst.
  destruct (resolveLocal parent nm st) as [local st1].
  destruct (negb (local =? -1)).
  - pose proof (addUpvalue_range c (local mod 256) true st1 Hc) as Hr.
    destruct (addUpvalue c (local mod 256) true st1) as [[i c'] st2].
    right. exact Hr.
  - destruct (resolveUpvalue (parent :: outer) nm st1) as [[up enclosing'] st2].
    destruct (negb (up =? -1)); [|left; reflexivity].
    pose proof (addUpvalue_range c (up mod 256) false st2 Hc) as Hr.
    destruct (addUpvalue c (up mod 256) false st2) as [[i c'] st3].
    right. exact Hr.
Qed.

Lemma captured_capture c i :
  0 <= i -> (Z.to_nat i < length (locals c))%nat ->
  isCaptured (local_at (capture i c) i) = true
  /\ name (local_at (capture i c) i) = name (local_at c i)
  /\ depth (local_at (capture i c) i) = depth (local_at c i)
  /\ forall j, 0 <= j -> j <> i -> local_at (capture i c) j = local_at c j.
Proof.
  intros H0 Hlen. unfold capture, local_at. simpl.
  rewrite nth_insert_eq by exact Hlen. repeat split.
  intros j Hj Hne. apply nth_insert_ne. lia.
Qed.

(** What [addUpvalue c u] did: the table holds [u] at the index it yields,
    or the table was full without [u], [error] was called and it yields 0. *)
Definition added_upvalue (c : Compiler) (u : Upvalue) (st : State)
    (result : Z * Compiler * State) : Prop :=
  result = addUpvalue c (index u) (isLocal u) st
  /\ (recorded (snd (fst result)) (fst (fst result)) u
      \/ (table_full_without c u /\ fst (fst result) = 0
          /\ snd result = error "Too many closure variable in function." st)).

Lemma added_upvalue_intro c idx isLoc st :
  well_formed c ->
  added_upvalue c (mkUpvalue idx isLoc) st (addUpvalue c idx isLoc st).
Proof.
  intros Hwf. split; [reflexivity|].
  destruct (addUpvalue_spec c idx isLoc st Hwf) as [(H & _)|(H1 & H2 & _ & H3)].
  - left. exact H.
  - right. auto.
Qed.

(** The amended C1: the order in which [namedVariable] resolves a name, in
    a function [c] whose enclosing compilers are [enclosing].
    - The topmost local of [c] with that name, if any, is the result: its
      slot is the operand of [OP_GET_LOCAL]/[OP_SET_LOCAL], and [error] is
      called when its depth is -1.
    - Otherwise the enclosing chain is asked.  A local of the immediate
      parent with that name is marked captured and [addUpvalue] is called
      with (its slot, isLocal = true); failing that, an upvalue the parent
      resolves the name to gives a call of [addUpvalue] with (that index,
      isLocal = false).  After [addUpvalue] the table of [c] holds the pair
      at the index returned, unless the table was full (256 entries, none
      equal), where [error] is called and the index is 0.  That index is the
      operand of [OP_GET_UPVALUE]/[OP_SET_UPVALUE].
    - Otherwise the name is added to the constant pool as a string and the
      constant's index is the operand of [OP_GET_GLOBAL]/[OP_SET_GLOBAL]. *)
Theorem name_resolution_order
  (op : OpCode -> Z) (rec : ExprCall -> M Z) (nm : Token) (st : State)
  (c : Compiler) (enclosing : list Compiler) :
  compilers st = c :: enclosing ->
  Forall well_formed (compilers st) ->
  ((exists slot, topmost_local c nm slot) \/ no_local c nm)
  /\ (forall slot,
     topmost_local c nm slot ->
     resolveLocal c nm st = (slot, read_own_initializer c slot st)
     /\ emits_variable op rec nm st OP_GET_LOCAL OP_SET_LOCAL slot
          (read_own_initializer c slot st))
  /\ (no_local c nm ->
      resolveLocal c nm st = (-1, st)
      /\ (enclosing = [] ->
          resolveUpvalue (c :: enclosing) nm st = (-1, c :: enclosing, st))
      /\ (forall parent outer slot,
            enclosing = parent :: outer ->
            topmost_local parent nm slot ->
            exists up,
              added_upvalue c (mkUpvalue slot true)
                (read_own_initializer parent slot st) up
              /\ resolveUpvalue (c :: enclosing) nm st
                 = (fst (fst up), snd (fst up) :: capture slot parent :: outer,
                    snd up)
              /\ isCaptured (local_at (capture slot parent) slot) = true)
      /\ (forall parent outer,
            enclosing = parent :: outer ->
            no_local parent nm ->
            let inner := resolveUpvalue enclosing nm st in
            (fst (fst inner) = -1 ->
             resolveUpvalue (c :: enclosing) nm st
             = (-1, c :: snd (fst inner), snd inner))
            /\ (fst (fst inner) <> -1 ->
                exists up,
                  added_upvalue c (mkUpvalue (fst (fst inner)) false)
                    (snd inner) up
                  /\ resolveUpvalue (c :: enclosing) nm st
                     = (fst (fst up), snd (fst up) :: snd (fst inner), snd up)))
      /\ (let resolved := resolveUpvalue_current nm st in
          let interned := identifierConstant nm (snd resolved) in
          (fst resolved <> -1 ->
           emits_variable op rec nm st OP_GET_UPVALUE OP_SET_UPVALUE
             (fst resolved) (snd resolved))
          /\ (fst resolved = -1 ->
              emits_variable op rec nm st OP_GET_GLOBAL OP_SET_GLOBAL
                (fst interned) (snd interned)
              /\ interned = makeConstant (OBJ_STRING (start nm)) (snd resolved)))).
Proof.
  intros Hch Hwf.
  assert (Hcur : cur st = c) by (unfold cur; rewrite Hch; reflexivity).
  rewrite Hch in Hwf. pose proof Hwf as Hwf'.
  apply Forall_cons in Hwf' as [Hc Henc].
  split.
  { destruct (resolveLocal_cases c nm st) as [[_ H]|H]; [right; exact H|].
    left. eexists. exact H. }
  split.
  { intros slot Htop.
    pose proof (resolveLocal_found c nm st slot Htop) as Hres.
    split; [exact Hres|].
    apply namedVariable_emit_spec.
    - destruct Htop as (H & _). destruct Hc as (H2 & _).
      unfold UINT8_COUNT in H2. lia.
    - apply current_read_own_initializer.
    - intros canAssign. unfold namedVariable, bind, lift at 1.
      rewrite Hcur, Hres.
      destruct Htop as (H & _).
      destruct (slot =? -1) eqn:E; [lia|]. reflexivity. }
  intros Hno.
  pose proof (resolveLocal_absent c nm st Hno) as Hres.
  split; [exact Hres|].
  split; [intros ->; reflexivity|].
  split.
  { intros parent outer slot -> Htop.
    apply Forall_cons in Henc as [Hp _].
    pose proof (resolveLocal_found parent nm st slot Htop) as Hres2.
    assert (Hslot : 0 <= slot < 256).
    { destruct Htop as (H & _). destruct Hp as (H2 & _).
      unfold UINT8_COUNT in H2. lia. }
    exists (addUpvalue c slot true (read_own_initializer parent slot st)).
    split; [apply (added_upvalue_intro c slot true), Hc|].
    split.
    - simpl. rewrite Hres2.
      destruct (slot =? -1) eqn:E; [lia|]. simpl.
      rewrite (Z.mod_small slot 256) by exact Hslot.
      destruct (addUpvalue c slot true (read_own_initializer parent slot st))
        as [[i c'] st2]. reflexivity.
    - apply captured_capture; [lia|].
      destruct Hp as (_ & Hlen & _). rewrite Hlen. unfold UINT8_COUNT. lia. }
  split.
  { intros parent outer -> Hnop. cbv zeta.
    pose proof (resolveLocal_absent parent nm st Hnop) as Hres2.
    pose proof (resolveUpvalue_range (parent :: outer) nm st Henc) as Hrange.
    cbv zeta in Hrange.
    split.
    - intros Hu. change (resolveUpvalue (c :: parent :: outer) nm st)
        with (let '(local, st1) := resolveLocal parent nm st in
              if negb (local =? -1) then
                let '(i, compiler', st2) := addUpvalue c (local mod 256) true st1 in
                (i, compiler' :: capture local parent :: outer, st2)
              else
                let '(upvalue, enclosing', st2) :=
                  resolveUpvalue (parent :: outer) nm st1 in
                if negb (upvalue =? -1) then
                  let '(i, compiler', st3) :=
                    addUpvalue c (upvalue mod 256) false st2 in
                  (i, compiler' :: enclosing', st3)
                else (-1, c :: enclosing', st2)).
      rewrite Hres2. simpl negb. cbv iota.
      destruct (resolveUpvalue (parent :: outer) nm st) as [[u enclosing'] st2].
      simpl in Hu. subst u. reflexivity.
    - intros Hu.
      exists (addUpvalue c (fst (fst (resolveUpvalue (parent :: outer) nm st))) false
                (snd (resolveUpvalue (parent :: outer) nm st))).
      split; [apply (added_upvalue_intro c _ false), Hc|].
      change (resolveUpvalue (c :: parent :: outer) nm st)
        with (let '(local, st1) := resolveLocal parent nm st in
              if negb (local =? -1) then
                let '(i, compiler', st2) := addUpvalue c (local mod 256) true st1 in
                (i, compiler' :: capture local parent :: outer, st2)
              else
                let '(upvalue, enclosing', st2) :=
                  resolveUpvalue (parent :: outer) nm st1 in
                if negb (upvalue =? -1) then
                  let '(i, compiler', st3) :=
                    addUpvalue c (upvalue mod 256) false st2 in
                  (i, compiler' :: enclosing', st3)
                else (-1, c :: enclosing', st2)).
      rewrite Hres2. simpl negb. cbv iota.
      destruct (resolveUpvalue (parent :: outer) nm st) as [[u enclosing'] st2].
      simpl in Hu, Hrange |- *.
      destruct (u =? -1) eqn:E; [lia|]. simpl.
      rewrite (Z.mod_small u 256) by (unfold UINT8_COUNT in Hrange; lia).
      destruct (addUpvalue c u false st2) as [[i c'] st3]. reflexivity. }
  cbv zeta. split.
  { intros Hr.
    apply namedVariable_emit_spec.
    - pose proof (resolveUpvalue_range (compilers st) nm st) as Hrange.
      rewrite Hch in Hrange. specialize (Hrange Hwf). cbv zeta in Hrange.
      unfold resolveUpvalue_current in *. rewrite Hch in *.
      destruct (resolveUpvalue (c :: enclosing) nm st) as [[i chain] st1].
      simpl in *. unfold UINT8_COUNT in Hrange. lia.
    - apply current_resolveUpvalue_current.
    - intros canAssign. unfold namedVariable, bind, lift, ret.
      rewrite Hcur, Hres. change (negb (-1 =? -1)) with false. cbv beta iota.
      destruct (resolveUpvalue_current nm st) as [i st1]. simpl in Hr.
      destruct (i =? -1) eqn:E; [lia|]. reflexivity. }
  intros Hr. split; [|reflexivity].
  apply namedVariable_emit_spec.
  - pose proof (makeConstant_range (OBJ_STRING (start nm))
                  (snd (resolveUpvalue_current nm st))) as H.
    unfold identifierConstant, UINT8_MAX in *. lia.
  - unfold identifierConstant. rewrite current_makeConstant.
    apply current_resolveUpvalue_current.
  - intros canAssign. unfold namedVariable, bind, lift, ret.
    rewrite Hcur, Hres. change (negb (-1 =? -1)) with false. cbv beta iota.
    destruct (resolveUpvalue_current nm st) as [i st1]. simpl in Hr. subst i.
    change (negb (-1 =? -1)) with false. cbv beta iota. cbn [fst snd].
    destruct (identifierConstant nm st1) as [k st2]. reflexivity.
Qed.

(** * Concrete runs *)

(** A numbering of the opcodes to run examples with: the position in the
    enumeration above. *)
Definition opcode (o : OpCode) : Z :=
  match o with
  | OP_CONSTANT => 0 | OP_NIL => 1 | OP_TRUE => 2 | OP_FALSE => 3 | OP_POP => 4
  | OP_GET_LOCAL => 5 | OP_SET_LOCAL => 6 | OP_GET_GLOBAL => 7
  | OP_DEFINE_GLOBAL => 8 | OP_SET_GLOBAL => 9 | OP_GET_UPVALUE => 10
  | OP_SET_UPVALUE => 11 | OP_GET_PROPERTY => 12 | OP_SET_PROPERTY => 13
  | OP_GET_SUPER => 14 | OP_EQUAL => 15 | OP_GREATER => 16 | OP_LESS => 17
  | OP_ADD => 18 | OP_SUBSTRACT => 19 | OP_MULTIPLY => 20 | OP_DIVIDE => 21
  | OP_NOT => 22 | OP_NEGATE => 23 | OP_PRINT => 24 | OP_JUMP => 25
  | OP_JUMP_IF_FALSE => 26 | OP_LOOP => 27 | OP_CALL => 28 | OP_INVOKE => 29
  | OP_SUPER_INVOKE => 30 | OP_CLOSURE => 31 | OP_CLOSE_UPVALUE => 32
  | OP_RETURN => 33 | OP_CLASS => 34 | OP_INHERIT => 35 | OP_METHOD => 36
  end.

(** A token on line 1. *)
Definition tok (ty : TokenType) (text : string) : Token := mkToken ty text 1.

Definition ident (text : string) : Token := tok TOKEN_IDENTIFIER text.

(** A parser that has just consumed the identifier [x]. *)
Definition after_x (rest : list Token) (next : Token) : State :=
  mkState rest (mkParser next (ident "x") false false) [] [] [].

(** A function [P] that declares [var x] (slot 1), and inside it a function
    [F] whose 256 upvalues are the 256 upvalues of [P]. *)
Definition enclosing_P : Compiler :=
  mkCompiler (mkFunction 0 256 initChunk (Some "P")) TYPE_FUNCTION
    (<[1%nat := mkLocal (ident "x") 1 false]>
       (<[0%nat := mkLocal (syntheticToken "") 0 false]>
          (replicate 256 noLocal)))
    2
    (map (fun k => mkUpvalue (Z.of_nat k) false) (seq 0 256))
    1.

Definition full_F : Compiler :=
  mkCompiler (mkFunction 0 256 initChunk (Some "F")) TYPE_FUNCTION
    (<[0%nat := mkLocal (syntheticToken "") 0 false]> (replicate 256 noLocal))
    1
    (map (fun k => mkUpvalue (Z.of_nat k) false) (seq 0 256))
    1.

Definition reading_x_in_full_F : State :=
  set_compilers [full_F; enclosing_P]
    (after_x [] (tok TOKEN_SEMICOLON ";")).

Lemma well_formed_full_F : well_formed full_F.
Proof. unfold well_formed. simpl. unfold UINT8_COUNT. repeat split; lia. Defined.

Lemma well_formed_enclosing_P : well_formed enclosing_P.
Proof. unfold well_formed. simpl. unfold UINT8_COUNT. repeat split; lia. Defined.

Lemma no_local_x_in_full_F : no_local full_F (ident "x").
Proof.
  intros j Hj. simpl in Hj. assert (j = 0) as -> by lia. reflexivity.
Defined.

Lemma topmost_x_in_enclosing_P : topmost_local enclosing_P (ident "x") 1.
Proof.
  split; [simpl; lia|]. split; [reflexivity|].
  intros j Hj. simpl in Hj. lia.
Defined.

(** C1 as stated fails when the upvalue table is full.  [F] reads [x], a
    local of its parent [P] (slot 1), with 256 other upvalues already in its
    table: the local is found, but no upvalue (1, isLocal = true) is
    recorded; [error] is called and index 0, which holds another upvalue, is
    returned. *)
Lemma full_table_records_no_upvalue :
  let result := resolveUpvalue [full_F; enclosing_P] (ident "x")
                  reading_x_in_full_F in
  let F' := hd noCompiler (snd (fst result)) in
  no_local full_F (ident "x")
  /\ topmost_local enclosing_P (ident "x") 1
  /\ fst (fst result) = 0
  /\ upvalue_at F' 0 = mkUpvalue 0 false
  /\ ~ recorded F' (fst (fst result)) (mkUpvalue 1 true)
  /\ (forall i, ~ recorded F' i (mkUpvalue 1 true))
  /\ diagnostics (snd result)
     = [(ident "x", "Too many closure variable in function.")].
Proof.
  cbv zeta.
  split; [exact no_local_x_in_full_F|].
  split; [exact topmost_x_in_enclosing_P|].
  assert (E : resolveUpvalue [full_F; enclosing_P] (ident "x") reading_x_in_full_F
              = (0, [full_F; capture 1 enclosing_P],
                 error "Too many closure variable in function." reading_x_in_full_F)).
  { vm_compute. reflexivity. }
  rewrite E. cbn [fst snd hd].
  split; [reflexivity|]. split; [reflexivity|].
  assert (Hnone : forall i, ~ recorded full_F i (mkUpvalue 1 true)).
  { intros i [Hi Hu].
    assert (Hscan : addUpvalue_scan full_F 1 true 0 256 = None)
      by (vm_compute; reflexivity).
    apply (addUpvalue_scan_None _ _ _ _ _ Hscan i); [|exact Hu].
    simpl in Hi. lia. }
  split; [apply Hnone|]. split; [exact Hnone|]. reflexivity.
Qed.

(** A program that gets there.  In a block that declares two variables, a
    function [P] declares 254 variables and a function [F], which reads the
    254 variables, [F] itself and the two variables of the block:
    [{ var xlo; var xlp; fun P() { var xaa; ... fun F() { xaa; ... F; xlo;
    xlp; } } }]. *)
Definition var_name (n : nat) : string :=  (* x, then two letters *)
  String (Ascii.ascii_of_nat 120) (String (Ascii.ascii_of_nat (97 + n / 26))
                (String (Ascii.ascii_of_nat (97 + n mod 26)) "")).

Definition declare_var (n : nat) : list Token :=
  [tok TOKEN_VAR "var"; ident (var_name n); tok TOKEN_SEMICOLON ";"].

Definition read_var (n : nat) : list Token :=
  [ident (var_name n); tok TOKEN_SEMICOLON ";"].

Definition many_upvalues : list Token :=
  [tok TOKEN_LEFT_BRACE "{"] ++ declare_var 300 ++ declare_var 301
  ++ [tok TOKEN_FUN "fun"; ident "P"; tok TOKEN_LEFT_PAREN "(";
      tok TOKEN_RIGHT_PAREN ")"; tok TOKEN_LEFT_BRACE "{"]
  ++ concat (map declare_var (seq 0 254))
  ++ [tok TOKEN_FUN "fun"; ident "F"; tok TOKEN_LEFT_PAREN "(";
      tok TOKEN_RIGHT_PAREN ")"; tok TOKEN_LEFT_BRACE "{"]
  ++ concat (map read_var (seq 0 254))
  ++ [ident "F"; tok TOKEN_SEMICOLON ";"] ++ read_var 300 ++ read_var 301
  ++ [tok TOKEN_RIGHT_BRACE "}"; tok TOKEN_RIGHT_BRACE "}";
      tok TOKEN_RIGHT_BRACE "}"; tok TOKEN_EOF ""].

(** The 257th upvalue of [F], for [xlp], finds the table full: the one
    diagnostic is issued there, and the read is emitted as [OP_GET_UPVALUE
    0], after [OP_GET_UPVALUE 255] for [xlo]. *)
Lemma upvalue_overflow_reached :
  exists st' P F,
    runStmt opcode 525 call_compileLoop
      (advance (initCompiler TYPE_SCRIPT (initScanner many_upvalues)))
    = Some (0, st')
    /\ constants (currentChunk st') = [OBJ_FUNCTION P]
    /\ constants (chunk P) = [OBJ_FUNCTION F]
    /\ upvalueCount F = 256
    /\ skipn (length (code (chunk F)) - 8) (code (chunk F))
       = [opcode OP_GET_UPVALUE; 255; opcode OP_POP;
          opcode OP_GET_UPVALUE; 0; opcode OP_POP;
          opcode OP_NIL; opcode OP_RETURN]
    /\ diagnostics st'
       = [(ident "xlp", "Too many closure variable in function.")].
Proof.
  eexists _, _, _. split; [vm_compute; reflexivity|].
  repeat split; reflexivity.
Qed.

Lemma name_resolution_order_witness :
  compilers reading_x_in_full_F = [full_F; enclosing_P]
  /\ Forall well_formed (compilers reading_x_in_full_F)
  /\ (no_local full_F (ident "x") ->
      resolveLocal full_F (ident "x") reading_x_in_full_F
      = (-1, reading_x_in_full_F)).
Proof.
  assert (H1 : compilers reading_x_in_full_F = [full_F; enclosing_P])
    by reflexivity.
  assert (H2 : Forall well_formed (compilers reading_x_in_full_F)).
  { rewrite H1. apply Forall_cons. split; [exact well_formed_full_F|].
    apply Forall_cons. split; [exact well_formed_enclosing_P|apply Forall_nil_2]. }
  split; [exact H1|]. split; [exact H2|].
  intros Hno.
  exact (proj1 (proj2 (proj2 (name_resolution_order opcode (fun _ => noResult)
                                (ident "x") reading_x_in_full_F full_F
                                [enclosing_P] H1 H2)) Hno)).
Defined.

(** [return;] inside an initializer, the [return] just consumed. *)
Definition bare_return_in_init : State :=
  initCompiler TYPE_INITIALIZER
    (mkState [] (mkParser (tok TOKEN_SEMICOLON ";") (tok TOKEN_RETURN "return")
                          false false) [] [] []).

Lemma implicit_return_sequence_witness :
  linked bare_return_in_init
  /\ code (currentChunk (emitReturn opcode bare_return_in_init)) = [5; 0; 33]
  /\ code (chunk (fst (endCompiler opcode bare_return_in_init))) = [5; 0; 33].
Proof.
  assert (H : linked bare_return_in_init) by (unfold linked; simpl; discriminate).
  split; [exact H|].
  destruct (implicit_return_sequence opcode bare_return_in_init H)
    as (_ & _ & H1 & H2 & _).
  split; [exact H1|exact H2].
Defined.

(** A chunk that holds [OP_JUMP_IF_FALSE 0xff 0xff OP_POP]. *)
Definition jump_pending : State :=
  emitByte (opcode OP_POP)
    (snd (emitJump (opcode OP_JUMP_IF_FALSE)
            (initCompiler TYPE_SCRIPT (initScanner [])))).

Lemma forward_jump_emitted_then_patched_witness :
  linked jump_pending
  /\ 0 <= 1
  /\ 1 + 1 < count (currentChunk jump_pending)
  /\ code (currentChunk jump_pending) = [26; 255; 255; 4]
  /\ code (currentChunk (patchJump 1 jump_pending)) !! 1%nat = Some 0
  /\ code (currentChunk (patchJump 1 jump_pending)) !! 2%nat = Some 1.
Proof.
  assert (H : linked jump_pending) by (unfold linked; simpl; discriminate).
  assert (H0 : 0 <= 1) by lia.
  assert (H1 : 1 + 1 < count (currentChunk jump_pending)) by (vm_compute; reflexivity).
  split; [exact H|]. split; [exact H0|]. split; [exact H1|].
  split; [reflexivity|].
  destruct (forward_jump_emitted_then_patched (opcode OP_JUMP) 1 jump_pending H H0 H1)
    as (_ & _ & _ & H2 & H3 & _).
  split; [exact H2|exact H3].
Defined.

(** Inside [{ var x = x; }]: [x] is declared (slot 1, depth -1), the parser
    has consumed the second [x] and looks at [;]. *)
Definition reading_x_in_own_initializer : State :=
  addLocal (ident "x")
    (beginScope
       (initCompiler TYPE_SCRIPT (after_x [] (tok TOKEN_SEMICOLON ";")))).

Lemma uninitialized_local_still_resolved_witness :
  linked reading_x_in_own_initializer
  /\ localCount (cur reading_x_in_own_initializer) <= UINT8_COUNT
  /\ topmost_local (cur reading_x_in_own_initializer) (ident "x") 1
  /\ depth (local_at (cur reading_x_in_own_initializer) 1) = -1
  /\ resolveLocal (cur reading_x_in_own_initializer) (ident "x")
       reading_x_in_own_initializer
     = (1, error "Can't read local variable in its own initializer."
             reading_x_in_own_initializer).
Proof.
  assert (H : linked reading_x_in_own_initializer)
    by (unfold linked; simpl; discriminate).
  assert (H0 : localCount (cur reading_x_in_own_initializer) <= UINT8_COUNT)
    by (vm_compute; discriminate).
  assert (H1 : topmost_local (cur reading_x_in_own_initializer) (ident "x") 1).
  { split; [simpl; lia|]. split; [reflexivity|]. intros j Hj. simpl in Hj. lia. }
  assert (H2 : depth (local_at (cur reading_x_in_own_initializer) 1) = -1)
    by reflexivity.
  split; [exact H|]. split; [exact H0|]. split; [exact H1|]. split; [exact H2|].
  exact (proj1 (uninitialized_local_still_resolved opcode (fun _ => noResult)
                  (ident "x") 1 reading_x_in_own_initializer H H0 H1 H2)).
Defined.

Lemma index_overflow_yields_zero_witness :
  linked reading_x_in_full_F
  /\ addUpvalue full_F 1 true reading_x_in_full_F
     = (0, full_F,
        error "Too many closure variable in function." reading_x_in_full_F).
Proof.
  assert (H : linked reading_x_in_full_F) by (unfold linked; simpl; discriminate).
  split; [exact H|].
  destruct (index_overflow_yields_zero opcode reading_x_in_full_F H) as (_ & H1 & _).
  apply H1; vm_compute; reflexivity.
Defined.

(** * Counting call arguments *)

(** The [do..while] of [argumentList] with the arguments counted in an
    unbounded integer [n] (the number of arguments parsed so far) instead of
    the [uint8_t]; the test of the source, [argCount == 255], is on the low
    byte of [n]. *)
Definition countingLoop (expr : M Z) (rec : Z -> M Z) (n : Z) : M Z :=
  expr ;;
  when (n mod 256 =? 255) (error "Can't have more than 255 arguments.") ;;
  more <- lift (match_ TOKEN_COMMA) ;;
  if more then rec (n + 1) else ret (n + 1).

Fixpoint countArguments (op : OpCode -> Z) (fuel : nat) (n : Z) : M Z :=
  match fuel with
  | O => noResult
  | S fuel' =>
      countingLoop (runExpr op fuel' (call_parsePrecendence PREC_ASSIGNMENT))
                   (countArguments op fuel') n
  end.

(** The result with the count cut to a byte. *)
Definition low_byte_of (r : option (Z * State)) : option (Z * State) :=
  match r with
  | Some (n, st) => Some (n mod 256, st)
  | None => None
  end.

Lemma argumentLoop_counts op fuel n st :
  runExpr op fuel (call_argumentLoop (n mod 256)) st
  = low_byte_of (countArguments op fuel n st).
Proof.
  revert n st. induction fuel as [|fuel IH]; intros n st; [reflexivity|].
  simpl. unfold argumentLoop, countingLoop, expression, bind.
  destruct (runExpr op fuel (call_parsePrecendence PREC_ASSIGNMENT) st)
    as [[r st1]|]; [|reflexivity].
  destruct (when (n mod 256 =? 255) (error "Can't have more than 255 arguments.") st1)
    as [[u st2]|]; [|reflexivity].
  unfold lift. destruct (match_ TOKEN_COMMA st2) as [more st3].
  rewrite Zplus_mod_idemp_l.
  destruct more; [apply IH|reflexivity].
Qed.

Lemma countArguments_positive op fuel n st r st' :
  countArguments op fuel n st = Some (r, st') -> n < r.
Proof.
  revert n st. induction fuel as [|fuel IH]; intros n st; [discriminate|].
  simpl. unfold countingLoop. intros H.
  apply bind_Some in H as (? & st1 & _ & H).
  apply bind_Some in H as (? & st2 & _ & H).
  apply bind_Some in H as (more & st3 & _ & H).
  destruct more.
  - apply IH in H. lia.
  - inversion H. lia.
Qed.

(** With enough fuel the counting loop returns. *)
Lemma countArguments_returns op n st :
  exists fuel0,
    forall fuel, (fuel0 <= fuel)%nat ->
    exists r st', countArguments op fuel n st = Some (r, st').
Proof.
  destruct (expressions_return_all op (ahead st)) as (_ & _ & H).
  destruct (H (n mod 256) st) as (fuel0 & a & st' & Hrun & _);
    [unfold bounded; lia|].
  exists fuel0. intros fuel Hf. specialize (Hrun fuel Hf).
  rewrite argumentLoop_counts in Hrun.
  destruct (countArguments op fuel n st) as [[r st1]|]; [|discriminate].
  exists r, st1. reflexivity.
Qed.

(** C10: [argumentList] counts in a byte.  Its loop, started with the low
    byte of [n], runs exactly as the loop that counts the parsed arguments
    without bound, and returns that count modulo 256; the diagnostic is
    issued, and parsing goes on, when the byte is 255 before the
    increment.  So [call], after [n >= 1] parsed arguments, emits
    [OP_CALL] followed by [n mod 256].  The counting loop returns from any
    state once the fuel is enough. *)
Theorem argument_count_wraps (op : OpCode -> Z) (fuel : nat) (st : State) :
  (forall n,
     runExpr op fuel (call_argumentLoop (n mod 256)) st
     = low_byte_of (countArguments op fuel n st))
  /\ (forall n st1 canAssign,
        check TOKEN_RIGHT_PAREN st = false ->
        countArguments op fuel 0 st = Some (n, st1) ->
        1 <= n
        /\ call op (runExpr op fuel) canAssign st
           = Some (0, emitBytes (op OP_CALL) (n mod 256)
                        (consume TOKEN_RIGHT_PAREN "Expect ')' after arguments." st1)))
  /\ (forall canAssign,
        check TOKEN_RIGHT_PAREN st = true ->
        call op (runExpr op fuel) canAssign st
        = Some (0, emitBytes (op OP_CALL) 0 (advance st)))
  /\ (exists fuel0,
        forall fuel', (fuel0 <= fuel')%nat ->
        exists n st1, countArguments op fuel' 0 st = Some (n, st1)).
Proof.
  split; [intros n; apply argumentLoop_counts|].
  split.
  { intros n st1 canAssign Hchk Hcount.
    split; [apply countArguments_positive in Hcount; lia|].
    unfold call, argumentList, bind, get, exec, ret. rewrite Hchk. simpl.
    change 0 with (0 mod 256) at 1.
    rewrite argumentLoop_counts, Hcount. reflexivity. }
  split; [|apply countArguments_returns].
  intros canAssign Hchk.
  unfold call, argumentList, bind, get, exec, ret. rewrite Hchk. simpl.
  unfold consume. unfold check in Hchk.
  destruct (type (current (parser st))); try discriminate. reflexivity.
Qed.

(** [f(nil, ..., nil);] with [n >= 1] arguments. *)
Definition call_with_nils (n : nat) : list Token :=
  [ident "f"; tok TOKEN_LEFT_PAREN "("]
  ++ concat (replicate (n - 1) [tok TOKEN_NIL "nil"; tok TOKEN_COMMA ","])
  ++ [tok TOKEN_NIL "nil"; tok TOKEN_RIGHT_PAREN ")"; tok TOKEN_SEMICOLON ";";
      tok TOKEN_EOF ""].

(** What a run of [compile] shows: the code and the constants of the
    script, whether it was returned, and stderr. *)
Definition outcome (r : option (option ObjFunction * State))
  : option (option (list Z * list Value) * list (Token * string)) :=
  match r with
  | None => None
  | Some (f, st) =>
      Some (option_map (fun f : ObjFunction => (code (chunk f), constants (chunk f))) f,
            diagnostics st)
  end.

(** * More fuel, same result *)

(** [m'] returns whatever [m] returns. *)
Definition extends {A} (m m' : M A) : Prop :=
  forall st r, m st = Some r -> m' st = Some r.

Lemma extends_refl {A} (m : M A) : extends m m.
Proof. intros st r H. exact H. Qed.

Lemma extends_bind {A B} (m m' : M A) (k k' : A -> M B) :
  extends m m' -> (forall a, extends (k a) (k' a)) ->
  extends (bind m k) (bind m' k').
Proof.
  intros Hm Hk st [b st'] H.
  apply bind_Some in H as (a & st1 & H1 & H2).
  unfold bind. rewrite (Hm _ _ H1). apply Hk, H2.
Qed.

Ltac extends_step :=
  match goal with
  | |- extends (bind _ _) (bind _ _) => apply extends_bind; [|intros ?]
  | |- extends (if ?b then _ else _) (if ?b then _ else _) => destruct b
  | |- extends (match ?x with _ => _ end) (match ?x with _ => _ end) => destruct x
  | |- extends ?m ?m => apply extends_refl
  end.

Section MoreFuelExpressions.

Variable op : OpCode -> Z.
Variables rec rec' : ExprCall -> M Z.
Hypothesis rec_extends : forall c, extends (rec c) (rec' c).

Ltac go := repeat extends_step; try apply rec_extends; auto.

Lemma extends_argumentList : extends (argumentList rec) (argumentList rec').
Proof. unfold argumentList. go. Qed.

Lemma extends_namedVariable nm canAssign :
  extends (namedVariable op rec nm canAssign) (namedVariable op rec' nm canAssign).
Proof. unfold namedVariable, expression. go. Qed.

Lemma extends_callParseFn fn canAssign :
  extends (callParseFn op rec fn canAssign) (callParseFn op rec' fn canAssign).
Proof.
  pose proof extends_argumentList.
  pose proof extends_namedVariable.
  destruct fn; simpl;
    unfold grouping, call, dot, unary, binary, variable, string_, number, and_,
           literal, or_, super_, this_, variable, expression;
    go.
Qed.

Lemma extends_exprStep c : extends (exprStep op rec c) (exprStep op rec' c).
Proof.
  pose proof extends_callParseFn.
  destruct c; simpl; unfold parsePrecendence, infixLoop, argumentLoop, expression;
    go.
Qed.

End MoreFuelExpressions.

Lemma runExpr_more_fuel op fuel fuel' c :
  (fuel <= fuel')%nat -> extends (runExpr op fuel c) (runExpr op fuel' c).
Proof.
  revert fuel' c. induction fuel as [|fuel IH]; intros fuel' c Hle.
  - intros st r H. discriminate.
  - destruct fuel' as [|fuel']; [lia|]. simpl.
    apply extends_exprStep. intros c'. apply IH. lia.
Qed.

Section MoreFuelStatements.

Variable op : OpCode -> Z.
Variables expr expr' : ExprCall -> M Z.
Variables rec rec' : StmtCall -> M Z.
Hypothesis expr_extends : forall c, extends (expr c) (expr' c).
Hypothesis rec_extends : forall c, extends (rec c) (rec' c).

Ltac go :=
  repeat extends_step; try apply rec_extends; try apply expr_extends;
  try (apply extends_namedVariable; exact expr_extends); auto.

Lemma extends_block : extends (block rec) (block rec').
Proof. unfold block. go. Qed.

Lemma extends_function_ ty : extends (function_ op rec ty) (function_ op rec' ty).
Proof. pose proof extends_block. unfold function_. go. Qed.

Lemma extends_varDeclaration :
  extends (varDeclaration op expr) (varDeclaration op expr').
Proof. unfold varDeclaration, expression. go. Qed.

Lemma extends_expressionStatement :
  extends (expressionStatement op expr) (expressionStatement op expr').
Proof. unfold expressionStatement, expression. go. Qed.

Lemma extends_stmtStep c :
  extends (stmtStep op expr rec c) (stmtStep op expr' rec' c).
Proof.
  pose proof extends_block.
  pose proof extends_function_.
  pose proof extends_varDeclaration.
  pose proof extends_expressionStatement.
  destruct c; simpl;
    unfold declaration_, statement_, blockLoop, parameterLoop, methodLoop,
           synchronizeLoop, compileLoop, classDeclaration, funDeclaration,
           forStatement, ifStatement, printStatement, returnStatement,
           whileStatement, synchronize, method, declaration, statement,
           variable, expression;
    go.
Qed.

End MoreFuelStatements.

Lemma runStmt_more_fuel op fuel fuel' c :
  (fuel <= fuel')%nat -> extends (runStmt op fuel c) (runStmt op fuel' c).
Proof.
  revert fuel' c. induction fuel as [|fuel IH]; intros fuel' c Hle.
  - intros st r H. discriminate.
  - destruct fuel' as [|fuel']; [lia|]. simpl.
    apply extends_stmtStep.
    + intros c'. apply runExpr_more_fuel. lia.
    + intros c'. apply IH. lia.
Qed.

(** Fuel is only fuel: a result of [compile] is its result with any larger
    amount. *)
Lemma compile_more_fuel op fuel fuel' source r :
  (fuel <= fuel')%nat ->
  compile op fuel source = Some r -> compile op fuel' source = Some r.
Proof.
  intros Hle. unfold compile.
  set (st0 := advance _).
  destruct (runStmt op fuel call_compileLoop st0) as [[z st1]|] eqn:E; [|discriminate].
  rewrite (runStmt_more_fuel op fuel fuel' _ Hle _ _ E). auto.
Qed.

(** * Two scenarios *)

(** The tokens of [var a = 3; print a;]. *)
Definition global_var_source : list Token :=
  [tok TOKEN_VAR "var"; ident "a"; tok TOKEN_EQUAL "="; tok TOKEN_NUMBER "3";
   tok TOKEN_SEMICOLON ";";
   tok TOKEN_PRINT "print"; ident "a"; tok TOKEN_SEMICOLON ";";
   tok TOKEN_EOF ""].

(** The tokens of [a + b = c;]. *)
Definition invalid_assignment_source : list Token :=
  [ident "a"; tok TOKEN_PLUS "+"; ident "b"; tok TOKEN_EQUAL "="; ident "c";
   tok TOKEN_SEMICOLON ";"; tok TOKEN_EOF ""].

(** C4: [var a = 3; print a;] compiles, with enough fuel, to the script
    [OP_CONSTANT 1; OP_DEFINE_GLOBAL 0; OP_GET_GLOBAL 2; OP_PRINT; OP_NIL;
    OP_RETURN] over the constants ["a"; 3; "a"]: the name is interned when
    the declaration is parsed, the number when the initializer is, and the
    name once more for its use. *)
Theorem global_var_scenario (op : OpCode -> Z) (fuel : nat) :
  (6 <= fuel)%nat ->
  exists st,
    compile op fuel global_var_source
    = Some (Some (mkFunction 0 0
                    (mkChunk [op OP_CONSTANT; 1; op OP_DEFINE_GLOBAL; 0;
                              op OP_GET_GLOBAL; 2; op OP_PRINT;
                              op OP_NIL; op OP_RETURN]
                             [1; 1; 1; 1; 1; 1; 1; 1; 1]
                             [OBJ_STRING "a"; NUMBER_VAL "3"; OBJ_STRING "a"])
                    None),
            st)
    /\ diagnostics st = []
    /\ hadError (parser st) = false.
Proof.
  intros Hle. eexists. split.
  - apply (compile_more_fuel op 6 fuel); [exact Hle|]. vm_compute. reflexivity.
  - split; reflexivity.
Qed.

Lemma global_var_scenario_witness :
  (6 <= 6)%nat
  /\ exists st,
       outcome (compile opcode 6 global_var_source)
       = Some (Some ([0; 1; 8; 0; 7; 2; 24; 1; 33],
                     [OBJ_STRING "a"; NUMBER_VAL "3"; OBJ_STRING "a"]), [])
       /\ diagnostics st = [].
Proof.
  assert (H : (6 <= 6)%nat) by lia.
  split; [exact H|].
  destruct (global_var_scenario opcode 6 H) as (st & H1 & H2 & _).
  exists st. rewrite H1. simpl. rewrite H2. split; reflexivity.
Defined.

(** C7 on the code: after the infix loop of [parsePrecendence], with
    [canAssign] set and [=] as the current token, the [=] is consumed and
    [error] is called; the message it is called with is spelt "Invalid
    assignement target.".  So [a + b = c;] does not compile; [hadError] is
    set, and stderr holds that one diagnostic, at the [=].  ([error] prints
    and sets [hadError] unless the parser is already in panic mode.) *)
Theorem invalid_assignment_target_as_spelt (op : OpCode -> Z) :
  (forall rec prec st prefixRule r1 st1 r2 st2,
     prec <= PREC_ASSIGNMENT ->
     prefix (getRule (type (previous (parser (advance st))))) = Some prefixRule ->
     callParseFn op rec prefixRule true (advance st) = Some (r1, st1) ->
     rec (call_infixLoop prec true) st1 = Some (r2, st2) ->
     check TOKEN_EQUAL st2 = true ->
     parsePrecendence op rec prec st
     = Some (0, error "Invalid assignement target." (advance st2)))
  /\ (forall st,
        panicMode (parser st) = false ->
        diagnostics (error "Invalid assignement target." st)
        = diagnostics st ++ [(previous (parser st), "Invalid assignement target.")]
        /\ hadError (parser (error "Invalid assignement target." st)) = true
        /\ panicMode (parser (error "Invalid assignement target." st)) = true)
  /\ (forall fuel,
        (7 <= fuel)%nat ->
        exists st,
          compile op fuel invalid_assignment_source = Some (None, st)
          /\ hadError (parser st) = true
          /\ diagnostics st
             = [(tok TOKEN_EQUAL "=", "Invalid assignement target.")])
  /\ "Invalid assignement target." <> "Invalid assignment target.".
Proof.
  split; [|split; [|split]].
  - intros rec prec st prefixRule r1 st1 r2 st2 Hprec Hrule Hprefix Hloop Heq.
    unfold parsePrecendence, bind, exec, get, ret.
    rewrite Hrule.
    assert (E : (prec <=? PREC_ASSIGNMENT) = true) by (apply Z.leb_le, Hprec).
    rewrite E, Hprefix, Hloop.
    unfold and_match, lift, match_, when, exec. rewrite Heq. reflexivity.
  - intros st. apply error_spec.
  - intros fuel Hle. eexists. split.
    + apply (compile_more_fuel op 7 fuel); [exact Hle|]. vm_compute. reflexivity.
    + split; reflexivity.
  - discriminate.
Qed.

Lemma invalid_assignment_target_as_spelt_witness :
  (7 <= 7)%nat
  /\ outcome (compile opcode 7 invalid_assignment_source)
     = Some (None, [(tok TOKEN_EQUAL "=", "Invalid assignement target.")]).
Proof.
  assert (H : (7 <= 7)%nat) by lia.
  split; [exact H|].
  destruct (proj1 (proj2 (proj2 (invalid_assignment_target_as_spelt opcode)))
              7%nat H)
    as (st & H1 & _ & H2).
  rewrite H1. simpl. rewrite H2. reflexivity.
Defined.

(** [f(] followed by [n] arguments [nil], as [call] finds the parser: the
    [(] consumed. *)
Definition in_call (n : nat) : State :=
  advance (advance (advance
    (initCompiler TYPE_SCRIPT (initScanner (call_with_nils n))))).

Lemma argument_count_wraps_witness :
  check TOKEN_RIGHT_PAREN (in_call 256) = false
  /\ exists st1,
       countArguments opcode 300 0 (in_call 256) = Some (256, st1)
       /\ diagnostics st1
          = [(tok TOKEN_NIL "nil", "Can't have more than 255 arguments.")]
       /\ call opcode (runExpr opcode 300) false (in_call 256)
          = Some (0, emitBytes (opcode OP_CALL) 0
                       (consume TOKEN_RIGHT_PAREN "Expect ')' after arguments." st1)).
Proof.
  assert (H : check TOKEN_RIGHT_PAREN (in_call 256) = false) by reflexivity.
  split; [exact H|].
  eexists. split; [vm_compute; reflexivity|].
  split; [reflexivity|].
  refine (proj2 (proj1 (proj2 (argument_count_wraps opcode 300 (in_call 256)))
                   256 _ false H _)).
  vm_compute. reflexivity.
Defined.

(** * Scope depth 0 *)

(** What the scope bookkeeping of a compiler consists of: the scope depth,
    the number of locals and their depths. *)
Definition skeleton (c : Compiler) : Z * Z * list Z :=
  (scopeDepth c, localCount c, map depth (locals c)).

Definition shape (st : State) : list (Z * Z * list Z) :=
  map skeleton (compilers st).

(** ** Expressions leave the shape alone *)

Lemma shape_with_current g st :
  (forall c, skeleton (g c) = skeleton c) -> shape (with_current g st) = shape st.
Proof.
  intros Hg. unfold shape, with_current.
  destruct (compilers st) as [|c cs] eqn:E; [rewrite E; reflexivity|].
  simpl. rewrite Hg. reflexivity.
Qed.

Lemma shape_with_currentChunk g st : shape (with_currentChunk g st) = shape st.
Proof. apply shape_with_current. reflexivity. Qed.

Lemma shape_error msg st : shape (error msg st) = shape st.
Proof. unfold shape. rewrite compilers_error. reflexivity. Qed.

Lemma shape_errorAtCurrent msg st : shape (errorAtCurrent msg st) = shape st.
Proof. unfold shape. rewrite compilers_errorAtCurrent. reflexivity. Qed.

Lemma shape_advance st : shape (advance st) = shape st.
Proof. unfold shape. rewrite compilers_advance. reflexivity. Qed.

Lemma shape_consume ty msg st : shape (consume ty msg st) = shape st.
Proof. unfold shape. rewrite compilers_consume. reflexivity. Qed.

Lemma shape_match ty st : shape (snd (match_ ty st)) = shape st.
Proof. unfold shape. rewrite compilers_match. reflexivity. Qed.

Lemma shape_emitByte byte st : shape (emitByte byte st) = shape st.
Proof. apply shape_with_currentChunk. Qed.

Lemma shape_emitBytes b1 b2 st : shape (emitBytes b1 b2 st) = shape st.
Proof. unfold emitBytes. rewrite !shape_emitByte. reflexivity. Qed.

Lemma shape_emitJump i st : shape (snd (emitJump i st)) = shape st.
Proof. unfold emitJump. simpl. rewrite !shape_emitByte. reflexivity. Qed.

Lemma shape_emitLoop op loopStart st : shape (emitLoop op loopStart st) = shape st.
Proof.
  unfold emitLoop. rewrite !shape_emitByte.
  destruct (_ >? _); [rewrite shape_error|]; apply shape_emitByte.
Qed.

Lemma shape_emitReturn op st : shape (emitReturn op st) = shape st.
Proof.
  unfold emitReturn. rewrite shape_emitByte.
  destruct (FunctionType_eqb _ _); [apply shape_emitBytes|apply shape_emitByte].
Qed.

Lemma shape_makeConstant v st : shape (snd (makeConstant v st)) = shape st.
Proof.
  unfold makeConstant. destruct (_ >? _); simpl;
    [rewrite shape_error|]; apply shape_with_currentChunk.
Qed.

Lemma shape_identifierConstant nm st :
  shape (snd (identifierConstant nm st)) = shape st.
Proof. apply shape_makeConstant. Qed.

Lemma shape_emitConstant op v st : shape (emitConstant op v st) = shape st.
Proof.
  unfold emitConstant. pose proof (shape_makeConstant v st) as H.
  destruct (makeConstant v st) as [k st1]. simpl in H.
  rewrite shape_emitBytes. exact H.
Qed.

Lemma shape_patchJump offset st : shape (patchJump offset st) = shape st.
Proof.
  unfold patchJump. rewrite !shape_with_currentChunk.
  destruct (_ >? _); [apply shape_error|reflexivity].
Qed.

Lemma shape_resolveLocal c nm st : shape (snd (resolveLocal c nm st)) = shape st.
Proof. unfold shape. rewrite compilers_resolveLocal. reflexivity. Qed.

Lemma skeleton_addUpvalue c idx b st :
  skeleton (snd (fst (addUpvalue c idx b st))) = skeleton c.
Proof.
  unfold addUpvalue. destruct (addUpvalue_scan _ _ _ _ _); [reflexivity|].
  destruct (_ =? _); reflexivity.
Qed.

Lemma map_insert_same {A B} (f : A -> B) (l : list A) (i : nat) (x d : A) :
  f x = f (nth i l d) -> (i < length l)%nat -> map f (<[i := x]> l) = map f l.
Proof.
  intros Hx. revert i Hx. induction l as [|a l IH]; intros i Hx Hi; [reflexivity|].
  destruct i as [|i]; simpl in *.
  - rewrite Hx. reflexivity.
  - f_equal. apply IH; [exact Hx|lia].
Qed.

Lemma skeleton_capture c i : skeleton (capture i c) = skeleton c.
Proof.
  unfold capture, skeleton, local_at. simpl. f_equal.
  destruct (Nat.lt_ge_cases (Z.to_nat i) (length (locals c))) as [Hlt|Hge].
  - apply (map_insert_same depth _ _ _ noLocal); [reflexivity|exact Hlt].
  - rewrite list_insert_ge by exact Hge. reflexivity.
Qed.

Lemma map_skeleton_resolveUpvalue chain nm st :
  map skeleton (snd (fst (resolveUpvalue chain nm st))) = map skeleton chain.
Proof.
  revert st. induction chain as [|c enclosing IH]; intros st; [reflexivity|].
  simpl. destruct enclosing as [|parent outer]; [reflexivity|].
  destruct (resolveLocal parent nm st) as [local st1].
  destruct (negb (local =? -1)).
  - pose proof (skeleton_addUpvalue c (local mod 256) true st1) as E.
    destruct (addUpvalue c (local mod 256) true st1) as [[i c'] st2].
    simpl in *. rewrite E, skeleton_capture. reflexivity.
  - specialize (IH st1).
    destruct (resolveUpvalue (parent :: outer) nm st1) as [[up enclosing'] st2].
    simpl in IH.
    destruct (negb (up =? -1)); [|simpl; rewrite IH; reflexivity].
    pose proof (skeleton_addUpvalue c (up mod 256) false st2) as E.
    destruct (addUpvalue c (up mod 256) false st2) as [[i c'] st3].
    simpl in *. rewrite E, IH. reflexivity.
Qed.

Lemma shape_resolveUpvalue_current nm st :
  shape (snd (resolveUpvalue_current nm st)) = shape st.
Proof.
  unfold resolveUpvalue_current, shape.
  pose proof (map_skeleton_resolveUpvalue (compilers st) nm st) as E.
  destruct (resolveUpvalue (compilers st) nm st) as [[i chain] st1]. exact E.
Qed.

(** A property of the shape alone. *)
Definition on_shape (Q : list (Z * Z * list Z) -> Prop) (st : State) : Prop :=
  Q (shape st).

Lemma stable_on_shape Q f :
  (forall st, shape (f st) = shape st) -> stable (on_shape Q) f.
Proof. intros Hf st H. unfold on_shape. rewrite Hf. exact H. Qed.

Create HintDb shape.
#[local] Hint Resolve shape_error shape_errorAtCurrent shape_advance
  shape_consume shape_match shape_emitByte shape_emitBytes shape_emitJump
  shape_emitLoop shape_emitReturn shape_makeConstant shape_identifierConstant
  shape_emitConstant shape_patchJump shape_resolveLocal
  shape_resolveUpvalue_current : shape.

Ltac stable_shape :=
  lazymatch goal with |- stable (on_shape _) _ => idtac end;
  apply stable_on_shape;
  let st := fresh "st" in
  intros st; cbn beta;
  repeat match goal with
         | |- shape (match ?x with _ => _ end) = _ => destruct x
         end;
  eauto with shape.

Lemma keeps_shape_and_match Q flag ty : keeps (on_shape Q) (and_match flag ty).
Proof.
  destruct flag; simpl; [|apply keeps_ret].
  apply keeps_lift. apply (stable_on_shape Q (fun st => snd (match_ ty st))).
  apply shape_match.
Qed.

Ltac keeps_shape_step :=
  match goal with
  | |- keeps _ (and_match _ _) => apply keeps_shape_and_match
  | _ => keeps_step
  end.

Section ShapeExpressions.

Variable op : OpCode -> Z.
Variable Q : list (Z * Z * list Z) -> Prop.
Variable rec : ExprCall -> M Z.
Hypothesis rec_shape : forall c, keeps (on_shape Q) (rec c).

Ltac go := repeat keeps_shape_step; try apply rec_shape; try stable_shape; auto.

Lemma keeps_shape_argumentList : keeps (on_shape Q) (argumentList rec).
Proof. unfold argumentList. go. Qed.

Lemma keeps_shape_namedVariable nm canAssign :
  keeps (on_shape Q) (namedVariable op rec nm canAssign).
Proof. unfold namedVariable, expression. go. Qed.

Lemma keeps_shape_callParseFn fn canAssign :
  keeps (on_shape Q) (callParseFn op rec fn canAssign).
Proof.
  pose proof keeps_shape_argumentList.
  pose proof keeps_shape_namedVariable.
  destruct fn; simpl;
    unfold grouping, call, dot, unary, binary, variable, string_, number, and_,
           literal, or_, super_, this_, variable, expression;
    go.
Qed.

Lemma keeps_shape_exprStep c : keeps (on_shape Q) (exprStep op rec c).
Proof.
  pose proof keeps_shape_callParseFn.
  destruct c; simpl; unfold parsePrecendence, infixLoop, argumentLoop, expression;
    go.
Qed.

End ShapeExpressions.

(** No expression changes a scope depth, a number of locals or the depth of
    a local, in any compiler of the chain. *)
Lemma keeps_shape_runExpr op Q fuel c : keeps (on_shape Q) (runExpr op fuel c).
Proof.
  revert c. induction fuel as [|fuel IH]; intros c; simpl.
  - apply keeps_noResult.
  - apply keeps_shape_exprStep. exact IH.
Qed.

(** ** What the scope operations do to the shape *)

Definition on_head {A} (f : A -> A) (l : list A) : list A :=
  match l with
  | [] => []
  | x :: rest => f x :: rest
  end.

Definition depth_at (ds : list Z) (i : Z) : Z := nth (Z.to_nat i) ds 0.

Definition begin_skeleton (s : Z * Z * list Z) : Z * Z * list Z :=
  let '(sd, lc, ds) := s in (sd + 1, lc, ds).

Definition add_skeleton (s : Z * Z * list Z) : Z * Z * list Z :=
  let '(sd, lc, ds) := s in
  if lc =? UINT8_COUNT then s else (sd, lc + 1, <[Z.to_nat lc := -1]> ds).

Definition declare_skeleton (s : Z * Z * list Z) : Z * Z * list Z :=
  let '(sd, lc, ds) := s in if sd =? 0 then s else add_skeleton s.

Definition mark_skeleton (s : Z * Z * list Z) : Z * Z * list Z :=
  let '(sd, lc, ds) := s in
  if sd =? 0 then s else (sd, lc, <[Z.to_nat (lc - 1) := sd]> ds).

Definition define_skeleton (s : Z * Z * list Z) : Z * Z * list Z :=
  let '(sd, lc, ds) := s in if sd >? 0 then mark_skeleton s else s.

Fixpoint pop_skeleton (n : nat) (sd lc : Z) (ds : list Z) : Z :=
  match n with
  | O => lc
  | S n' =>
      if (lc >? 0) && (depth_at ds (lc - 1) >? sd)
      then pop_skeleton n' sd (lc - 1) ds
      else lc
  end.

Definition end_skeleton (s : Z * Z * list Z) : Z * Z * list Z :=
  let '(sd, lc, ds) := s in
  (sd - 1, pop_skeleton (Z.to_nat lc) (sd - 1) lc ds, ds).

Definition init_skeleton : Z * Z * list Z := (0, 1, replicate 256 0).

Lemma shape_on_head g f st :
  (forall c, skeleton (g c) = f (skeleton c)) ->
  shape (with_current g st) = on_head f (shape st).
Proof.
  intros Hg. unfold shape, with_current.
  destruct (compilers st) as [|c cs] eqn:E; [rewrite E; reflexivity|].
  simpl. rewrite Hg. reflexivity.
Qed.

Lemma depth_local_at c i : depth (local_at c i) = depth_at (map depth (locals c)) i.
Proof.
  unfold local_at, depth_at. change 0 with (depth noLocal).
  rewrite map_nth. reflexivity.
Qed.

Lemma shape_beginScope st : shape (beginScope st) = on_head begin_skeleton (shape st).
Proof. apply shape_on_head. reflexivity. Qed.

Lemma shape_addLocal nm st : shape (addLocal nm st) = on_head add_skeleton (shape st).
Proof.
  unfold addLocal.
  destruct (compilers st) as [|c cs] eqn:E.
  - unfold cur. rewrite E. simpl. unfold shape, with_current. rewrite E.
    simpl. rewrite E. reflexivity.
  - assert (Hcur : cur st = c) by (unfold cur; rewrite E; reflexivity).
    rewrite Hcur. unfold shape at 2. rewrite E. simpl.
    unfold skeleton at 1, add_skeleton.
    destruct (localCount c =? UINT8_COUNT).
    + rewrite shape_error. unfold shape. rewrite E. reflexivity.
    + unfold shape, with_current. rewrite E. simpl. unfold skeleton at 1. simpl.
      rewrite list_fmap_insert. reflexivity.
Qed.

Lemma shape_declareVariable st :
  shape (declareVariable st) = on_head declare_skeleton (shape st).
Proof.
  unfold declareVariable.
  destruct (compilers st) as [|c cs] eqn:E.
  - unfold cur, shape. rewrite E. simpl. rewrite E. reflexivity.
  - assert (Hcur : cur st = c) by (unfold cur; rewrite E; reflexivity).
    rewrite Hcur. unfold shape at 2. rewrite E. simpl.
    destruct (scopeDepth c =? 0) eqn:Ed.
    + unfold shape. rewrite E. reflexivity.
    + rewrite shape_addLocal. unfold shape.
      rewrite compilers_declareVariable_loop, E. reflexivity.
Qed.

Lemma shape_markInitialized st :
  shape (markInitialized st) = on_head mark_skeleton (shape st).
Proof.
  unfold markInitialized.
  destruct (compilers st) as [|c cs] eqn:E.
  - unfold cur, shape, with_current. rewrite E. simpl. rewrite E. reflexivity.
  - assert (Hcur : cur st = c) by (unfold cur; rewrite E; reflexivity).
    rewrite Hcur. unfold shape at 2. rewrite E. simpl.
    destruct (scopeDepth c =? 0) eqn:Ed.
    + unfold shape. rewrite E. reflexivity.
    + unfold shape, with_current. rewrite E. simpl. unfold skeleton at 1. simpl.
      rewrite list_fmap_insert. reflexivity.
Qed.

Lemma shape_defineVariable op g st :
  shape (defineVariable op g st) = on_head define_skeleton (shape st).
Proof.
  unfold defineVariable.
  destruct (compilers st) as [|c cs] eqn:E.
  - unfold cur. rewrite E. simpl. rewrite shape_emitBytes.
    unfold shape. rewrite E. reflexivity.
  - assert (Hcur : cur st = c) by (unfold cur; rewrite E; reflexivity).
    rewrite Hcur. destruct (scopeDepth c >? 0) eqn:Ed.
    + rewrite shape_markInitialized. unfold shape. rewrite E. simpl.
      unfold skeleton at 2. rewrite Ed. reflexivity.
    + rewrite shape_emitBytes. unfold shape. rewrite E. simpl.
      unfold skeleton at 2. rewrite Ed. reflexivity.
Qed.

Lemma shape_parseVariable msg st :
  shape (snd (parseVariable msg st)) = on_head declare_skeleton (shape st).
Proof.
  unfold parseVariable.
  set (st2 := declareVariable (consume TOKEN_IDENTIFIER msg st)).
  assert (H : shape st2 = on_head declare_skeleton (shape st)).
  { unfold st2. rewrite shape_declareVariable, shape_consume. reflexivity. }
  destruct (_ >? _); simpl; [exact H|].
  rewrite shape_identifierConstant. exact H.
Qed.

Lemma shape_initCompiler ty st :
  shape (initCompiler ty st) = init_skeleton :: shape st.
Proof. reflexivity. Qed.

Lemma shape_endCompiler op st : shape (snd (endCompiler op st)) = tl (shape st).
Proof.
  unfold endCompiler. simpl. rewrite <- (shape_emitReturn op st).
  unfold shape. simpl. destruct (compilers (emitReturn op st)); reflexivity.
Qed.

Lemma shape_endScope_loop op n st c cs :
  compilers st = c :: cs ->
  shape (endScope_loop op n st)
  = (scopeDepth c,
     pop_skeleton n (scopeDepth c) (localCount c) (map depth (locals c)),
     map depth (locals c)) :: map skeleton cs.
Proof.
  revert st c. induction n as [|n IH]; intros st c E.
  - unfold shape. simpl. rewrite E. reflexivity.
  - simpl. unfold cur. rewrite E. simpl. rewrite depth_local_at.
    destruct ((localCount c >? 0)
              && (depth_at (map depth (locals c)) (localCount c - 1) >? scopeDepth c)).
    + set (st1 := if isCaptured _ then _ else _).
      assert (E1 : exists c1, compilers st1 = c1 :: cs /\ skeleton c1 = skeleton c).
      { unfold st1. destruct (isCaptured _);
          unfold emitByte, with_currentChunk, with_current; rewrite E; simpl;
          eexists; split; reflexivity. }
      destruct E1 as (c1 & E1 & Hsk). inversion Hsk as [[Hd Hl Hds]].
      erewrite IH.
      2:{ unfold with_current. rewrite E1. reflexivity. }
      simpl. rewrite Hd, Hl, Hds. reflexivity.
    + unfold shape. rewrite E. reflexivity.
Qed.

Lemma shape_endScope op st : shape (endScope op st) = on_head end_skeleton (shape st).
Proof.
  unfold endScope.
  destruct (compilers st) as [|c cs] eqn:E.
  - assert (E1 : with_current (fun c => set_scopeDepth (scopeDepth c - 1) c) st = st)
      by (unfold with_current; rewrite E; reflexivity).
    rewrite E1. unfold cur. rewrite E. simpl. unfold shape. rewrite E. reflexivity.
  - set (st1 := with_current _ st).
    assert (E1 : compilers st1 = set_scopeDepth (scopeDepth c - 1) c :: cs).
    { unfold st1, with_current. rewrite E. reflexivity. }
    rewrite (shape_endScope_loop op _ st1 _ cs E1).
    unfold cur. rewrite E1. unfold shape. rewrite E. reflexivity.
Qed.

(** ** The invariant *)

(** A compiler between two declarations: slot 0 is reserved at depth 0,
    every other local was declared in a scope (depth at least 1), and at
    scope depth 0 slot 0 is the only local. *)
Definition settled (s : Z * Z * list Z) : Prop :=
  let '(sd, lc, ds) := s in
  0 <= sd /\ 1 <= lc <= UINT8_COUNT /\ length ds = Z.to_nat UINT8_COUNT
  /\ depth_at ds 0 = 0
  /\ (forall i, 1 <= i < lc -> 1 <= depth_at ds i)
  /\ (sd = 0 -> lc = 1).

(** A compiler inside a scope, between the declaration of a variable and
    its definition: nothing is known of the depth of the topmost local. *)
Definition declaring (s : Z * Z * list Z) : Prop :=
  let '(sd, lc, ds) := s in
  1 <= sd /\ 2 <= lc <= UINT8_COUNT /\ length ds = Z.to_nat UINT8_COUNT
  /\ depth_at ds 0 = 0
  /\ (forall i, 1 <= i < lc - 1 -> 1 <= depth_at ds i).

Definition pending (s : Z * Z * list Z) : Prop :=
  (fst (fst s) = 0 /\ settled s) \/ declaring s.

Lemma depth_at_insert_eq ds k v :
  0 <= k -> (Z.to_nat k < length ds)%nat -> depth_at (<[Z.to_nat k := v]> ds) k = v.
Proof. intros H0 H. apply nth_insert_eq, H. Qed.

Lemma depth_at_insert_ne ds k v i :
  0 <= k -> 0 <= i -> i <> k -> depth_at (<[Z.to_nat k := v]> ds) i = depth_at ds i.
Proof. intros H0 H1 H. apply nth_insert_ne. lia. Qed.

Lemma settled_init : settled init_skeleton.
Proof.
  unfold settled, init_skeleton, UINT8_COUNT. simpl.
  repeat split; try lia; intros; lia.
Qed.

Lemma settled_begin s : settled s -> settled (begin_skeleton s).
Proof.
  destruct s as [[sd lc] ds]. unfold settled, begin_skeleton.
  intros (H1 & H2 & H3 & H4 & H5 & H6). repeat split; try lia; auto.
Qed.

Lemma pop_skeleton_spec ds sd n lc :
  depth_at ds 0 = 0 -> 0 <= sd -> 1 <= lc ->
  (forall i, 1 <= i < lc -> 1 <= depth_at ds i) ->
  (Z.to_nat lc <= n)%nat ->
  1 <= pop_skeleton n sd lc ds <= lc
  /\ (sd = 0 -> pop_skeleton n sd lc ds = 1).
Proof.
  intros H0 Hsd. revert lc. induction n as [|n IH]; intros lc Hlc Hpos Hn; [lia|].
  simpl.
  destruct ((lc >? 0) && (depth_at ds (lc - 1) >? sd)) eqn:E.
  - apply andb_true_iff in E as [_ E]. rewrite Z.gtb_ltb in E. apply Z.ltb_lt in E.
    assert (2 <= lc).
    { destruct (Z.eq_dec lc 1) as [->|]; [|lia].
      change (1 - 1) with 0 in E. rewrite H0 in E. lia. }
    destruct (IH (lc - 1)) as [H1 H2]; [lia| |lia|].
    + intros i Hi. apply Hpos. lia.
    + split; [lia|exact H2].
  - split; [lia|]. intros ->.
    apply andb_false_iff in E as [E|E].
    + rewrite Z.gtb_ltb in E. apply Z.ltb_ge in E. lia.
    + rewrite Z.gtb_ltb in E. apply Z.ltb_ge in E.
      destruct (Z.eq_dec lc 1) as [->|]; [reflexivity|].
      specialize (Hpos (lc - 1)). lia.
Qed.

Lemma settled_end s :
  settled s -> 1 <= fst (fst s) ->
  settled (end_skeleton s) /\ fst (fst (end_skeleton s)) = fst (fst s) - 1.
Proof.
  destruct s as [[sd lc] ds]. unfold settled, end_skeleton. simpl.
  intros (H1 & H2 & H3 & H4 & H5 & H6) Hsd.
  destruct (pop_skeleton_spec ds (sd - 1) (Z.to_nat lc) lc) as [Hr Hz];
    try lia; auto.
  split; [|reflexivity].
  repeat split; try lia; auto.
  intros i Hi. apply H5. lia.
Qed.

Lemma declaring_add s :
  settled s -> 1 <= fst (fst s) -> declaring (add_skeleton s).
Proof.
  destruct s as [[sd lc] ds]. unfold settled, declaring, add_skeleton, UINT8_COUNT.
  simpl. intros (H1 & H2 & H3 & H4 & H5 & H6) Hsd.
  destruct (lc =? 256) eqn:E.
  - apply Z.eqb_eq in E. repeat split; try lia; auto.
    intros i Hi. apply H5. lia.
  - apply Z.eqb_neq in E. rewrite length_insert.
    repeat split; try lia.
    + rewrite depth_at_insert_ne by lia. exact H4.
    + intros i Hi. rewrite depth_at_insert_ne by lia. apply H5. lia.
Qed.

Lemma pending_declare s :
  settled s ->
  pending (declare_skeleton s) /\ fst (fst (declare_skeleton s)) = fst (fst s).
Proof.
  intros H. destruct s as [[sd lc] ds]. unfold declare_skeleton.
  destruct (sd =? 0) eqn:E.
  - apply Z.eqb_eq in E. split; [left; split; [exact E|exact H]|reflexivity].
  - apply Z.eqb_neq in E. split.
    + right. apply declaring_add; [exact H|]. simpl. destruct H as (H & _). lia.
    + unfold add_skeleton. destruct (_ =? _); reflexivity.
Qed.

Lemma settled_mark s :
  pending s -> settled (mark_skeleton s) /\ fst (fst (mark_skeleton s)) = fst (fst s).
Proof.
  destruct s as [[sd lc] ds]. unfold pending, mark_skeleton. simpl.
  intros [[-> H]|H]; [split; [exact H|reflexivity]|].
  unfold declaring, UINT8_COUNT in H. destruct H as (H1 & H2 & H3 & H4 & H5).
  destruct (sd =? 0) eqn:E; [apply Z.eqb_eq in E; lia|].
  split; [|reflexivity].
  unfold settled, UINT8_COUNT. rewrite length_insert.
  repeat split; try lia.
  - rewrite depth_at_insert_ne by lia. exact H4.
  - intros i Hi. destruct (Z.eq_dec i (lc - 1)) as [->|Hne].
    + rewrite depth_at_insert_eq by lia. lia.
    + rewrite depth_at_insert_ne by lia. apply H5. lia.
Qed.

Lemma settled_define s :
  pending s ->
  settled (define_skeleton s) /\ fst (fst (define_skeleton s)) = fst (fst s).
Proof.
  intros H. destruct s as [[sd lc] ds]. unfold define_skeleton.
  destruct (sd >? 0) eqn:E; [apply settled_mark, H|].
  rewrite Z.gtb_ltb in E. apply Z.ltb_ge in E.
  split; [|reflexivity].
  destruct H as [[_ H]|H]; [exact H|].
  unfold declaring in H. lia.
Qed.

Lemma mark_skeleton_idempotent s : mark_skeleton (mark_skeleton s) = mark_skeleton s.
Proof.
  destruct s as [[sd lc] ds]. unfold mark_skeleton.
  destruct (sd =? 0) eqn:E; rewrite E; [reflexivity|].
  rewrite list_insert_insert_eq. reflexivity.
Qed.

Lemma define_after_mark s : define_skeleton (mark_skeleton s) = mark_skeleton s.
Proof.
  destruct s as [[sd lc] ds]. unfold define_skeleton.
  assert (E : fst (fst (mark_skeleton (sd, lc, ds))) = sd).
  { unfold mark_skeleton. destruct (_ =? _); reflexivity. }
  destruct (mark_skeleton (sd, lc, ds)) as [[sd' lc'] ds'] eqn:Em.
  simpl in E. subst sd'.
  destruct (sd >? 0); [|reflexivity].
  rewrite <- Em. apply mark_skeleton_idempotent.
Qed.

(** The chain has a current compiler at scope depth [d], settled, above
    enclosing compilers of shape [K], all settled. *)
Definition scoped (d : Z) (K sh : list (Z * Z * list Z)) : Prop :=
  exists s, sh = s :: K /\ fst (fst s) = d /\ settled s /\ Forall settled K.

(** The same, the current compiler between a declaration and its
    definition. *)
Definition scoped_pending (d : Z) (K sh : list (Z * Z * list Z)) : Prop :=
  exists s, sh = s :: K /\ fst (fst s) = d /\ pending s /\ Forall settled K.

(** [m], from a state in [P], returns in a state in [Q]. *)
Definition hoare {A} (P : State -> Prop) (m : M A) (Q : State -> Prop) : Prop :=
  forall st a st', m st = Some (a, st') -> P st -> Q st'.

Lemma hoare_keeps {A} I (m : M A) : keeps I m -> hoare I m I.
Proof. intros H. exact H. Qed.

Lemma keeps_hoare {A} I (m : M A) : hoare I m I -> keeps I m.
Proof. intros H. exact H. Qed.

Lemma hoare_bind {A B} P R Q (m : M A) (k : A -> M B) :
  hoare P m R -> (forall a, hoare R (k a) Q) -> hoare P (bind m k) Q.
Proof.
  intros Hm Hk st b st' H HP.
  apply bind_Some in H as (a & st1 & H1 & H2).
  eapply Hk; [exact H2|]. eapply Hm; eauto.
Qed.

Lemma hoare_exec P Q f : (forall st, P st -> Q (f st)) -> hoare P (exec f) Q.
Proof. intros Hf st a st' H HP. inversion H. subst. auto. Qed.

Lemma hoare_lift {A} P Q (f : State -> A * State) :
  (forall st, P st -> Q (snd (f st))) -> hoare P (lift f) Q.
Proof.
  intros Hf st a st' H HP. inversion H as [E]. specialize (Hf st HP).
  rewrite E in Hf. exact Hf.
Qed.

Lemma hoare_ret {A} P (a : A) : hoare P (ret a) P.
Proof. intros st a' st' H HP. inversion H. subst. exact HP. Qed.

Lemma hoare_pure {A} (phi : Prop) P (m : M A) Q :
  (forall st, P st -> phi) -> (phi -> hoare P m Q) -> hoare P m Q.
Proof. intros H1 H2 st a st' Hrun HP. eapply H2; eauto. Qed.

Lemma scoped_depth d K st : on_shape (scoped d K) st -> 0 <= d.
Proof.
  intros (s & _ & Hd & Hs & _). destruct s as [[sd lc] ds].
  simpl in Hd. subst. destruct Hs as (H & _). exact H.
Qed.

Lemma scoped_beginScope d K st :
  on_shape (scoped d K) st -> on_shape (scoped (d + 1) K) (beginScope st).
Proof.
  unfold on_shape. rewrite shape_beginScope.
  intros (s & -> & Hd & Hs & HK). exists (begin_skeleton s).
  split; [reflexivity|]. split; [|split; [apply settled_begin, Hs|exact HK]].
  destruct s as [[sd lc] ds]. simpl in *. lia.
Qed.

Lemma scoped_endScope op d K st :
  0 <= d ->
  on_shape (scoped (d + 1) K) st -> on_shape (scoped d K) (endScope op st).
Proof.
  unfold on_shape. rewrite shape_endScope.
  intros Hd0 (s & -> & Hd & Hs & HK). exists (end_skeleton s).
  destruct (settled_end s Hs) as [H1 H2]; [lia|].
  split; [reflexivity|]. split; [lia|]. split; [exact H1|exact HK].
Qed.

Lemma scoped_pending_on_head (f : Z * Z * list Z -> Z * Z * list Z) d K sh :
  (forall s, settled s -> pending (f s) /\ fst (fst (f s)) = fst (fst s)) ->
  scoped d K sh -> scoped_pending d K (on_head f sh).
Proof.
  intros Hf (s & -> & Hd & Hs & HK). exists (f s).
  destruct (Hf s Hs) as [H1 H2].
  split; [reflexivity|]. split; [lia|]. split; [exact H1|exact HK].
Qed.

Lemma scoped_on_head (f : Z * Z * list Z -> Z * Z * list Z) d K sh :
  (forall s, pending s -> settled (f s) /\ fst (fst (f s)) = fst (fst s)) ->
  scoped_pending d K sh -> scoped d K (on_head f sh).
Proof.
  intros Hf (s & -> & Hd & Hs & HK). exists (f s).
  destruct (Hf s Hs) as [H1 H2].
  split; [reflexivity|]. split; [lia|]. split; [exact H1|exact HK].
Qed.

Lemma pending_parseVariable msg d K st :
  on_shape (scoped d K) st ->
  on_shape (scoped_pending d K) (snd (parseVariable msg st)).
Proof.
  unfold on_shape. rewrite shape_parseVariable.
  apply scoped_pending_on_head, pending_declare.
Qed.

Lemma pending_declareVariable d K st :
  on_shape (scoped d K) st -> on_shape (scoped_pending d K) (declareVariable st).
Proof.
  unfold on_shape. rewrite shape_declareVariable.
  apply scoped_pending_on_head, pending_declare.
Qed.

Lemma pending_addLocal nm d K st :
  1 <= d ->
  on_shape (scoped d K) st -> on_shape (scoped_pending d K) (addLocal nm st).
Proof.
  unfold on_shape. rewrite shape_addLocal.
  intros Hd (s & -> & Hds & Hs & HK). exists (add_skeleton s).
  split; [reflexivity|]. split; [|split; [|exact HK]].
  - destruct s as [[sd lc] ds]. unfold add_skeleton.
    destruct (_ =? _); exact Hds.
  - right. apply declaring_add; [exact Hs|lia].
Qed.

Lemma scoped_defineVariable op g d K st :
  on_shape (scoped_pending d K) st ->
  on_shape (scoped d K) (defineVariable op g st).
Proof.
  unfold on_shape. rewrite shape_defineVariable.
  apply scoped_on_head, settled_define.
Qed.


Lemma shape_emitUpvalues compiler i k st :
  shape (emitUpvalues compiler i k st) = shape st.
Proof.
  revert i st. induction k as [|k IH]; intros i st; simpl; [reflexivity|].
  rewrite IH, !shape_emitByte. reflexivity.
Qed.

#[local] Hint Resolve shape_emitUpvalues : shape.

Lemma scoped_settled d K sh : scoped d K sh -> Forall settled sh.
Proof. intros (s & -> & _ & Hs & HK). constructor; assumption. Qed.

Lemma on_head_on_head {A} (f g : A -> A) (l : list A) :
  on_head f (on_head g l) = on_head (fun x => f (g x)) l.
Proof. destruct l; reflexivity. Qed.

Section ScopedStatements.

Variable op : OpCode -> Z.
Variable expr : ExprCall -> M Z.
Variable rec : StmtCall -> M Z.
Hypothesis expr_shape : forall Q c, keeps (on_shape Q) (expr c).
Hypothesis rec_scoped : forall d K c, keeps (on_shape (scoped d K)) (rec c).

Ltac go :=
  repeat keeps_shape_step; try apply rec_scoped; try apply expr_shape;
  try (apply keeps_shape_namedVariable; apply expr_shape);
  try stable_shape; auto.

(** A step under which the assertion stays [R]. *)
Ltac same R := apply (hoare_bind _ R); [apply hoare_keeps; go|intros ?].

Lemma keeps_scoped_block d K : keeps (on_shape (scoped d K)) (block rec).
Proof. unfold block. go. Qed.

Lemma keeps_scoped_braces d K :
  keeps (on_shape (scoped d K))
        (exec beginScope ;; block rec ;; exec (endScope op) ;; ret 0).
Proof.
  apply keeps_hoare. apply (hoare_pure (0 <= d)); [apply scoped_depth|intros Hd].
  apply (hoare_bind _ (on_shape (scoped (d + 1) K))).
  { apply hoare_exec. apply scoped_beginScope. }
  intros _. apply (hoare_bind _ (on_shape (scoped (d + 1) K))).
  { apply hoare_keeps, keeps_scoped_block. }
  intros _. apply (hoare_bind _ (on_shape (scoped d K))).
  { apply hoare_exec. intros st. apply scoped_endScope, Hd. }
  intros _. apply hoare_ret.
Qed.

Lemma keeps_scoped_varDeclaration d K :
  keeps (on_shape (scoped d K)) (varDeclaration op expr).
Proof.
  unfold varDeclaration, expression. apply keeps_hoare.
  apply (hoare_bind _ (on_shape (scoped_pending d K))).
  { apply hoare_lift. intros st. apply pending_parseVariable. }
  intros global.
  same (on_shape (scoped_pending d K)).
  same (on_shape (scoped_pending d K)).
  same (on_shape (scoped_pending d K)).
  apply (hoare_bind _ (on_shape (scoped d K))).
  { apply hoare_exec. intros st. apply scoped_defineVariable. }
  intros _. apply hoare_ret.
Qed.

Lemma keeps_scoped_expressionStatement d K :
  keeps (on_shape (scoped d K)) (expressionStatement op expr).
Proof. unfold expressionStatement, expression. go. Qed.

Lemma keeps_scoped_parameterLoop d K :
  keeps (on_shape (scoped d K)) (parameterLoop op rec).
Proof.
  unfold parameterLoop. apply keeps_hoare.
  apply (hoare_bind _ (on_shape (scoped d K))).
  { apply hoare_exec. intros st H. unfold on_shape.
    rewrite shape_with_current; [exact H|reflexivity]. }
  intros _.
  same (on_shape (scoped d K)).
  same (on_shape (scoped d K)).
  apply (hoare_bind _ (on_shape (scoped_pending d K))).
  { apply hoare_lift. intros st. apply pending_parseVariable. }
  intros constant.
  apply (hoare_bind _ (on_shape (scoped d K))).
  { apply hoare_exec. intros st. apply scoped_defineVariable. }
  intros _. apply hoare_keeps. go.
Qed.

(** [function] pushes a compiler, compiles the body in it and unlinks it:
    the shape of the chain is the same before and after. *)
Lemma hoare_function_ ty K :
  Forall settled K ->
  hoare (on_shape (eq K)) (function_ op rec ty) (on_shape (eq K)).
Proof.
  intros HK. unfold function_.
  apply (hoare_bind _ (on_shape (scoped 0 K))).
  { apply hoare_exec. intros st H. unfold on_shape in *.
    rewrite shape_initCompiler, <- H. exists init_skeleton.
    split; [reflexivity|]. split; [reflexivity|]. split; [apply settled_init|exact HK]. }
  intros _. apply (hoare_bind _ (on_shape (scoped (0 + 1) K))).
  { apply hoare_exec. apply scoped_beginScope. }
  intros _.
  same (on_shape (scoped (0 + 1) K)).
  same (on_shape (scoped (0 + 1) K)).
  same (on_shape (scoped (0 + 1) K)).
  same (on_shape (scoped (0 + 1) K)).
  same (on_shape (scoped (0 + 1) K)).
  apply (hoare_bind _ (on_shape (scoped (0 + 1) K))).
  { apply hoare_keeps, keeps_scoped_block. }
  intros _.
  same (on_shape (scoped (0 + 1) K)).
  apply (hoare_bind _ (on_shape (eq K))).
  { apply hoare_lift. intros st (s & Hsh & _). unfold on_shape.
    rewrite shape_endCompiler, Hsh. reflexivity. }
  intros f. apply hoare_keeps. go.
Qed.

Lemma keeps_settled_function_ ty (Q : list (Z * Z * list Z) -> Prop) :
  (forall sh, Q sh -> Forall settled sh) ->
  keeps (on_shape Q) (function_ op rec ty).
Proof.
  intros HQ st a st' Hrun H.
  pose proof (hoare_function_ ty (shape st) (HQ _ H) st a st' Hrun eq_refl) as E.
  unfold on_shape in *. rewrite <- E. exact H.
Qed.

Lemma keeps_scoped_function_ ty d K :
  keeps (on_shape (scoped d K)) (function_ op rec ty).
Proof. apply keeps_settled_function_. apply scoped_settled. Qed.

Lemma keeps_scoped_funDeclaration d K :
  keeps (on_shape (scoped d K)) (funDeclaration op rec).
Proof.
  unfold funDeclaration. apply keeps_hoare.
  apply (hoare_bind _ (on_shape (scoped_pending d K))).
  { apply hoare_lift. intros st. apply pending_parseVariable. }
  intros global.
  set (marked := fun sh => exists sh0, scoped_pending d K sh0
                                       /\ sh = on_head mark_skeleton sh0).
  assert (Hmarked : forall sh, marked sh -> scoped d K sh).
  { intros sh (sh0 & H0 & ->). revert H0. apply scoped_on_head, settled_mark. }
  apply (hoare_bind _ (on_shape marked)).
  { apply hoare_exec. intros st H. exists (shape st).
    split; [exact H|apply shape_markInitialized]. }
  intros _. apply (hoare_bind _ (on_shape marked)).
  { apply hoare_keeps, keeps_settled_function_.
    intros sh H. eapply scoped_settled, Hmarked, H. }
  intros _. apply (hoare_bind _ (on_shape (scoped d K))).
  { apply hoare_exec. intros st H. unfold on_shape in *.
    rewrite shape_defineVariable. apply Hmarked.
    destruct H as (sh0 & H0 & ->). exists sh0. split; [exact H0|].
    rewrite on_head_on_head. destruct sh0 as [|s rest]; [reflexivity|].
    simpl. rewrite define_after_mark. reflexivity. }
  intros _. apply hoare_ret.
Qed.

Lemma keeps_scoped_method d K : keeps (on_shape (scoped d K)) (method op rec).
Proof.
  pose proof keeps_scoped_function_. unfold method. go.
Qed.

Lemma keeps_scoped_forStatement d K :
  keeps (on_shape (scoped d K)) (forStatement op expr rec).
Proof.
  pose proof keeps_scoped_varDeclaration.
  pose proof keeps_scoped_expressionStatement.
  unfold forStatement, statement, expression. apply keeps_hoare.
  apply (hoare_pure (0 <= d)); [apply scoped_depth|intros Hd].
  apply (hoare_bind _ (on_shape (scoped (d + 1) K))).
  { apply hoare_exec. apply scoped_beginScope. }
  intros _.
  do 11 same (on_shape (scoped (d + 1) K)).
  apply (hoare_bind _ (on_shape (scoped d K))).
  { apply hoare_exec. intros st. apply scoped_endScope, Hd. }
  intros _. apply hoare_ret.
Qed.

Lemma keeps_scoped_classDeclaration d K :
  keeps (on_shape (scoped d K)) (classDeclaration op expr rec).
Proof.
  pose proof keeps_scoped_method.
  unfold classDeclaration, variable, expression. apply keeps_hoare.
  apply (hoare_pure (0 <= d)); [apply scoped_depth|intros Hd].
  same (on_shape (scoped d K)).
  same (on_shape (scoped d K)).
  same (on_shape (scoped d K)).
  apply (hoare_bind _ (on_shape (scoped_pending d K))).
  { apply hoare_exec. apply pending_declareVariable. }
  intros _.
  same (on_shape (scoped_pending d K)).
  apply (hoare_bind _ (on_shape (scoped d K))).
  { apply hoare_exec. intros st. apply scoped_defineVariable. }
  intros _.
  same (on_shape (scoped d K)).
  apply (hoare_bind _ (on_shape (scoped d K))); [apply hoare_keeps; go|intros inherits].
  apply (hoare_bind _ (on_shape (scoped (if inherits then d + 1 else d) K))).
  { destruct inherits; [|apply hoare_ret].
    same (on_shape (scoped d K)).
    same (on_shape (scoped d K)).
    same (on_shape (scoped d K)).
    same (on_shape (scoped d K)).
    apply (hoare_bind _ (on_shape (scoped (d + 1) K))).
    { apply hoare_exec. apply scoped_beginScope. }
    intros _.
    apply (hoare_bind _ (on_shape (scoped_pending (d + 1) K))).
    { apply hoare_exec. intros st. apply pending_addLocal. lia. }
    intros _.
    apply (hoare_bind _ (on_shape (scoped (d + 1) K))).
    { apply hoare_exec. intros st. apply scoped_defineVariable. }
    intros _. apply hoare_keeps. go. }
  intros _.
  do 5 same (on_shape (scoped (if inherits then d + 1 else d) K)).
  apply (hoare_bind _ (on_shape (scoped d K))).
  { destruct inherits; simpl; [|apply hoare_ret].
    apply hoare_exec. intros st. apply scoped_endScope, Hd. }
  intros _. apply hoare_keeps. go.
Qed.

Lemma keeps_scoped_stmtStep d K c :
  keeps (on_shape (scoped d K)) (stmtStep op expr rec c).
Proof.
  pose proof keeps_scoped_block.
  pose proof keeps_scoped_braces.
  pose proof keeps_scoped_varDeclaration.
  pose proof keeps_scoped_expressionStatement.
  pose proof keeps_scoped_parameterLoop.
  pose proof keeps_scoped_funDeclaration.
  pose proof keeps_scoped_method.
  pose proof keeps_scoped_forStatement.
  pose proof keeps_scoped_classDeclaration.
  destruct c; simpl; auto;
    unfold declaration_, statement_, blockLoop, methodLoop,
           synchronizeLoop, compileLoop,
           ifStatement, printStatement, returnStatement,
           whileStatement, synchronize, declaration, statement,
           expression;
    repeat first [apply keeps_scoped_braces|keeps_shape_step];
    go.
Qed.

End ScopedStatements.

(** Every call of the compiler returns with the current compiler at the
    scope depth it was called at, the enclosing compilers as they were, all
    settled. *)
Lemma keeps_scoped_runStmt op fuel c d K :
  keeps (on_shape (scoped d K)) (runStmt op fuel c).
Proof.
  revert c d K. induction fuel as [|fuel IH]; intros c d K; simpl.
  - apply keeps_noResult.
  - apply keeps_scoped_stmtStep.
    + intros Q c'. apply keeps_shape_runExpr.
    + intros d' K' c'. apply IH.
Qed.

(** ** Depth 0 in a compilation *)

(** A compiler at scope depth 0 has one local, the reserved slot 0. *)
Definition only_slot_0_at_depth_0 (c : Compiler) : Prop :=
  scopeDepth c = 0 -> localCount c = 1.

(** The state in which [compile] enters its loop. *)
Definition compile_start (source : list Token) : State :=
  let st := initCompiler TYPE_SCRIPT (initScanner source) in
  let p := parser st in
  advance (set_parser (mkParser (current p) (previous p) false false) st).

Lemma compile_from_start op fuel source :
  compile op fuel source
  = match runStmt op fuel call_compileLoop (compile_start source) with
    | None => None
    | Some (_, st) =>
        let '(f, st) := endCompiler op st in
        Some (if hadError (parser st) then None else Some f, st)
    end.
Proof. reflexivity. Qed.

Lemma scoped_compile_start source : on_shape (scoped 0 []) (compile_start source).
Proof.
  unfold on_shape, compile_start. rewrite shape_advance.
  exists init_skeleton. split; [reflexivity|]. split; [reflexivity|].
  split; [apply settled_init|constructor].
Qed.

Lemma settled_only_slot_0 c : settled (skeleton c) -> only_slot_0_at_depth_0 c.
Proof. unfold settled, skeleton, only_slot_0_at_depth_0. tauto. Qed.

Lemma scoped_only_slot_0 d K st :
  on_shape (scoped d K) st -> Forall only_slot_0_at_depth_0 (compilers st).
Proof.
  intros H. apply scoped_settled in H. unfold shape in H.
  induction (compilers st) as [|c cs IH]; [constructor|].
  simpl in H. apply Forall_cons in H as [Hc Hcs].
  constructor; [apply settled_only_slot_0, Hc|apply IH, Hcs].
Qed.

Lemma resolveUpvalue_current_script nm st c :
  compilers st = [c] -> resolveUpvalue_current nm st = (-1, st).
Proof.
  intros E. unfold resolveUpvalue_current. rewrite E. simpl.
  destruct st as [sc p cs cl dg]. simpl in E. subst cs. reflexivity.
Qed.

(** The amended C6.  A compiler at scope depth 0 holds the reserved slot 0
    and no other local.  This holds when [compile] enters its loop, and at
    the return of every call made from a state in which it holds: a
    statement-level call returns with the current compiler at the scope
    depth it was called at and all compilers settled, an expression-level
    call changes no scope depth, no number of locals and no depth of a
    local.  At scope depth 0 a declaration adds no local ([declareVariable]
    and [markInitialized] do nothing, [parseVariable] interns the name,
    [defineVariable] emits [OP_DEFINE_GLOBAL]); and in the script, at scope
    depth 0, a name other than the name of slot 0 is addressed by
    [OP_GET_GLOBAL]/[OP_SET_GLOBAL] on the constant it is interned as.
    Whatever the source, the loop of [compile] returns once the fuel is
    enough, and it holds then. *)
Theorem depth_0_holds_only_slot_0 (op : OpCode -> Z) :
  (forall fuel source,
     compile op fuel source
     = match runStmt op fuel call_compileLoop (compile_start source) with
       | None => None
       | Some (_, st) =>
           let '(f, st) := endCompiler op st in
           Some (if hadError (parser st) then None else Some f, st)
       end)
  /\ (forall source, on_shape (scoped 0 []) (compile_start source))
  /\ (forall d K st,
        on_shape (scoped d K) st ->
        Forall only_slot_0_at_depth_0 (compilers st))
  /\ (forall fuel c d K st r st',
        on_shape (scoped d K) st ->
        runStmt op fuel c st = Some (r, st') ->
        on_shape (scoped d K) st')
  /\ (forall fuel c st r st',
        runExpr op fuel c st = Some (r, st') -> shape st' = shape st)
  /\ (forall st msg global,
        scopeDepth (cur st) = 0 ->
        declareVariable st = st
        /\ markInitialized st = st
        /\ defineVariable op global st = emitBytes (op OP_DEFINE_GLOBAL) global st
        /\ parseVariable msg st
           = identifierConstant
               (previous (parser (consume TOKEN_IDENTIFIER msg st)))
               (consume TOKEN_IDENTIFIER msg st))
  /\ (forall rec nm st c,
        compilers st = [c] ->
        scopeDepth c = 0 ->
        only_slot_0_at_depth_0 c ->
        identifiersEqual (name (local_at c 0)) nm = false ->
        no_local c nm
        /\ emits_variable op rec nm st OP_GET_GLOBAL OP_SET_GLOBAL
             (fst (identifierConstant nm st)) (snd (identifierConstant nm st)))
  /\ (forall source,
      exists fuel0 r st',
        (forall fuel,
           (fuel0 <= fuel)%nat ->
           runStmt op fuel call_compileLoop (compile_start source) = Some (r, st'))
        /\ on_shape (scoped 0 []) st'
        /\ Forall only_slot_0_at_depth_0 (compilers st')).
Proof.
  split; [intros fuel source; apply compile_from_start|].
  split; [exact scoped_compile_start|].
  split; [exact scoped_only_slot_0|].
  split.
  { intros fuel c d K st r st' H Hrun. eapply keeps_scoped_runStmt; eauto. }
  split.
  { intros fuel c st r st' Hrun.
    symmetry. eapply (keeps_shape_runExpr op (eq (shape st))); [exact Hrun|].
    reflexivity. }
  split.
  { intros st msg global Hd.
    assert (Hd' : scopeDepth (cur (consume TOKEN_IDENTIFIER msg st)) = 0).
    { unfold cur. rewrite compilers_consume. exact Hd. }
    unfold declareVariable, markInitialized, defineVariable, parseVariable.
    unfold declareVariable. rewrite Hd, Hd'. simpl. rewrite Hd'. auto. }
  split.
  2: { intros source.
       destruct (statements_return_all op (ahead (compile_start source))
                   call_compileLoop (compile_start source))
         as (fuel0 & r & st' & H & _); [unfold bounded; lia|].
       assert (Hshape : on_shape (scoped 0 []) st').
       { eapply keeps_scoped_runStmt;
           [exact (H fuel0 (Nat.le_refl _))|apply scoped_compile_start]. }
       exists fuel0, r, st'. split; [exact H|].
       split; [exact Hshape|exact (scoped_only_slot_0 0 [] st' Hshape)]. }
  intros rec nm st c Hch Hd Honly Hname.
  assert (Hno : no_local c nm).
  { intros j Hj. rewrite (Honly Hd) in Hj. assert (j = 0) as -> by lia. exact Hname. }
  split; [exact Hno|].
  assert (Hcur : cur st = c) by (unfold cur; rewrite Hch; reflexivity).
  apply namedVariable_emit_spec.
  - pose proof (makeConstant_range (OBJ_STRING (start nm)) st) as H.
    unfold identifierConstant, UINT8_MAX in *. lia.
  - unfold identifierConstant. apply current_makeConstant.
  - intros canAssign. unfold namedVariable, bind, lift, ret.
    rewrite Hcur, (resolveLocal_absent c nm st Hno).
    change (negb (-1 =? -1)) with false. cbv beta iota.
    rewrite (resolveUpvalue_current_script nm st c Hch).
    change (negb (-1 =? -1)) with false. cbv beta iota.
    destruct (identifierConstant nm st) as [k st2]. reflexivity.
Qed.

(** The tokens of [super.x;]. *)
Definition super_at_top_level : list Token :=
  [tok TOKEN_SUPER "super"; tok TOKEN_DOT "."; ident "x";
   tok TOKEN_SEMICOLON ";"; tok TOKEN_EOF ""].

(** C6 as stated fails on the reserved slot.  When [compile] enters its
    loop the script is at scope depth 0 and its locals stack holds one local,
    slot 0, named [this]; and [super.x;] at top level, after its diagnostic,
    reads that local by slot: the bytes start with [OP_GET_LOCAL 0], at
    scope depth 0. *)
Lemma depth_0_holds_reserved_slot :
  let st := compile_start [tok TOKEN_EOF ""] in
  scopeDepth (cur st) = 0
  /\ localCount (cur st) = 1
  /\ localCount (cur st) <> 0
  /\ start (name (local_at (cur st) 0)) = "this"
  /\ exists st',
       runStmt opcode 5 call_compileLoop (compile_start super_at_top_level)
       = Some (0, st')
       /\ scopeDepth (cur st') = 0
       /\ code (currentChunk st')
          = [opcode OP_GET_LOCAL; 0; opcode OP_GET_GLOBAL; 1;
             opcode OP_GET_SUPER; 0; opcode OP_POP].
Proof.
  cbv zeta. split; [reflexivity|]. split; [reflexivity|].
  split; [discriminate|]. split; [reflexivity|].
  eexists. split; [vm_compute; reflexivity|]. split; reflexivity.
Qed.

Lemma depth_0_holds_only_slot_0_witness :
  on_shape (scoped 0 []) (compile_start global_var_source)
  /\ exists r st',
       runStmt opcode 6 call_compileLoop (compile_start global_var_source)
       = Some (r, st')
       /\ on_shape (scoped 0 []) st'
       /\ Forall only_slot_0_at_depth_0 (compilers st').
Proof.
  destruct (depth_0_holds_only_slot_0 opcode) as (_ & H1 & H2 & H3 & _).
  split; [apply H1|].
  destruct (runStmt opcode 6 call_compileLoop (compile_start global_var_source))
    as [[r st']|] eqn:E; [|vm_compute in E; discriminate E].
  exists r, st'. split; [reflexivity|].
  assert (H : on_shape (scoped 0 []) st').
  { eapply (H3 6%nat call_compileLoop 0 []); [apply H1|exact E]. }
  split; [exact H|]. exact (H2 0 [] st' H).
Defined.


(** * Further properties of the compiler *)

(** ** The backward jump of a loop *)

Lemma big_endian_16_wraps x :
  0 <= x ->
  256 * Z.land (Z.shiftr x 8) 255 + Z.land x 255 = x mod 65536.
Proof.
  intros H. rewrite high_byte, low_byte.
  pose proof (Z.div_mod x 256 ltac:(lia)) as H1.
  pose proof (Z.mod_pos_bound x 256 ltac:(lia)) as H2.
  pose proof (Z.div_mod (x / 256) 256 ltac:(lia)) as H3.
  pose proof (Z.mod_pos_bound (x / 256) 256 ltac:(lia)) as H4.
  apply (Z.mod_unique_pos _ _ (x / 256 / 256)); lia.
Qed.

(** X2: [emitLoop loopStart] appends [OP_LOOP] and the two bytes, high
    first, of [offset], the distance from the end of the instruction back to
    [loopStart]: the new count minus [offset] is [loopStart].  The bytes hold
    [offset] itself when it fits 16 bits, and then nothing is reported; when
    it does not, [error "Loop body too large."] is called and the operand
    holds [offset] modulo 65536. *)
Theorem backward_jump_encodes_distance
  (op : OpCode -> Z) (loopStart : Z) (st : State) :
  linked st ->
  0 <= loopStart <= count (currentChunk st) ->
  let offset := count (currentChunk st) + 3 - loopStart in
  let high := Z.land (Z.shiftr offset 8) 255 in
  let low := Z.land offset 255 in
  let st' := emitLoop op loopStart st in
  code (currentChunk st') = code (currentChunk st) ++ [op OP_LOOP; high; low]
  /\ count (currentChunk st') - offset = loopStart
  /\ 256 * high + low = offset mod 65536
  /\ (offset <= UINT16_MAX ->
      256 * high + low = offset
      /\ parser st' = parser st /\ diagnostics st' = diagnostics st)
  /\ (offset > UINT16_MAX ->
      parser st' = parser (error "Loop body too large." st)
      /\ diagnostics st' = diagnostics (error "Loop body too large." st)).
Proof.
  intros Hl Hstart. cbv zeta.
  assert (Hcount : count (currentChunk (emitByte (op OP_LOOP) st))
                   = count (currentChunk st) + 1).
  { unfold count. rewrite code_emitByte by exact Hl. rewrite length_app. simpl. lia. }
  assert (Hcode : code (currentChunk (emitLoop op loopStart st))
                  = code (currentChunk st)
                    ++ [op OP_LOOP;
                        Z.land (Z.shiftr (count (currentChunk st) + 3 - loopStart) 8) 255;
                        Z.land (count (currentChunk st) + 3 - loopStart) 255]).
  { unfold emitLoop. rewrite Hcount.
    replace (count (currentChunk st) + 1 - loopStart + 2)
      with (count (currentChunk st) + 3 - loopStart) by lia.
    assert (Hl1 : linked (emitByte (op OP_LOOP) st)) by (apply linked_emitByte, Hl).
    destruct (_ >? _).
    - rewrite !code_emitByte
        by (repeat first [exact Hl|apply linked_emitByte|apply linked_error]).
      rewrite currentChunk_error, code_emitByte by exact Hl.
      rewrite <- !app_assoc. reflexivity.
    - rewrite !code_emitByte by (repeat first [exact Hl|apply linked_emitByte]).
      rewrite <- !app_assoc. reflexivity. }
  assert (Hflags : forall s, parser (emitByte (Z.land (count (currentChunk st) + 3 - loopStart) 255)
                      (emitByte (Z.land (Z.shiftr (count (currentChunk st) + 3 - loopStart) 8) 255) s))
                    = parser s
                    /\ diagnostics (emitByte (Z.land (count (currentChunk st) + 3 - loopStart) 255)
                      (emitByte (Z.land (Z.shiftr (count (currentChunk st) + 3 - loopStart) 8) 255) s))
                    = diagnostics s).
  { intros s. unfold emitByte, with_currentChunk.
    rewrite !parser_with_current, !diagnostics_with_current. auto. }
  split; [exact Hcode|].
  split.
  { unfold count at 1. rewrite Hcode, length_app. unfold count. simpl. lia. }
  split; [apply big_endian_16_wraps; lia|].
  split.
  - intros Hfit. split; [apply big_endian_16; lia|].
    unfold emitLoop. rewrite Hcount.
    replace (count (currentChunk st) + 1 - loopStart + 2)
      with (count (currentChunk st) + 3 - loopStart) by lia.
    destruct (_ >? _) eqn:E; [apply Z.gtb_lt in E; lia|].
    destruct (Hflags (emitByte (op OP_LOOP) st)) as [-> ->].
    unfold emitByte, with_currentChunk.
    rewrite parser_with_current, diagnostics_with_current. auto.
  - intros Hbig.
    unfold emitLoop. rewrite Hcount.
    replace (count (currentChunk st) + 1 - loopStart + 2)
      with (count (currentChunk st) + 3 - loopStart) by lia.
    destruct (_ >? _) eqn:E; [|rewrite Z.gtb_ltb in E; apply Z.ltb_ge in E; lia].
    destruct (Hflags (error "Loop body too large." (emitByte (op OP_LOOP) st)))
      as [-> ->].
    unfold error, errorAt, emitByte, with_currentChunk.
    rewrite !parser_with_current, !diagnostics_with_current.
    destruct (panicMode (parser st)).
    + rewrite parser_with_current, diagnostics_with_current. auto.
    + simpl. auto.
Qed.

(** ** The constant pool *)

Lemma linked_with_currentChunk g st : linked st -> linked (with_currentChunk g st).
Proof. apply linked_with_current. Qed.

(** X8: while the pool of the current chunk holds at most 255 constants,
    [makeConstant v] appends [v] and returns its index, the former length:
    the pool holds [v] there, the constants before it are unchanged, nothing
    is reported and no code is written; [emitConstant] then appends
    [OP_CONSTANT] and that index.  Constants are not shared: the same value
    made a constant again takes the next index. *)
Theorem constant_index_addresses_value (op : OpCode -> Z) (v : Value) (st : State) :
  linked st ->
  Z.of_nat (length (constants (currentChunk st))) <= UINT8_MAX ->
  let n := Z.of_nat (length (constants (currentChunk st))) in
  let k := fst (makeConstant v st) in
  let st' := snd (makeConstant v st) in
  k = n
  /\ constants (currentChunk st') !! Z.to_nat k = Some v
  /\ (forall i, (i < length (constants (currentChunk st)))%nat ->
        constants (currentChunk st') !! i = constants (currentChunk st) !! i)
  /\ length (constants (currentChunk st')) = S (length (constants (currentChunk st)))
  /\ code (currentChunk st') = code (currentChunk st)
  /\ parser st' = parser st
  /\ diagnostics st' = diagnostics st
  /\ code (currentChunk (emitConstant op v st))
     = code (currentChunk st) ++ [op OP_CONSTANT; k]
  /\ (n < UINT8_MAX -> fst (makeConstant v st') = n + 1).
Proof.
  intros Hl Hn. cbv zeta.
  destruct (makeConstant_spec v st Hl) as (Hc & Hcode & Hfit & _).
  specialize (Hfit Hn).
  set (st1 := with_currentChunk (fun c => snd (addConstant c v)) st) in *.
  assert (Hl1 : linked st1) by (apply linked_with_currentChunk, Hl).
  rewrite Hfit. cbn [fst snd].
  split; [reflexivity|].
  split.
  { rewrite Hc, Nat2Z.id. apply list_lookup_middle. reflexivity. }
  split.
  { intros i Hi. rewrite Hc. apply lookup_app_l. exact Hi. }
  split.
  { rewrite Hc, length_app. simpl. lia. }
  split; [exact Hcode|].
  split.
  { unfold st1, with_currentChunk. apply parser_with_current. }
  split.
  { unfold st1, with_currentChunk. apply diagnostics_with_current. }
  split.
  { unfold emitConstant. rewrite Hfit.
    rewrite code_emitBytes by exact Hl1. rewrite Hcode. reflexivity. }
  intros Hroom.
  destruct (makeConstant_spec v st1 Hl1) as (_ & _ & Hfit1 & _).
  rewrite Hfit1; rewrite Hc, length_app; simpl; lia.
Qed.

(** ** Scanning past error tokens *)

Definition is_error (t : Token) : bool := TokenType_eqb (type t) TOKEN_ERROR.

(** The error tokens at the head of the token stream, and what follows
    them. *)
Fixpoint leading_errors (src : list Token) : list Token :=
  match src with
  | t :: rest => if is_error t then t :: leading_errors rest else []
  | [] => []
  end.

Fixpoint after_errors (src : list Token) : list Token :=
  match src with
  | t :: rest => if is_error t then after_errors rest else src
  | [] => []
  end.

Lemma errorAtCurrent_panicking msg st :
  panicMode (parser st) = true -> errorAtCurrent msg st = st.
Proof. unfold errorAtCurrent, errorAt. intros ->. reflexivity. Qed.

Lemma advance_scan_spec src st :
  let st' := advance_scan src st in
  previous (parser st') = previous (parser st)
  /\ current (parser st') = hd eofToken (after_errors src)
  /\ scanner st' = tl (after_errors src)
  /\ compilers st' = compilers st
  /\ classes st' = classes st
  /\ (panicMode (parser st) = true ->
      diagnostics st' = diagnostics st
      /\ hadError (parser st') = hadError (parser st)
      /\ panicMode (parser st') = true)
  /\ (panicMode (parser st) = false ->
      match leading_errors src with
      | [] =>
          diagnostics st' = diagnostics st
          /\ hadError (parser st') = hadError (parser st)
          /\ panicMode (parser st') = false
      | t :: _ =>
          diagnostics st' = diagnostics st ++ [(t, start t)]
          /\ hadError (parser st') = true
          /\ panicMode (parser st') = true
      end).
Proof.
  cbv zeta. revert st. induction src as [|t rest IH]; intros st.
  - simpl. repeat split; auto.
  - simpl. unfold is_error. destruct (TokenType_eqb (type t) TOKEN_ERROR) eqn:E.
    + specialize (IH (errorAtCurrent (start t) (set_current t rest st))).
      destruct IH as (Hp & Hc & Hs & Hco & Hcl & Hpanic & Hcalm).
      split; [rewrite Hp; unfold errorAtCurrent, errorAt; simpl;
              destruct (panicMode (parser st)); reflexivity|].
      split; [exact Hc|]. split; [exact Hs|].
      split; [rewrite Hco; unfold errorAtCurrent; rewrite compilers_errorAt;
              reflexivity|].
      split; [rewrite Hcl; unfold errorAtCurrent, errorAt; simpl;
              destruct (panicMode (parser st)); reflexivity|].
      split.
      * intros Hpm.
        assert (E' : errorAtCurrent (start t) (set_current t rest st)
                     = set_current t rest st)
          by (apply errorAtCurrent_panicking; exact Hpm).
        rewrite E' in Hpanic |- *. apply Hpanic. exact Hpm.
      * intros Hpm.
        assert (Hraised : panicMode (parser (errorAtCurrent (start t)
                                               (set_current t rest st))) = true).
        { unfold errorAtCurrent, errorAt. simpl. rewrite Hpm. reflexivity. }
        destruct (Hpanic Hraised) as (Hd & Hh & Hpm').
        rewrite Hd, Hh, Hpm'. unfold errorAtCurrent, errorAt. simpl.
        rewrite Hpm. simpl. auto.
    + simpl. repeat split; auto.
Qed.

(** X5: [advance] makes the current token the previous one and scans on to
    the first token that is not [TOKEN_ERROR] (the end-of-file token past the
    end of the stream), so the current token is never an error token.  Each
    error token skipped is handed to [errorAtCurrent] with its own text as
    message: out of panic mode the first one is printed and raises both
    flags; in panic mode nothing is printed.  No compiler is touched. *)
Theorem advance_skips_error_tokens (st : State) :
  let st' := advance st in
  previous (parser st') = current (parser st)
  /\ current (parser st') = hd eofToken (after_errors (scanner st))
  /\ scanner st' = tl (after_errors (scanner st))
  /\ type (current (parser st')) <> TOKEN_ERROR
  /\ compilers st' = compilers st
  /\ classes st' = classes st
  /\ (panicMode (parser st) = true ->
      diagnostics st' = diagnostics st
      /\ hadError (parser st') = hadError (parser st)
      /\ panicMode (parser st') = true)
  /\ (panicMode (parser st) = false ->
      match leading_errors (scanner st) with
      | [] =>
          diagnostics st' = diagnostics st
          /\ hadError (parser st') = hadError (parser st)
          /\ panicMode (parser st') = false
      | t :: _ =>
          diagnostics st' = diagnostics st ++ [(t, start t)]
          /\ hadError (parser st') = true
          /\ panicMode (parser st') = true
      end).
Proof.
  cbv zeta. unfold advance.
  set (st0 := set_parser _ st).
  destruct (advance_scan_spec (scanner st) st0)
    as (Hp & Hc & Hs & Hco & Hcl & Hpanic & Hcalm).
  split; [rewrite Hp; reflexivity|].
  split; [exact Hc|]. split; [exact Hs|].
  split.
  { rewrite Hc. clear. induction (scanner st) as [|t rest IH]; simpl.
    - discriminate.
    - unfold is_error. destruct (TokenType_eqb (type t) TOKEN_ERROR) eqn:E;
        [exact IH|]. simpl. intros H. rewrite H in E. discriminate. }
  split; [exact Hco|]. split; [exact Hcl|].
  split; [exact Hpanic|exact Hcalm].
Qed.

(** ** Diagnostics and the two flags *)

(** What error reporting reads and writes. *)
Definition flags (st : State) : bool * bool * list (Token * string) :=
  (hadError (parser st), panicMode (parser st), diagnostics st).

(** From [st] to [s]: nothing was printed and no flag changed, or, [st]
    being out of panic mode, exactly one diagnostic was printed and both
    flags are raised. *)
Definition reports (st s : State) : Prop :=
  flags s = flags st
  \/ (panicMode (parser st) = false
      /\ exists t msg, flags s = (true, true, diagnostics st ++ [(t, msg)])).

Lemma reports_refl st : reports st st.
Proof. left. reflexivity. Qed.

Lemma reports_silent st s : flags s = flags st -> reports st s.
Proof. intros H. left. exact H. Qed.

Lemma reports_trans a b c : reports a b -> reports b c -> reports a c.
Proof.
  intros [Hab|(Hpa & t & msg & Hab)] [Hbc|(Hpb & t' & msg' & Hbc)].
  - left. congruence.
  - right. unfold flags in Hab. injection Hab as Hh Hp Hd.
    split; [congruence|]. exists t', msg'. rewrite Hbc, Hd. reflexivity.
  - right. split; [exact Hpa|]. exists t, msg. congruence.
  - unfold flags in Hab. injection Hab as _ Hp _. congruence.
Qed.

Lemma reports_errorAt t msg st : reports st (errorAt t msg st).
Proof.
  unfold errorAt. destruct (panicMode (parser st)) eqn:E; [apply reports_refl|].
  right. split; [exact E|]. exists t, msg. reflexivity.
Qed.

Lemma reports_error msg st : reports st (error msg st).
Proof. apply reports_errorAt. Qed.

Lemma reports_errorAtCurrent msg st : reports st (errorAtCurrent msg st).
Proof. apply reports_errorAt. Qed.

Lemma flags_with_current g st : flags (with_current g st) = flags st.
Proof. unfold with_current. destruct (compilers st); reflexivity. Qed.

Lemma flags_emitByte byte st : flags (emitByte byte st) = flags st.
Proof. apply flags_with_current. Qed.

Lemma flags_emitBytes b1 b2 st : flags (emitBytes b1 b2 st) = flags st.
Proof. unfold emitBytes. rewrite !flags_emitByte. reflexivity. Qed.

Lemma flags_emitJump i st : flags (snd (emitJump i st)) = flags st.
Proof. unfold emitJump. simpl. rewrite !flags_emitByte. reflexivity. Qed.

Lemma flags_emitReturn op st : flags (emitReturn op st) = flags st.
Proof.
  unfold emitReturn. rewrite flags_emitByte.
  destruct (FunctionType_eqb _ _); [apply flags_emitBytes|apply flags_emitByte].
Qed.

Lemma reports_advance_scan src st : reports st (advance_scan src st).
Proof.
  revert st. induction src as [|t rest IH]; intros st; simpl.
  - apply reports_silent. reflexivity.
  - destruct (TokenType_eqb (type t) TOKEN_ERROR).
    + apply (reports_trans _ (errorAtCurrent (start t) (set_current t rest st)));
        [|apply IH].
      apply (reports_trans _ (set_current t rest st));
        [apply reports_silent; reflexivity|apply reports_errorAtCurrent].
    + apply reports_silent. reflexivity.
Qed.

Lemma reports_advance st : reports st (advance st).
Proof.
  unfold advance.
  eapply reports_trans; [|apply reports_advance_scan].
  apply reports_silent. reflexivity.
Qed.

Lemma reports_consume ty msg st : reports st (consume ty msg st).
Proof.
  unfold consume. destruct (TokenType_eqb _ _);
    [apply reports_advance|apply reports_errorAtCurrent].
Qed.

Lemma reports_match ty st : reports st (snd (match_ ty st)).
Proof.
  unfold match_. destruct (negb _); simpl; [apply reports_refl|apply reports_advance].
Qed.

Lemma reports_emitLoop op loopStart st : reports st (emitLoop op loopStart st).
Proof.
  unfold emitLoop.
  eapply reports_trans; [|apply reports_silent, flags_emitByte].
  eapply reports_trans; [|apply reports_silent, flags_emitByte].
  eapply reports_trans; [apply reports_silent, (flags_emitByte (op OP_LOOP))|].
  destruct (_ >? _); [apply reports_error|apply reports_refl].
Qed.

Lemma reports_makeConstant v st : reports st (snd (makeConstant v st)).
Proof.
  unfold makeConstant.
  eapply reports_trans;
    [apply reports_silent,
       (flags_with_current
          (fun c => set_function (set_chunk (snd (addConstant (chunk (function c)) v))
                                            (function c)) c))|].
  destruct (_ >? _); simpl; [apply reports_error|apply reports_refl].
Qed.

Lemma reports_identifierConstant nm st : reports st (snd (identifierConstant nm st)).
Proof. apply reports_makeConstant. Qed.

Lemma reports_emitConstant op v st : reports st (emitConstant op v st).
Proof.
  unfold emitConstant. pose proof (reports_makeConstant v st) as H.
  destruct (makeConstant v st) as [k st1]. simpl in H.
  eapply reports_trans; [exact H|apply reports_silent, flags_emitBytes].
Qed.

Lemma reports_patchJump offset st : reports st (patchJump offset st).
Proof.
  unfold patchJump, with_currentChunk.
  eapply reports_trans; [|apply reports_silent, flags_with_current].
  eapply reports_trans; [|apply reports_silent, flags_with_current].
  destruct (_ >? _); [apply reports_error|apply reports_refl].
Qed.

Lemma reports_resolveLocal c nm st : reports st (snd (resolveLocal c nm st)).
Proof.
  unfold resolveLocal. induction (Z.to_nat (localCount c)) as [|i IH]; simpl;
    [apply reports_refl|].
  destruct (identifiersEqual _ _); simpl; [|exact IH].
  destruct (_ =? _); [apply reports_error|apply reports_refl].
Qed.

Lemma reports_addUpvalue c idx b st : reports st (snd (addUpvalue c idx b st)).
Proof.
  unfold addUpvalue. destruct (addUpvalue_scan _ _ _ _ _); [apply reports_refl|].
  destruct (_ =? _); simpl; [apply reports_error|apply reports_refl].
Qed.

Lemma reports_resolveUpvalue chain nm st :
  reports st (snd (resolveUpvalue chain nm st)).
Proof.
  revert st. induction chain as [|c enclosing IH]; intros st; [apply reports_refl|].
  simpl. destruct enclosing as [|parent outer]; [apply reports_refl|].
  pose proof (reports_resolveLocal parent nm st) as H1.
  destruct (resolveLocal parent nm st) as [local st1]. simpl in H1.
  destruct (negb (local =? -1)).
  - pose proof (reports_addUpvalue c (local mod 256) true st1) as H2.
    destruct (addUpvalue c (local mod 256) true st1) as [[i c'] st2]. simpl in *.
    exact (reports_trans _ _ _ H1 H2).
  - specialize (IH st1).
    destruct (resolveUpvalue (parent :: outer) nm st1) as [[up enclosing'] st2].
    simpl in IH. pose proof (reports_trans _ _ _ H1 IH) as H12.
    destruct (negb (up =? -1)); [|exact H12].
    pose proof (reports_addUpvalue c (up mod 256) false st2) as H3.
    destruct (addUpvalue c (up mod 256) false st2) as [[i c'] st3]. simpl in *.
    exact (reports_trans _ _ _ H12 H3).
Qed.

Lemma reports_resolveUpvalue_current nm st :
  reports st (snd (resolveUpvalue_current nm st)).
Proof.
  unfold resolveUpvalue_current.
  pose proof (reports_resolveUpvalue (compilers st) nm st) as H.
  destruct (resolveUpvalue (compilers st) nm st) as [[i chain] st1]. simpl in *.
  eapply reports_trans; [exact H|apply reports_silent; reflexivity].
Qed.

Lemma flags_beginScope st : flags (beginScope st) = flags st.
Proof. apply flags_with_current. Qed.

Lemma flags_endScope_loop op k st : flags (endScope_loop op k st) = flags st.
Proof.
  revert st. induction k as [|k IH]; intros st; simpl; [reflexivity|].
  destruct (_ && _); [|reflexivity].
  rewrite IH, flags_with_current.
  destruct (isCaptured _); apply flags_emitByte.
Qed.

Lemma flags_endScope op st : flags (endScope op st) = flags st.
Proof. unfold endScope. rewrite flags_endScope_loop. apply flags_with_current. Qed.

Lemma reports_addLocal nm st : reports st (addLocal nm st).
Proof.
  unfold addLocal. destruct (_ =? _);
    [apply reports_error|apply reports_silent, flags_with_current].
Qed.

Lemma reports_declareVariable_loop c nm k st :
  reports st (declareVariable_loop c nm k st).
Proof.
  revert st. induction k as [|k IH]; intros st; simpl; [apply reports_refl|].
  destruct (_ && _); [apply reports_refl|].
  eapply reports_trans; [|apply IH].
  destruct (identifiersEqual _ _); [apply reports_error|apply reports_refl].
Qed.

Lemma reports_declareVariable st : reports st (declareVariable st).
Proof.
  unfold declareVariable. destruct (_ =? _); [apply reports_refl|].
  eapply reports_trans; [apply reports_declareVariable_loop|apply reports_addLocal].
Qed.

Lemma reports_parseVariable msg st : reports st (snd (parseVariable msg st)).
Proof.
  unfold parseVariable.
  assert (H : reports st (declareVariable (consume TOKEN_IDENTIFIER msg st))).
  { eapply reports_trans; [apply reports_consume|apply reports_declareVariable]. }
  destruct (_ >? _); [exact H|].
  eapply reports_trans; [exact H|apply reports_identifierConstant].
Qed.

Lemma flags_markInitialized st : flags (markInitialized st) = flags st.
Proof.
  unfold markInitialized. destruct (_ =? _); [reflexivity|apply flags_with_current].
Qed.

Lemma flags_defineVariable op global st : flags (defineVariable op global st) = flags st.
Proof.
  unfold defineVariable. destruct (_ >? _);
    [apply flags_markInitialized|apply flags_emitBytes].
Qed.

Lemma flags_initCompiler ty st : flags (initCompiler ty st) = flags st.
Proof. reflexivity. Qed.

Lemma flags_endCompiler op st : flags (snd (endCompiler op st)) = flags st.
Proof. unfold endCompiler. simpl. apply (flags_emitReturn op st). Qed.

Lemma flags_emitUpvalues compiler i k st :
  flags (emitUpvalues compiler i k st) = flags st.
Proof.
  revert i st. induction k as [|k IH]; intros i st; simpl; [reflexivity|].
  rewrite IH, !flags_emitByte. reflexivity.
Qed.

Lemma flags_set_classes cl st : flags (set_classes cl st) = flags st.
Proof. reflexivity. Qed.

Create HintDb reports.
#[local] Hint Resolve reports_refl reports_error reports_errorAtCurrent
  reports_advance reports_consume reports_match reports_emitLoop
  reports_makeConstant reports_identifierConstant reports_emitConstant
  reports_patchJump reports_resolveLocal reports_resolveUpvalue_current
  reports_addLocal reports_declareVariable reports_parseVariable : reports.
#[local] Hint Extern 3 (reports _ _) =>
  apply reports_silent;
  first [ apply flags_with_current | apply flags_emitByte | apply flags_emitBytes
        | apply flags_emitJump | apply flags_emitReturn | apply flags_beginScope
        | apply flags_endScope | apply flags_markInitialized
        | apply flags_defineVariable | apply flags_initCompiler
        | apply flags_endCompiler | apply flags_emitUpvalues
        | apply flags_set_classes ] : reports.

(** A step that only reports keeps what reporting keeps. *)
Ltac stable_reports trans :=
  let st := fresh "st" in
  let H := fresh "H" in
  lazymatch goal with |- stable _ _ => idtac end;
  intros st H; cbn beta; refine (trans _ _ H _);
  repeat match goal with
         | |- reports _ (match ?x with _ => _ end) => destruct x
         | |- reports _ ((match ?x with _ => _ end) _) => destruct x
         | |- reports _ (if ?x then _ else _) => destruct x
         end;
  cbn beta; auto with reports.

Section ReportsExpressions.

Variable op : OpCode -> Z.
Variable st0 : State.
Variable rec : ExprCall -> M Z.
Hypothesis rec_reports : forall c, keeps (reports st0) (rec c).

Ltac go :=
  repeat keeps_step; try apply rec_reports;
  try stable_reports (reports_trans st0).

Lemma keeps_reports_and_match flag ty : keeps (reports st0) (and_match flag ty).
Proof. destruct flag; simpl; go. Qed.

Lemma keeps_reports_argumentList : keeps (reports st0) (argumentList rec).
Proof. unfold argumentList. go. Qed.

Lemma keeps_reports_namedVariable nm canAssign :
  keeps (reports st0) (namedVariable op rec nm canAssign).
Proof.
  pose proof keeps_reports_and_match.
  unfold namedVariable, expression.
  repeat match goal with
         | |- keeps _ (and_match _ _) => apply keeps_reports_and_match
         | _ => keeps_step
         end;
    try apply rec_reports; try stable_reports (reports_trans st0).
Qed.

Lemma keeps_reports_callParseFn fn canAssign :
  keeps (reports st0) (callParseFn op rec fn canAssign).
Proof.
  destruct fn; simpl;
    unfold grouping, call, dot, unary, binary, variable, string_, number, and_,
           literal, or_, super_, this_, variable, expression;
    repeat match goal with
           | |- keeps _ (and_match _ _) => apply keeps_reports_and_match
           | |- keeps _ (argumentList _) => apply keeps_reports_argumentList
           | |- keeps _ (namedVariable _ _ _ _) => apply keeps_reports_namedVariable
           | _ => keeps_step
           end;
    try apply rec_reports; try stable_reports (reports_trans st0).
Qed.

Lemma keeps_reports_exprStep c : keeps (reports st0) (exprStep op rec c).
Proof.
  destruct c; simpl; unfold parsePrecendence, infixLoop, argumentLoop, expression;
    repeat match goal with
           | |- keeps _ (and_match _ _) => apply keeps_reports_and_match
           | |- keeps _ (callParseFn _ _ _ _) => apply keeps_reports_callParseFn
           | _ => keeps_step
           end;
    try apply rec_reports; try stable_reports (reports_trans st0).
Qed.

End ReportsExpressions.

Lemma keeps_reports_runExpr op st0 fuel c : keeps (reports st0) (runExpr op fuel c).
Proof.
  revert c. induction fuel as [|fuel IH]; intros c; simpl.
  - apply keeps_noResult.
  - apply keeps_reports_exprStep. exact IH.
Qed.

(** From [st] to [s]: the diagnostics of [st] are still there, first;
    [hadError] is raised exactly if it was raised or something was printed
    since; panic mode is on only if it was on or something was printed
    since. *)
Definition logged (st s : State) : Prop :=
  exists more,
    diagnostics s = diagnostics st ++ more
    /\ hadError (parser s)
       = hadError (parser st) || negb (Nat.eqb (length more) 0)
    /\ (panicMode (parser s) = true ->
        panicMode (parser st) = true \/ more <> []).

Lemma logged_refl st : logged st st.
Proof.
  exists []. rewrite app_nil_r, orb_false_r.
  split; [reflexivity|]. split; [reflexivity|]. intros H. left. exact H.
Qed.

Lemma logged_trans a b c : logged a b -> logged b c -> logged a c.
Proof.
  intros (m1 & Hd1 & Hh1 & Hp1) (m2 & Hd2 & Hh2 & Hp2).
  exists (m1 ++ m2). rewrite Hd2, Hd1, app_assoc. split; [reflexivity|].
  split.
  - rewrite Hh2, Hh1, length_app.
    destruct (hadError (parser a)), m1, m2; reflexivity.
  - intros H. destruct (Hp2 H) as [H2|H2].
    + destruct (Hp1 H2) as [H1|H1]; [left; exact H1|].
      right. destruct m1; [congruence|discriminate].
    + right. destruct m1, m2; try discriminate. congruence.
Qed.

Lemma logged_reports st s : reports st s -> logged st s.
Proof.
  unfold reports, flags. intros [H|(Hp & t & msg & H)]; injection H as Hh Hpm Hd.
  - exists []. rewrite app_nil_r, orb_false_r.
    split; [exact Hd|]. split; [exact Hh|]. intros Hs. left. congruence.
  - exists [(t, msg)]. rewrite Hh, orb_true_r.
    split; [exact Hd|]. split; [reflexivity|]. intros _. right. discriminate.
Qed.

(** [synchronize] leaves panic mode. *)
Lemma logged_calm st :
  logged st (set_parser (mkParser (current (parser st)) (previous (parser st))
                           (hadError (parser st)) false) st).
Proof.
  exists []. simpl. rewrite app_nil_r, orb_false_r.
  split; [reflexivity|]. split; [reflexivity|]. discriminate.
Qed.

Ltac stable_logged st0 :=
  let st := fresh "st" in
  let H := fresh "H" in
  lazymatch goal with |- stable _ _ => idtac end;
  intros st H; cbn beta; refine (logged_trans st0 _ _ H _);
  first
    [ apply logged_calm
    | apply logged_reports;
      repeat match goal with
             | |- reports _ (match ?x with _ => _ end) => destruct x
             | |- reports _ ((match ?x with _ => _ end) _) => destruct x
             | |- reports _ (if ?x then _ else _) => destruct x
             end;
      cbn beta; auto with reports ].

Lemma keeps_logged_reports {A} st0 (m : M A) :
  (forall s, keeps (reports s) m) -> keeps (logged st0) m.
Proof.
  intros H st a st' Hrun Hst.
  apply (logged_trans _ _ _ Hst). apply logged_reports.
  exact (H st st a st' Hrun (reports_refl st)).
Qed.

Section LoggedStatements.

Variable op : OpCode -> Z.
Variable st0 : State.
Variable expr : ExprCall -> M Z.
Variable rec : StmtCall -> M Z.
Hypothesis expr_reports : forall s c, keeps (reports s) (expr c).
Hypothesis rec_logged : forall c, keeps (logged st0) (rec c).

Lemma keeps_logged_expr c : keeps (logged st0) (expr c).
Proof. apply keeps_logged_reports. intros s. apply expr_reports. Qed.

Lemma keeps_logged_namedVariable nm canAssign :
  keeps (logged st0) (namedVariable op expr nm canAssign).
Proof.
  apply keeps_logged_reports. intros s.
  apply keeps_reports_namedVariable. apply expr_reports.
Qed.

Ltac go :=
  repeat match goal with
         | |- keeps _ (expr _) => apply keeps_logged_expr
         | |- keeps _ (rec _) => apply rec_logged
         | |- keeps _ (namedVariable _ _ _ _) => apply keeps_logged_namedVariable
         | _ => keeps_step
         end;
  try stable_logged st0.

Lemma keeps_logged_block : keeps (logged st0) (block rec).
Proof. unfold block. go. Qed.

Lemma keeps_logged_function_ ty : keeps (logged st0) (function_ op rec ty).
Proof. unfold function_, block. go. Qed.

Lemma keeps_logged_varDeclaration : keeps (logged st0) (varDeclaration op expr).
Proof. unfold varDeclaration, expression. go. Qed.

Lemma keeps_logged_expressionStatement :
  keeps (logged st0) (expressionStatement op expr).
Proof. unfold expressionStatement, expression. go. Qed.

Lemma keeps_logged_stmtStep c : keeps (logged st0) (stmtStep op expr rec c).
Proof.
  destruct c; simpl;
    unfold declaration_, statement_, blockLoop, parameterLoop, methodLoop,
           synchronizeLoop, compileLoop, classDeclaration, funDeclaration,
           forStatement, ifStatement, printStatement, returnStatement,
           whileStatement, synchronize, method, declaration, statement,
           variable, expression;
    repeat match goal with
           | |- keeps _ (expr _) => apply keeps_logged_expr
           | |- keeps _ (rec _) => apply rec_logged
           | |- keeps _ (namedVariable _ _ _ _) => apply keeps_logged_namedVariable
           | |- keeps _ (block _) => apply keeps_logged_block
           | |- keeps _ (function_ _ _ _) => apply keeps_logged_function_
           | |- keeps _ (varDeclaration _ _) => apply keeps_logged_varDeclaration
           | |- keeps _ (expressionStatement _ _) =>
               apply keeps_logged_expressionStatement
           | _ => keeps_step
           end;
    try stable_logged st0.
Qed.

End LoggedStatements.

Lemma keeps_logged_runStmt op st0 fuel c : keeps (logged st0) (runStmt op fuel c).
Proof.
  revert c. induction fuel as [|fuel IH]; intros c; simpl.
  - apply keeps_noResult.
  - apply keeps_logged_stmtStep; [|exact IH].
    intros s c'. apply keeps_reports_runExpr.
Qed.

(** X3: an expression reports at most once.  From the state a call of the
    expression parser starts in to the state it returns in, either nothing
    was printed and no flag changed, or, panic mode being off at the start,
    exactly one diagnostic was appended and [hadError] and [panicMode] are
    raised; in panic mode an expression prints nothing.  And [expression]
    does return, from any state, once the fuel is enough. *)
Theorem expression_reports_at_most_once (op : OpCode -> Z) :
  (forall fuel c st r st',
     runExpr op fuel c st = Some (r, st') -> reports st st')
  /\ (forall st s,
        reports st s ->
        (length (diagnostics s) <= S (length (diagnostics st)))%nat
        /\ (panicMode (parser st) = true ->
            diagnostics s = diagnostics st
            /\ hadError (parser s) = hadError (parser st)
            /\ panicMode (parser s) = true)
        /\ (diagnostics s <> diagnostics st ->
            hadError (parser s) = true /\ panicMode (parser s) = true))
  /\ (forall st,
      exists fuel0 r st',
        (forall fuel, (fuel0 <= fuel)%nat ->
           expression (runExpr op fuel) st = Some (r, st'))
        /\ reports st st').
Proof.
  split.
  { intros fuel c st r st' Hrun.
    exact (keeps_reports_runExpr op st fuel c st r st' Hrun (reports_refl st)). }
  split.
  { intros st s [H|(Hp & t & msg & H)]; unfold flags in H;
      injection H as Hh Hpm Hd.
    - rewrite Hd. split; [lia|]. split; [intros Hpanic; rewrite Hpm; auto|].
      congruence.
    - rewrite Hd, length_app. simpl. split; [lia|].
      split; [congruence|]. auto. }
  intros st.
  destruct (expressions_return_all op (ahead st)) as (Hpp & _).
  destruct (Hpp PREC_ASSIGNMENT st) as (fuel0 & r & st' & Hrun & _);
    [unfold PREC_ASSIGNMENT; lia|unfold bounded; lia|].
  exists fuel0, r, st'. split; [exact Hrun|].
  exact (keeps_reports_runExpr op st fuel0 _ st r st'
           (Hrun fuel0 (Nat.le_refl _)) (reports_refl st)).
Qed.

Lemma logged_initial s st :
  diagnostics s = [] -> hadError (parser s) = false -> logged s st ->
  (hadError (parser st) = true <-> diagnostics st <> []).
Proof.
  intros Hd Hh (more & Hd' & Hh' & _). rewrite Hd', Hh', Hd, Hh. simpl.
  destruct more; simpl; split; congruence.
Qed.

(** X4: diagnostics are only appended, and [hadError] is raised exactly
    when one is printed.  Across every statement-level call the diagnostics
    at the start are a prefix of those at the end, [hadError] at the end is
    [hadError] at the start or something printed in between.  Hence
    [compile] yields no function exactly when it printed a diagnostic, and
    it does return, whatever the source, once the fuel is enough. *)
Theorem compile_fails_iff_reported (op : OpCode -> Z) :
  (forall fuel c st r st',
     runStmt op fuel c st = Some (r, st') ->
     exists more,
       diagnostics st' = diagnostics st ++ more
       /\ hadError (parser st')
          = hadError (parser st) || negb (Nat.eqb (length more) 0))
  /\ (forall fuel source r st,
        compile op fuel source = Some (r, st) ->
        (r = None <-> diagnostics st <> [])
        /\ (hadError (parser st) = true <-> diagnostics st <> []))
  /\ (forall source,
      exists fuel0 r st,
        (forall fuel, (fuel0 <= fuel)%nat -> compile op fuel source = Some (r, st))
        /\ (r = None <-> diagnostics st <> [])).
Proof.
  assert (Hcompile : forall fuel source r st,
            compile op fuel source = Some (r, st) ->
            (r = None <-> diagnostics st <> [])
            /\ (hadError (parser st) = true <-> diagnostics st <> [])).
  { intros fuel source r st. unfold compile.
    set (st1 := set_parser _ _).
    destruct (runStmt op fuel call_compileLoop (advance st1)) as [[z st2]|] eqn:E;
      [|discriminate].
    assert (H2 : logged st1 st2).
    { apply (logged_trans _ (advance st1));
        [apply logged_reports, reports_advance|].
      exact (keeps_logged_runStmt op (advance st1) fuel _ _ _ _ E
               (logged_refl _)). }
    assert (H3 : logged st1 (snd (endCompiler op st2))).
    { apply (logged_trans _ _ _ H2), logged_reports, reports_silent.
      apply flags_endCompiler. }
    destruct (endCompiler op st2) as [f st3]. simpl in H3.
    intros Hr. injection Hr as <- <-.
    pose proof (logged_initial st1 st3 eq_refl eq_refl H3) as Hiff.
    split; [|exact Hiff].
    destruct (hadError (parser st3)).
    - split; [intros _; apply Hiff; reflexivity|reflexivity].
    - split; [discriminate|]. intros H. apply Hiff in H. discriminate. }
  split.
  { intros fuel c st r st' Hrun.
    destruct (keeps_logged_runStmt op st fuel c st r st' Hrun (logged_refl st))
      as (more & Hd & Hh & _).
    exists more. auto. }
  split; [exact Hcompile|].
  intros source. destruct (compile_returns op source) as (fuel0 & [r st] & H).
  exists fuel0, r, st. split; [exact H|].
  exact (proj1 (Hcompile fuel0 source r st (H fuel0 (Nat.le_refl _)))).
Qed.

(** ** The chain of classes *)

Lemma classes_errorAt t msg st : classes (errorAt t msg st) = classes st.
Proof. unfold errorAt. destruct (panicMode (parser st)); reflexivity. Qed.

Lemma classes_error msg st : classes (error msg st) = classes st.
Proof. apply classes_errorAt. Qed.

Lemma classes_errorAtCurrent msg st : classes (errorAtCurrent msg st) = classes st.
Proof. apply classes_errorAt. Qed.

Lemma classes_with_current g st : classes (with_current g st) = classes st.
Proof. unfold with_current. destruct (compilers st); reflexivity. Qed.

Lemma classes_advance st : classes (advance st) = classes st.
Proof.
  unfold advance.
  destruct (advance_scan_spec (scanner st)
              (set_parser (mkParser (current (parser st)) (current (parser st))
                             (hadError (parser st)) (panicMode (parser st))) st))
    as (_ & _ & _ & _ & H & _).
  exact H.
Qed.

Lemma classes_consume ty msg st : classes (consume ty msg st) = classes st.
Proof.
  unfold consume. destruct (TokenType_eqb _ _);
    [apply classes_advance|apply classes_errorAtCurrent].
Qed.

Lemma classes_match ty st : classes (snd (match_ ty st)) = classes st.
Proof.
  unfold match_. destruct (negb _); simpl; [reflexivity|apply classes_advance].
Qed.

Lemma classes_emitByte byte st : classes (emitByte byte st) = classes st.
Proof. apply classes_with_current. Qed.

Lemma classes_emitBytes b1 b2 st : classes (emitBytes b1 b2 st) = classes st.
Proof. unfold emitBytes. rewrite !classes_emitByte. reflexivity. Qed.

Lemma classes_emitJump i st : classes (snd (emitJump i st)) = classes st.
Proof. unfold emitJump. simpl. rewrite !classes_emitByte. reflexivity. Qed.

Lemma classes_emitLoop op loopStart st : classes (emitLoop op loopStart st) = classes st.
Proof.
  unfold emitLoop. rewrite !classes_emitByte.
  destruct (_ >? _); [rewrite classes_error|]; apply classes_emitByte.
Qed.

Lemma classes_emitReturn op st : classes (emitReturn op st) = classes st.
Proof.
  unfold emitReturn. rewrite classes_emitByte.
  destruct (FunctionType_eqb _ _); [apply classes_emitBytes|apply classes_emitByte].
Qed.

Lemma classes_makeConstant v st : classes (snd (makeConstant v st)) = classes st.
Proof.
  unfold makeConstant, with_currentChunk.
  destruct (_ >? _); simpl; [rewrite classes_error|]; apply classes_with_current.
Qed.

Lemma classes_identifierConstant nm st :
  classes (snd (identifierConstant nm st)) = classes st.
Proof. apply classes_makeConstant. Qed.

Lemma classes_emitConstant op v st : classes (emitConstant op v st) = classes st.
Proof.
  unfold emitConstant. pose proof (classes_makeConstant v st) as H.
  destruct (makeConstant v st) as [k st1]. simpl in H.
  rewrite classes_emitBytes. exact H.
Qed.

Lemma classes_patchJump offset st : classes (patchJump offset st) = classes st.
Proof.
  unfold patchJump, with_currentChunk. rewrite !classes_with_current.
  destruct (_ >? _); [apply classes_error|reflexivity].
Qed.

Lemma classes_resolveLocal c nm st : classes (snd (resolveLocal c nm st)) = classes st.
Proof.
  unfold resolveLocal. induction (Z.to_nat (localCount c)) as [|i IH]; simpl;
    [reflexivity|].
  destruct (identifiersEqual _ _); simpl; [|exact IH].
  destruct (_ =? _); [apply classes_error|reflexivity].
Qed.

Lemma classes_addUpvalue c idx b st : classes (snd (addUpvalue c idx b st)) = classes st.
Proof.
  unfold addUpvalue. destruct (addUpvalue_scan _ _ _ _ _); [reflexivity|].
  destruct (_ =? _); simpl; [apply classes_error|reflexivity].
Qed.

Lemma classes_resolveUpvalue chain nm st :
  classes (snd (resolveUpvalue chain nm st)) = classes st.
Proof.
  revert st. induction chain as [|c enclosing IH]; intros st; [reflexivity|].
  simpl. destruct enclosing as [|parent outer]; [reflexivity|].
  pose proof (classes_resolveLocal parent nm st) as H1.
  destruct (resolveLocal parent nm st) as [local st1]. simpl in H1.
  destruct (negb (local =? -1)).
  - pose proof (classes_addUpvalue c (local mod 256) true st1) as H2.
    destruct (addUpvalue c (local mod 256) true st1) as [[i c'] st2]. simpl in *.
    congruence.
  - specialize (IH st1).
    destruct (resolveUpvalue (parent :: outer) nm st1) as [[up enclosing'] st2].
    simpl in IH.
    destruct (negb (up =? -1)); [|simpl; congruence].
    pose proof (classes_addUpvalue c (up mod 256) false st2) as H3.
    destruct (addUpvalue c (up mod 256) false st2) as [[i c'] st3]. simpl in *.
    congruence.
Qed.

Lemma classes_resolveUpvalue_current nm st :
  classes (snd (resolveUpvalue_current nm st)) = classes st.
Proof.
  unfold resolveUpvalue_current.
  pose proof (classes_resolveUpvalue (compilers st) nm st) as H.
  destruct (resolveUpvalue (compilers st) nm st) as [[i chain] st1]. exact H.
Qed.

Lemma classes_beginScope st : classes (beginScope st) = classes st.
Proof. apply classes_with_current. Qed.

Lemma classes_endScope_loop op k st : classes (endScope_loop op k st) = classes st.
Proof.
  revert st. induction k as [|k IH]; intros st; simpl; [reflexivity|].
  destruct (_ && _); [|reflexivity].
  rewrite IH, classes_with_current.
  destruct (isCaptured _); apply classes_emitByte.
Qed.

Lemma classes_endScope op st : classes (endScope op st) = classes st.
Proof. unfold endScope. rewrite classes_endScope_loop. apply classes_with_current. Qed.

Lemma classes_addLocal nm st : classes (addLocal nm st) = classes st.
Proof.
  unfold addLocal. destruct (_ =? _);
    [apply classes_error|apply classes_with_current].
Qed.

Lemma classes_declareVariable_loop c nm k st :
  classes (declareVariable_loop c nm k st) = classes st.
Proof.
  revert st. induction k as [|k IH]; intros st; simpl; [reflexivity|].
  destruct (_ && _); [reflexivity|]. rewrite IH.
  destruct (identifiersEqual _ _); [apply classes_error|reflexivity].
Qed.

Lemma classes_declareVariable st : classes (declareVariable st) = classes st.
Proof.
  unfold declareVariable. destruct (_ =? _); [reflexivity|].
  rewrite classes_addLocal. apply classes_declareVariable_loop.
Qed.

Lemma classes_parseVariable msg st : classes (snd (parseVariable msg st)) = classes st.
Proof.
  unfold parseVariable.
  destruct (_ >? _); simpl; [|rewrite classes_identifierConstant];
    rewrite classes_declareVariable; apply classes_consume.
Qed.

Lemma classes_markInitialized st : classes (markInitialized st) = classes st.
Proof.
  unfold markInitialized. destruct (_ =? _); [reflexivity|apply classes_with_current].
Qed.

Lemma classes_defineVariable op global st :
  classes (defineVariable op global st) = classes st.
Proof.
  unfold defineVariable. destruct (_ >? _);
    [apply classes_markInitialized|apply classes_emitBytes].
Qed.

Lemma classes_initCompiler ty st : classes (initCompiler ty st) = classes st.
Proof. reflexivity. Qed.

Lemma classes_endCompiler op st : classes (snd (endCompiler op st)) = classes st.
Proof. unfold endCompiler. simpl. apply (classes_emitReturn op st). Qed.

Lemma classes_emitUpvalues compiler i k st :
  classes (emitUpvalues compiler i k st) = classes st.
Proof.
  revert i st. induction k as [|k IH]; intros i st; simpl; [reflexivity|].
  rewrite IH, !classes_emitByte. reflexivity.
Qed.

(** The classes being compiled are [K], innermost first. *)
Definition in_classes (K : list ClassCompiler) (st : State) : Prop :=
  classes st = K.

Create HintDb classes.
#[local] Hint Resolve classes_error classes_errorAtCurrent classes_with_current
  classes_advance classes_consume classes_match classes_emitByte
  classes_emitBytes classes_emitJump classes_emitLoop classes_emitReturn
  classes_makeConstant classes_identifierConstant classes_emitConstant
  classes_patchJump classes_resolveLocal classes_resolveUpvalue_current
  classes_beginScope classes_endScope classes_addLocal classes_declareVariable
  classes_parseVariable classes_markInitialized classes_defineVariable
  classes_initCompiler classes_endCompiler classes_emitUpvalues : classes.

Ltac classes_goal :=
  cbn beta;
  repeat match goal with
         | |- classes (match classes ?s with _ => _ end) = _ =>
             let E := fresh "E" in destruct (classes s) eqn:E; try rewrite <- E
         | |- classes (match ?x with _ => _ end) = _ => destruct x
         | |- classes ((match ?x with _ => _ end) _) = _ => destruct x
         | |- classes (if ?x then _ else _) = _ => destruct x
         end;
  cbn beta; auto with classes.

Ltac stable_classes :=
  let st := fresh "st" in
  let H := fresh "H" in
  lazymatch goal with |- stable _ _ => idtac end;
  intros st H; unfold in_classes in *; cbn beta; rewrite <- H;
  classes_goal.

Section ClassesExpressions.

Variable op : OpCode -> Z.
Variable K : list ClassCompiler.
Variable rec : ExprCall -> M Z.
Hypothesis rec_classes : forall c, keeps (in_classes K) (rec c).

Ltac go :=
  repeat match goal with
         | |- keeps _ (rec _) => apply rec_classes
         | |- keeps _ (and_match ?flag _) => destruct flag; simpl
         | _ => keeps_step
         end;
  try stable_classes.

Lemma keeps_classes_argumentList : keeps (in_classes K) (argumentList rec).
Proof. unfold argumentList. go. Qed.

Lemma keeps_classes_namedVariable nm canAssign :
  keeps (in_classes K) (namedVariable op rec nm canAssign).
Proof. unfold namedVariable, expression. go. Qed.

Lemma keeps_classes_callParseFn fn canAssign :
  keeps (in_classes K) (callParseFn op rec fn canAssign).
Proof.
  destruct fn; simpl;
    unfold grouping, call, dot, unary, binary, variable, string_, number, and_,
           literal, or_, super_, this_, variable, expression;
    repeat match goal with
           | |- keeps _ (rec _) => apply rec_classes
           | |- keeps _ (and_match ?flag _) => destruct flag; simpl
           | |- keeps _ (argumentList _) => apply keeps_classes_argumentList
           | |- keeps _ (namedVariable _ _ _ _) => apply keeps_classes_namedVariable
           | _ => keeps_step
           end;
    try stable_classes.
Qed.

Lemma keeps_classes_exprStep c : keeps (in_classes K) (exprStep op rec c).
Proof.
  destruct c; simpl; unfold parsePrecendence, infixLoop, argumentLoop, expression;
    repeat match goal with
           | |- keeps _ (rec _) => apply rec_classes
           | |- keeps _ (and_match ?flag _) => destruct flag; simpl
           | |- keeps _ (callParseFn _ _ _ _) => apply keeps_classes_callParseFn
           | _ => keeps_step
           end;
    try stable_classes.
Qed.

End ClassesExpressions.

Lemma keeps_classes_runExpr op K fuel c : keeps (in_classes K) (runExpr op fuel c).
Proof.
  revert c. induction fuel as [|fuel IH]; intros c; simpl.
  - apply keeps_noResult.
  - apply keeps_classes_exprStep. exact IH.
Qed.

Section ClassesStatements.

Variable op : OpCode -> Z.
Variable expr : ExprCall -> M Z.
Variable rec : StmtCall -> M Z.
Hypothesis expr_classes : forall K c, keeps (in_classes K) (expr c).
Hypothesis rec_classes : forall K c, keeps (in_classes K) (rec c).

Ltac go :=
  repeat match goal with
         | |- keeps _ (expr _) => apply expr_classes
         | |- keeps _ (rec _) => apply rec_classes
         | |- keeps _ (namedVariable _ _ _ _) =>
             apply keeps_classes_namedVariable; intros ?; apply expr_classes
         | _ => keeps_step
         end;
  try stable_classes.

Lemma keeps_classes_block K : keeps (in_classes K) (block rec).
Proof. unfold block. go. Qed.

Lemma keeps_classes_function_ K ty : keeps (in_classes K) (function_ op rec ty).
Proof. unfold function_, block. go. Qed.

Lemma keeps_classes_varDeclaration K : keeps (in_classes K) (varDeclaration op expr).
Proof. unfold varDeclaration, expression. go. Qed.

Lemma keeps_classes_expressionStatement K :
  keeps (in_classes K) (expressionStatement op expr).
Proof. unfold expressionStatement, expression. go. Qed.

(** [classDeclaration] pushes its class, marks it once the superclass is
    known, and pops it. *)
Lemma keeps_classes_classDeclaration K :
  keeps (in_classes K) (classDeclaration op expr rec).
Proof.
  unfold classDeclaration, variable.
  do 6 (apply keeps_bind; [go|intros ?]).
  apply keeps_hoare.
  apply (hoare_bind _ (in_classes (mkClassCompiler false :: K)));
    [apply hoare_exec; intros st H; unfold in_classes in *; simpl; congruence|].
  intros [].
  apply (hoare_bind _ (in_classes (mkClassCompiler false :: K)));
    [apply hoare_keeps; go|].
  intros inherits.
  apply (hoare_bind _ (in_classes (mkClassCompiler inherits :: K))).
  { destruct inherits; [|apply hoare_ret].
    do 9 (apply (hoare_bind _ (in_classes (mkClassCompiler false :: K)));
          [apply hoare_keeps; go|intros ?]).
    apply hoare_exec. intros st H. unfold in_classes in *. simpl.
    rewrite H. reflexivity. }
  intros [].
  do 6 (apply (hoare_bind _ (in_classes (mkClassCompiler inherits :: K)));
        [apply hoare_keeps; go|intros ?]).
  apply (hoare_bind _ (in_classes K)); [|intros ?; apply hoare_ret].
  apply hoare_exec. intros st H. unfold in_classes in *. simpl.
  rewrite H. reflexivity.
Qed.

Lemma keeps_classes_stmtStep K c : keeps (in_classes K) (stmtStep op expr rec c).
Proof.
  destruct c; simpl;
    unfold declaration_, statement_, blockLoop, parameterLoop, methodLoop,
           synchronizeLoop, compileLoop, funDeclaration,
           forStatement, ifStatement, printStatement, returnStatement,
           whileStatement, synchronize, method, declaration, statement,
           variable, expression;
    repeat match goal with
           | |- keeps _ (expr _) => apply expr_classes
           | |- keeps _ (rec _) => apply rec_classes
           | |- keeps _ (namedVariable _ _ _ _) =>
               apply keeps_classes_namedVariable; intros ?; apply expr_classes
           | |- keeps _ (block _) => apply keeps_classes_block
           | |- keeps _ (function_ _ _ _) => apply keeps_classes_function_
           | |- keeps _ (varDeclaration _ _) => apply keeps_classes_varDeclaration
           | |- keeps _ (expressionStatement _ _) =>
               apply keeps_classes_expressionStatement
           | |- keeps _ (classDeclaration _ _ _) =>
               apply keeps_classes_classDeclaration
           | _ => keeps_step
           end;
    try stable_classes.
Qed.

End ClassesStatements.

Lemma keeps_classes_runStmt op fuel K c : keeps (in_classes K) (runStmt op fuel c).
Proof.
  revert K c. induction fuel as [|fuel IH]; intros K c; simpl.
  - apply keeps_noResult.
  - apply keeps_classes_stmtStep; [|exact IH].
    intros K' c'. apply keeps_classes_runExpr.
Qed.

(** ** The tables stay in bounds *)

(** Every compiler of the chain has its counters within the arrays. *)
Definition tables_in_bounds : State -> Prop := on_chain (Forall well_formed).

Lemma bounds_with_current g st :
  (well_formed (cur st) -> well_formed (g (cur st))) ->
  tables_in_bounds st -> tables_in_bounds (with_current g st).
Proof.
  unfold tables_in_bounds, on_chain, with_current, cur.
  destruct (compilers st) as [|c cs] eqn:E; intros Hg H; [rewrite E; exact H|].
  simpl in *. apply Forall_cons in H as [Hc Hcs].
  apply Forall_cons. split; [apply Hg, Hc|exact Hcs].
Qed.

Lemma bounds_keep_tables g st :
  (forall c, localCount (g c) = localCount c /\ length (locals (g c)) = length (locals c)
             /\ upvalueCount (function (g c)) = upvalueCount (function c)
             /\ length (upvalues (g c)) = length (upvalues c)) ->
  tables_in_bounds st -> tables_in_bounds (with_current g st).
Proof.
  intros Hg. apply bounds_with_current.
  destruct (Hg (cur st)) as (H1 & H2 & H3 & H4).
  unfold well_formed. rewrite H1, H2, H3, H4. auto.
Qed.

Lemma bounds_with_currentChunk g st :
  tables_in_bounds st -> tables_in_bounds (with_currentChunk g st).
Proof. apply bounds_keep_tables. intros c. repeat split. Qed.

Lemma bounds_emitByte byte st : tables_in_bounds st -> tables_in_bounds (emitByte byte st).
Proof. apply bounds_with_currentChunk. Qed.

Lemma bounds_error msg st : tables_in_bounds st -> tables_in_bounds (error msg st).
Proof. apply stable_chain_error. Qed.

Lemma bounds_errorAtCurrent msg st :
  tables_in_bounds st -> tables_in_bounds (errorAtCurrent msg st).
Proof. apply stable_chain_errorAtCurrent. Qed.

Lemma bounds_advance st : tables_in_bounds st -> tables_in_bounds (advance st).
Proof. apply stable_chain_advance. Qed.

Lemma bounds_consume ty msg st :
  tables_in_bounds st -> tables_in_bounds (consume ty msg st).
Proof. apply stable_chain_consume. Qed.

Lemma bounds_match ty st : tables_in_bounds st -> tables_in_bounds (snd (match_ ty st)).
Proof. apply stable_chain_match. Qed.

Lemma bounds_emitBytes b1 b2 st :
  tables_in_bounds st -> tables_in_bounds (emitBytes b1 b2 st).
Proof. intros H. unfold emitBytes. auto using bounds_emitByte. Qed.

Lemma bounds_emitJump i st : tables_in_bounds st -> tables_in_bounds (snd (emitJump i st)).
Proof. intros H. unfold emitJump. simpl. auto using bounds_emitByte. Qed.

Lemma bounds_emitLoop op loopStart st :
  tables_in_bounds st -> tables_in_bounds (emitLoop op loopStart st).
Proof.
  intros H. unfold emitLoop. repeat apply bounds_emitByte.
  destruct (_ >? _); auto using bounds_error, bounds_emitByte.
Qed.

Lemma bounds_emitReturn op st :
  tables_in_bounds st -> tables_in_bounds (emitReturn op st).
Proof.
  intros H. unfold emitReturn. apply bounds_emitByte.
  destruct (FunctionType_eqb _ _); auto using bounds_emitBytes, bounds_emitByte.
Qed.

Lemma bounds_makeConstant v st :
  tables_in_bounds st -> tables_in_bounds (snd (makeConstant v st)).
Proof.
  intros H. unfold makeConstant.
  destruct (_ >? _); simpl; [apply bounds_error|]; apply bounds_with_currentChunk, H.
Qed.

Lemma bounds_identifierConstant nm st :
  tables_in_bounds st -> tables_in_bounds (snd (identifierConstant nm st)).
Proof. apply bounds_makeConstant. Qed.

Lemma bounds_emitConstant op v st :
  tables_in_bounds st -> tables_in_bounds (emitConstant op v st).
Proof.
  intros H. unfold emitConstant. pose proof (bounds_makeConstant v st H) as H1.
  destruct (makeConstant v st) as [k st1]. apply bounds_emitBytes, H1.
Qed.

Lemma bounds_patchJump offset st :
  tables_in_bounds st -> tables_in_bounds (patchJump offset st).
Proof.
  intros H. unfold patchJump. do 2 apply bounds_with_currentChunk.
  destruct (_ >? _); [apply bounds_error|]; exact H.
Qed.

Lemma bounds_resolveLocal nm st :
  tables_in_bounds st -> tables_in_bounds (snd (resolveLocal (cur st) nm st)).
Proof. unfold tables_in_bounds, on_chain. rewrite compilers_resolveLocal. auto. Qed.

Lemma well_formed_capture i c : well_formed c -> well_formed (capture i c).
Proof.
  intros (H1 & H2 & H3 & H4). unfold well_formed, capture, set_locals.
  cbn [localCount locals function upvalues]. rewrite length_insert. auto.
Qed.

Lemma well_formed_addUpvalue c idx b st :
  well_formed c -> well_formed (snd (fst (addUpvalue c idx b st))).
Proof.
  intros H.
  destruct (addUpvalue_spec c idx b st H)
    as [(_ & _ & _ & _ & _ & Hwf & _)|(_ & _ & -> & _)]; assumption.
Qed.

Lemma bounds_resolveUpvalue_current nm st :
  tables_in_bounds st -> tables_in_bounds (snd (resolveUpvalue_current nm st)).
Proof.
  intros H. unfold resolveUpvalue_current.
  pose proof (resolveUpvalue_Forall well_formed
                (fun c i => well_formed_capture i c)
                well_formed_addUpvalue (compilers st) nm st H) as HF.
  destruct (resolveUpvalue (compilers st) nm st) as [[i chain] st1].
  exact HF.
Qed.

Lemma bounds_beginScope st : tables_in_bounds st -> tables_in_bounds (beginScope st).
Proof. apply bounds_keep_tables. intros c. repeat split. Qed.

Lemma bounds_endScope_loop op k st :
  tables_in_bounds st -> tables_in_bounds (endScope_loop op k st).
Proof.
  revert st. induction k as [|k IH]; intros st H; simpl; [exact H|].
  destruct (_ && _) eqn:E; [|exact H].
  apply andb_true_iff in E as [E _]. apply Z.gtb_lt in E.
  apply IH.
  assert (Hcur : forall b, cur (emitByte b st) = 
                   set_function (set_chunk (writeChunk (chunk (function (cur st))) b
                                   (line (previous (parser st)))) (function (cur st)))
                                (cur st) \/ compilers st = []).
  { intros b. unfold emitByte, with_currentChunk, with_current, cur.
    destruct (compilers st); [right; reflexivity|left; reflexivity]. }
  apply bounds_with_current.
  - intros (H1 & H2 & H3 & H4). unfold well_formed. simpl.
    repeat split; try lia; try assumption.
    destruct (isCaptured _).
    + destruct (Hcur (op OP_CLOSE_UPVALUE)) as [->|Hnil]; simpl; [lia|].
      unfold emitByte, with_currentChunk, with_current in *. rewrite Hnil in *. lia.
    + destruct (Hcur (op OP_POP)) as [->|Hnil]; simpl; [lia|].
      unfold emitByte, with_currentChunk, with_current in *. rewrite Hnil in *. lia.
  - destruct (isCaptured _); apply bounds_emitByte, H.
Qed.

Lemma bounds_endScope op st : tables_in_bounds st -> tables_in_bounds (endScope op st).
Proof.
  intros H. unfold endScope. apply bounds_endScope_loop.
  apply bounds_keep_tables; [|exact H]. intros c. repeat split.
Qed.

Lemma bounds_addLocal nm st : tables_in_bounds st -> tables_in_bounds (addLocal nm st).
Proof.
  intros H. unfold addLocal. destruct (_ =? _) eqn:E; [apply bounds_error, H|].
  apply Z.eqb_neq in E. apply bounds_with_current; [|exact H].
  intros (H1 & H2 & H3 & H4). unfold well_formed. simpl.
  rewrite length_insert. repeat split; try lia; assumption.
Qed.

Lemma bounds_declareVariable st :
  tables_in_bounds st -> tables_in_bounds (declareVariable st).
Proof.
  intros H. unfold declareVariable. destruct (_ =? _); [exact H|].
  apply bounds_addLocal. unfold tables_in_bounds, on_chain.
  rewrite compilers_declareVariable_loop. exact H.
Qed.

Lemma bounds_parseVariable msg st :
  tables_in_bounds st -> tables_in_bounds (snd (parseVariable msg st)).
Proof.
  intros H. unfold parseVariable.
  assert (H2 : tables_in_bounds (declareVariable (consume TOKEN_IDENTIFIER msg st)))
    by auto using bounds_declareVariable, bounds_consume.
  destruct (_ >? _); [exact H2|]. apply bounds_identifierConstant, H2.
Qed.

Lemma bounds_markInitialized st :
  tables_in_bounds st -> tables_in_bounds (markInitialized st).
Proof.
  intros H. unfold markInitialized. destruct (_ =? _); [exact H|].
  apply bounds_keep_tables; [|exact H]. intros c. simpl.
  rewrite length_insert. repeat split.
Qed.

Lemma bounds_defineVariable op g st :
  tables_in_bounds st -> tables_in_bounds (defineVariable op g st).
Proof.
  intros H. unfold defineVariable.
  destruct (_ >? _); [apply bounds_markInitialized|apply bounds_emitBytes]; exact H.
Qed.

Lemma bounds_initCompiler ty st :
  tables_in_bounds st -> tables_in_bounds (initCompiler ty st).
Proof.
  intros H. unfold initCompiler, tables_in_bounds, on_chain.
  cbn [compilers set_compilers].
  apply Forall_cons. split; [|exact H].
  unfold well_formed. cbn [localCount locals function upvalues].
  rewrite length_insert, !length_replicate. unfold UINT8_COUNT.
  destruct (negb (FunctionType_eqb ty TYPE_SCRIPT)); cbn; lia.
Qed.

Lemma bounds_endCompiler op st :
  tables_in_bounds st -> tables_in_bounds (snd (endCompiler op st)).
Proof.
  intros H. apply (bounds_emitReturn op) in H.
  unfold endCompiler, tables_in_bounds, on_chain in *. simpl.
  destruct (compilers (emitReturn op st)); [constructor|].
  apply Forall_cons in H as [_ H]. exact H.
Qed.

Lemma bounds_emitUpvalues compiler i k st :
  tables_in_bounds st -> tables_in_bounds (emitUpvalues compiler i k st).
Proof.
  revert i st. induction k as [|k IH]; intros i st H; simpl; [exact H|].
  apply IH. auto using bounds_emitByte.
Qed.

Create HintDb bounds.
#[local] Hint Resolve bounds_emitByte bounds_error bounds_errorAtCurrent
  bounds_advance bounds_consume bounds_match bounds_emitBytes bounds_emitJump
  bounds_emitLoop bounds_emitReturn bounds_makeConstant
  bounds_identifierConstant bounds_emitConstant bounds_patchJump
  bounds_resolveLocal bounds_resolveUpvalue_current bounds_beginScope
  bounds_endScope bounds_addLocal bounds_declareVariable bounds_parseVariable
  bounds_markInitialized bounds_defineVariable bounds_initCompiler
  bounds_endCompiler bounds_emitUpvalues : bounds.
#[local] Hint Extern 2 (tables_in_bounds (with_current _ _)) =>
  apply bounds_keep_tables; [intros ?; repeat split|] : bounds.
#[local] Hint Extern 2 (tables_in_bounds (set_classes _ _)) => assumption : bounds.
#[local] Hint Extern 2 (tables_in_bounds (set_parser _ _)) => assumption : bounds.

Ltac stable_bounds :=
  let st := fresh "st" in
  let H := fresh "H" in
  lazymatch goal with |- stable _ _ => idtac end;
  intros st H; cbn beta;
  repeat match goal with
         | |- tables_in_bounds (match ?x with _ => _ end) => destruct x
         | |- tables_in_bounds ((match ?x with _ => _ end) _) => destruct x
         | |- tables_in_bounds (if ?x then _ else _) => destruct x
         end;
  cbn beta; eauto with bounds.

Section BoundsExpressions.

Variable op : OpCode -> Z.
Variable rec : ExprCall -> M Z.
Hypothesis rec_bounds : forall c, keeps tables_in_bounds (rec c).

Ltac go :=
  repeat match goal with
         | |- keeps _ (rec _) => apply rec_bounds
         | _ => keeps_step
         end;
  try stable_bounds.

Lemma keeps_bounds_argumentList : keeps tables_in_bounds (argumentList rec).
Proof. unfold argumentList. go. Qed.

Lemma keeps_bounds_namedVariable nm canAssign :
  keeps tables_in_bounds (namedVariable op rec nm canAssign).
Proof. unfold namedVariable, expression. go. Qed.

Lemma keeps_bounds_callParseFn fn canAssign :
  keeps tables_in_bounds (callParseFn op rec fn canAssign).
Proof.
  destruct fn; simpl;
    unfold grouping, call, dot, unary, binary, variable, string_, number, and_,
           literal, or_, super_, this_, variable, expression;
    repeat match goal with
           | |- keeps _ (rec _) => apply rec_bounds
           | |- keeps _ (argumentList _) => apply keeps_bounds_argumentList
           | |- keeps _ (namedVariable _ _ _ _) => apply keeps_bounds_namedVariable
           | _ => keeps_step
           end;
    try stable_bounds.
Qed.

Lemma keeps_bounds_exprStep c : keeps tables_in_bounds (exprStep op rec c).
Proof.
  destruct c; simpl; unfold parsePrecendence, infixLoop, argumentLoop, expression;
    repeat match goal with
           | |- keeps _ (rec _) => apply rec_bounds
           | |- keeps _ (callParseFn _ _ _ _) => apply keeps_bounds_callParseFn
           | _ => keeps_step
           end;
    try stable_bounds.
Qed.

End BoundsExpressions.

Lemma keeps_bounds_runExpr op fuel c : keeps tables_in_bounds (runExpr op fuel c).
Proof.
  revert c. induction fuel as [|fuel IH]; intros c; simpl.
  - apply keeps_noResult.
  - apply keeps_bounds_exprStep. exact IH.
Qed.

Section BoundsStatements.

Variable op : OpCode -> Z.
Variable expr : ExprCall -> M Z.
Variable rec : StmtCall -> M Z.
Hypothesis expr_bounds : forall c, keeps tables_in_bounds (expr c).
Hypothesis rec_bounds : forall c, keeps tables_in_bounds (rec c).

Lemma keeps_bounds_stmtStep c : keeps tables_in_bounds (stmtStep op expr rec c).
Proof.
  destruct c; simpl;
    unfold declaration_, statement_, blockLoop, parameterLoop, methodLoop,
           synchronizeLoop, compileLoop, classDeclaration, funDeclaration,
           forStatement, ifStatement, printStatement, returnStatement,
           whileStatement, synchronize, method, declaration, statement,
           variable, expression, function_, block, varDeclaration,
           expressionStatement, expression;
    repeat match goal with
           | |- keeps _ (expr _) => apply expr_bounds
           | |- keeps _ (rec _) => apply rec_bounds
           | |- keeps _ (namedVariable _ _ _ _) =>
               apply keeps_bounds_namedVariable; apply expr_bounds
           | _ => keeps_step
           end;
    try stable_bounds.
Qed.

End BoundsStatements.

Lemma keeps_bounds_runStmt op fuel c : keeps tables_in_bounds (runStmt op fuel c).
Proof.
  revert c. induction fuel as [|fuel IH]; intros c; simpl.
  - apply keeps_noResult.
  - apply keeps_bounds_stmtStep; [apply keeps_bounds_runExpr|exact IH].
Qed.

(** X12: the counters never leave the arrays.  In every compiler of the
    chain [localCount] and [upvalueCount] stay between 0 and 256 and both
    arrays keep their 256 cells: this holds when [compile] enters its loop
    and every call keeps it.  So where [addLocal] and [addUpvalue] write
    (they have just tested the counter against 256) the index is inside the
    array.  The loop of [compile] returns, whatever the source, and in such
    a state. *)
Theorem tables_stay_in_bounds (op : OpCode -> Z) :
  (forall source, tables_in_bounds (compile_start source))
  /\ (forall fuel c st r st',
        tables_in_bounds st -> runExpr op fuel c st = Some (r, st') ->
        tables_in_bounds st')
  /\ (forall fuel c st r st',
        tables_in_bounds st -> runStmt op fuel c st = Some (r, st') ->
        tables_in_bounds st')
  /\ (forall c,
        well_formed c -> (localCount c =? UINT8_COUNT) = false ->
        (Z.to_nat (localCount c) < length (locals c))%nat)
  /\ (forall c,
        well_formed c -> (upvalueCount (function c) =? UINT8_COUNT) = false ->
        (Z.to_nat (upvalueCount (function c)) < length (upvalues c))%nat)
  /\ (forall source,
      exists fuel0 r st',
        (forall fuel, (fuel0 <= fuel)%nat ->
           runStmt op fuel call_compileLoop (compile_start source) = Some (r, st'))
        /\ tables_in_bounds st').
Proof.
  assert (Hstart : forall source, tables_in_bounds (compile_start source)).
  { intros source. unfold compile_start. apply bounds_advance.
    apply (bounds_initCompiler TYPE_SCRIPT (initScanner source)). constructor. }
  split; [exact Hstart|].
  split.
  { intros fuel c st r st' H Hrun. exact (keeps_bounds_runExpr op fuel c _ _ _ Hrun H). }
  split.
  { intros fuel c st r st' H Hrun. exact (keeps_bounds_runStmt op fuel c _ _ _ Hrun H). }
  split.
  { intros c (H1 & H2 & _) E. apply Z.eqb_neq in E. rewrite H2. lia. }
  split.
  { intros c (_ & _ & H3 & H4) E. apply Z.eqb_neq in E. rewrite H4. lia. }
  intros source.
  destruct (statements_return_all op (ahead (compile_start source))
              call_compileLoop (compile_start source))
    as (fuel0 & r & st' & H & _); [unfold bounded; lia|].
  exists fuel0, r, st'. split; [exact H|].
  exact (keeps_bounds_runStmt op fuel0 _ _ _ _ (H fuel0 (Nat.le_refl _))
           (Hstart source)).
Qed.

(** X11: the chain of classes is restored.  No call of the expression
    parser changes it; a statement-level call returns with the chain it was
    called with ([classDeclaration] pushes its class and pops it), so after
    [compile] no class is open.  Where no class is open, [this] is rejected
    and nothing is compiled for it. *)
Theorem class_chain_restored (op : OpCode -> Z) :
  (forall fuel c st r st',
     runExpr op fuel c st = Some (r, st') -> classes st' = classes st)
  /\ (forall fuel c st r st',
        runStmt op fuel c st = Some (r, st') -> classes st' = classes st)
  /\ (forall rec canAssign st,
        classes st = [] ->
        this_ op rec canAssign st
        = Some (0, error "Can't use 'this' outside of a class." st)
        /\ compilers (error "Can't use 'this' outside of a class." st)
           = compilers st)
  /\ (forall source,
      exists fuel0 r st,
        (forall fuel, (fuel0 <= fuel)%nat -> compile op fuel source = Some (r, st))
        /\ classes st = []).
Proof.
  split.
  { intros fuel c st r st' Hrun.
    exact (keeps_classes_runExpr op (classes st) fuel c st r st' Hrun eq_refl). }
  split.
  { intros fuel c st r st' Hrun.
    exact (keeps_classes_runStmt op fuel (classes st) c st r st' Hrun eq_refl). }
  split.
  { intros rec canAssign st H. unfold this_, bind, get. rewrite H.
    split; [reflexivity|apply compilers_error]. }
  intros source. destruct (compile_returns op source) as (fuel0 & [r st] & H).
  exists fuel0, r, st. split; [exact H|].
  specialize (H fuel0 (Nat.le_refl _)). rewrite compile_from_start in H.
  destruct (runStmt op fuel0 call_compileLoop (compile_start source))
    as [[z st1]|] eqn:E; [|discriminate].
  pose proof (keeps_classes_runStmt op fuel0 [] _ _ _ _ E) as Hc.
  pose proof (classes_endCompiler op st1) as He.
  destruct (endCompiler op st1) as [f st2]. simpl in He.
  injection H as _ <-. rewrite He. apply Hc.
  unfold in_classes, compile_start. rewrite classes_advance. reflexivity.
Qed.

(** X1: the compiler always returns.  Every loop of the grammar consumes at
    least one token in each round, and the Pratt loop only dispatches on
    tokens that have an infix rule, so no NULL rule is called: with enough
    fuel [compile] returns, whatever the token list.  A declaration or a
    statement leaves at most the tokens the scanner still held when it
    started ahead of the parser, so it consumes a token unless the parser
    is at the end of the source; an expression does the same. *)
Theorem compiler_always_returns (op : OpCode -> Z) :
  (forall source,
   exists fuel0 r,
     forall fuel, (fuel0 <= fuel)%nat -> compile op fuel source = Some r)
  /\ (forall ty,
        1 <= precedence (getRule ty) -> infix (getRule ty) <> None)
  /\ (forall st,
      exists fuel0 r st',
        (forall fuel, (fuel0 <= fuel)%nat ->
           runStmt op fuel call_declaration st = Some (r, st'))
        /\ (ahead st' <= length (scanner st))%nat)
  /\ (forall st,
      exists fuel0 r st',
        (forall fuel, (fuel0 <= fuel)%nat ->
           runStmt op fuel call_statement st = Some (r, st'))
        /\ (ahead st' <= length (scanner st))%nat)
  /\ (forall st,
      exists fuel0 r st',
        (forall fuel, (fuel0 <= fuel)%nat ->
           expression (runExpr op fuel) st = Some (r, st'))
        /\ (ahead st' <= length (scanner st))%nat)
  /\ (forall st,
        (ahead st <= S (length (scanner st)))%nat
        /\ (type (current (parser st)) <> TOKEN_EOF ->
            ahead st = S (length (scanner st)))).
Proof.
  split; [apply compile_returns|].
  split.
  { intros ty H. destruct (infix_of_operator ty H) as [fn ->]. discriminate. }
  split.
  { intros st.
    assert (H : returns (fun f => runStmt op f call_declaration) st
                  (bounded (length (scanner st)))).
    { apply returns_runStmt. cbn [stmtStep].
      apply (returns_declaration_ op (ahead st));
        [intros m _; apply statements_return_all|unfold bounded; lia]. }
    exact H. }
  split.
  { intros st.
    assert (H : returns (fun f => runStmt op f call_statement) st
                  (bounded (length (scanner st)))).
    { apply returns_runStmt. cbn [stmtStep].
      apply (returns_statement_ op (ahead st));
        [intros m _; apply statements_return_all|unfold bounded; lia]. }
    exact H. }
  split.
  { intros st. exact (returns_expression_onward op st). }
  intros st. unfold ahead, at_eof.
  destruct (type (current (parser st))); simpl; split; try lia; congruence.
Qed.

(** ** Error recovery *)

(** Where [synchronize] stops: at the end of the source, just after a
    [;], or in front of a token that starts a declaration or a statement. *)
Definition at_boundary (st : State) : Prop :=
  type (current (parser st)) = TOKEN_EOF
  \/ type (previous (parser st)) = TOKEN_SEMICOLON
  \/ In (type (current (parser st)))
        [TOKEN_CLASS; TOKEN_FUN; TOKEN_VAR; TOKEN_FOR; TOKEN_IF;
         TOKEN_WHILE; TOKEN_PRINT; TOKEN_RETURN].

Lemma TokenType_eqb_eq a b : TokenType_eqb a b = true <-> a = b.
Proof. destruct a, b; simpl; split; congruence. Qed.

Lemma synchronizeLoop_boundary op fuel st r st' :
  runStmt op fuel call_synchronizeLoop st = Some (r, st') ->
  at_boundary st' /\ compilers st' = compilers st /\ classes st' = classes st
  /\ r = 0.
Proof.
  revert st. induction fuel as [|fuel IH]; intros st; [discriminate|].
  simpl. unfold synchronizeLoop, bind, get.
  destruct (negb (TokenType_eqb (type (current (parser st))) TOKEN_EOF)) eqn:Eeof.
  2: { intros H. injection H as <- <-. apply negb_false_iff in Eeof.
       apply TokenType_eqb_eq in Eeof. repeat split. left. exact Eeof. }
  destruct (TokenType_eqb (type (previous (parser st))) TOKEN_SEMICOLON) eqn:Esemi.
  { intros H. injection H as <- <-. apply TokenType_eqb_eq in Esemi.
    repeat split. right. left. exact Esemi. }
  assert (Hstop : ret 0 st = Some (r, st') ->
                  In (type (current (parser st)))
                     [TOKEN_CLASS; TOKEN_FUN; TOKEN_VAR; TOKEN_FOR; TOKEN_IF;
                      TOKEN_WHILE; TOKEN_PRINT; TOKEN_RETURN] ->
                  at_boundary st' /\ compilers st' = compilers st
                  /\ classes st' = classes st /\ r = 0).
  { intros H Hin. injection H as <- <-. repeat split. right. right. exact Hin. }
  assert (Hmove : runStmt op fuel call_synchronizeLoop (advance st) = Some (r, st') ->
                  at_boundary st' /\ compilers st' = compilers st
                  /\ classes st' = classes st /\ r = 0).
  { intros H. destruct (IH _ H) as (H1 & H2 & H3 & H4).
    rewrite compilers_advance in H2. rewrite classes_advance in H3. auto. }
  destruct (type (current (parser st))); simpl;
    first [exact Hmove|intros H; apply (Hstop H); simpl; tauto].
Qed.

(** While no error token is skipped, the loop reports nothing. *)
Lemma clean_scan src :
  Forall (fun t => type t <> TOKEN_ERROR) src ->
  leading_errors src = [] /\ after_errors src = src.
Proof.
  intros H. destruct H as [|t rest Ht _]; [split; reflexivity|].
  simpl. unfold is_error.
  destruct (TokenType_eqb (type t) TOKEN_ERROR) eqn:E; [|split; reflexivity].
  apply TokenType_eqb_eq in E. contradiction.
Qed.

Lemma advance_clean st :
  Forall (fun t => type t <> TOKEN_ERROR) (scanner st) ->
  panicMode (parser st) = false ->
  flags (advance st) = flags st
  /\ Forall (fun t => type t <> TOKEN_ERROR) (scanner (advance st)).
Proof.
  intros Hclean Hcalm. unfold advance.
  destruct (advance_scan_spec (scanner st)
              (set_parser (mkParser (current (parser st)) (current (parser st))
                             (hadError (parser st)) (panicMode (parser st))) st))
    as (_ & _ & Hs & _ & _ & _ & H).
  specialize (H Hcalm).
  destruct (clean_scan _ Hclean) as [Hlead Hafter].
  rewrite Hlead in H. destruct H as (Hd & Hh & Hp).
  rewrite Hafter in Hs. split.
  - unfold flags. rewrite Hd, Hh, Hp, Hcalm. reflexivity.
  - rewrite Hs. destruct Hclean; [constructor|assumption].
Qed.

Lemma synchronizeLoop_quiet op fuel st r st' :
  Forall (fun t => type t <> TOKEN_ERROR) (scanner st) ->
  panicMode (parser st) = false ->
  runStmt op fuel call_synchronizeLoop st = Some (r, st') ->
  flags st' = flags st.
Proof.
  revert st. induction fuel as [|fuel IH]; intros st Hclean Hcalm; [discriminate|].
  simpl. unfold synchronizeLoop, bind, get.
  destruct (negb (TokenType_eqb (type (current (parser st))) TOKEN_EOF));
    [|intros H; injection H as _ <-; reflexivity].
  destruct (TokenType_eqb (type (previous (parser st))) TOKEN_SEMICOLON);
    [intros H; injection H as _ <-; reflexivity|].
  assert (Hmove : runStmt op fuel call_synchronizeLoop (advance st) = Some (r, st') ->
                  flags st' = flags st).
  { intros H. destruct (advance_clean st Hclean Hcalm) as [Hf Hc].
    rewrite <- Hf. apply (IH (advance st) Hc); [|exact H].
    unfold flags in Hf. injection Hf as _ Hp _. congruence. }
  destruct (type (current (parser st))); simpl;
    first [exact Hmove|intros H; injection H as _ <-; reflexivity].
Qed.

(** X6: [synchronize] switches panic mode off and skips tokens until the
    parser stands at the end of the source, just after a [;], or in front of
    [class], [fun], [var], [for], [if], [while], [print] or [return].  It
    returns from any state and compiles nothing; where the parser already
    stands at such a place it skips nothing.  If no error token is left in
    the source, nothing is printed and panic mode is off when it returns
    (an error token skipped on the way is reported by [advance], which
    turns panic mode on again). *)
Theorem synchronize_stops_at_boundary (op : OpCode -> Z) (st : State) :
  exists fuel0 st',
    (forall fuel, (fuel0 <= fuel)%nat ->
       synchronize (runStmt op fuel) st = Some (0, st'))
    /\ at_boundary st'
    /\ compilers st' = compilers st
    /\ classes st' = classes st
    /\ (ahead st' <= ahead st)%nat
    /\ (at_boundary st ->
        st' = set_parser (mkParser (current (parser st)) (previous (parser st))
                            (hadError (parser st)) false) st)
    /\ (Forall (fun t => type t <> TOKEN_ERROR) (scanner st) ->
        panicMode (parser st') = false
        /\ hadError (parser st') = hadError (parser st)
        /\ diagnostics st' = diagnostics st).
Proof.
  set (st1 := set_parser (mkParser (current (parser st)) (previous (parser st))
                            (hadError (parser st)) false) st).
  destruct (statements_return_all op (ahead st1) call_synchronizeLoop st1)
    as (fuel0 & r & st' & Hrun & Hb); [unfold bounded; lia|].
  destruct (synchronizeLoop_boundary op fuel0 st1 r st'
              (Hrun fuel0 (Nat.le_refl _))) as (H1 & H2 & H3 & ->).
  exists fuel0, st'.
  split; [intros fuel Hf; unfold synchronize, bind, exec; apply Hrun, Hf|].
  split; [exact H1|]. split; [exact H2|]. split; [exact H3|].
  split; [exact Hb|].
  split.
  2: { intros Hclean.
       pose proof (synchronizeLoop_quiet op fuel0 st1 0 st' Hclean eq_refl
                     (Hrun fuel0 (Nat.le_refl _))) as Hf.
       unfold flags in Hf. injection Hf as Hh Hp Hd. auto. }
  intros Hat.
  assert (Hone : runStmt op 1 call_synchronizeLoop st1 = Some (0, st1)).
  { simpl. unfold synchronizeLoop, bind, get.
    change (parser st1) with (mkParser (current (parser st)) (previous (parser st))
                                (hadError (parser st)) false).
    cbn [current previous].
    destruct Hat as [H|[H|H]].
    - rewrite H. reflexivity.
    - rewrite H.
      destruct (negb (TokenType_eqb (type (current (parser st))) TOKEN_EOF));
        reflexivity.
    - simpl in H.
      destruct (TokenType_eqb (type (previous (parser st))) TOKEN_SEMICOLON);
        destruct H as [H|[H|[H|[H|[H|[H|[H|[H|[]]]]]]]]]; rewrite <- H; reflexivity. }
  pose proof (runStmt_more_fuel op 1 (Nat.max 1 fuel0) call_synchronizeLoop
                (Nat.le_max_l _ _) st1 _ Hone) as Hmore.
  pose proof (Hrun (Nat.max 1 fuel0) (Nat.le_max_r _ _)) as Hbig.
  congruence.
Qed.

(** ** Leaving a scope *)

(** Of the first [n] locals, how many [endScope] keeps when the enclosing
    scope has depth [d]: it drops locals from the top while they are
    deeper than [d]. *)
Fixpoint surviving (ls : list Local) (d : Z) (n : nat) : nat :=
  match n with
  | O => O
  | S i => if depth (nth i ls noLocal) >? d then surviving ls d i else n
  end.

(** The instructions [endScope] emits for the locals it drops, the topmost
    first. *)
Fixpoint pops (op : OpCode -> Z) (ls : list Local) (d : Z) (n : nat) : list Z :=
  match n with
  | O => []
  | S i =>
      if depth (nth i ls noLocal) >? d
      then (if isCaptured (nth i ls noLocal)
            then op OP_CLOSE_UPVALUE else op OP_POP) :: pops op ls d i
      else []
  end.

Lemma surviving_spec ls d n :
  (length (pops (fun _ => 0%Z) ls d n) + surviving ls d n = n)%nat
  /\ (forall i, (surviving ls d n <= i < n)%nat -> depth (nth i ls noLocal) > d)
  /\ (surviving ls d n = O
      \/ depth (nth (surviving ls d n - 1) ls noLocal) <= d).
Proof.
  induction n as [|i (IH1 & IH2 & IH3)]; simpl.
  - split; [reflexivity|]. split; [intros i Hi; lia|left; reflexivity].
  - destruct (depth (nth i ls noLocal) >? d) eqn:E.
    + apply Z.gtb_lt in E. simpl. split; [lia|]. split; [|exact IH3].
      intros j Hj. destruct (Nat.eq_dec j i) as [->|Hne]; [lia|].
      apply IH2. lia.
    + rewrite Z.gtb_ltb in E. apply Z.ltb_ge in E. simpl.
      split; [reflexivity|]. split; [intros j Hj; lia|].
      right. rewrite Nat.sub_0_r. exact E.
Qed.

Lemma length_pops op ls d n :
  length (pops op ls d n) = length (pops (fun _ => 0%Z) ls d n).
Proof.
  induction n as [|i IH]; simpl; [reflexivity|].
  destruct (_ >? _); [|reflexivity]. simpl. rewrite IH. reflexivity.
Qed.

Lemma pops_lookup op ls d n i :
  (i < length (pops op ls d n))%nat ->
  pops op ls d n !! i
  = Some (if isCaptured (nth (n - 1 - i) ls noLocal)
          then op OP_CLOSE_UPVALUE else op OP_POP).
Proof.
  revert i. induction n as [|j IH]; intros i; simpl; [lia|].
  destruct (_ >? _); simpl; [|lia].
  destruct i as [|i]; simpl.
  - intros _. rewrite !Nat.sub_0_r. reflexivity.
  - intros Hi. rewrite IH by lia.
    replace (j - 1 - i)%nat with (j - 0 - S i)%nat by lia. reflexivity.
Qed.

Lemma endScope_loop_spec op fuel :
  forall st c cs (n : nat),
    compilers st = c :: cs -> localCount c = Z.of_nat n -> (n <= fuel)%nat ->
    exists c',
      compilers (endScope_loop op fuel st) = c' :: cs
      /\ scopeDepth c' = scopeDepth c
      /\ localCount c' = Z.of_nat (surviving (locals c) (scopeDepth c) n)
      /\ locals c' = locals c
      /\ code (chunk (function c'))
         = code (chunk (function c)) ++ pops op (locals c) (scopeDepth c) n
      /\ flags (endScope_loop op fuel st) = flags st.
Proof.
  induction fuel as [|fuel IH]; intros st c cs n Hch Hn Hle.
  - assert (n = O) by lia. subst n. exists c. simpl.
    rewrite app_nil_r. repeat split; auto.
  - simpl. unfold cur. rewrite Hch. cbn [hd].
    destruct n as [|i].
    + rewrite Hn. simpl. exists c. rewrite app_nil_r. repeat split; auto.
    + assert (Hpos : (localCount c >? 0) = true) by (apply Z.gtb_lt; lia).
      rewrite Hpos. cbn [andb]. unfold local_at.
      replace (Z.to_nat (localCount c - 1)) with i by lia.
      cbn [surviving pops].
      destruct (depth (nth i (locals c) noLocal) >? scopeDepth c) eqn:E.
      2: { exists c. rewrite app_nil_r. repeat split; auto. }
      set (b := if isCaptured (nth i (locals c) noLocal)
                then op OP_CLOSE_UPVALUE else op OP_POP).
      set (c1 := set_function
                   (set_chunk (writeChunk (chunk (function c)) b
                                          (line (previous (parser st))))
                              (function c)) c).
      set (st1 := if isCaptured (nth i (locals c) noLocal)
                  then emitByte (op OP_CLOSE_UPVALUE) st
                  else emitByte (op OP_POP) st).
      assert (H1 : compilers st1 = c1 :: cs /\ flags st1 = flags st).
      { unfold st1, c1, b.
        destruct (isCaptured _); rewrite flags_emitByte;
          unfold emitByte, with_currentChunk, with_current; rewrite Hch; auto. }
      destruct H1 as [Hch1 Hf1].
      set (st2 := with_current _ st1).
      assert (Hch2 : compilers st2
                     = set_locals (locals c1) (localCount c1 - 1) c1 :: cs).
      { unfold st2, with_current. rewrite Hch1. reflexivity. }
      destruct (IH st2 _ cs i Hch2) as (c' & H1 & H2 & H3 & H4 & H5 & H6).
      { cbn. lia. }
      { lia. }
      exists c'. split; [exact H1|]. split; [exact H2|]. split; [exact H3|].
      split; [exact H4|]. split.
      * rewrite H5. cbn. rewrite <- app_assoc. reflexivity.
      * rewrite H6. unfold st2. rewrite flags_with_current. exact Hf1.
Qed.

(** X7: [endScope] takes the scope depth down by one and drops, from the
    top of the locals, exactly the locals that are deeper than the new
    depth, up to the first that is not.  For each one dropped it emits one
    instruction, the topmost first: [OP_CLOSE_UPVALUE] if the local was
    captured, [OP_POP] if not.  The locals array itself, the enclosing
    compilers, the diagnostics and the flags are untouched. *)
Theorem scope_end_discards_its_locals
  (op : OpCode -> Z) (st : State) (c : Compiler) (cs : list Compiler) :
  compilers st = c :: cs ->
  0 <= localCount c ->
  let d := scopeDepth c - 1 in
  let n := Z.to_nat (localCount c) in
  let k := surviving (locals c) d n in
  let emitted := pops op (locals c) d n in
  let st' := endScope op st in
  scopeDepth (cur st') = d
  /\ localCount (cur st') = Z.of_nat k
  /\ locals (cur st') = locals c
  /\ code (currentChunk st') = code (currentChunk st) ++ emitted
  /\ (length emitted + k = n)%nat
  /\ (forall i, (k <= i < n)%nat -> depth (nth i (locals c) noLocal) > d)
  /\ (k = O \/ depth (nth (k - 1) (locals c) noLocal) <= d)
  /\ (forall i, (i < length emitted)%nat ->
        emitted !! i
        = Some (if isCaptured (nth (n - 1 - i) (locals c) noLocal)
                then op OP_CLOSE_UPVALUE else op OP_POP))
  /\ tl (compilers st') = cs
  /\ flags st' = flags st.
Proof.
  intros Hch Hlc. cbv zeta. unfold endScope.
  set (st1 := with_current _ st).
  assert (Hch1 : compilers st1 = set_scopeDepth (scopeDepth c - 1) c :: cs).
  { unfold st1, with_current. rewrite Hch. reflexivity. }
  assert (Hcur1 : cur st1 = set_scopeDepth (scopeDepth c - 1) c)
    by (unfold cur; rewrite Hch1; reflexivity).
  rewrite Hcur1. cbn [localCount set_scopeDepth].
  destruct (endScope_loop_spec op (Z.to_nat (localCount c)) st1 _ cs
              (Z.to_nat (localCount c)) Hch1)
    as (c' & H1 & H2 & H3 & H4 & H5 & H6); [cbn; lia|lia|].
  cbn in H2, H3, H4, H5.
  destruct (surviving_spec (locals c) (scopeDepth c - 1) (Z.to_nat (localCount c)))
    as (S1 & S2 & S3).
  unfold currentChunk, cur. rewrite H1, Hch. cbn [hd tl].
  split; [exact H2|]. split; [exact H3|]. split; [exact H4|].
  split; [exact H5|]. split; [rewrite length_pops; exact S1|].
  split; [exact S2|]. split; [exact S3|].
  split; [intros i Hi; apply pops_lookup, Hi|].
  split; [reflexivity|].
  rewrite H6. unfold st1. apply flags_with_current.
Qed.

(** ** Upvalues are recorded once *)

Lemma addUpvalue_scan_first c idx isLoc i k r :
  i <= r < i + Z.of_nat k ->
  upvalue_at c r = mkUpvalue idx isLoc ->
  exists r',
    i <= r' <= r
    /\ addUpvalue_scan c idx isLoc i k = Some r'
    /\ upvalue_at c r' = mkUpvalue idx isLoc.
Proof.
  revert i. induction k as [|k IH]; intros i Hr Hu; [lia|]. simpl.
  destruct ((index (upvalue_at c i) =? idx) && Bool.eqb (isLocal (upvalue_at c i)) isLoc)
    eqn:E.
  - exists i. split; [lia|]. split; [reflexivity|]. apply upvalue_test, E.
  - destruct (Z.eq_dec r i) as [->|Hne].
    + apply upvalue_test in Hu. congruence.
    + destruct (IH (i + 1)) as (r' & H1 & H2 & H3); [lia|exact Hu|].
      exists r'. split; [lia|]. auto.
Qed.

Lemma error_again msg msg' st : error msg (error msg' st) = error msg' st.
Proof.
  unfold error, errorAt. destruct (panicMode (parser st)) eqn:E; simpl.
  - rewrite E. reflexivity.
  - reflexivity.
Qed.

(** X9: an upvalue is recorded once.  If the table of [c] already holds the
    pair, [addUpvalue] returns the first index that holds it and changes
    nothing.  In every case asking again gives the same answer: the same
    index, the same table, the same state; the table grows by one entry at
    most. *)
Theorem upvalue_recorded_once
  (c : Compiler) (idx : Z) (isLoc : bool) (st : State) :
  well_formed c ->
  let res := addUpvalue c idx isLoc st in
  (forall r,
     recorded c r (mkUpvalue idx isLoc) ->
     0 <= fst (fst res) <= r
     /\ recorded c (fst (fst res)) (mkUpvalue idx isLoc)
     /\ snd (fst res) = c /\ snd res = st)
  /\ addUpvalue (snd (fst res)) idx isLoc (snd res) = res
  /\ upvalueCount (function c) <= upvalueCount (function (snd (fst res)))
     <= upvalueCount (function c) + 1.
Proof.
  intros Hwf. pose proof Hwf as (Hlc & Hll & Huc & Hul). cbv zeta.
  unfold addUpvalue.
  destruct (addUpvalue_scan c idx isLoc 0 (Z.to_nat (upvalueCount (function c))))
    as [r0|] eqn:E.
  - cbn [fst snd]. split; [|split; [rewrite E; reflexivity|lia]].
    intros r [Hr Hu].
    destruct (addUpvalue_scan_first c idx isLoc 0
                (Z.to_nat (upvalueCount (function c))) r) as (r' & H1 & H2 & H3);
      [lia|exact Hu|].
    rewrite E in H2. injection H2 as ->.
    split; [lia|]. split; [|auto]. split; [lia|exact H3].
  - pose proof (addUpvalue_scan_None _ _ _ _ _ E) as Hnone.
    split.
    { intros r [Hr Hu]. exfalso. apply (Hnone r); [lia|exact Hu]. }
    destruct (upvalueCount (function c) =? UINT8_COUNT) eqn:Efull; cbn [fst snd].
    + rewrite E, Efull, error_again. split; [reflexivity|lia].
    + apply Z.eqb_neq in Efull. cbn [function upvalueCount].
      split; [|lia].
      set (n := upvalueCount (function c)) in *.
      set (c' := mkCompiler _ _ _ _ _ _).
      assert (Hat : upvalue_at c' n = mkUpvalue idx isLoc).
      { unfold upvalue_at, c'. cbn [upvalues]. apply nth_insert_eq.
        unfold UINT8_COUNT in *. lia. }
      assert (Hbelow : forall j, 0 <= j < n -> upvalue_at c' j = upvalue_at c j).
      { intros j Hj. unfold upvalue_at, c'. cbn [upvalues].
        apply nth_insert_ne. lia. }
      destruct (addUpvalue_scan_first c' idx isLoc 0 (Z.to_nat (n + 1)) n)
        as (r' & H1 & H2 & H3); [lia|exact Hat|].
      assert (r' = n) as ->.
      { destruct (Z.eq_dec r' n) as [->|Hne]; [reflexivity|].
        exfalso. apply (Hnone r'); [lia|]. rewrite <- Hbelow by lia. exact H3. }
      rewrite H2. reflexivity.
Qed.

(** ** Declaring a local *)

(** Whether one of the first [n] locals of [c] is named as [nm] and
    belongs to the scope being compiled: the search goes down from the top
    and stops at the first local of an enclosing scope. *)
Fixpoint clashes (c : Compiler) (nm : Token) (n : nat) : bool :=
  match n with
  | O => false
  | S i =>
      let local := local_at c (Z.of_nat i) in
      if negb (depth local =? -1) && (depth local <? scopeDepth c) then false
      else identifiersEqual nm (name local) || clashes c nm i
  end.

Lemma declareVariable_loop_clashes c nm n st :
  declareVariable_loop c nm n st
  = if clashes c nm n
    then error "Already a variable with this name in this scope." st
    else st.
Proof.
  revert st. induction n as [|i IH]; intros st; simpl; [reflexivity|].
  destruct (_ && _); [reflexivity|].
  rewrite IH. destruct (identifiersEqual _ _); simpl; [|reflexivity].
  destruct (clashes c nm i); [apply error_again|reflexivity].
Qed.

Lemma clashes_iff c nm n :
  clashes c nm n = true
  <-> exists i,
        (i < n)%nat
        /\ identifiersEqual nm (name (local_at c (Z.of_nat i))) = true
        /\ forall j, (i <= j < n)%nat ->
             depth (local_at c (Z.of_nat j)) = -1
             \/ scopeDepth c <= depth (local_at c (Z.of_nat j)).
Proof.
  induction n as [|k IH]; simpl.
  - split; [discriminate|]. intros (i & Hi & _). lia.
  - destruct (negb (depth (local_at c (Z.of_nat k)) =? -1)
              && (depth (local_at c (Z.of_nat k)) <? scopeDepth c)) eqn:E.
    + split; [discriminate|]. intros (i & Hi & _ & Hrun).
      apply andb_true_iff in E as [E1 E2].
      apply negb_true_iff, Z.eqb_neq in E1. apply Z.ltb_lt in E2.
      destruct (Hrun k); lia.
    + assert (Hk : depth (local_at c (Z.of_nat k)) = -1
                   \/ scopeDepth c <= depth (local_at c (Z.of_nat k))).
      { apply andb_false_iff in E as [E|E].
        - left. apply negb_false_iff, Z.eqb_eq in E. exact E.
        - right. apply Z.ltb_ge in E. exact E. }
      rewrite orb_true_iff, IH. split.
      * intros [H|(i & Hi & Heq & Hrun)].
        -- exists k. split; [lia|]. split; [exact H|].
           intros j Hj. assert (j = k) as -> by lia. exact Hk.
        -- exists i. split; [lia|]. split; [exact Heq|].
           intros j Hj. destruct (Nat.eq_dec j k) as [->|Hne]; [exact Hk|].
           apply Hrun. lia.
      * intros (i & Hi & Heq & Hrun).
        destruct (Nat.eq_dec i k) as [->|Hne]; [left; exact Heq|].
        right. exists i. split; [lia|]. split; [exact Heq|].
        intros j Hj. apply Hrun. lia.
Qed.

(** X10: in a local scope [declareVariable] reports "Already a variable
    with this name in this scope." exactly when a local with the name of the
    previous token lies in the run at the top of the locals that belongs to
    the scope being compiled (every local of the run is uninitialized or at
    the current depth or deeper).  A local of an enclosing scope with that
    name is shadowed without a diagnostic.  In both cases the local is then
    added. *)
Theorem redeclaration_in_scope_is_reported
  (st : State) (c : Compiler) (cs : list Compiler) :
  compilers st = c :: cs ->
  scopeDepth c <> 0 ->
  let nm := previous (parser st) in
  let n := Z.to_nat (localCount c) in
  (declareVariable st
   = addLocal nm
       (if clashes c nm n
        then error "Already a variable with this name in this scope." st
        else st))
  /\ (clashes c nm n = true
      <-> exists i,
            (i < n)%nat
            /\ identifiersEqual nm (name (local_at c (Z.of_nat i))) = true
            /\ forall j, (i <= j < n)%nat ->
                 depth (local_at c (Z.of_nat j)) = -1
                 \/ scopeDepth c <= depth (local_at c (Z.of_nat j)))
  /\ (clashes c nm n = false -> flags (declareVariable st) = flags (addLocal nm st)).
Proof.
  intros Hch Hd. cbv zeta.
  assert (Hcur : cur st = c) by (unfold cur; rewrite Hch; reflexivity).
  assert (E : declareVariable st
              = addLocal (previous (parser st))
                  (if clashes c (previous (parser st)) (Z.to_nat (localCount c))
                   then error "Already a variable with this name in this scope." st
                   else st)).
  { unfold declareVariable. rewrite Hcur.
    destruct (scopeDepth c =? 0) eqn:E0; [apply Z.eqb_eq in E0; contradiction|].
    rewrite declareVariable_loop_clashes. reflexivity. }
  split; [exact E|]. split; [apply clashes_iff|].
  intros Hno. rewrite E, Hno. reflexivity.
Qed.

Lemma identifiersEqual_refl nm : identifiersEqual nm nm = true.
Proof. unfold identifiersEqual. apply String.eqb_refl. Qed.

Lemma markInitialized_top st c cs :
  compilers st = c :: cs -> scopeDepth c <> 0 ->
  compilers (markInitialized st)
  = set_locals
      (<[Z.to_nat (localCount c - 1) :=
           mkLocal (name (local_at c (localCount c - 1))) (scopeDepth c)
                   (isCaptured (local_at c (localCount c - 1)))]> (locals c))
      (localCount c) c :: cs.
Proof.
  intros Hch Hd. unfold markInitialized, cur, with_current. rewrite Hch. cbn [hd].
  destruct (scopeDepth c =? 0) eqn:E0; [apply Z.eqb_eq in E0; contradiction|].
  reflexivity.
Qed.

(** X13: a local that is declared is found.  With room in the array,
    [addLocal nm] puts [nm] on top of the locals, uninitialized and not
    captured, and leaves the locals below and the diagnostics alone;
    [resolveLocal] then yields the new slot for [nm], with the diagnostic of
    a variable read in its own initializer, and, once [markInitialized] has
    given the local the current depth, without any diagnostic.  With 256
    locals already, [addLocal] only reports "Too many local variables in
    function (max 256)." *)
Theorem declared_local_is_resolved
  (nm : Token) (st : State) (c : Compiler) (cs : list Compiler) :
  compilers st = c :: cs ->
  0 <= localCount c <= UINT8_COUNT ->
  length (locals c) = Z.to_nat UINT8_COUNT ->
  let n := localCount c in
  let st1 := addLocal nm st in
  let st2 := markInitialized st1 in
  (n = UINT8_COUNT ->
   st1 = error "Too many local variables in function (max 256)." st
   /\ compilers st1 = compilers st)
  /\ (n < UINT8_COUNT ->
      localCount (cur st1) = n + 1
      /\ local_at (cur st1) n = mkLocal nm (-1) false
      /\ (forall i, 0 <= i < n -> local_at (cur st1) i = local_at c i)
      /\ flags st1 = flags st
      /\ resolveLocal (cur st1) nm st1
         = (n, error "Can't read local variable in its own initializer." st1)
      /\ (0 < scopeDepth c ->
          local_at (cur st2) n = mkLocal nm (scopeDepth c) false
          /\ localCount (cur st2) = n + 1
          /\ resolveLocal (cur st2) nm st2 = (n, st2))).
Proof.
  intros Hch Hlc Hlen. cbv zeta.
  assert (Hcur : cur st = c) by (unfold cur; rewrite Hch; reflexivity).
  unfold addLocal. rewrite Hcur.
  split.
  { intros ->. rewrite Z.eqb_refl. split; [reflexivity|apply compilers_error]. }
  intros Hroom.
  destruct (localCount c =? UINT8_COUNT) eqn:E; [apply Z.eqb_eq in E; lia|].
  set (c1 := set_locals (<[Z.to_nat (localCount c) := mkLocal nm (-1) false]> (locals c))
                        (localCount c + 1) c).
  set (st1 := with_current _ st).
  assert (Hch1 : compilers st1 = c1 :: cs)
    by (unfold st1, with_current; rewrite Hch; reflexivity).
  assert (Hcur1 : cur st1 = c1) by (unfold cur; rewrite Hch1; reflexivity).
  rewrite Hcur1.
  assert (Hat : local_at c1 (localCount c) = mkLocal nm (-1) false).
  { unfold local_at, c1. cbn [locals set_locals]. apply nth_insert_eq.
    unfold UINT8_COUNT in *. lia. }
  assert (Hbelow : forall i, 0 <= i < localCount c -> local_at c1 i = local_at c i).
  { intros i Hi. unfold local_at, c1. cbn [locals set_locals].
    apply nth_insert_ne. lia. }
  split; [reflexivity|]. split; [exact Hat|]. split; [exact Hbelow|].
  split; [apply flags_with_current|].
  split.
  { rewrite (resolveLocal_found c1 nm st1 (localCount c)).
    - unfold read_own_initializer. rewrite Hat. reflexivity.
    - split; [cbn; lia|]. split; [rewrite Hat; apply identifiersEqual_refl|].
      intros j Hj. cbn in Hj. lia. }
  intros Hd.
  assert (Hd0 : scopeDepth c1 <> 0) by (cbn; lia).
  pose proof (markInitialized_top st1 c1 cs Hch1 Hd0) as Hch2.
  set (st2 := markInitialized st1) in *.
  set (c2 := set_locals _ _ c1) in Hch2.
  assert (Hcur2 : cur st2 = c2) by (unfold cur; rewrite Hch2; reflexivity).
  rewrite Hcur2.
  assert (Hat2 : local_at c2 (localCount c) = mkLocal nm (scopeDepth c) false).
  { unfold local_at, c2. cbn [locals set_locals].
    change (localCount c1) with (localCount c + 1).
    replace (localCount c + 1 - 1) with (localCount c) by lia.
    rewrite nth_insert_eq.
    - fold (local_at c1 (localCount c)). rewrite Hat. reflexivity.
    - unfold c1. cbn [locals set_locals]. rewrite length_insert.
      unfold UINT8_COUNT in *. lia. }
  split; [exact Hat2|]. split; [reflexivity|].
  rewrite (resolveLocal_found c2 nm st2 (localCount c)).
  - unfold read_own_initializer. rewrite Hat2. cbn [depth].
    destruct (scopeDepth c =? -1) eqn:E1; [apply Z.eqb_eq in E1; lia|].
    reflexivity.
  - split; [cbn; lia|]. split; [rewrite Hat2; apply identifiersEqual_refl|].
    intros j Hj. cbn in Hj. lia.
Qed.

(** ** What is emitted stays emitted *)

Definition chunk_of (c : Compiler) : Chunk := chunk (function c).

(** The chunks under construction, the current one first. *)
Definition chunks (st : State) : list Chunk := map chunk_of (compilers st).

(** [k'] is [k] with bytes, lines and constants appended. *)
Definition chunk_grows (k k' : Chunk) : Prop :=
  code k `prefix_of` code k'
  /\ lines k `prefix_of` lines k'
  /\ constants k `prefix_of` constants k'.

Lemma chunk_grows_refl k : chunk_grows k k.
Proof. repeat split; reflexivity. Qed.

Lemma chunk_grows_trans k1 k2 k3 :
  chunk_grows k1 k2 -> chunk_grows k2 k3 -> chunk_grows k1 k3.
Proof.
  intros (H1 & H2 & H3) (H4 & H5 & H6).
  repeat split; etransitivity; eassumption.
Qed.

(** From [st] to [s] the current chunk has grown and no other chunk has
    changed. *)
Definition appends (st s : State) : Prop :=
  match chunks st with
  | [] => chunks s = []
  | k :: ks => exists k', chunks s = k' :: ks /\ chunk_grows k k'
  end.

Lemma appends_refl st : appends st st.
Proof.
  unfold appends. destruct (chunks st) as [|k ks]; [reflexivity|].
  exists k. split; [reflexivity|apply chunk_grows_refl].
Qed.

Lemma appends_same st s : chunks s = chunks st -> appends st s.
Proof. intros H. unfold appends. rewrite H. apply appends_refl. Qed.

Lemma appends_chain st s : compilers s = compilers st -> appends st s.
Proof. intros H. apply appends_same. unfold chunks. rewrite H. reflexivity. Qed.

Lemma appends_trans a b c : appends a b -> appends b c -> appends a c.
Proof.
  unfold appends. destruct (chunks a) as [|k ks].
  - intros ->. auto.
  - intros (k' & -> & H1) (k'' & H2 & H3).
    exists k''. split; [exact H2|]. exact (chunk_grows_trans _ _ _ H1 H3).
Qed.

Lemma appends_with_current g st :
  (forall c, chunk_grows (chunk_of c) (chunk_of (g c))) ->
  appends st (with_current g st).
Proof.
  intros Hg. unfold appends, chunks, with_current.
  destruct (compilers st) as [|c cs] eqn:E; [rewrite E; reflexivity|].
  simpl. exists (chunk_of (g c)). split; [reflexivity|apply Hg].
Qed.

Lemma appends_keep_chunk g st :
  (forall c, chunk_of (g c) = chunk_of c) -> appends st (with_current g st).
Proof.
  intros Hg. apply appends_with_current. intros c. rewrite Hg.
  apply chunk_grows_refl.
Qed.

Lemma appends_emitByte byte st : appends st (emitByte byte st).
Proof.
  apply appends_with_current. intros c. unfold chunk_of. simpl.
  repeat split; try reflexivity; apply prefix_app_r; reflexivity.
Qed.

Lemma appends_error msg st : appends st (error msg st).
Proof. apply appends_chain, compilers_error. Qed.

Lemma appends_errorAtCurrent msg st : appends st (errorAtCurrent msg st).
Proof. apply appends_chain, compilers_errorAtCurrent. Qed.

Lemma appends_advance st : appends st (advance st).
Proof. apply appends_chain, compilers_advance. Qed.

Lemma appends_consume ty msg st : appends st (consume ty msg st).
Proof. apply appends_chain, compilers_consume. Qed.

Lemma appends_match ty st : appends st (snd (match_ ty st)).
Proof. apply appends_chain, compilers_match. Qed.

Lemma appends_emitBytes b1 b2 st : appends st (emitBytes b1 b2 st).
Proof.
  unfold emitBytes. eapply appends_trans; apply appends_emitByte.
Qed.

Lemma appends_emitJump i st : appends st (snd (emitJump i st)).
Proof.
  unfold emitJump. simpl.
  eapply appends_trans; [|apply appends_emitByte].
  eapply appends_trans; apply appends_emitByte.
Qed.

Lemma appends_emitLoop op loopStart st : appends st (emitLoop op loopStart st).
Proof.
  unfold emitLoop.
  eapply appends_trans; [|apply appends_emitByte].
  eapply appends_trans; [|apply appends_emitByte].
  eapply appends_trans; [apply (appends_emitByte (op OP_LOOP))|].
  destruct (_ >? _); [apply appends_error|apply appends_refl].
Qed.

Lemma appends_emitReturn op st : appends st (emitReturn op st).
Proof.
  unfold emitReturn. eapply appends_trans; [|apply appends_emitByte].
  destruct (FunctionType_eqb _ _); [apply appends_emitBytes|apply appends_emitByte].
Qed.

Lemma appends_makeConstant v st : appends st (snd (makeConstant v st)).
Proof.
  unfold makeConstant.
  assert (H : appends st (with_currentChunk (fun c => snd (addConstant c v)) st)).
  { apply appends_with_current. intros c. unfold chunk_of. simpl.
    repeat split; try reflexivity. apply prefix_app_r. reflexivity. }
  destruct (_ >? _); simpl; [|exact H].
  eapply appends_trans; [exact H|apply appends_error].
Qed.

Lemma appends_identifierConstant nm st : appends st (snd (identifierConstant nm st)).
Proof. apply appends_makeConstant. Qed.

Lemma appends_emitConstant op v st : appends st (emitConstant op v st).
Proof.
  unfold emitConstant. pose proof (appends_makeConstant v st) as H.
  destruct (makeConstant v st) as [k st1]. simpl in H.
  eapply appends_trans; [exact H|apply appends_emitBytes].
Qed.

Lemma appends_resolveLocal c nm st : appends st (snd (resolveLocal c nm st)).
Proof. apply appends_chain, compilers_resolveLocal. Qed.

Lemma chunk_of_capture i c : chunk_of (capture i c) = chunk_of c.
Proof. reflexivity. Qed.

Lemma chunks_resolveUpvalue chain nm st :
  map chunk_of (snd (fst (resolveUpvalue chain nm st))) = map chunk_of chain.
Proof.
  revert st. induction chain as [|c enclosing IH]; intros st; [reflexivity|].
  simpl. destruct enclosing as [|parent outer]; [reflexivity|].
  destruct (resolveLocal parent nm st) as [local st1].
  destruct (negb (local =? -1)).
  - pose proof (chunk_addUpvalue c (local mod 256) true st1) as H.
    destruct (addUpvalue c (local mod 256) true st1) as [[i c'] st2].
    simpl in *. unfold chunk_of at 1 3. rewrite H. reflexivity.
  - specialize (IH st1).
    destruct (resolveUpvalue (parent :: outer) nm st1) as [[up enclosing'] st2].
    simpl in IH.
    destruct (negb (up =? -1)); [|simpl; rewrite IH; reflexivity].
    pose proof (chunk_addUpvalue c (up mod 256) false st2) as H.
    destruct (addUpvalue c (up mod 256) false st2) as [[i c'] st3].
    simpl in *. unfold chunk_of at 1 3. rewrite H, IH. reflexivity.
Qed.

Lemma appends_resolveUpvalue_current nm st :
  appends st (snd (resolveUpvalue_current nm st)).
Proof.
  apply appends_same. unfold resolveUpvalue_current, chunks.
  pose proof (chunks_resolveUpvalue (compilers st) nm st) as H.
  destruct (resolveUpvalue (compilers st) nm st) as [[i chain] st1]. exact H.
Qed.

Lemma appends_beginScope st : appends st (beginScope st).
Proof. apply appends_keep_chunk. reflexivity. Qed.

Lemma appends_endScope_loop op k st : appends st (endScope_loop op k st).
Proof.
  revert st. induction k as [|k IH]; intros st; simpl; [apply appends_refl|].
  destruct (_ && _); [|apply appends_refl].
  eapply appends_trans; [|apply IH].
  eapply appends_trans; [|apply appends_keep_chunk; reflexivity].
  destruct (isCaptured _); apply appends_emitByte.
Qed.

Lemma appends_endScope op st : appends st (endScope op st).
Proof.
  unfold endScope. eapply appends_trans; [|apply appends_endScope_loop].
  apply appends_keep_chunk. reflexivity.
Qed.

Lemma appends_addLocal nm st : appends st (addLocal nm st).
Proof.
  unfold addLocal. destruct (_ =? _);
    [apply appends_error|apply appends_keep_chunk; reflexivity].
Qed.

Lemma appends_declareVariable st : appends st (declareVariable st).
Proof.
  unfold declareVariable. destruct (_ =? _); [apply appends_refl|].
  eapply appends_trans; [|apply appends_addLocal].
  apply appends_chain, compilers_declareVariable_loop.
Qed.

Lemma appends_parseVariable msg st : appends st (snd (parseVariable msg st)).
Proof.
  unfold parseVariable.
  assert (H : appends st (declareVariable (consume TOKEN_IDENTIFIER msg st))).
  { eapply appends_trans; [apply appends_consume|apply appends_declareVariable]. }
  destruct (_ >? _); [exact H|].
  eapply appends_trans; [exact H|apply appends_identifierConstant].
Qed.

Lemma appends_markInitialized st : appends st (markInitialized st).
Proof.
  unfold markInitialized. destruct (_ =? _);
    [apply appends_refl|apply appends_keep_chunk; reflexivity].
Qed.

Lemma appends_defineVariable op g st : appends st (defineVariable op g st).
Proof.
  unfold defineVariable.
  destruct (_ >? _); [apply appends_markInitialized|apply appends_emitBytes].
Qed.

Lemma appends_emitUpvalues compiler i k st : appends st (emitUpvalues compiler i k st).
Proof.
  revert i st. induction k as [|k IH]; intros i st; simpl; [apply appends_refl|].
  eapply appends_trans; [|apply IH].
  eapply appends_trans; apply appends_emitByte.
Qed.

(** The current chunk is [k0] with something appended, and the chunks of
    the enclosing functions are [ks]. *)
Definition over (k0 : Chunk) (ks : list Chunk) (s : State) : Prop :=
  exists k', chunks s = k' :: ks /\ chunk_grows k0 k'.

Lemma over_appends k0 ks s s' : over k0 ks s -> appends s s' -> over k0 ks s'.
Proof.
  intros (k & Hk & Hg) H. unfold appends in H. rewrite Hk in H.
  destruct H as (k' & Hk' & Hg'). exists k'. split; [exact Hk'|].
  exact (chunk_grows_trans _ _ _ Hg Hg').
Qed.

Lemma over_currentChunk k0 ks s :
  over k0 ks s -> linked s /\ chunk_grows k0 (currentChunk s).
Proof.
  intros (k & Hk & Hg). unfold chunks, linked, currentChunk, cur in *.
  destruct (compilers s) as [|c cs]; [discriminate|].
  simpl in *. injection Hk as <- _. split; [discriminate|exact Hg].
Qed.

Lemma count_grows k k' : chunk_grows k k' -> count k <= count k'.
Proof.
  intros ([more Hmore] & _). unfold count. rewrite Hmore, length_app. lia.
Qed.

(** Patching a jump operand that lies beyond [k0] leaves [k0] a prefix. *)
Lemma over_patchJump k0 ks offset s :
  count k0 <= offset -> over k0 ks s -> over k0 ks (patchJump offset s).
Proof.
  intros Hoff H. unfold patchJump.
  assert (Hpoke : forall o v s1,
            count k0 <= o -> over k0 ks s1 ->
            over k0 ks (with_currentChunk (poke o v) s1)).
  { intros o v s1 Ho (k & Hk & Hc & Hl & Hcs).
    unfold over, chunks, with_currentChunk, with_current in *.
    destruct (compilers s1) as [|c cs]; [discriminate|].
    simpl in *. injection Hk as <- <-.
    eexists. split; [reflexivity|]. unfold chunk_of. simpl.
    split; [|split; assumption].
    destruct Hc as [more Hmore]. unfold chunk_of in Hmore.
    unfold poke. cbn [code]. rewrite Hmore. unfold count in Ho.
    rewrite insert_app_r_alt by lia. apply prefix_app_r. reflexivity. }
  apply Hpoke; [lia|]. apply Hpoke; [exact Hoff|].
  destruct (_ >? _); [|exact H].
  apply (over_appends _ _ _ _ H), appends_error.
Qed.

(** [m] keeps [I] and returns a value in [phi]. *)
Definition yields {A} (I : State -> Prop) (m : M A) (phi : A -> Prop) : Prop :=
  forall st a st', m st = Some (a, st') -> I st -> I st' /\ phi a.

Lemma yields_bind_keeps {A B} I (m : M A) (k : A -> M B) phi :
  yields I m phi -> (forall a, phi a -> keeps I (k a)) -> keeps I (bind m k).
Proof.
  intros Hm Hk st b st' H HI.
  apply bind_Some in H as (a & st1 & H1 & H2).
  destruct (Hm _ _ _ H1 HI) as [HI1 Ha]. exact (Hk a Ha _ _ _ H2 HI1).
Qed.

Lemma yields_bind {A B} I (m : M A) (k : A -> M B) psi phi :
  yields I m psi -> (forall a, psi a -> yields I (k a) phi) ->
  yields I (bind m k) phi.
Proof.
  intros Hm Hk st b st' H HI.
  apply bind_Some in H as (a & st1 & H1 & H2).
  destruct (Hm _ _ _ H1 HI) as [HI1 Ha]. exact (Hk a Ha _ _ _ H2 HI1).
Qed.

Lemma yields_keeps {A} I (m : M A) : keeps I m -> yields I m (fun _ => True).
Proof. intros H st a st' Hrun HI. split; [exact (H _ _ _ Hrun HI)|trivial]. Qed.

Lemma yields_ret {A} I (a : A) (phi : A -> Prop) : phi a -> yields I (ret a) phi.
Proof. intros Ha st a' st' H HI. injection H as <- <-. auto. Qed.

Lemma yields_emitJump op_byte k0 ks :
  yields (over k0 ks) (lift (emitJump op_byte)) (fun offset => count k0 <= offset).
Proof.
  intros st a st' H HI. unfold lift in H.
  destruct (emitJump op_byte st) as [off st1] eqn:E. injection H as <- <-.
  split.
  - change st1 with (snd (off, st1)). rewrite <- E.
    apply (over_appends _ _ _ _ HI), appends_emitJump.
  - destruct (over_currentChunk _ _ _ HI) as [Hl Hg].
    apply count_grows in Hg.
    unfold emitJump in E. injection E as <- _.
    unfold count in *.
    rewrite !code_emitByte
      by (repeat first [exact Hl|apply linked_emitByte]).
    rewrite !length_app. simpl. lia.
Qed.

Create HintDb appends.
#[local] Hint Resolve appends_refl appends_emitByte appends_error
  appends_errorAtCurrent appends_advance appends_consume appends_match
  appends_emitBytes appends_emitJump appends_emitLoop appends_emitReturn
  appends_makeConstant appends_identifierConstant appends_emitConstant
  appends_resolveLocal appends_resolveUpvalue_current appends_beginScope
  appends_endScope appends_addLocal appends_declareVariable
  appends_parseVariable appends_markInitialized appends_defineVariable
  appends_emitUpvalues : appends.
#[local] Hint Extern 2 (appends _ (with_current _ _)) =>
  apply appends_keep_chunk; reflexivity : appends.
#[local] Hint Extern 2 (appends _ (set_classes _ _)) =>
  apply appends_chain; reflexivity : appends.
#[local] Hint Extern 2 (appends _ (set_parser _ _)) =>
  apply appends_chain; reflexivity : appends.

Ltac stable_over :=
  let st := fresh "st" in
  let H := fresh "H" in
  lazymatch goal with |- stable _ _ => idtac end;
  intros st H; cbn beta;
  first
    [ apply over_patchJump; [assumption|exact H]
    | refine (over_appends _ _ _ _ H _);
      repeat match goal with
             | |- appends _ (match ?x with _ => _ end) => destruct x
             | |- appends _ ((match ?x with _ => _ end) _) => destruct x
             | |- appends _ (if ?x then _ else _) => destruct x
             end;
      cbn beta; auto with appends ].

(** One step, the offset of an emitted jump being kept in view. *)
Ltac over_step :=
  match goal with
  | |- keeps (over _ _) (bind (lift (emitJump _)) _) =>
      apply (yields_bind_keeps _ _ _ _ (yields_emitJump _ _ _)); intros ? ?
  | |- keeps _ (and_match ?flag _) => destruct flag; simpl
  | _ => keeps_step
  end.

Section OverExpressions.

Variable op : OpCode -> Z.
Variable k0 : Chunk.
Variable ks : list Chunk.
Variable rec : ExprCall -> M Z.
Hypothesis rec_over : forall c, keeps (over k0 ks) (rec c).

Ltac go :=
  repeat match goal with
         | |- keeps _ (rec _) => apply rec_over
         | _ => over_step
         end;
  try stable_over.

Lemma keeps_over_argumentList : keeps (over k0 ks) (argumentList rec).
Proof. unfold argumentList. go. Qed.

Lemma keeps_over_namedVariable nm canAssign :
  keeps (over k0 ks) (namedVariable op rec nm canAssign).
Proof. unfold namedVariable, expression. go. Qed.

Lemma keeps_over_callParseFn fn canAssign :
  keeps (over k0 ks) (callParseFn op rec fn canAssign).
Proof.
  destruct fn; simpl;
    unfold grouping, call, dot, unary, binary, variable, string_, number, and_,
           literal, or_, super_, this_, variable, expression;
    repeat match goal with
           | |- keeps _ (rec _) => apply rec_over
           | |- keeps _ (argumentList _) => apply keeps_over_argumentList
           | |- keeps _ (namedVariable _ _ _ _) => apply keeps_over_namedVariable
           | _ => over_step
           end;
    try stable_over.
Qed.

Lemma keeps_over_exprStep c : keeps (over k0 ks) (exprStep op rec c).
Proof.
  destruct c; simpl; unfold parsePrecendence, infixLoop, argumentLoop, expression;
    repeat match goal with
           | |- keeps _ (rec _) => apply rec_over
           | |- keeps _ (callParseFn _ _ _ _) => apply keeps_over_callParseFn
           | _ => over_step
           end;
    try stable_over.
Qed.

End OverExpressions.

Lemma keeps_over_runExpr op k0 ks fuel c : keeps (over k0 ks) (runExpr op fuel c).
Proof.
  revert c. induction fuel as [|fuel IH]; intros c; simpl.
  - apply keeps_noResult.
  - apply keeps_over_exprStep. exact IH.
Qed.

Lemma over_weaken k0 k ks s : chunk_grows k0 k -> over k ks s -> over k0 ks s.
Proof.
  intros Hg (k' & Hk & Hg'). exists k'. split; [exact Hk|].
  exact (chunk_grows_trans _ _ _ Hg Hg').
Qed.

Section OverStatements.

Variable op : OpCode -> Z.
Variable expr : ExprCall -> M Z.
Variable rec : StmtCall -> M Z.
Hypothesis expr_over : forall k0 ks c, keeps (over k0 ks) (expr c).
Hypothesis rec_over : forall k0 ks c, keeps (over k0 ks) (rec c).

Ltac go :=
  repeat match goal with
         | |- keeps _ (expr _) => apply expr_over
         | |- keeps _ (rec _) => apply rec_over
         | |- keeps _ (namedVariable _ _ _ _) =>
             apply keeps_over_namedVariable; intros ?; apply expr_over
         | _ => over_step
         end;
  try stable_over.

Lemma keeps_over_block k0 ks : keeps (over k0 ks) (block rec).
Proof. unfold block. go. Qed.

(** [function] compiles in a chunk of its own, which [endCompiler] takes
    away: the chunks that were there are as they were until [OP_CLOSURE] is
    appended to the current one. *)
Lemma keeps_over_function_ k0 ks ty : keeps (over k0 ks) (function_ op rec ty).
Proof.
  intros st a st' Hrun (k & Hk & Hg).
  apply (over_weaken _ _ _ _ Hg).
  revert st a st' Hrun Hk.
  change (hoare (fun s => chunks s = k :: ks) (function_ op rec ty) (over k ks)).
  unfold function_.
  apply (hoare_bind _ (over initChunk (k :: ks))).
  { apply hoare_exec. intros st H. exists initChunk.
    split; [|apply chunk_grows_refl].
    unfold chunks, initCompiler in *. simpl. rewrite H.
    destruct (negb (FunctionType_eqb ty TYPE_SCRIPT)); reflexivity. }
  intros [].
  do 8 (apply (hoare_bind _ (over initChunk (k :: ks)));
        [apply hoare_keeps; first [apply keeps_over_block|go]|intros ?]).
  apply (hoare_bind _ (over k ks)).
  { apply hoare_lift. intros st H.
    pose proof (over_appends _ _ _ _ H (appends_emitReturn op st))
      as (k' & Hk' & _).
    exists k. split; [|apply chunk_grows_refl].
    unfold endCompiler, chunks in *. cbn [snd compilers set_compilers].
    destruct (compilers (emitReturn op st)); [discriminate|].
    simpl in *. injection Hk' as _ E. exact E. }
  intros f. apply hoare_keeps. go.
Qed.

Lemma keeps_over_varDeclaration k0 ks : keeps (over k0 ks) (varDeclaration op expr).
Proof. unfold varDeclaration, expression. go. Qed.

Lemma keeps_over_expressionStatement k0 ks :
  keeps (over k0 ks) (expressionStatement op expr).
Proof. unfold expressionStatement, expression. go. Qed.

Ltac go2 :=
  repeat match goal with
         | |- keeps _ (expr _) => apply expr_over
         | |- keeps _ (rec _) => apply rec_over
         | |- keeps _ (varDeclaration _ _) => apply keeps_over_varDeclaration
         | |- keeps _ (expressionStatement _ _) =>
             apply keeps_over_expressionStatement
         | _ => over_step
         end;
  try stable_over.

(** The jump out of a [for] loop is patched only if there is one. *)
Lemma keeps_over_forStatement k0 ks :
  keeps (over k0 ks) (forStatement op expr rec).
Proof.
  unfold forStatement, statement, expression.
  do 6 (apply keeps_bind; [go2|intros ?]).
  apply (yields_bind_keeps _ _ _ (fun j => j = -1 \/ count k0 <= j)).
  { destruct (negb a4); [|apply yields_ret; left; reflexivity].
    apply (yields_bind _ _ _ (fun _ => True)); [apply yields_keeps; go2|intros _ _].
    apply (yields_bind _ _ _ (fun _ => True)); [apply yields_keeps; go2|intros _ _].
    apply (yields_bind _ _ _ _ _ (yields_emitJump _ _ _)). intros j Hj.
    apply (yields_bind _ _ _ (fun _ => True)); [apply yields_keeps; go2|intros _ _].
    apply yields_ret. right. exact Hj. }
  intros exitJump Hexit.
  do 4 (apply keeps_bind; [go2|intros ?]).
  apply keeps_bind; [|intros ?; go2].
  destruct (negb (exitJump =? -1)) eqn:E; [|go2].
  apply negb_true_iff, Z.eqb_neq in E.
  assert (count k0 <= exitJump) by (destruct Hexit; [contradiction|assumption]).
  go2.
Qed.

Lemma keeps_over_stmtStep k0 ks c : keeps (over k0 ks) (stmtStep op expr rec c).
Proof.
  destruct c; simpl;
    unfold declaration_, statement_, blockLoop, parameterLoop, methodLoop,
           synchronizeLoop, compileLoop, classDeclaration, funDeclaration,
           ifStatement, printStatement, returnStatement,
           whileStatement, synchronize, method, declaration, statement,
           variable, expression;
    repeat match goal with
           | |- keeps _ (expr _) => apply expr_over
           | |- keeps _ (rec _) => apply rec_over
           | |- keeps _ (namedVariable _ _ _ _) =>
               apply keeps_over_namedVariable; intros ?; apply expr_over
           | |- keeps _ (block _) => apply keeps_over_block
           | |- keeps _ (function_ _ _ _) => apply keeps_over_function_
           | |- keeps _ (varDeclaration _ _) => apply keeps_over_varDeclaration
           | |- keeps _ (expressionStatement _ _) =>
               apply keeps_over_expressionStatement
           | |- keeps _ (forStatement _ _ _) => apply keeps_over_forStatement
           | _ => over_step
           end;
    try stable_over.
Qed.

End OverStatements.

Lemma keeps_over_runStmt op fuel k0 ks c : keeps (over k0 ks) (runStmt op fuel c).
Proof.
  revert k0 ks c. induction fuel as [|fuel IH]; intros k0 ks c; simpl.
  - apply keeps_noResult.
  - apply keeps_over_stmtStep; [|exact IH].
    intros k0' ks' c'. apply keeps_over_runExpr.
Qed.

(** X14: what is emitted stays emitted.  Across every call of the
    expression parser and every statement-level call, the bytes, the line
    entries and the constants the current chunk held at the start are still
    there, at the same indices, at the end (a jump operand is patched only
    inside what the call itself emitted), and the chunks of the enclosing
    functions are exactly as they were: a nested function is compiled in a
    chunk of its own, which leaves the chain with [endCompiler]. *)
Theorem emitted_code_is_kept (op : OpCode -> Z) :
  (forall fuel c st k ks r st',
     chunks st = k :: ks -> runExpr op fuel c st = Some (r, st') ->
     exists k', chunks st' = k' :: ks /\ chunk_grows k k')
  /\ (forall fuel c st k ks r st',
        chunks st = k :: ks -> runStmt op fuel c st = Some (r, st') ->
        exists k', chunks st' = k' :: ks /\ chunk_grows k k')
  /\ (forall k k',
        chunk_grows k k' ->
        count k <= count k'
        /\ (forall i b, code k !! i = Some b -> code k' !! i = Some b)
        /\ (forall i ln, lines k !! i = Some ln -> lines k' !! i = Some ln)
        /\ (forall i v, constants k !! i = Some v -> constants k' !! i = Some v))
  /\ (forall source,
      exists fuel0 r st' k',
        (forall fuel, (fuel0 <= fuel)%nat ->
           runStmt op fuel call_compileLoop (compile_start source) = Some (r, st'))
        /\ chunks st' = [k']
        /\ chunk_grows (currentChunk (compile_start source)) k').
Proof.
  assert (Hstmt : forall fuel c st k ks r st',
            chunks st = k :: ks -> runStmt op fuel c st = Some (r, st') ->
            exists k', chunks st' = k' :: ks /\ chunk_grows k k').
  { intros fuel c st k ks r st' Hk Hrun.
    apply (keeps_over_runStmt op fuel k ks c st r st' Hrun).
    exists k. split; [exact Hk|apply chunk_grows_refl]. }
  split.
  { intros fuel c st k ks r st' Hk Hrun.
    apply (keeps_over_runExpr op k ks fuel c st r st' Hrun).
    exists k. split; [exact Hk|apply chunk_grows_refl]. }
  split; [exact Hstmt|].
  split.
  { intros k k' (Hc & Hl & Hcs). split; [apply count_grows; repeat split; assumption|].
    split; [|split]; intros i x Hx.
    - destruct Hc as [more ->]. apply lookup_app_l_Some, Hx.
    - destruct Hl as [more ->]. apply lookup_app_l_Some, Hx.
    - destruct Hcs as [more ->]. apply lookup_app_l_Some, Hx. }
  intros source.
  destruct (statements_return_all op (ahead (compile_start source))
              call_compileLoop (compile_start source))
    as (fuel0 & r & st' & H & _); [unfold bounded; lia|].
  assert (Hk : chunks (compile_start source) = [currentChunk (compile_start source)]).
  { unfold chunks, currentChunk, cur, compile_start. rewrite compilers_advance.
    reflexivity. }
  destruct (Hstmt fuel0 _ _ _ _ _ _ Hk (H fuel0 (Nat.le_refl _))) as (k' & H1 & H2).
  exists fuel0, r, st', k'. auto.
Qed.

(** ** Where the jumps land *)

Definition high_of (x : Z) : Z := Z.land (Z.shiftr x 8) 255.
Definition low_of (x : Z) : Z := Z.land x 255.

Lemma high_low x : 0 <= x <= UINT16_MAX -> 256 * high_of x + low_of x = x.
Proof. apply big_endian_16. Qed.

Lemma code_with_currentChunk_poke offset v st :
  linked st ->
  code (currentChunk (with_currentChunk (poke offset v) st))
  = <[Z.to_nat offset := v]> (code (currentChunk st)).
Proof. intros H. rewrite currentChunk_with_currentChunk by exact H. reflexivity. Qed.

Lemma linked_patchJump offset st : linked st -> linked (patchJump offset st).
Proof.
  intros H. unfold patchJump. do 2 apply linked_with_currentChunk.
  destruct (_ >? _); [apply linked_error|]; exact H.
Qed.

(** [patchJump] on a placeholder pair followed by [post]: the pair becomes
    the length of [post], high byte first. *)
Lemma code_patchJump_at offset st pre x y post :
  linked st ->
  code (currentChunk st) = pre ++ [x; y] ++ post ->
  offset = Z.of_nat (length pre) ->
  code (currentChunk (patchJump offset st))
  = pre ++ [high_of (Z.of_nat (length post)); low_of (Z.of_nat (length post))]
        ++ post.
Proof.
  intros Hl Hcode ->. unfold patchJump.
  assert (Hl1 : linked (if count (currentChunk st) - Z.of_nat (length pre) - 2
                           >? UINT16_MAX
                        then error "Cannot jump this far !" st else st))
    by (destruct (_ >? _); [apply linked_error|]; exact Hl).
  rewrite code_with_currentChunk_poke by (apply linked_with_currentChunk, Hl1).
  rewrite code_with_currentChunk_poke by exact Hl1.
  replace (code (currentChunk (if _ >? _ then _ else st)))
    with (code (currentChunk st))
    by (destruct (_ >? _); [rewrite currentChunk_error|]; reflexivity).
  replace (count (currentChunk st) - Z.of_nat (length pre) - 2)
    with (Z.of_nat (length post))
    by (unfold count; rewrite Hcode, !length_app; simpl; lia).
  rewrite Hcode.
  replace (Z.to_nat (Z.of_nat (length pre) + 1)) with (length pre + 1)%nat by lia.
  rewrite Nat2Z.id.
  rewrite (insert_app_r_alt pre _ (length pre)) by lia.
  rewrite (insert_app_r_alt pre _ (length pre + 1)) by lia.
  replace (length pre - length pre)%nat with 0%nat by lia.
  replace (length pre + 1 - length pre)%nat with 1%nat by lia.
  reflexivity.
Qed.

Lemma code_emitJump i st :
  linked st ->
  code (currentChunk (snd (emitJump i st))) = code (currentChunk st) ++ [i; 255; 255]
  /\ fst (emitJump i st) = count (currentChunk st) + 1
  /\ linked (snd (emitJump i st)).
Proof.
  intros Hl. unfold emitJump. cbn [fst snd]. unfold count.
  rewrite !code_emitByte by (repeat first [exact Hl|apply linked_emitByte]).
  rewrite <- !app_assoc, !length_app. simpl.
  split; [reflexivity|]. split; [lia|]. repeat apply linked_emitByte. exact Hl.
Qed.

Lemma code_emitLoop op loopStart st :
  linked st ->
  code (currentChunk (emitLoop op loopStart st))
  = code (currentChunk st)
    ++ [op OP_LOOP; high_of (count (currentChunk st) + 3 - loopStart);
        low_of (count (currentChunk st) + 3 - loopStart)]
  /\ linked (emitLoop op loopStart st).
Proof.
  intros Hl.
  assert (Hcount : count (currentChunk (emitByte (op OP_LOOP) st))
                   = count (currentChunk st) + 1).
  { unfold count. rewrite code_emitByte by exact Hl. rewrite length_app. simpl. lia. }
  unfold emitLoop. rewrite Hcount.
  replace (count (currentChunk st) + 1 - loopStart + 2)
    with (count (currentChunk st) + 3 - loopStart) by lia.
  unfold high_of, low_of.
  destruct (_ >? _).
  - rewrite !code_emitByte
      by (repeat first [exact Hl|apply linked_emitByte|apply linked_error]).
    rewrite currentChunk_error, code_emitByte by exact Hl.
    rewrite <- !app_assoc. split; [reflexivity|].
    repeat first [exact Hl|apply linked_emitByte|apply linked_error].
  - rewrite !code_emitByte by (repeat first [exact Hl|apply linked_emitByte]).
    rewrite <- !app_assoc. split; [reflexivity|].
    repeat first [exact Hl|apply linked_emitByte].
Qed.

Lemma linked_consume ty msg st : linked st -> linked (consume ty msg st).
Proof. unfold linked. rewrite compilers_consume. auto. Qed.

Lemma currentChunk_consume ty msg st : currentChunk (consume ty msg st) = currentChunk st.
Proof. unfold currentChunk, cur. rewrite compilers_consume. reflexivity. Qed.

Lemma linked_match ty st : linked st -> linked (snd (match_ ty st)).
Proof. unfold linked. rewrite compilers_match. auto. Qed.

Lemma currentChunk_match ty st : currentChunk (snd (match_ ty st)) = currentChunk st.
Proof. unfold currentChunk, cur. rewrite compilers_match. reflexivity. Qed.

Lemma over_linked st : linked st -> over (currentChunk st) (tl (chunks st)) st.
Proof.
  unfold linked, over, chunks, currentChunk, cur.
  destruct (compilers st) as [|c cs]; [congruence|]. intros _.
  exists (chunk_of c). split; [reflexivity|apply chunk_grows_refl].
Qed.

(** A call appends to the code of the current chunk. *)
Lemma code_runExpr op fuel c st r st' :
  linked st -> runExpr op fuel c st = Some (r, st') ->
  linked st'
  /\ exists more, code (currentChunk st') = code (currentChunk st) ++ more.
Proof.
  intros Hl Hrun.
  pose proof (keeps_over_runExpr op _ _ fuel c st r st' Hrun (over_linked st Hl)) as H.
  destruct (over_currentChunk _ _ _ H) as (Hl' & [more Hc] & _).
  split; [exact Hl'|]. exists more. exact Hc.
Qed.

Lemma code_runStmt op fuel c st r st' :
  linked st -> runStmt op fuel c st = Some (r, st') ->
  linked st'
  /\ exists more, code (currentChunk st') = code (currentChunk st) ++ more.
Proof.
  intros Hl Hrun.
  pose proof (keeps_over_runStmt op fuel _ _ c st r st' Hrun (over_linked st Hl)) as H.
  destruct (over_currentChunk _ _ _ H) as (Hl' & [more Hc] & _).
  split; [exact Hl'|]. exists more. exact Hc.
Qed.

(** X15: [and] and [or] jump over their right operand.  [and_] emits
    [OP_JUMP_IF_FALSE], [OP_POP], then the right operand; [or_] emits
    [OP_JUMP_IF_FALSE 3] (over the jump that follows), [OP_JUMP], [OP_POP],
    then the right operand.  In both the operand of the jump over the right
    operand is patched to the number of bytes that follow it, the [OP_POP]
    and the right operand: it lands just after the right operand. *)
Theorem short_circuit_jumps_over_right_operand
  (op : OpCode -> Z) (fuel : nat) (canAssign : bool) (st : State) :
  linked st ->
  (forall r st',
     and_ op (runExpr op fuel) canAssign st = Some (r, st') ->
     exists right z s,
       let d := Z.of_nat (length right) + 1 in
       runExpr op fuel (call_parsePrecendence PREC_AND)
         (emitByte (op OP_POP) (snd (emitJump (op OP_JUMP_IF_FALSE) st)))
       = Some (z, s)
       /\ code (currentChunk s)
          = code (currentChunk st)
            ++ [op OP_JUMP_IF_FALSE; 255; 255; op OP_POP] ++ right
       /\ code (currentChunk st')
          = code (currentChunk st)
            ++ [op OP_JUMP_IF_FALSE; high_of d; low_of d; op OP_POP] ++ right)
  /\ (forall r st',
        or_ op (runExpr op fuel) canAssign st = Some (r, st') ->
        exists right z s0 s,
          let d := Z.of_nat (length right) + 1 in
          code (currentChunk s0)
          = code (currentChunk st)
            ++ [op OP_JUMP_IF_FALSE; 0; 3; op OP_JUMP; 255; 255; op OP_POP]
          /\ runExpr op fuel (call_parsePrecendence PREC_OR) s0 = Some (z, s)
          /\ code (currentChunk s) = code (currentChunk s0) ++ right
          /\ code (currentChunk st')
             = code (currentChunk st)
               ++ [op OP_JUMP_IF_FALSE; 0; 3; op OP_JUMP; high_of d; low_of d;
                   op OP_POP] ++ right).
Proof.
  intros Hl. split.
  - intros r st' Hrun. unfold and_ in Hrun.
    unfold bind at 1, lift at 1 in Hrun.
    destruct (code_emitJump (op OP_JUMP_IF_FALSE) st Hl) as (Hc1 & Ho1 & Hl1).
    destruct (emitJump (op OP_JUMP_IF_FALSE) st) as [endJump s1].
    cbn [fst snd] in *.
    unfold bind at 1, exec at 1 in Hrun.
    apply bind_Some in Hrun as (z & s3 & Hexpr & Hrun).
    unfold bind, exec, ret in Hrun. injection Hrun as _ <-.
    assert (Hl2 : linked (emitByte (op OP_POP) s1)) by (apply linked_emitByte, Hl1).
    destruct (code_runExpr op fuel _ _ _ _ Hl2 Hexpr) as (Hl3 & right & Hc3).
    rewrite code_emitByte, Hc1 in Hc3 by exact Hl1.
    exists right, z, s3. cbv zeta.
    split; [exact Hexpr|].
    split; [rewrite Hc3, <- !app_assoc; reflexivity|].
    rewrite (code_patchJump_at endJump s3 (code (currentChunk st) ++ [op OP_JUMP_IF_FALSE])
               255 255 (op OP_POP :: right) Hl3).
    + rewrite <- !app_assoc. cbn [length app].
      replace (Z.of_nat (S (length right))) with (Z.of_nat (length right) + 1) by lia.
      reflexivity.
    + rewrite Hc3, <- !app_assoc. reflexivity.
    + rewrite Ho1. unfold count. rewrite length_app. simpl. lia.
  - intros r st' Hrun. unfold or_ in Hrun.
    unfold bind at 1, lift at 1 in Hrun.
    destruct (code_emitJump (op OP_JUMP_IF_FALSE) st Hl) as (Hc1 & Ho1 & Hl1).
    destruct (emitJump (op OP_JUMP_IF_FALSE) st) as [elseJump s1].
    cbn [fst snd] in *.
    unfold bind at 1, lift at 1 in Hrun.
    destruct (code_emitJump (op OP_JUMP) s1 Hl1) as (Hc2 & Ho2 & Hl2).
    destruct (emitJump (op OP_JUMP) s1) as [endJump s2].
    cbn [fst snd] in *.
    unfold bind at 1, exec at 1 in Hrun.
    unfold bind at 1, exec at 1 in Hrun.
    apply bind_Some in Hrun as (z & s5 & Hexpr & Hrun).
    unfold bind, exec, ret in Hrun. injection Hrun as _ <-.
    assert (Hc3 : code (currentChunk (patchJump elseJump s2))
                  = code (currentChunk st)
                    ++ [op OP_JUMP_IF_FALSE; 0; 3; op OP_JUMP; 255; 255]).
    { rewrite (code_patchJump_at elseJump s2
                 (code (currentChunk st) ++ [op OP_JUMP_IF_FALSE])
                 255 255 [op OP_JUMP; 255; 255] Hl2).
      - rewrite <- !app_assoc. reflexivity.
      - rewrite Hc2, Hc1, <- !app_assoc. reflexivity.
      - rewrite Ho1. unfold count. rewrite length_app. simpl. lia. }
    assert (Hl3 : linked (patchJump elseJump s2)) by (apply linked_patchJump, Hl2).
    assert (Hl4 : linked (emitByte (op OP_POP) (patchJump elseJump s2)))
      by (apply linked_emitByte, Hl3).
    destruct (code_runExpr op fuel _ _ _ _ Hl4 Hexpr) as (Hl5 & right & Hc5).
    exists right, z, (emitByte (op OP_POP) (patchJump elseJump s2)), s5. cbv zeta.
    assert (Hc4 : code (currentChunk (emitByte (op OP_POP) (patchJump elseJump s2)))
                  = code (currentChunk st)
                    ++ [op OP_JUMP_IF_FALSE; 0; 3; op OP_JUMP; 255; 255; op OP_POP]).
    { rewrite code_emitByte, Hc3, <- !app_assoc by exact Hl3. reflexivity. }
    split; [exact Hc4|]. split; [exact Hexpr|]. split; [exact Hc5|].
    rewrite Hc4 in Hc5.
    rewrite (code_patchJump_at endJump s5
               (code (currentChunk st) ++ [op OP_JUMP_IF_FALSE; 0; 3; op OP_JUMP])
               255 255 (op OP_POP :: right) Hl5).
    + rewrite <- !app_assoc. cbn [length app].
      replace (Z.of_nat (S (length right))) with (Z.of_nat (length right) + 1) by lia.
      reflexivity.
    + rewrite Hc5, <- !app_assoc. reflexivity.
    + rewrite Ho2. unfold count. rewrite Hc1, !length_app. simpl. lia.
Qed.

Lemma code_expression op fuel st r st' :
  linked st -> expression (runExpr op fuel) st = Some (r, st') ->
  linked st'
  /\ exists more, code (currentChunk st') = code (currentChunk st) ++ more.
Proof. apply code_runExpr. Qed.

(** X16: the layout of a [while] loop.  [whileStatement] appends the
    condition, [OP_JUMP_IF_FALSE], [OP_POP], the body, [OP_LOOP] and a
    last [OP_POP].  The operand of [OP_LOOP] is the distance from the end of
    that instruction back to the first byte of the condition, and the
    operand of [OP_JUMP_IF_FALSE] is the distance from its end to the last
    [OP_POP]: the number of bytes of the body plus 4. *)
Theorem while_loop_layout
  (op : OpCode -> Z) (fuel : nat) (st : State) (r : Z) (st' : State) :
  linked st ->
  whileStatement op (runExpr op fuel) (runStmt op fuel) st = Some (r, st') ->
  exists cond body z1 s1 s2 z2 s3,
    let exit := Z.of_nat (length body) + 4 in
    let back := Z.of_nat (length cond) + Z.of_nat (length body) + 7 in
    expression (runExpr op fuel)
      (consume TOKEN_LEFT_PAREN "Expect '(' after 'while'." st) = Some (z1, s1)
    /\ code (currentChunk s1) = code (currentChunk st) ++ cond
    /\ code (currentChunk s2)
       = code (currentChunk s1) ++ [op OP_JUMP_IF_FALSE; 255; 255; op OP_POP]
    /\ runStmt op fuel call_statement s2 = Some (z2, s3)
    /\ code (currentChunk s3) = code (currentChunk s2) ++ body
    /\ code (currentChunk st')
       = code (currentChunk st) ++ cond
         ++ [op OP_JUMP_IF_FALSE; high_of exit; low_of exit; op OP_POP] ++ body
         ++ [op OP_LOOP; high_of back; low_of back; op OP_POP].
Proof.
  intros Hl Hrun. unfold whileStatement, statement in Hrun.
  unfold bind at 1, get at 1 in Hrun.
  unfold bind at 1, exec at 1 in Hrun.
  apply bind_Some in Hrun as (z1 & s2 & Hcond & Hrun).
  assert (Hl1 : linked (consume TOKEN_LEFT_PAREN "Expect '(' after 'while'." st))
    by (apply linked_consume, Hl).
  destruct (code_expression op fuel _ _ _ Hl1 Hcond) as (Hl2 & cond & Hc2).
  rewrite currentChunk_consume in Hc2.
  unfold bind at 1, exec at 1 in Hrun.
  set (s3 := consume TOKEN_RIGHT_PAREN _ s2) in Hrun.
  assert (Hl3 : linked s3) by (apply linked_consume, Hl2).
  assert (Hc3 : code (currentChunk s3) = code (currentChunk st) ++ cond)
    by (unfold s3; rewrite currentChunk_consume; exact Hc2).
  unfold bind at 1, lift at 1 in Hrun.
  destruct (code_emitJump (op OP_JUMP_IF_FALSE) s3 Hl3) as (Hc4 & Ho4 & Hl4).
  destruct (emitJump (op OP_JUMP_IF_FALSE) s3) as [exitJump s4].
  cbn [fst snd] in *.
  unfold bind at 1, exec at 1 in Hrun.
  apply bind_Some in Hrun as (z2 & s6 & Hbody & Hrun).
  assert (Hl5 : linked (emitByte (op OP_POP) s4)) by (apply linked_emitByte, Hl4).
  destruct (code_runStmt op fuel _ _ _ _ Hl5 Hbody) as (Hl6 & body & Hc6).
  assert (Hc5 : code (currentChunk (emitByte (op OP_POP) s4))
                = code (currentChunk s2)
                  ++ [op OP_JUMP_IF_FALSE; 255; 255; op OP_POP]).
  { rewrite code_emitByte, Hc4, Hc3, <- Hc2, <- !app_assoc by exact Hl4.
    reflexivity. }
  unfold bind, exec, ret in Hrun. injection Hrun as _ <-.
  destruct (code_emitLoop op (count (currentChunk st)) s6 Hl6) as (Hc7 & Hl7).
  exists cond, body, z1, s2, (emitByte (op OP_POP) s4), z2, s6. cbv zeta.
  split; [exact Hcond|]. split; [exact Hc2|]. split; [exact Hc5|].
  split; [exact Hbody|]. split; [exact Hc6|].
  rewrite code_emitByte, Hc4, Hc3 in Hc6 by exact Hl4.
  rewrite code_emitByte by (apply linked_patchJump, Hl7).
  rewrite (code_patchJump_at exitJump _
             (code (currentChunk st) ++ cond ++ [op OP_JUMP_IF_FALSE])
             255 255
             (op OP_POP :: body
              ++ [op OP_LOOP;
                  high_of (Z.of_nat (length cond) + Z.of_nat (length body) + 7);
                  low_of (Z.of_nat (length cond) + Z.of_nat (length body) + 7)])
             Hl7).
  - rewrite <- !app_assoc. cbn [length app]. rewrite length_app. cbn [length].
    replace (Z.of_nat (S (length body + 3))) with (Z.of_nat (length body) + 4) by lia.
    rewrite <- !app_assoc. reflexivity.
  - rewrite Hc7, Hc6.
    replace (count (currentChunk s6) + 3 - count (currentChunk st))
      with (Z.of_nat (length cond) + Z.of_nat (length body) + 7)
      by (unfold count; rewrite Hc6, !length_app; simpl; lia).
    rewrite <- !app_assoc. reflexivity.
  - rewrite Ho4. unfold count. rewrite Hc3, !length_app. simpl. lia.
Qed.

(** X17: the layout of an [if].  [ifStatement] appends the condition,
    [OP_JUMP_IF_FALSE], [OP_POP], the then branch, [OP_JUMP], [OP_POP] and
    the else branch (nothing without [else]).  The first jump lands on the
    second [OP_POP], the start of the else part: its operand is the number
    of bytes of the then branch plus 4.  The second lands after the else
    branch: its operand is the number of bytes of the else branch plus 1. *)
Theorem if_statement_layout
  (op : OpCode -> Z) (fuel : nat) (st : State) (r : Z) (st' : State) :
  linked st ->
  ifStatement op (runExpr op fuel) (runStmt op fuel) st = Some (r, st') ->
  exists cond thenBranch elseBranch z1 s1 s2 z2 s3 s4,
    let over_then := Z.of_nat (length thenBranch) + 4 in
    let over_else := Z.of_nat (length elseBranch) + 1 in
    expression (runExpr op fuel)
      (consume TOKEN_LEFT_PAREN "Expect '(' after 'if'." st) = Some (z1, s1)
    /\ code (currentChunk s1) = code (currentChunk st) ++ cond
    /\ code (currentChunk s2)
       = code (currentChunk s1) ++ [op OP_JUMP_IF_FALSE; 255; 255; op OP_POP]
    /\ runStmt op fuel call_statement s2 = Some (z2, s3)
    /\ code (currentChunk s3) = code (currentChunk s2) ++ thenBranch
    /\ (if fst (match_ TOKEN_ELSE s4)
        then exists z3 s5,
               runStmt op fuel call_statement (snd (match_ TOKEN_ELSE s4))
               = Some (z3, s5)
               /\ code (currentChunk s5) = code (currentChunk s4) ++ elseBranch
        else elseBranch = [])
    /\ code (currentChunk st')
       = code (currentChunk st) ++ cond
         ++ [op OP_JUMP_IF_FALSE; high_of over_then; low_of over_then; op OP_POP]
         ++ thenBranch
         ++ [op OP_JUMP; high_of over_else; low_of over_else; op OP_POP]
         ++ elseBranch.
Proof.
  intros Hl Hrun. unfold ifStatement, statement in Hrun.
  unfold bind at 1, exec at 1 in Hrun.
  apply bind_Some in Hrun as (z1 & s2 & Hcond & Hrun).
  assert (Hl1 : linked (consume TOKEN_LEFT_PAREN "Expect '(' after 'if'." st))
    by (apply linked_consume, Hl).
  destruct (code_expression op fuel _ _ _ Hl1 Hcond) as (Hl2 & cond & Hc2).
  rewrite currentChunk_consume in Hc2.
  unfold bind at 1, exec at 1 in Hrun.
  set (s3 := consume TOKEN_RIGHT_PAREN _ s2) in Hrun.
  assert (Hl3 : linked s3) by (apply linked_consume, Hl2).
  assert (Hc3 : code (currentChunk s3) = code (currentChunk st) ++ cond)
    by (unfold s3; rewrite currentChunk_consume; exact Hc2).
  unfold bind at 1, lift at 1 in Hrun.
  destruct (code_emitJump (op OP_JUMP_IF_FALSE) s3 Hl3) as (Hc4 & Ho4 & Hl4).
  destruct (emitJump (op OP_JUMP_IF_FALSE) s3) as [thenJump s4].
  cbn [fst snd] in *.
  unfold bind at 1, exec at 1 in Hrun.
  apply bind_Some in Hrun as (z2 & s6 & Hthen & Hrun).
  assert (Hl5 : linked (emitByte (op OP_POP) s4)) by (apply linked_emitByte, Hl4).
  destruct (code_runStmt op fuel _ _ _ _ Hl5 Hthen) as (Hl6 & thenBranch & Hc6).
  assert (Hc5 : code (currentChunk (emitByte (op OP_POP) s4))
                = code (currentChunk s2)
                  ++ [op OP_JUMP_IF_FALSE; 255; 255; op OP_POP]).
  { rewrite code_emitByte, Hc4, Hc3, <- Hc2, <- !app_assoc by exact Hl4.
    reflexivity. }
  pose proof Hc6 as Hc6'.
  rewrite code_emitByte, Hc4, Hc3 in Hc6 by exact Hl4.
  unfold bind at 1, lift at 1 in Hrun.
  destruct (code_emitJump (op OP_JUMP) s6 Hl6) as (Hc7 & Ho7 & Hl7).
  destruct (emitJump (op OP_JUMP) s6) as [elseJump s7].
  cbn [fst snd] in *.
  unfold bind at 1, exec at 1 in Hrun.
  unfold bind at 1, exec at 1 in Hrun.
  assert (Hc8 : code (currentChunk (patchJump thenJump s7))
                = code (currentChunk st) ++ cond
                  ++ [op OP_JUMP_IF_FALSE;
                      high_of (Z.of_nat (length thenBranch) + 4);
                      low_of (Z.of_nat (length thenBranch) + 4); op OP_POP]
                  ++ thenBranch ++ [op OP_JUMP; 255; 255]).
  { rewrite (code_patchJump_at thenJump s7
               (code (currentChunk st) ++ cond ++ [op OP_JUMP_IF_FALSE])
               255 255 (op OP_POP :: thenBranch ++ [op OP_JUMP; 255; 255]) Hl7).
    - rewrite <- !app_assoc. cbn [length app]. rewrite length_app. cbn [length].
      replace (Z.of_nat (S (length thenBranch + 3)))
        with (Z.of_nat (length thenBranch) + 4) by lia.
      reflexivity.
    - rewrite Hc7, Hc6, <- !app_assoc. reflexivity.
    - rewrite Ho4. unfold count. rewrite Hc3, !length_app. simpl. lia. }
  set (s8 := patchJump thenJump s7) in *.
  assert (Hl8 : linked s8) by (apply linked_patchJump, Hl7).
  set (s9 := emitByte (op OP_POP) s8) in *.
  assert (Hl9 : linked s9) by (apply linked_emitByte, Hl8).
  assert (Hc9 : code (currentChunk s9)
                = code (currentChunk st) ++ cond
                  ++ [op OP_JUMP_IF_FALSE;
                      high_of (Z.of_nat (length thenBranch) + 4);
                      low_of (Z.of_nat (length thenBranch) + 4); op OP_POP]
                  ++ thenBranch ++ [op OP_JUMP; 255; 255; op OP_POP]).
  { unfold s9. rewrite code_emitByte by exact Hl8. rewrite Hc8.
    rewrite <- !app_assoc. reflexivity. }
  unfold bind at 1, lift at 1 in Hrun.
  pose proof (linked_match TOKEN_ELSE s9 Hl9) as Hl10.
  pose proof (currentChunk_match TOKEN_ELSE s9) as Hc10.
  assert (Hties : exists elseBranch s11,
            (if fst (match_ TOKEN_ELSE s9)
             then exists z3 s5,
                    runStmt op fuel call_statement (snd (match_ TOKEN_ELSE s9))
                    = Some (z3, s5)
                    /\ code (currentChunk s5) = code (currentChunk s9) ++ elseBranch
             else elseBranch = [])
            /\ linked s11
            /\ code (currentChunk s11) = code (currentChunk s9) ++ elseBranch
            /\ st' = patchJump elseJump s11).
  { destruct (match_ TOKEN_ELSE s9) as [else_ s10]. cbn [fst snd] in *.
    apply bind_Some in Hrun as (z3 & s11 & Helse & Hrun).
    unfold bind, exec, ret in Hrun. injection Hrun as _ <-.
    destruct else_.
    - destruct (code_runStmt op fuel _ _ _ _ Hl10 Helse) as (Hl11 & e & Hc11).
      rewrite Hc10 in Hc11.
      exists e, s11. split; [exists z3, s11; auto|auto].
    - injection Helse as _ <-.
      exists [], s10. rewrite app_nil_r. rewrite Hc10. auto. }
  clear Hrun.
  destruct Hties as (elseBranch & s11 & Htie & Hl11 & Hc11 & ->).
  rewrite Hc9 in Hc11.
  exists cond, thenBranch, elseBranch, z1, s2, (emitByte (op OP_POP) s4), z2, s6, s9.
  cbv zeta.
  split; [exact Hcond|]. split; [exact Hc2|]. split; [exact Hc5|].
  split; [exact Hthen|]. split; [exact Hc6'|]. split; [exact Htie|].
  rewrite (code_patchJump_at elseJump s11
             (code (currentChunk st) ++ cond
              ++ [op OP_JUMP_IF_FALSE;
                  high_of (Z.of_nat (length thenBranch) + 4);
                  low_of (Z.of_nat (length thenBranch) + 4); op OP_POP]
              ++ thenBranch ++ [op OP_JUMP])
             255 255 (op OP_POP :: elseBranch) Hl11).
  - rewrite <- !app_assoc. cbn [length app].
    replace (Z.of_nat (S (length elseBranch)))
      with (Z.of_nat (length elseBranch) + 1) by lia.
    reflexivity.
  - rewrite Hc11, <- !app_assoc. reflexivity.
  - rewrite Ho7. unfold count. rewrite Hc6, !length_app. simpl. lia.
Qed.

(** ** The kind of function being compiled *)

(** The types of the functions under construction, the current one first. *)
Definition kinds (st : State) : list FunctionType := map ftype (compilers st).

Lemma kinds_chain st s : compilers s = compilers st -> kinds s = kinds st.
Proof. intros H. unfold kinds. rewrite H. reflexivity. Qed.

Lemma kinds_with_current g st :
  (forall c, ftype (g c) = ftype c) -> kinds (with_current g st) = kinds st.
Proof.
  intros Hg. unfold kinds, with_current.
  destruct (compilers st) as [|c cs] eqn:E; [rewrite E; reflexivity|].
  simpl. rewrite Hg. reflexivity.
Qed.

Lemma kinds_error msg st : kinds (error msg st) = kinds st.
Proof. apply kinds_chain, compilers_error. Qed.

Lemma kinds_errorAtCurrent msg st : kinds (errorAtCurrent msg st) = kinds st.
Proof. apply kinds_chain, compilers_errorAtCurrent. Qed.

Lemma kinds_advance st : kinds (advance st) = kinds st.
Proof. apply kinds_chain, compilers_advance. Qed.

Lemma kinds_consume ty msg st : kinds (consume ty msg st) = kinds st.
Proof. apply kinds_chain, compilers_consume. Qed.

Lemma kinds_match ty st : kinds (snd (match_ ty st)) = kinds st.
Proof. apply kinds_chain, compilers_match. Qed.

Lemma kinds_emitByte byte st : kinds (emitByte byte st) = kinds st.
Proof. apply kinds_with_current. reflexivity. Qed.

Lemma kinds_emitBytes b1 b2 st : kinds (emitBytes b1 b2 st) = kinds st.
Proof. unfold emitBytes. rewrite !kinds_emitByte. reflexivity. Qed.

Lemma kinds_emitJump i st : kinds (snd (emitJump i st)) = kinds st.
Proof. unfold emitJump. simpl. rewrite !kinds_emitByte. reflexivity. Qed.

Lemma kinds_emitLoop op loopStart st : kinds (emitLoop op loopStart st) = kinds st.
Proof.
  unfold emitLoop. rewrite !kinds_emitByte.
  destruct (_ >? _); [rewrite kinds_error|]; apply kinds_emitByte.
Qed.

Lemma kinds_emitReturn op st : kinds (emitReturn op st) = kinds st.
Proof.
  unfold emitReturn. rewrite kinds_emitByte.
  destruct (FunctionType_eqb _ _); [apply kinds_emitBytes|apply kinds_emitByte].
Qed.

Lemma kinds_makeConstant v st : kinds (snd (makeConstant v st)) = kinds st.
Proof.
  unfold makeConstant, with_currentChunk.
  destruct (_ >? _); simpl; [rewrite kinds_error|];
    apply kinds_with_current; reflexivity.
Qed.

Lemma kinds_identifierConstant nm st :
  kinds (snd (identifierConstant nm st)) = kinds st.
Proof. apply kinds_makeConstant. Qed.

Lemma kinds_emitConstant op v st : kinds (emitConstant op v st) = kinds st.
Proof.
  unfold emitConstant. pose proof (kinds_makeConstant v st) as H.
  destruct (makeConstant v st) as [k st1]. simpl in H.
  rewrite kinds_emitBytes. exact H.
Qed.

Lemma kinds_patchJump offset st : kinds (patchJump offset st) = kinds st.
Proof.
  unfold patchJump, with_currentChunk.
  rewrite !kinds_with_current by reflexivity.
  destruct (_ >? _); [apply kinds_error|reflexivity].
Qed.

Lemma kinds_resolveLocal c nm st : kinds (snd (resolveLocal c nm st)) = kinds st.
Proof. apply kinds_chain, compilers_resolveLocal. Qed.

Lemma ftype_addUpvalue c idx b st :
  ftype (snd (fst (addUpvalue c idx b st))) = ftype c.
Proof.
  unfold addUpvalue. destruct (addUpvalue_scan _ _ _ _ _); [reflexivity|].
  destruct (_ =? _); reflexivity.
Qed.

Lemma ftypes_resolveUpvalue chain nm st :
  map ftype (snd (fst (resolveUpvalue chain nm st))) = map ftype chain.
Proof.
  revert st. induction chain as [|c enclosing IH]; intros st; [reflexivity|].
  simpl. destruct enclosing as [|parent outer]; [reflexivity|].
  destruct (resolveLocal parent nm st) as [local st1].
  destruct (negb (local =? -1)).
  - pose proof (ftype_addUpvalue c (local mod 256) true st1) as H.
    destruct (addUpvalue c (local mod 256) true st1) as [[i c'] st2].
    simpl in *. rewrite H. reflexivity.
  - specialize (IH st1).
    destruct (resolveUpvalue (parent :: outer) nm st1) as [[up enclosing'] st2].
    simpl in IH.
    destruct (negb (up =? -1)); [|simpl; rewrite IH; reflexivity].
    pose proof (ftype_addUpvalue c (up mod 256) false st2) as H.
    destruct (addUpvalue c (up mod 256) false st2) as [[i c'] st3].
    simpl in *. rewrite H, IH. reflexivity.
Qed.

Lemma kinds_resolveUpvalue_current nm st :
  kinds (snd (resolveUpvalue_current nm st)) = kinds st.
Proof.
  unfold resolveUpvalue_current, kinds.
  pose proof (ftypes_resolveUpvalue (compilers st) nm st) as H.
  destruct (resolveUpvalue (compilers st) nm st) as [[i chain] st1]. exact H.
Qed.

Lemma kinds_beginScope st : kinds (beginScope st) = kinds st.
Proof. apply kinds_with_current. reflexivity. Qed.

Lemma kinds_endScope_loop op k st : kinds (endScope_loop op k st) = kinds st.
Proof.
  revert st. induction k as [|k IH]; intros st; simpl; [reflexivity|].
  destruct (_ && _); [|reflexivity].
  rewrite IH, kinds_with_current by reflexivity.
  destruct (isCaptured _); apply kinds_emitByte.
Qed.

Lemma kinds_endScope op st : kinds (endScope op st) = kinds st.
Proof.
  unfold endScope. rewrite kinds_endScope_loop.
  apply kinds_with_current. reflexivity.
Qed.

Lemma kinds_addLocal nm st : kinds (addLocal nm st) = kinds st.
Proof.
  unfold addLocal. destruct (_ =? _);
    [apply kinds_error|apply kinds_with_current; reflexivity].
Qed.

Lemma kinds_declareVariable st : kinds (declareVariable st) = kinds st.
Proof.
  unfold declareVariable. destruct (_ =? _); [reflexivity|].
  rewrite kinds_addLocal. apply kinds_chain, compilers_declareVariable_loop.
Qed.

Lemma kinds_parseVariable msg st : kinds (snd (parseVariable msg st)) = kinds st.
Proof.
  unfold parseVariable.
  destruct (_ >? _); simpl; [|rewrite kinds_identifierConstant];
    rewrite kinds_declareVariable; apply kinds_consume.
Qed.

Lemma kinds_markInitialized st : kinds (markInitialized st) = kinds st.
Proof.
  unfold markInitialized. destruct (_ =? _);
    [reflexivity|apply kinds_with_current; reflexivity].
Qed.

Lemma kinds_defineVariable op global st :
  kinds (defineVariable op global st) = kinds st.
Proof.
  unfold defineVariable. destruct (_ >? _);
    [apply kinds_markInitialized|apply kinds_emitBytes].
Qed.

Lemma kinds_initCompiler ty st : kinds (initCompiler ty st) = ty :: kinds st.
Proof. reflexivity. Qed.

Lemma kinds_endCompiler op st : kinds (snd (endCompiler op st)) = tl (kinds st).
Proof.
  unfold endCompiler. cbn [snd]. rewrite <- (kinds_emitReturn op st).
  unfold kinds. cbn [compilers set_compilers].
  destruct (compilers (emitReturn op st)); reflexivity.
Qed.

Lemma kinds_emitUpvalues compiler i k st :
  kinds (emitUpvalues compiler i k st) = kinds st.
Proof.
  revert i st. induction k as [|k IH]; intros i st; simpl; [reflexivity|].
  rewrite IH, !kinds_emitByte. reflexivity.
Qed.

(** The functions being compiled have the types [ts], innermost first. *)
Definition typed (ts : list FunctionType) (st : State) : Prop := kinds st = ts.

Create HintDb kinds.
#[local] Hint Resolve kinds_error kinds_errorAtCurrent
  kinds_advance kinds_consume kinds_match kinds_emitByte
  kinds_emitBytes kinds_emitJump kinds_emitLoop kinds_emitReturn
  kinds_makeConstant kinds_identifierConstant kinds_emitConstant
  kinds_patchJump kinds_resolveLocal kinds_resolveUpvalue_current
  kinds_beginScope kinds_endScope kinds_addLocal kinds_declareVariable
  kinds_parseVariable kinds_markInitialized kinds_defineVariable
  kinds_emitUpvalues : kinds.
#[local] Hint Extern 2 (kinds (with_current _ _) = _) =>
  apply kinds_with_current; reflexivity : kinds.

Ltac kinds_goal :=
  cbn beta;
  repeat match goal with
         | |- kinds (match ?x with _ => _ end) = _ => destruct x
         | |- kinds ((match ?x with _ => _ end) _) = _ => destruct x
         | |- kinds (if ?x then _ else _) = _ => destruct x
         end;
  cbn beta; first [reflexivity | auto with kinds].

Ltac stable_kinds :=
  let st := fresh "st" in
  let H := fresh "H" in
  lazymatch goal with |- stable _ _ => idtac end;
  intros st H; unfold typed in *; cbn beta; rewrite <- H;
  kinds_goal.

Section KindsExpressions.

Variable op : OpCode -> Z.
Variable ts : list FunctionType.
Variable rec : ExprCall -> M Z.
Hypothesis rec_kinds : forall c, keeps (typed ts) (rec c).

Ltac go :=
  repeat match goal with
         | |- keeps _ (rec _) => apply rec_kinds
         | |- keeps _ (and_match ?flag _) => destruct flag; simpl
         | _ => keeps_step
         end;
  try stable_kinds.

Lemma keeps_kinds_argumentList : keeps (typed ts) (argumentList rec).
Proof. unfold argumentList. go. Qed.

Lemma keeps_kinds_namedVariable nm canAssign :
  keeps (typed ts) (namedVariable op rec nm canAssign).
Proof. unfold namedVariable, expression. go. Qed.

Lemma keeps_kinds_callParseFn fn canAssign :
  keeps (typed ts) (callParseFn op rec fn canAssign).
Proof.
  destruct fn; simpl;
    unfold grouping, call, dot, unary, binary, variable, string_, number, and_,
           literal, or_, super_, this_, variable, expression;
    repeat match goal with
           | |- keeps _ (rec _) => apply rec_kinds
           | |- keeps _ (and_match ?flag _) => destruct flag; simpl
           | |- keeps _ (argumentList _) => apply keeps_kinds_argumentList
           | |- keeps _ (namedVariable _ _ _ _) => apply keeps_kinds_namedVariable
           | _ => keeps_step
           end;
    try stable_kinds.
Qed.

Lemma keeps_kinds_exprStep c : keeps (typed ts) (exprStep op rec c).
Proof.
  destruct c; simpl; unfold parsePrecendence, infixLoop, argumentLoop, expression;
    repeat match goal with
           | |- keeps _ (rec _) => apply rec_kinds
           | |- keeps _ (and_match ?flag _) => destruct flag; simpl
           | |- keeps _ (callParseFn _ _ _ _) => apply keeps_kinds_callParseFn
           | _ => keeps_step
           end;
    try stable_kinds.
Qed.

End KindsExpressions.

Lemma keeps_kinds_runExpr op ts fuel c : keeps (typed ts) (runExpr op fuel c).
Proof.
  revert c. induction fuel as [|fuel IH]; intros c; simpl.
  - apply keeps_noResult.
  - apply keeps_kinds_exprStep. exact IH.
Qed.

Section KindsStatements.

Variable op : OpCode -> Z.
Variable expr : ExprCall -> M Z.
Variable rec : StmtCall -> M Z.
Hypothesis expr_kinds : forall ts c, keeps (typed ts) (expr c).
Hypothesis rec_kinds : forall ts c, keeps (typed ts) (rec c).

Ltac go :=
  repeat match goal with
         | |- keeps _ (expr _) => apply expr_kinds
         | |- keeps _ (rec _) => apply rec_kinds
         | |- keeps _ (namedVariable _ _ _ _) =>
             apply keeps_kinds_namedVariable; intros ?; apply expr_kinds
         | _ => keeps_step
         end;
  try stable_kinds.

Lemma keeps_kinds_block ts : keeps (typed ts) (block rec).
Proof. unfold block. go. Qed.

(** [function] compiles in a compiler of its own, of type [ty], which
    [endCompiler] unlinks. *)
Lemma keeps_kinds_function_ ts ty : keeps (typed ts) (function_ op rec ty).
Proof.
  apply keeps_hoare. unfold function_.
  apply (hoare_bind _ (typed (ty :: ts))).
  { apply hoare_exec. intros st H. unfold typed in *.
    rewrite kinds_initCompiler, H. reflexivity. }
  intros [].
  do 8 (apply (hoare_bind _ (typed (ty :: ts)));
        [apply hoare_keeps; first [apply keeps_kinds_block|go]|intros ?]).
  apply (hoare_bind _ (typed ts)).
  { apply hoare_lift. intros st H. unfold typed in *.
    rewrite kinds_endCompiler, H. reflexivity. }
  intros f. apply hoare_keeps. go.
Qed.

Lemma keeps_kinds_varDeclaration ts : keeps (typed ts) (varDeclaration op expr).
Proof. unfold varDeclaration, expression. go. Qed.

Lemma keeps_kinds_expressionStatement ts :
  keeps (typed ts) (expressionStatement op expr).
Proof. unfold expressionStatement, expression. go. Qed.

Lemma keeps_kinds_stmtStep ts c : keeps (typed ts) (stmtStep op expr rec c).
Proof.
  destruct c; simpl;
    unfold declaration_, statement_, blockLoop, parameterLoop, methodLoop,
           synchronizeLoop, compileLoop, classDeclaration, funDeclaration,
           forStatement, ifStatement, printStatement, returnStatement,
           whileStatement, synchronize, method, declaration, statement,
           variable, expression;
    repeat match goal with
           | |- keeps _ (expr _) => apply expr_kinds
           | |- keeps _ (rec _) => apply rec_kinds
           | |- keeps _ (namedVariable _ _ _ _) =>
               apply keeps_kinds_namedVariable; intros ?; apply expr_kinds
           | |- keeps _ (block _) => apply keeps_kinds_block
           | |- keeps _ (function_ _ _ _) => apply keeps_kinds_function_
           | |- keeps _ (varDeclaration _ _) => apply keeps_kinds_varDeclaration
           | |- keeps _ (expressionStatement _ _) =>
               apply keeps_kinds_expressionStatement
           | _ => keeps_step
           end;
    try stable_kinds.
Qed.

End KindsStatements.

Lemma keeps_kinds_runStmt op fuel ts c : keeps (typed ts) (runStmt op fuel c).
Proof.
  revert ts c. induction fuel as [|fuel IH]; intros ts c; simpl.
  - apply keeps_noResult.
  - apply keeps_kinds_stmtStep; [|exact IH].
    intros ts' c'. apply keeps_kinds_runExpr.
Qed.

(** ** Operators *)

(** The instructions of a binary operator: [!=], [>=] and [<=] are the
    negations of [==], [<] and [>]. *)
Definition binary_instructions (op : OpCode -> Z) (operatorType : TokenType) : list Z :=
  match operatorType with
  | TOKEN_BANG_EQUAL => [op OP_EQUAL; op OP_NOT]
  | TOKEN_EQUAL_EQUAL => [op OP_EQUAL]
  | TOKEN_GREATER => [op OP_GREATER]
  | TOKEN_GREATER_EQUAL => [op OP_LESS; op OP_NOT]
  | TOKEN_LESS => [op OP_LESS]
  | TOKEN_LESS_EQUAL => [op OP_GREATER; op OP_NOT]
  | TOKEN_PLUS => [op OP_ADD]
  | TOKEN_MINUS => [op OP_SUBSTRACT]
  | TOKEN_STAR => [op OP_MULTIPLY]
  | TOKEN_SLASH => [op OP_DIVIDE]
  | _ => []
  end.

Definition unary_instructions (op : OpCode -> Z) (operatorType : TokenType) : list Z :=
  match operatorType with
  | TOKEN_BANG => [op OP_NOT]
  | TOKEN_MINUS => [op OP_NEGATE]
  | _ => []
  end.

(** X18: operators follow their operands.  [binary] compiles the right
    operand one precedence level above the operator's own (so operators of
    one level group to the left), then appends the instructions of the
    operator that was the previous token when [binary] was entered; [unary]
    compiles its operand at [PREC_UNARY] and then appends [OP_NOT] or
    [OP_NEGATE].  Appending the operator reports nothing. *)
Theorem operators_follow_their_operands
  (op : OpCode -> Z) (fuel : nat) (canAssign : bool) (st : State) :
  linked st ->
  let operatorType := type (previous (parser st)) in
  (forall r st',
     binary op (runExpr op fuel) canAssign st = Some (r, st') ->
     exists right z s,
       runExpr op fuel
         (call_parsePrecendence (precedence (getRule operatorType) + 1)) st
       = Some (z, s)
       /\ code (currentChunk s) = code (currentChunk st) ++ right
       /\ code (currentChunk st')
          = code (currentChunk st) ++ right ++ binary_instructions op operatorType
       /\ flags st' = flags s)
  /\ (forall r st',
        unary op (runExpr op fuel) canAssign st = Some (r, st') ->
        exists operand z s,
          runExpr op fuel (call_parsePrecendence PREC_UNARY) st = Some (z, s)
          /\ code (currentChunk s) = code (currentChunk st) ++ operand
          /\ code (currentChunk st')
             = code (currentChunk st) ++ operand ++ unary_instructions op operatorType
          /\ flags st' = flags s).
Proof.
  intros Hl operatorType. split.
  - intros r st' Hrun. unfold binary in Hrun.
    unfold bind at 1, get at 1 in Hrun.
    apply bind_Some in Hrun as (z & s & Hexpr & Hrun).
    unfold bind, exec, ret in Hrun. injection Hrun as _ <-.
    destruct (code_runExpr op fuel _ _ _ _ Hl Hexpr) as (Hl1 & right & Hc).
    exists right, z, s. split; [exact Hexpr|]. split; [exact Hc|].
    fold operatorType. unfold binary_instructions.
    destruct operatorType;
      rewrite ?app_nil_r;
      try (split; [exact Hc|reflexivity]);
      rewrite ?flags_emitBytes, ?flags_emitByte;
      unfold emitBytes;
      rewrite ?code_emitByte, ?Hc, <- ?app_assoc
        by (repeat first [exact Hl1|apply linked_emitByte]);
      split; reflexivity.
  - intros r st' Hrun. unfold unary in Hrun.
    unfold bind at 1, get at 1 in Hrun.
    apply bind_Some in Hrun as (z & s & Hexpr & Hrun).
    unfold bind, exec, ret in Hrun. injection Hrun as _ <-.
    destruct (code_runExpr op fuel _ _ _ _ Hl Hexpr) as (Hl1 & operand & Hc).
    exists operand, z, s. split; [exact Hexpr|]. split; [exact Hc|].
    fold operatorType. unfold unary_instructions.
    destruct operatorType;
      rewrite ?app_nil_r;
      try (split; [exact Hc|reflexivity]);
      rewrite ?flags_emitByte;
      rewrite ?code_emitByte, ?Hc, <- ?app_assoc by exact Hl1;
      split; reflexivity.
Qed.

(** ** Functions *)

(** The trailer of [OP_CLOSURE]: for each of the first [n] upvalues of
    [compiler], its [isLocal] flag as a byte and its index. *)
Definition upvalue_pairs (compiler : Compiler) (n : nat) : list Z :=
  flat_map (fun i => let u := upvalue_at compiler (Z.of_nat i) in
                     [if isLocal u then 1 else 0; index u])
           (seq 0 n).

Lemma linked_emitUpvalues compiler i k st :
  linked st -> linked (emitUpvalues compiler i k st).
Proof.
  revert i st. induction k as [|k IH]; intros i st Hl; simpl; [exact Hl|].
  apply IH. repeat apply linked_emitByte. exact Hl.
Qed.

Lemma code_emitUpvalues compiler i k st :
  linked st ->
  code (currentChunk (emitUpvalues compiler (Z.of_nat i) k st))
  = code (currentChunk st)
    ++ flat_map (fun j => let u := upvalue_at compiler (Z.of_nat j) in
                          [if isLocal u then 1 else 0; index u])
                (seq i k).
Proof.
  revert i st. induction k as [|k IH]; intros i st Hl; simpl.
  - rewrite app_nil_r. reflexivity.
  - replace (Z.of_nat i + 1) with (Z.of_nat (S i)) by lia.
    rewrite IH by (repeat apply linked_emitByte; exact Hl).
    rewrite !code_emitByte by (repeat first [exact Hl|apply linked_emitByte]).
    rewrite <- !app_assoc. reflexivity.
Qed.

Lemma constants_emitByte byte st :
  linked st ->
  constants (currentChunk (emitByte byte st)) = constants (currentChunk st).
Proof. intros H. rewrite currentChunk_emitByte by exact H. reflexivity. Qed.

Lemma constants_emitUpvalues compiler i k st :
  linked st ->
  constants (currentChunk (emitUpvalues compiler i k st))
  = constants (currentChunk st).
Proof.
  revert i st. induction k as [|k IH]; intros i st Hl; simpl; [reflexivity|].
  rewrite IH by (repeat apply linked_emitByte; exact Hl).
  rewrite !constants_emitByte by (repeat first [exact Hl|apply linked_emitByte]).
  reflexivity.
Qed.

(** Writing to the current chunk changes nothing else of the current
    compiler. *)
Lemma cur_with_currentChunk g st :
  linked st ->
  cur (with_currentChunk g st)
  = set_function (set_chunk (g (currentChunk st)) (function (cur st))) (cur st).
Proof.
  unfold linked, with_currentChunk, with_current, currentChunk, cur.
  destruct (compilers st) as [|c cs]; [congruence|]. reflexivity.
Qed.

Lemma cur_emitByte byte st :
  linked st ->
  arity (function (cur (emitByte byte st))) = arity (function (cur st))
  /\ upvalueCount (function (cur (emitByte byte st)))
     = upvalueCount (function (cur st))
  /\ upvalues (cur (emitByte byte st)) = upvalues (cur st).
Proof.
  intros Hl. unfold emitByte. rewrite cur_with_currentChunk by exact Hl.
  repeat split.
Qed.

Lemma cur_emitReturn op st :
  linked st ->
  arity (function (cur (emitReturn op st))) = arity (function (cur st))
  /\ upvalueCount (function (cur (emitReturn op st)))
     = upvalueCount (function (cur st)).
Proof.
  intros Hl. unfold emitReturn, emitBytes.
  destruct (FunctionType_eqb _ _).
  - destruct (cur_emitByte (op OP_RETURN) (emitByte 0 (emitByte (op OP_GET_LOCAL) st)))
      as (H1 & H2 & _); [repeat apply linked_emitByte; exact Hl|].
    destruct (cur_emitByte 0 (emitByte (op OP_GET_LOCAL) st))
      as (H3 & H4 & _); [repeat apply linked_emitByte; exact Hl|].
    destruct (cur_emitByte (op OP_GET_LOCAL) st) as (H5 & H6 & _); [exact Hl|].
    split; congruence.
  - destruct (cur_emitByte (op OP_RETURN) (emitByte (op OP_NIL) st))
      as (H1 & H2 & _); [repeat apply linked_emitByte; exact Hl|].
    destruct (cur_emitByte (op OP_NIL) st) as (H5 & H6 & _); [exact Hl|].
    split; congruence.
Qed.

(** Inside a function: the current chunk extends [k0], the enclosing chunks
    are [ks], the functions under construction have the types [ts]. *)
Definition inside (k0 : Chunk) (ks : list Chunk) (ts : list FunctionType)
  (s : State) : Prop :=
  over k0 ks s /\ typed ts s.

Lemma keeps_inside {A} k0 ks ts (m : M A) :
  keeps (over k0 ks) m -> keeps (typed ts) m -> keeps (inside k0 ks ts) m.
Proof.
  intros H1 H2 st a st' Hrun [Ho Ht].
  split; [exact (H1 _ _ _ Hrun Ho)|exact (H2 _ _ _ Hrun Ht)].
Qed.

Lemma keeps_inside_runStmt op fuel k0 ks ts c :
  keeps (inside k0 ks ts) (runStmt op fuel c).
Proof. apply keeps_inside; [apply keeps_over_runStmt|apply keeps_kinds_runStmt]. Qed.

Lemma keeps_inside_runExpr op fuel k0 ks ts c :
  keeps (inside k0 ks ts) (runExpr op fuel c).
Proof. apply keeps_inside; [apply keeps_over_runExpr|apply keeps_kinds_runExpr]. Qed.

Lemma keeps_inside_block op fuel k0 ks ts :
  keeps (inside k0 ks ts) (block (runStmt op fuel)).
Proof.
  apply keeps_inside.
  - apply keeps_over_block. apply keeps_over_runStmt.
  - apply keeps_kinds_block. apply keeps_kinds_runStmt.
Qed.

Lemma inside_step k0 ks ts (f : State -> State) :
  (forall s, appends s (f s)) -> (forall s, kinds (f s) = kinds s) ->
  stable (inside k0 ks ts) f.
Proof.
  intros Ha Hk s [Ho Ht]. split.
  - exact (over_appends _ _ _ _ Ho (Ha s)).
  - unfold typed in *. rewrite Hk. exact Ht.
Qed.

Lemma currentChunk_of_chunks a b :
  chunks a = chunks b -> linked b -> currentChunk a = currentChunk b /\ linked a.
Proof.
  unfold chunks, linked, currentChunk, cur.
  destruct (compilers b) as [|cb csb]; [congruence|].
  destruct (compilers a) as [|ca csa]; [discriminate|].
  simpl. intros H _. injection H as H _. split; [exact H|discriminate].
Qed.

Lemma length_upvalue_pairs compiler n :
  length (upvalue_pairs compiler n) = (2 * n)%nat.
Proof.
  unfold upvalue_pairs.
  enough (H : forall i,
            length (flat_map
                      (fun j => let u := upvalue_at compiler (Z.of_nat j) in
                                [if isLocal u then 1 else 0; index u])
                      (seq i n)) = (n + n)%nat)
    by (rewrite H; lia).
  induction n as [|n IH]; intros i; simpl; [reflexivity|].
  rewrite IH. lia.
Qed.

(** X19: a function is compiled apart and handed over as a closure.
    [function] compiles parameters and body in a compiler of its own, of
    the type asked for; the chunk of the enclosing function receives nothing
    of the body, only [OP_CLOSURE], the index of the new function among its
    constants, and one pair (isLocal, index) for each upvalue of the
    function.  The function itself ends with the implicit return of its
    type.  Afterwards the enclosing functions are current again, with their
    types and, but for the bytes appended, their chunks. *)
Theorem function_compiles_to_closure
  (op : OpCode -> Z) (fuel : nat) (ty : FunctionType) (st : State)
  (r : Z) (st' : State) :
  linked st ->
  function_ op (runStmt op fuel) ty st = Some (r, st') ->
  exists (compiler : Compiler) (f : ObjFunction) (k : Z),
    ftype compiler = ty
    /\ arity f = arity (function compiler)
    /\ upvalueCount f = upvalueCount (function compiler)
    /\ code (chunk f) = code (chunk (function compiler)) ++ implicitReturn op ty
    /\ code (currentChunk st')
       = code (currentChunk st) ++ [op OP_CLOSURE; k]
         ++ upvalue_pairs compiler (Z.to_nat (upvalueCount f))
    /\ length (upvalue_pairs compiler (Z.to_nat (upvalueCount f)))
       = (2 * Z.to_nat (upvalueCount f))%nat
    /\ (Z.of_nat (length (constants (currentChunk st))) <= UINT8_MAX ->
        k = Z.of_nat (length (constants (currentChunk st)))
        /\ constants (currentChunk st')
           = constants (currentChunk st) ++ [OBJ_FUNCTION f])
    /\ kinds st' = kinds st
    /\ tl (chunks st') = tl (chunks st).
Proof.
  intros Hl Hrun.
  revert st' r Hrun.
  enough (H : hoare (fun s => s = st) (function_ op (runStmt op fuel) ty)
                (fun st' =>
                   exists (compiler : Compiler) (f : ObjFunction) (k : Z),
                     ftype compiler = ty
                     /\ arity f = arity (function compiler)
                     /\ upvalueCount f = upvalueCount (function compiler)
                     /\ code (chunk f)
                        = code (chunk (function compiler)) ++ implicitReturn op ty
                     /\ code (currentChunk st')
                        = code (currentChunk st) ++ [op OP_CLOSURE; k]
                          ++ upvalue_pairs compiler (Z.to_nat (upvalueCount f))
                     /\ length (upvalue_pairs compiler (Z.to_nat (upvalueCount f)))
                        = (2 * Z.to_nat (upvalueCount f))%nat
                     /\ (Z.of_nat (length (constants (currentChunk st))) <= UINT8_MAX ->
                         k = Z.of_nat (length (constants (currentChunk st)))
                         /\ constants (currentChunk st')
                            = constants (currentChunk st) ++ [OBJ_FUNCTION f])
                     /\ kinds st' = kinds st
                     /\ tl (chunks st') = tl (chunks st)))
    by (intros st' r Hrun; exact (H st r st' Hrun eq_refl)).
  unfold function_.
  apply (hoare_bind _ (inside initChunk (chunks st) (ty :: kinds st))).
  { apply hoare_exec. intros s ->. split.
    - exists initChunk. split; [|apply chunk_grows_refl].
      unfold chunks, initCompiler. simpl.
      destruct (negb (FunctionType_eqb ty TYPE_SCRIPT)); reflexivity.
    - reflexivity. }
  intros [].
  do 7 (apply (hoare_bind _ (inside initChunk (chunks st) (ty :: kinds st)));
        [apply hoare_keeps;
         first [ apply keeps_inside_block
               | repeat first [apply keeps_inside_runStmt | keeps_step];
                 try (apply inside_step; intros ?;
                      first [reflexivity | solve [auto with appends]
                            | solve [auto with kinds]]) ]
        |intros ?]).
  intros s z st' Hrun [Hover Hkinds].
  unfold bind at 1, get at 1 in Hrun.
  unfold bind at 1, lift at 1 in Hrun.
  destruct (over_currentChunk _ _ _ Hover) as [Hls _].
  (* the end of the function *)
  pose proof (code_emitReturn op s Hls) as Hret.
  destruct (cur_emitReturn op s Hls) as [Harity Hcount].
  assert (Hty : ftype (cur s) = ty).
  { unfold typed, kinds, cur in *. destruct (compilers s); [discriminate|].
    simpl in *. congruence. }
  rewrite Hty in Hret.
  pose proof (over_appends _ _ _ _ Hover (appends_emitReturn op s))
    as (k' & Hk' & _).
  assert (Hchunks : chunks (snd (endCompiler op s)) = chunks st).
  { unfold endCompiler, chunks in *. cbn [snd compilers set_compilers].
    destruct (compilers (emitReturn op s)); [discriminate|].
    simpl in *. injection Hk' as _ E. exact E. }
  assert (Hkinds' : kinds (snd (endCompiler op s)) = kinds st).
  { rewrite kinds_endCompiler. unfold typed in Hkinds. rewrite Hkinds.
    reflexivity. }
  assert (Hf : fst (endCompiler op s) = function (cur (emitReturn op s)))
    by reflexivity.
  destruct (endCompiler op s) as [f s1]. cbn [fst snd] in *.
  destruct (currentChunk_of_chunks _ _ Hchunks Hl) as [Hcur1 Hl1].
  (* the closure *)
  unfold bind at 1, lift at 1 in Hrun.
  destruct (makeConstant_spec (OBJ_FUNCTION f) s1 Hl1) as (Hc2 & Hcode2 & Hfits & _).
  pose proof (appends_makeConstant (OBJ_FUNCTION f) s1) as Happ2.
  pose proof (kinds_makeConstant (OBJ_FUNCTION f) s1) as Hkinds2.
  assert (Hcode3 : code (currentChunk (snd (makeConstant (OBJ_FUNCTION f) s1)))
                   = code (currentChunk st)).
  { unfold makeConstant. destruct (_ >? _); cbn [snd];
      rewrite ?currentChunk_error, Hcode2, Hcur1; reflexivity. }
  assert (Hl3 : linked (snd (makeConstant (OBJ_FUNCTION f) s1))).
  { unfold makeConstant. destruct (_ >? _); cbn [snd];
      repeat first [apply linked_error|apply linked_with_currentChunk];
      exact Hl1. }
  assert (Hconst3 : constants (currentChunk (snd (makeConstant (OBJ_FUNCTION f) s1)))
                    = constants (currentChunk st) ++ [OBJ_FUNCTION f]).
  { unfold makeConstant. destruct (_ >? _); cbn [snd];
      rewrite ?currentChunk_error, Hc2, Hcur1; reflexivity. }
  assert (Hk : Z.of_nat (length (constants (currentChunk st))) <= UINT8_MAX ->
               fst (makeConstant (OBJ_FUNCTION f) s1)
               = Z.of_nat (length (constants (currentChunk st)))).
  { intros Hroom. rewrite Hfits by (rewrite Hcur1; exact Hroom).
    rewrite Hcur1. reflexivity. }
  destruct (makeConstant (OBJ_FUNCTION f) s1) as [k s2]. cbn [fst snd] in *.
  unfold bind, exec, ret in Hrun. injection Hrun as _ <-.
  exists (cur s), f, k.
  split; [exact Hty|].
  split; [rewrite Hf; exact Harity|].
  split; [rewrite Hf; exact Hcount|].
  split; [rewrite Hf; exact Hret|].
  assert (Hl4 : linked (emitBytes (op OP_CLOSURE) k s2))
    by (unfold emitBytes; repeat apply linked_emitByte; exact Hl3).
  split.
  { change 0 with (Z.of_nat 0).
    rewrite code_emitUpvalues by exact Hl4.
    rewrite code_emitBytes, Hcode3 by exact Hl3.
    rewrite <- !app_assoc. reflexivity. }
  split; [apply length_upvalue_pairs|].
  split.
  { intros Hroom. split; [exact (Hk Hroom)|].
    rewrite constants_emitUpvalues by exact Hl4.
    unfold emitBytes.
    rewrite !constants_emitByte
      by (repeat first [exact Hl3|apply linked_emitByte]).
    exact Hconst3. }
  split.
  { rewrite kinds_emitUpvalues, kinds_emitBytes. congruence. }
  pose proof (appends_trans _ _ _ Happ2
                (appends_trans _ _ _ (appends_emitBytes (op OP_CLOSURE) k s2)
                   (appends_emitUpvalues (cur s) 0 (Z.to_nat (upvalueCount f)) _)))
    as Happ.
  unfold appends in Happ. rewrite Hchunks in Happ.
  destruct (chunks st) as [|k0 ks0]; [rewrite Happ; reflexivity|].
  destruct Happ as (k'' & -> & _). reflexivity.
Qed.

(** ** Returning *)

Lemma bind_get {A B} (g : State -> A) (k : A -> M B) st :
  bind (get g) k st = k (g st) st.
Proof. reflexivity. Qed.

Lemma bind_exec {B} (f : State -> State) (k : unit -> M B) st :
  bind (exec f) k st = k tt (f st).
Proof. reflexivity. Qed.

Lemma bind_lift {A B} (f : State -> A * State) (k : A -> M B) st :
  bind (lift f) k st = k (fst (f st)) (snd (f st)).
Proof. unfold bind, lift. destruct (f st). reflexivity. Qed.

Lemma bind_when {B} (b : bool) (f : State -> State) (k : unit -> M B) st :
  bind (when b f) k st = k tt (if b then f st else st).
Proof. destruct b; reflexivity. Qed.

Lemma bind_ret {A B} (a : A) (k : A -> M B) st : bind (ret a) k st = k a st.
Proof. reflexivity. Qed.

(** In panic mode nothing is reported. *)
Lemma reports_panicking st s :
  reports st s -> panicMode (parser st) = true -> flags s = flags st.
Proof. intros [H|(Hp & _)] Hpanic; [exact H|congruence]. Qed.

Lemma flags_error_calm msg st :
  panicMode (parser st) = false ->
  flags (error msg st) = (true, true, diagnostics st ++ [(previous (parser st), msg)])
  /\ panicMode (parser (error msg st)) = true.
Proof. intros H. unfold error, errorAt. rewrite H. split; reflexivity. Qed.

Lemma kinds_cur st ty ts : kinds st = ty :: ts -> ftype (cur st) = ty /\ linked st.
Proof.
  unfold kinds, cur, linked. destruct (compilers st); [discriminate|].
  simpl. intros H. injection H as H _. split; [exact H|discriminate].
Qed.

(** X20: what [compile] hands back.  When [compile] returns, no compiler
    is left linked; the function it yields is the code its loop has
    emitted in the script's chunk followed by [OP_NIL], [OP_RETURN], the
    script's compiler being the only one when the loop ends.  And [compile]
    does return, whatever the source. *)
Theorem script_ends_with_return (op : OpCode -> Z) :
  (forall fuel source r st,
     compile op fuel source = Some (r, st) ->
     compilers st = []
     /\ exists z s,
          runStmt op fuel call_compileLoop (compile_start source) = Some (z, s)
          /\ kinds s = [TYPE_SCRIPT]
          /\ forall f, r = Some f ->
               code (chunk f) = code (currentChunk s) ++ [op OP_NIL; op OP_RETURN])
  /\ (forall source,
      exists fuel0 r st,
        (forall fuel, (fuel0 <= fuel)%nat -> compile op fuel source = Some (r, st))
        /\ compilers st = []
        /\ forall f, r = Some f ->
             exists body, code (chunk f) = body ++ [op OP_NIL; op OP_RETURN]).
Proof.
  assert (Hstart : forall source, kinds (compile_start source) = [TYPE_SCRIPT]).
  { intros source. unfold compile_start. rewrite kinds_advance. reflexivity. }
  assert (Hone : forall fuel source r st,
            compile op fuel source = Some (r, st) ->
            compilers st = []
            /\ exists z s,
                 runStmt op fuel call_compileLoop (compile_start source) = Some (z, s)
                 /\ kinds s = [TYPE_SCRIPT]
                 /\ forall f, r = Some f ->
                      code (chunk f)
                      = code (currentChunk s) ++ [op OP_NIL; op OP_RETURN]).
  { intros fuel source r st Hrun. rewrite compile_from_start in Hrun.
    destruct (runStmt op fuel call_compileLoop (compile_start source))
      as [[z s]|] eqn:E; [|discriminate].
    pose proof (keeps_kinds_runStmt op fuel _ _ _ _ _ E (Hstart source)) as Hk.
    unfold typed in Hk.
    destruct (kinds_cur _ _ _ Hk) as [Hty Hl].
    pose proof (code_emitReturn op s Hl) as Hret. rewrite Hty in Hret.
    pose proof (kinds_endCompiler op s) as Hend. rewrite Hk in Hend.
    assert (Hf : fst (endCompiler op s) = function (cur (emitReturn op s)))
      by reflexivity.
    destruct (endCompiler op s) as [f s1]. cbn [fst snd] in *.
    injection Hrun as <- <-.
    split.
    - unfold kinds in Hend. destruct (compilers s1); [reflexivity|discriminate].
    - exists z, s. split; [reflexivity|]. split; [exact Hk|].
      intros f' Hf'. destruct (hadError (parser s1)); [discriminate|].
      injection Hf' as <-. rewrite Hf. exact Hret. }
  split; [exact Hone|].
  intros source.
  destruct (compile_returns op source) as (fuel0 & [r st] & Hret).
  exists fuel0, r, st. split; [exact Hret|].
  destruct (Hone fuel0 source r st (Hret fuel0 (Nat.le_refl _)))
    as (Hc & z & s & _ & _ & Hf).
  split; [exact Hc|]. intros f Hr. exists (code (currentChunk s)). exact (Hf f Hr).
Qed.

(** X21: the rules of [return].  A bare [return;] compiles to the implicit
    return of the function's type ([OP_GET_LOCAL 0], [OP_RETURN] in an
    initializer, [OP_NIL], [OP_RETURN] elsewhere), a [return] with a value
    to the value followed by [OP_RETURN].  At top level the statement is
    compiled all the same, but out of panic mode it is reported: "can't
    return from top-level code." is the one diagnostic printed.  So is, in
    an initializer, a [return] with a value.  In the other cases at most
    one diagnostic is printed. *)
Theorem return_statement_rules
  (op : OpCode -> Z) (fuel : nat) (st : State) (r : Z) (st' : State) :
  linked st ->
  returnStatement op (runExpr op fuel) st = Some (r, st') ->
  let ty := ftype (cur st) in
  let bare := check TOKEN_SEMICOLON st in
  (if bare
   then code (currentChunk st') = code (currentChunk st) ++ implicitReturn op ty
   else exists value,
          code (currentChunk st')
          = code (currentChunk st) ++ value ++ [op OP_RETURN])
  /\ (ty = TYPE_SCRIPT -> panicMode (parser st) = false ->
      flags st'
      = (true, true,
         diagnostics st
         ++ [(previous (parser st), "can't return from top-level code.")]))
  /\ (ty = TYPE_INITIALIZER -> bare = false -> panicMode (parser st) = false ->
      flags st'
      = (true, true,
         diagnostics st
         ++ [(previous (parser st), "Can't return a value from an initializer.")]))
  /\ (ty = TYPE_FUNCTION \/ ty = TYPE_METHOD \/ (ty = TYPE_INITIALIZER /\ bare = true) ->
      reports st st').
Proof.
  intros Hl Hrun ty bare.
  unfold returnStatement in Hrun.
  rewrite bind_get, bind_when, bind_lift in Hrun. fold ty in Hrun.
  set (st0 := if FunctionType_eqb ty TYPE_SCRIPT
              then error "can't return from top-level code." st else st) in *.
  assert (Hl0 : linked st0)
    by (unfold st0; destruct (FunctionType_eqb ty TYPE_SCRIPT); [apply linked_error|]; exact Hl).
  assert (Hc0 : currentChunk st0 = currentChunk st)
    by (unfold st0; destruct (FunctionType_eqb ty TYPE_SCRIPT);
        [apply currentChunk_error|reflexivity]).
  assert (Hty0 : ftype (cur st0) = ty)
    by (unfold st0; destruct (FunctionType_eqb ty TYPE_SCRIPT);
        [rewrite cur_error|]; reflexivity).
  assert (Hr0 : reports st st0)
    by (unfold st0; destruct (FunctionType_eqb ty TYPE_SCRIPT);
        [apply reports_error|apply reports_refl]).
  assert (Hbare : check TOKEN_SEMICOLON st0 = bare).
  { unfold st0, bare, check, error, errorAt.
    destruct (FunctionType_eqb ty TYPE_SCRIPT); [|reflexivity].
    destruct (panicMode (parser st)); reflexivity. }
  assert (Hprev : previous (parser st0) = previous (parser st)).
  { unfold st0, error, errorAt.
    destruct (FunctionType_eqb ty TYPE_SCRIPT); [|reflexivity].
    destruct (panicMode (parser st)); reflexivity. }
  pose proof (reports_match TOKEN_SEMICOLON st0) as Hr1.
  pose proof (linked_match TOKEN_SEMICOLON st0 Hl0) as Hl1.
  pose proof (currentChunk_match TOKEN_SEMICOLON st0) as Hc1.
  assert (Hty1 : ftype (cur (snd (match_ TOKEN_SEMICOLON st0))) = ty)
    by (unfold cur; rewrite compilers_match; exact Hty0).
  assert (Hm : fst (match_ TOKEN_SEMICOLON st0) = bare)
    by (unfold match_; rewrite Hbare; destruct bare; reflexivity).
  assert (Hcalm : bare = false -> snd (match_ TOKEN_SEMICOLON st0) = st0)
    by (intros Hb; unfold match_; rewrite Hbare, Hb; reflexivity).
  destruct (match_ TOKEN_SEMICOLON st0) as [b s1]. cbn [fst snd] in *. subst b.
  assert (Htop : ty = TYPE_SCRIPT -> panicMode (parser st) = false ->
                 flags st0
                 = (true, true,
                    diagnostics st
                    ++ [(previous (parser st), "can't return from top-level code.")])
                 /\ panicMode (parser st0) = true).
  { intros Hs Hp. unfold st0. rewrite Hs. cbn [FunctionType_eqb].
    apply flags_error_calm, Hp. }
  destruct bare eqn:Eb.
  - (* return; *)
    rewrite bind_exec in Hrun. injection Hrun as _ <-.
    assert (Hfl : flags (emitReturn op s1) = flags s1) by apply flags_emitReturn.
    split.
    { rewrite code_emitReturn by exact Hl1. rewrite Hty1, Hc1, Hc0. reflexivity. }
    split.
    { intros Hs Hp. destruct (Htop Hs Hp) as [Hf Hpanic].
      rewrite Hfl, (reports_panicking _ _ Hr1 Hpanic). exact Hf. }
    split; [discriminate|].
    intros _. apply (reports_trans _ _ _ Hr0), (reports_trans _ _ _ Hr1).
    apply reports_silent, Hfl.
  - (* return value; *)
    specialize (Hcalm eq_refl). subst s1.
    rewrite bind_get, bind_when in Hrun. rewrite Hty0 in Hrun.
    set (st1 := if FunctionType_eqb ty TYPE_INITIALIZER
                then error "Can't return a value from an initializer." st0
                else st0) in *.
    assert (Hl2 : linked st1)
      by (unfold st1; destruct (FunctionType_eqb ty TYPE_INITIALIZER); [apply linked_error|];
          exact Hl0).
    assert (Hc2 : currentChunk st1 = currentChunk st0)
      by (unfold st1; destruct (FunctionType_eqb ty TYPE_INITIALIZER);
          [apply currentChunk_error|reflexivity]).
    assert (Hr2 : reports st0 st1)
      by (unfold st1; destruct (FunctionType_eqb ty TYPE_INITIALIZER);
          [apply reports_error|apply reports_refl]).
    apply bind_Some in Hrun as (z & s2 & Hexpr & Hrun).
    rewrite !bind_exec in Hrun. injection Hrun as _ <-.
    destruct (code_expression op fuel _ _ _ Hl2 Hexpr) as (Hl3 & value & Hc3).
    pose proof (keeps_reports_runExpr op st1 fuel _ _ _ _ Hexpr (reports_refl st1))
      as Hr3.
    pose proof (reports_consume TOKEN_SEMICOLON "Expect ';' after return value." s2)
      as Hr4.
    assert (Hr5 : reports st1
                    (emitByte (op OP_RETURN)
                       (consume TOKEN_SEMICOLON "Expect ';' after return value." s2))).
    { apply (reports_trans _ _ _ Hr3), (reports_trans _ _ _ Hr4).
      apply reports_silent, flags_emitByte. }
    split.
    { exists value.
      rewrite code_emitByte by (apply linked_consume, Hl3).
      rewrite currentChunk_consume, Hc3, Hc2, Hc0, <- app_assoc. reflexivity. }
    split.
    { intros Hs Hp. destruct (Htop Hs Hp) as [Hf Hpanic].
      assert (E : st1 = st0) by (unfold st1; rewrite Hs; reflexivity).
      rewrite E in Hr5. rewrite (reports_panicking _ _ Hr5 Hpanic). exact Hf. }
    split.
    { intros Hi _ Hp.
      assert (E0 : st0 = st) by (unfold st0; rewrite Hi; reflexivity).
      assert (E1 : st1 = error "Can't return a value from an initializer." st)
        by (unfold st1; rewrite Hi, E0; reflexivity).
      destruct (flags_error_calm "Can't return a value from an initializer." st Hp)
        as [Hf Hpanic].
      rewrite E1 in Hr5. rewrite (reports_panicking _ _ Hr5 Hpanic). exact Hf. }
    intros [Hf|[Hf|[_ Hf]]]; [| |discriminate].
    + assert (E0 : st0 = st) by (unfold st0; rewrite Hf; reflexivity).
      assert (E1 : st1 = st) by (unfold st1; rewrite Hf, E0; reflexivity).
      rewrite E1 in Hr5. exact Hr5.
    + assert (E0 : st0 = st) by (unfold st0; rewrite Hf; reflexivity).
      assert (E1 : st1 = st) by (unfold st1; rewrite Hf, E0; reflexivity).
      rewrite E1 in Hr5. exact Hr5.
Qed.

(** ** The [for] loop *)

Lemma code_appended {A} (m : M A) st a st' :
  linked st ->
  keeps (over (currentChunk st) (tl (chunks st))) m ->
  m st = Some (a, st') ->
  linked st'
  /\ exists more, code (currentChunk st') = code (currentChunk st) ++ more.
Proof.
  intros Hl Hm Hrun.
  pose proof (Hm st a st' Hrun (over_linked st Hl)) as H.
  destruct (over_currentChunk _ _ _ H) as (Hl' & [more Hc] & _).
  split; [exact Hl'|]. exists more. exact Hc.
Qed.

Lemma code_step (f : State -> State) st :
  linked st -> appends st (f st) ->
  linked (f st)
  /\ exists more, code (currentChunk (f st)) = code (currentChunk st) ++ more.
Proof.
  intros Hl Ha.
  pose proof (over_appends _ _ _ _ (over_linked st Hl) Ha) as H.
  destruct (over_currentChunk _ _ _ H) as (Hl' & [more Hc] & _).
  split; [exact Hl'|]. exists more. exact Hc.
Qed.

Lemma linked_beginScope st : linked st -> linked (beginScope st).
Proof. apply linked_with_current. Qed.

Lemma currentChunk_beginScope st : currentChunk (beginScope st) = currentChunk st.
Proof.
  unfold beginScope, with_current, currentChunk, cur.
  destruct (compilers st) as [|c cs] eqn:E; [rewrite E|]; reflexivity.
Qed.

(** X22: the layout of a [for] loop.  [forStatement] appends the
    initializer; the condition, if there is one, followed by
    [OP_JUMP_IF_FALSE] and [OP_POP]; the increment, if there is one, between
    an [OP_JUMP] over it and an [OP_POP] and [OP_LOOP] after it; the body;
    an [OP_LOOP]; an [OP_POP] if there is a condition; and what [endScope]
    emits.  The jump over the increment lands on the body, the [OP_LOOP]
    after the increment leads back to the condition, the [OP_LOOP] after
    the body leads back to the increment (to the condition without one), and
    the jump out of the loop lands on the final [OP_POP]. *)
Theorem for_loop_layout
  (op : OpCode -> Z) (fuel : nat) (st : State) (r : Z) (st' : State) :
  linked st ->
  forStatement op (runExpr op fuel) (runStmt op fuel) st = Some (r, st') ->
  exists (init cond incr body closing : list Z) (hasCond hasIncr : bool)
         (sI sC sE : State),
    let condLen := if hasCond then Z.of_nat (length cond) + 4 else 0 in
    let incrLen := if hasIncr then Z.of_nat (length incr) + 7 else 0 in
    let toBody := Z.of_nat (length incr) + 4 in
    let toCond := condLen + Z.of_nat (length incr) + 7 in
    let back := if hasIncr
                then Z.of_nat (length incr) + Z.of_nat (length body) + 7
                else condLen + Z.of_nat (length body) + 3 in
    let out := incrLen + Z.of_nat (length body) + 4 in
    let condPart :=
      if hasCond
      then cond ++ [op OP_JUMP_IF_FALSE; high_of out; low_of out; op OP_POP]
      else [] in
    let incrPart :=
      if hasIncr
      then [op OP_JUMP; high_of toBody; low_of toBody] ++ incr
           ++ [op OP_POP; op OP_LOOP; high_of toCond; low_of toCond]
      else [] in
    code (currentChunk sI) = code (currentChunk st) ++ init
    /\ hasCond = negb (check TOKEN_SEMICOLON sI)
    /\ hasIncr = negb (check TOKEN_RIGHT_PAREN sC)
    /\ code (currentChunk sE)
       = code (currentChunk st) ++ init ++ condPart ++ incrPart ++ body
         ++ [op OP_LOOP; high_of back; low_of back]
         ++ (if hasCond then [op OP_POP] else [])
    /\ st' = endScope op sE
    /\ code (currentChunk st') = code (currentChunk sE) ++ closing.
Proof.
  intros Hl Hrun. unfold forStatement, statement in Hrun.
  rewrite bind_exec, bind_exec, bind_lift in Hrun.
  set (s2 := consume TOKEN_LEFT_PAREN "Expect '(' after 'for'." (beginScope st)) in *.
  assert (Hl2 : linked s2) by (apply linked_consume, linked_beginScope, Hl).
  assert (Hc2 : currentChunk s2 = currentChunk st)
    by (unfold s2; rewrite currentChunk_consume; apply currentChunk_beginScope).
  (* the initializer *)
  apply bind_Some in Hrun as (z0 & sI & Hinit & Hrun).
  assert (HI : linked sI
               /\ exists init, code (currentChunk sI) = code (currentChunk st) ++ init).
  { pose proof (linked_match TOKEN_SEMICOLON s2 Hl2) as Hl3.
    pose proof (currentChunk_match TOKEN_SEMICOLON s2) as Hc3.
    destruct (match_ TOKEN_SEMICOLON s2) as [none s3]. cbn [fst snd] in *.
    destruct none.
    - injection Hinit as _ <-. split; [exact Hl3|]. exists [].
      rewrite Hc3, Hc2, app_nil_r. reflexivity.
    - rewrite bind_lift in Hinit.
      pose proof (linked_match TOKEN_VAR s3 Hl3) as Hl4.
      pose proof (currentChunk_match TOKEN_VAR s3) as Hc4.
      destruct (match_ TOKEN_VAR s3) as [var s4]. cbn [fst snd] in *.
      assert (H : linked sI
                  /\ exists more,
                       code (currentChunk sI) = code (currentChunk s4) ++ more).
      { destruct var.
        - apply (code_appended _ _ _ _ Hl4
                   (keeps_over_varDeclaration op _
                      (fun k0 ks c => keeps_over_runExpr op k0 ks fuel c) _ _)
                   Hinit).
        - apply (code_appended _ _ _ _ Hl4
                   (keeps_over_expressionStatement op _
                      (fun k0 ks c => keeps_over_runExpr op k0 ks fuel c) _ _)
                   Hinit). }
      destruct H as (HlI & more & Hmore). split; [exact HlI|].
      exists more. rewrite Hmore, Hc4, Hc3, Hc2. reflexivity. }
  destruct HI as (HlI & init & HcI).
  rewrite bind_get, bind_lift in Hrun.
  (* the condition *)
  pose proof (linked_match TOKEN_SEMICOLON sI HlI) as Hl5.
  pose proof (currentChunk_match TOKEN_SEMICOLON sI) as Hc5.
  assert (Hnc : fst (match_ TOKEN_SEMICOLON sI) = check TOKEN_SEMICOLON sI)
    by (unfold match_; destruct (check TOKEN_SEMICOLON sI); reflexivity).
  destruct (match_ TOKEN_SEMICOLON sI) as [nc s5]. cbn [fst snd] in *.
  apply bind_Some in Hrun as (exitJump & sC & Hcond & Hrun).
  assert (HC : linked sC
               /\ exists cond,
                    if negb nc
                    then code (currentChunk sC)
                         = code (currentChunk sI) ++ cond
                           ++ [op OP_JUMP_IF_FALSE; 255; 255; op OP_POP]
                         /\ exitJump
                            = count (currentChunk sI) + Z.of_nat (length cond) + 1
                    else code (currentChunk sC) = code (currentChunk sI)
                         /\ exitJump = -1 /\ cond = []).
  { destruct (negb nc).
    - apply bind_Some in Hcond as (z & s5a & Hexpr & Hcond).
      rewrite bind_exec, bind_lift, bind_exec in Hcond.
      destruct (code_expression op fuel _ _ _ Hl5 Hexpr) as (Hl5a & cond & Hc5a).
      set (s5b := consume TOKEN_SEMICOLON "Expect ';' after loop condition." s5a) in *.
      assert (Hl5b : linked s5b) by (apply linked_consume, Hl5a).
      assert (Hc5b : code (currentChunk s5b) = code (currentChunk sI) ++ cond)
        by (unfold s5b; rewrite currentChunk_consume, Hc5a, Hc5; reflexivity).
      destruct (code_emitJump (op OP_JUMP_IF_FALSE) s5b Hl5b) as (Hc6 & Ho6 & Hl6).
      destruct (emitJump (op OP_JUMP_IF_FALSE) s5b) as [j s6]. cbn [fst snd] in *.
      injection Hcond as <- <-.
      split; [apply linked_emitByte, Hl6|]. exists cond. split.
      + rewrite code_emitByte, Hc6, Hc5b, <- !app_assoc by exact Hl6. reflexivity.
      + rewrite Ho6. unfold count. rewrite Hc5b, length_app. lia.
    - injection Hcond as <- <-. split; [exact Hl5|]. exists [].
      rewrite Hc5. auto. }
  destruct HC as (HlC & cond & HcC).
  (* the increment *)
  rewrite bind_lift in Hrun.
  pose proof (linked_match TOKEN_RIGHT_PAREN sC HlC) as Hl7.
  pose proof (currentChunk_match TOKEN_RIGHT_PAREN sC) as Hc7.
  assert (Hni : fst (match_ TOKEN_RIGHT_PAREN sC) = check TOKEN_RIGHT_PAREN sC)
    by (unfold match_; destruct (check TOKEN_RIGHT_PAREN sC); reflexivity).
  destruct (match_ TOKEN_RIGHT_PAREN sC) as [ni s7]. cbn [fst snd] in *.
  apply bind_Some in Hrun as (loopStart & sN & Hincr & Hrun).
  assert (HN : linked sN
               /\ exists incr,
                    if negb ni
                    then code (currentChunk sN)
                         = code (currentChunk sC)
                           ++ [op OP_JUMP;
                               high_of (Z.of_nat (length incr) + 4);
                               low_of (Z.of_nat (length incr) + 4)]
                           ++ incr
                           ++ [op OP_POP; op OP_LOOP;
                               high_of (count (currentChunk sC)
                                        + Z.of_nat (length incr) + 7
                                        - count (currentChunk sI));
                               low_of (count (currentChunk sC)
                                       + Z.of_nat (length incr) + 7
                                       - count (currentChunk sI))]
                         /\ loopStart = count (currentChunk sC) + 3
                    else code (currentChunk sN) = code (currentChunk sC)
                         /\ loopStart = count (currentChunk sI) /\ incr = []).
  { destruct (negb ni).
    - rewrite bind_lift, bind_get in Hincr.
      destruct (code_emitJump (op OP_JUMP) s7 Hl7) as (Hc8 & Ho8 & Hl8).
      destruct (emitJump (op OP_JUMP) s7) as [bodyJump s8]. cbn [fst snd] in *.
      apply bind_Some in Hincr as (z & s9 & Hexpr & Hincr).
      rewrite !bind_exec in Hincr. injection Hincr as <- <-.
      destruct (code_expression op fuel _ _ _ Hl8 Hexpr) as (Hl9 & incr & Hc9).
      set (s10 := consume TOKEN_RIGHT_PAREN "Expect ')' after for clause."
                    (emitByte (op OP_POP) s9)) in *.
      assert (Hl10 : linked s10) by (apply linked_consume, linked_emitByte, Hl9).
      assert (Hc10 : code (currentChunk s10)
                     = code (currentChunk sC) ++ [op OP_JUMP; 255; 255]
                       ++ incr ++ [op OP_POP]).
      { unfold s10. rewrite currentChunk_consume, code_emitByte by exact Hl9.
        rewrite Hc9, Hc8, Hc7, <- !app_assoc. reflexivity. }
      destruct (code_emitLoop op (count (currentChunk sI)) s10 Hl10) as (Hc11 & Hl11).
      split; [apply linked_patchJump, Hl11|]. exists incr. split.
      + rewrite (code_patchJump_at bodyJump _
                   (code (currentChunk sC) ++ [op OP_JUMP]) 255 255
                   (incr
                    ++ [op OP_POP; op OP_LOOP;
                        high_of (count (currentChunk s10) + 3
                                 - count (currentChunk sI));
                        low_of (count (currentChunk s10) + 3
                                - count (currentChunk sI))])
                   Hl11).
        * rewrite length_app. cbn [length].
          replace (Z.of_nat (length incr + 4)) with (Z.of_nat (length incr) + 4)
            by lia.
          replace (count (currentChunk s10) + 3 - count (currentChunk sI))
            with (count (currentChunk sC) + Z.of_nat (length incr) + 7
                  - count (currentChunk sI))
            by (unfold count; rewrite Hc10, !length_app; simpl; lia).
          rewrite <- !app_assoc. reflexivity.
        * rewrite Hc11, Hc10, <- !app_assoc. reflexivity.
        * rewrite Ho8, Hc7. unfold count. rewrite length_app. simpl. lia.
      + unfold count. rewrite Hc8, Hc7, length_app. simpl. lia.
    - injection Hincr as <- <-. split; [exact Hl7|]. exists [].
      rewrite Hc7. auto. }
  destruct HN as (HlN & incr & HcN).
  (* the body *)
  apply bind_Some in Hrun as (zb & sB & Hbody & Hrun).
  destruct (code_runStmt op fuel _ _ _ _ HlN Hbody) as (HlB & body & HcB).
  rewrite bind_exec in Hrun.
  destruct (code_emitLoop op loopStart sB HlB) as (HcL & HlL).
  apply bind_Some in Hrun as ([] & sE & Hexit & Hrun).
  rewrite bind_exec in Hrun. injection Hrun as _ <-.
  assert (HkI : count (currentChunk sI)
                = count (currentChunk st) + Z.of_nat (length init))
    by (unfold count; rewrite HcI, length_app; lia).
  assert (Hend : forall s, linked s ->
            exists closing,
              code (currentChunk (endScope op s)) = code (currentChunk s) ++ closing).
  { intros s Hs. apply (code_step (endScope op) s Hs), appends_endScope. }
  destruct nc; cbn [negb] in HcC, Hcond.
  - (* no condition *)
    destruct HcC as (HcC & -> & ->). cbn [Z.eqb negb] in Hexit.
    injection Hexit as <-.
    destruct (Hend _ HlL) as [closing Hclose].
    assert (HkC : count (currentChunk sC) = count (currentChunk sI))
      by (unfold count; rewrite HcC; reflexivity).
    destruct ni; cbn [negb] in HcN, Hincr.
    + (* no increment *)
      destruct HcN as (HcN & -> & ->).
      exists init, [], [], body, closing, false, false, sI, sC,
        (emitLoop op (count (currentChunk sI)) sB).
      cbv zeta. rewrite <- Hnc, <- Hni.
      split; [exact HcI|]. split; [reflexivity|]. split; [reflexivity|].
      split; [|split; [reflexivity|exact Hclose]].
      rewrite HcL.
      replace (count (currentChunk sB) + 3 - count (currentChunk sI))
        with (0 + Z.of_nat (length body) + 3)
        by (unfold count; rewrite HcB, HcN, HcC, !length_app; lia).
      rewrite HcB, HcN, HcC, HcI, <- !app_assoc, !app_nil_r. reflexivity.
    + (* an increment *)
      destruct HcN as (HcN & ->).
      exists init, [], incr, body, closing, false, true, sI, sC,
        (emitLoop op (count (currentChunk sC) + 3) sB).
      cbv zeta. rewrite <- Hnc, <- Hni.
      split; [exact HcI|]. split; [reflexivity|]. split; [reflexivity|].
      split; [|split; [reflexivity|exact Hclose]].
      rewrite HcL.
      replace (count (currentChunk sB) + 3 - (count (currentChunk sC) + 3))
        with (Z.of_nat (length incr) + Z.of_nat (length body) + 7)
        by (unfold count; rewrite HcB, HcN, !length_app; simpl; lia).
      rewrite HcB, HcN.
      replace (count (currentChunk sC) + Z.of_nat (length incr) + 7
               - count (currentChunk sI))
        with (0 + Z.of_nat (length incr) + 7) by lia.
      rewrite HcC, HcI, <- !app_assoc, !app_nil_r. reflexivity.
  - (* a condition *)
    destruct HcC as (HcC & ->).
    assert (Hj : (count (currentChunk sI) + Z.of_nat (length cond) + 1 =? -1) = false)
      by (apply Z.eqb_neq; unfold count; lia).
    rewrite Hj in Hexit. cbn [negb] in Hexit. rewrite bind_exec in Hexit.
    injection Hexit as <-.
    assert (HkC : count (currentChunk sC)
                  = count (currentChunk sI) + (Z.of_nat (length cond) + 4))
      by (unfold count; rewrite HcC, !length_app; simpl; lia).
    set (sL := emitLoop op loopStart sB) in *.
    assert (HlE : linked (emitByte (op OP_POP)
                            (patchJump (count (currentChunk sI)
                                        + Z.of_nat (length cond) + 1) sL)))
      by (apply linked_emitByte, linked_patchJump, HlL).
    destruct (Hend _ HlE) as [closing Hclose].
    destruct ni; cbn [negb] in HcN, Hincr.
    + (* no increment *)
      destruct HcN as (HcN & -> & ->).
      exists init, cond, [], body, closing, true, false, sI, sC,
        (emitByte (op OP_POP)
           (patchJump (count (currentChunk sI) + Z.of_nat (length cond) + 1) sL)).
      cbv zeta. rewrite <- Hnc, <- Hni.
      split; [exact HcI|]. split; [reflexivity|]. split; [reflexivity|].
      split; [|split; [reflexivity|exact Hclose]].
      rewrite code_emitByte by (apply linked_patchJump, HlL).
      replace (count (currentChunk sB) + 3 - count (currentChunk sI))
        with (Z.of_nat (length cond) + 4 + Z.of_nat (length body) + 3) in HcL
        by (unfold count; rewrite HcB, HcN, HcC, !length_app; simpl; lia).
      rewrite (code_patchJump_at _ sL
                 (code (currentChunk st) ++ init ++ cond ++ [op OP_JUMP_IF_FALSE])
                 255 255
                 (op OP_POP :: body
                  ++ [op OP_LOOP;
                      high_of (Z.of_nat (length cond) + 4
                               + Z.of_nat (length body) + 3);
                      low_of (Z.of_nat (length cond) + 4
                              + Z.of_nat (length body) + 3)])
                 HlL).
      * cbn [length]. rewrite length_app. cbn [length].
        replace (Z.of_nat (S (length body + 3)))
          with (0 + Z.of_nat (length body) + 4) by lia.
        repeat (progress (rewrite <- ?app_assoc; cbn [app])). reflexivity.
      * rewrite HcL, HcB, HcN, HcC, HcI, <- !app_assoc. reflexivity.
      * rewrite HkI. unfold count. rewrite !length_app. simpl. lia.
    + (* an increment *)
      destruct HcN as (HcN & ->).
      exists init, cond, incr, body, closing, true, true, sI, sC,
        (emitByte (op OP_POP)
           (patchJump (count (currentChunk sI) + Z.of_nat (length cond) + 1) sL)).
      cbv zeta. rewrite <- Hnc, <- Hni.
      split; [exact HcI|]. split; [reflexivity|]. split; [reflexivity|].
      split; [|split; [reflexivity|exact Hclose]].
      rewrite code_emitByte by (apply linked_patchJump, HlL).
      replace (count (currentChunk sB) + 3 - (count (currentChunk sC) + 3))
        with (Z.of_nat (length incr) + Z.of_nat (length body) + 7) in HcL
        by (unfold count; rewrite HcB, HcN, !length_app; simpl; lia).
      replace (count (currentChunk sC) + Z.of_nat (length incr) + 7
               - count (currentChunk sI))
        with (Z.of_nat (length cond) + 4 + Z.of_nat (length incr) + 7) in HcN
        by lia.
      rewrite (code_patchJump_at _ sL
                 (code (currentChunk st) ++ init ++ cond ++ [op OP_JUMP_IF_FALSE])
                 255 255
                 (op OP_POP
                  :: ([op OP_JUMP; high_of (Z.of_nat (length incr) + 4);
                       low_of (Z.of_nat (length incr) + 4)]
                      ++ incr
                      ++ [op OP_POP; op OP_LOOP;
                          high_of (Z.of_nat (length cond) + 4
                                   + Z.of_nat (length incr) + 7);
                          low_of (Z.of_nat (length cond) + 4
                                  + Z.of_nat (length incr) + 7)])
                  ++ body
                  ++ [op OP_LOOP;
                      high_of (Z.of_nat (length incr) + Z.of_nat (length body) + 7);
                      low_of (Z.of_nat (length incr) + Z.of_nat (length body) + 7)])
                 HlL).
      * match goal with
        | |- context [Z.of_nat (length ?l)] =>
            match l with
            | op OP_POP :: _ =>
                replace (Z.of_nat (length l))
                  with (Z.of_nat (length incr) + 7 + Z.of_nat (length body) + 4)
                  by (cbn [length app]; rewrite ?length_app; cbn [length];
                      rewrite ?length_app; cbn [length]; lia)
            end
        end.
        repeat (progress (rewrite <- ?app_assoc; cbn [app])). reflexivity.
      * rewrite HcL, HcB, HcN, HcC, HcI, <- !app_assoc. reflexivity.
      * rewrite HkI. unfold count. rewrite !length_app. simpl. lia.
Qed.

(** ** Where an expression ends *)

(** Out of panic mode an error does not go unnoticed. *)
Lemma error_after_reports st s msg :
  panicMode (parser st) = false ->
  reports st s -> flags (error msg s) = flags st -> False.
Proof.
  intros Hcalm Hr H.
  assert (Hlen : forall (d : list (Token * string)) x, d ++ [x] = d -> False).
  { intros d x E. apply (f_equal length) in E. rewrite length_app in E.
    simpl in E. lia. }
  destruct Hr as [Hs|(Hp & t & m & Hs)].
  - assert (Ep : panicMode (parser s) = false)
      by (unfold flags in Hs; injection Hs as _ Hp _; congruence).
    unfold error, errorAt in H. rewrite Ep in H.
    unfold flags in H, Hs. simpl in H. injection Hs as _ _ Hd.
    injection H as _ _ H. rewrite Hd in H. exact (Hlen _ _ H).
  - assert (Ep : panicMode (parser s) = true)
      by (unfold flags in Hs; injection Hs as _ Hp' _; exact Hp').
    unfold error, errorAt in H. rewrite Ep in H. rewrite Hs in H. unfold flags in H.
    injection H as _ _ H. exact (Hlen _ _ H).
Qed.

(** The [while] of [parsePrecendence] is left only in front of a token that
    binds less tightly. *)
Lemma infixLoop_stops op fuel prec canAssign st r st' :
  runExpr op fuel (call_infixLoop prec canAssign) st = Some (r, st') ->
  precedence (getRule (type (current (parser st')))) < prec.
Proof.
  revert st. induction fuel as [|fuel IH]; intros st Hrun; [discriminate|].
  cbn [runExpr exprStep] in Hrun. unfold infixLoop in Hrun.
  rewrite bind_get in Hrun.
  destruct (prec <=? precedence (getRule (type (current (parser st))))) eqn:E.
  - rewrite bind_exec, bind_get in Hrun.
    destruct (infix (getRule (type (previous (parser (advance st))))));
      [|discriminate].
    apply bind_Some in Hrun as (z & s & _ & Hrun). exact (IH _ Hrun).
  - injection Hrun as _ <-. apply Z.leb_gt in E. exact E.
Qed.

Lemma no_infix_without_precedence ty :
  precedence (getRule ty) < 1 -> infix (getRule ty) = None.
Proof.
  destruct ty; simpl;
    unfold PREC_NONE, PREC_CALL, PREC_TERM, PREC_FACTOR, PREC_EQUALITY,
           PREC_COMPARISON, PREC_AND, PREC_OR;
    intros H; first [reflexivity|lia].
Qed.

(** X24: an expression is as long as it can be.  The loop of
    [parsePrecendence] is only ever left in front of a token whose
    precedence is below the level asked for.  So when [parsePrecendence]
    returns without having reported anything (panic mode being off), the
    token it started at could start an expression and the current token
    binds less tightly than the level asked for: after [expression] it is
    a token without an infix rule. *)
Theorem expression_is_maximal (op : OpCode -> Z) :
  (forall fuel prec canAssign st r st',
     runExpr op fuel (call_infixLoop prec canAssign) st = Some (r, st') ->
     precedence (getRule (type (current (parser st')))) < prec)
  /\ (forall fuel prec st r st',
        runExpr op fuel (call_parsePrecendence prec) st = Some (r, st') ->
        panicMode (parser st) = false ->
        flags st' = flags st ->
        prefix (getRule (type (current (parser st)))) <> None
        /\ precedence (getRule (type (current (parser st')))) < prec)
  /\ (forall fuel st r st',
        expression (runExpr op fuel) st = Some (r, st') ->
        panicMode (parser st) = false ->
        flags st' = flags st ->
        infix (getRule (type (current (parser st')))) = None).
Proof.
  assert (Hparse : forall fuel prec st r st',
            runExpr op fuel (call_parsePrecendence prec) st = Some (r, st') ->
            panicMode (parser st) = false ->
            flags st' = flags st ->
            prefix (getRule (type (current (parser st)))) <> None
            /\ precedence (getRule (type (current (parser st')))) < prec).
  { intros fuel prec st r st' Hrun Hcalm Hsilent.
    destruct fuel as [|fuel]; [discriminate|].
    cbn [runExpr exprStep] in Hrun. unfold parsePrecendence in Hrun.
    rewrite bind_exec, bind_get, previous_advance in Hrun.
    pose proof (reports_advance st) as Hr1.
    destruct (prefix (getRule (type (current (parser st))))) as [prefixRule|].
    2: { rewrite bind_exec in Hrun. injection Hrun as _ <-.
         destruct (error_after_reports _ _ _ Hcalm Hr1 Hsilent). }
    split; [discriminate|].
    apply bind_Some in Hrun as (z1 & s2 & Hprefix & Hrun).
    apply bind_Some in Hrun as (z2 & s3 & Hloop & Hrun).
    apply bind_Some in Hrun as (stray & s4 & Hmatch & Hrun).
    rewrite bind_when in Hrun. injection Hrun as _ <-.
    pose proof (keeps_reports_callParseFn op st (runExpr op fuel)
                  (fun c => keeps_reports_runExpr op st fuel c)
                  _ _ _ _ _ Hprefix Hr1) as Hr2.
    pose proof (keeps_reports_runExpr op st fuel _ _ _ _ Hloop Hr2) as Hr3.
    pose proof (keeps_reports_and_match st _ _ _ _ _ Hmatch Hr3) as Hr4.
    pose proof (infixLoop_stops op fuel _ _ _ _ _ Hloop) as Hstop.
    destruct stray.
    - destruct (error_after_reports _ _ _ Hcalm Hr4 Hsilent).
    - unfold and_match in Hmatch.
      destruct (prec <=? PREC_ASSIGNMENT).
      + unfold lift in Hmatch. injection Hmatch as Hm.
        destruct (match_false _ _ (f_equal fst Hm)) as [_ E].
        rewrite Hm in E. cbn [snd] in E. subst s4. exact Hstop.
      + injection Hmatch as <-. exact Hstop. }
  split; [intros fuel prec canAssign st r st'; apply infixLoop_stops|].
  split; [exact Hparse|].
  intros fuel st r st' Hrun Hcalm Hsilent.
  apply no_infix_without_precedence.
  exact (proj2 (Hparse fuel PREC_ASSIGNMENT st r st' Hrun Hcalm Hsilent)).
Qed.

(** ** Local variables *)

(** The scope of the function being compiled: its locals, their number and
    the depth of the innermost block. *)
Definition scope_of (st : State) : list Local * Z * Z :=
  (locals (cur st), localCount (cur st), scopeDepth (cur st)).

Lemma scope_chain st s : compilers s = compilers st -> scope_of s = scope_of st.
Proof. intros H. unfold scope_of, cur. rewrite H. reflexivity. Qed.

Lemma scope_with_current g st :
  (forall c, (locals (g c), localCount (g c), scopeDepth (g c))
             = (locals c, localCount c, scopeDepth c)) ->
  scope_of (with_current g st) = scope_of st.
Proof.
  intros Hg. unfold scope_of, with_current, cur.
  destruct (compilers st) as [|c cs] eqn:E; [rewrite E; reflexivity|].
  simpl. apply Hg.
Qed.

Lemma scope_error msg st : scope_of (error msg st) = scope_of st.
Proof. apply scope_chain, compilers_error. Qed.

Lemma scope_errorAtCurrent msg st : scope_of (errorAtCurrent msg st) = scope_of st.
Proof. apply scope_chain, compilers_errorAtCurrent. Qed.

Lemma scope_advance st : scope_of (advance st) = scope_of st.
Proof. apply scope_chain, compilers_advance. Qed.

Lemma scope_consume ty msg st : scope_of (consume ty msg st) = scope_of st.
Proof. apply scope_chain, compilers_consume. Qed.

Lemma scope_match ty st : scope_of (snd (match_ ty st)) = scope_of st.
Proof. apply scope_chain, compilers_match. Qed.

Lemma scope_emitByte byte st : scope_of (emitByte byte st) = scope_of st.
Proof. apply scope_with_current. reflexivity. Qed.

Lemma scope_emitBytes b1 b2 st : scope_of (emitBytes b1 b2 st) = scope_of st.
Proof. unfold emitBytes. rewrite !scope_emitByte. reflexivity. Qed.

Lemma scope_emitJump i st : scope_of (snd (emitJump i st)) = scope_of st.
Proof. unfold emitJump. simpl. rewrite !scope_emitByte. reflexivity. Qed.

Lemma scope_makeConstant v st : scope_of (snd (makeConstant v st)) = scope_of st.
Proof.
  unfold makeConstant, with_currentChunk.
  destruct (_ >? _); simpl; [rewrite scope_error|];
    apply scope_with_current; reflexivity.
Qed.

Lemma scope_identifierConstant nm st :
  scope_of (snd (identifierConstant nm st)) = scope_of st.
Proof. apply scope_makeConstant. Qed.

Lemma scope_emitConstant op v st : scope_of (emitConstant op v st) = scope_of st.
Proof.
  unfold emitConstant. pose proof (scope_makeConstant v st) as H.
  destruct (makeConstant v st) as [k st1]. simpl in H.
  rewrite scope_emitBytes. exact H.
Qed.

Lemma scope_patchJump offset st : scope_of (patchJump offset st) = scope_of st.
Proof.
  unfold patchJump, with_currentChunk.
  rewrite !scope_with_current by reflexivity.
  destruct (_ >? _); [apply scope_error|reflexivity].
Qed.

Lemma scope_resolveLocal c nm st : scope_of (snd (resolveLocal c nm st)) = scope_of st.
Proof. apply scope_chain, compilers_resolveLocal. Qed.

Lemma scope_addUpvalue c idx b st :
  let c' := snd (fst (addUpvalue c idx b st)) in
  (locals c', localCount c', scopeDepth c') = (locals c, localCount c, scopeDepth c).
Proof.
  cbv zeta. unfold addUpvalue. destruct (addUpvalue_scan _ _ _ _ _); [reflexivity|].
  destruct (_ =? _); reflexivity.
Qed.

(** Resolving an upvalue writes the locals of enclosing functions only. *)
Lemma scope_resolveUpvalue chain nm st :
  let c' := hd noCompiler (snd (fst (resolveUpvalue chain nm st))) in
  let c := hd noCompiler chain in
  (locals c', localCount c', scopeDepth c') = (locals c, localCount c, scopeDepth c).
Proof.
  cbv zeta. destruct chain as [|c enclosing]; [reflexivity|].
  simpl. destruct enclosing as [|parent outer]; [reflexivity|].
  destruct (resolveLocal parent nm st) as [local st1].
  destruct (negb (local =? -1)).
  - pose proof (scope_addUpvalue c (local mod 256) true st1) as H.
    destruct (addUpvalue c (local mod 256) true st1) as [[i c'] st2]. exact H.
  - destruct (resolveUpvalue (parent :: outer) nm st1) as [[up enclosing'] st2].
    destruct (negb (up =? -1)); [|reflexivity].
    pose proof (scope_addUpvalue c (up mod 256) false st2) as H.
    destruct (addUpvalue c (up mod 256) false st2) as [[i c'] st3]. exact H.
Qed.

Lemma scope_resolveUpvalue_current nm st :
  scope_of (snd (resolveUpvalue_current nm st)) = scope_of st.
Proof.
  unfold resolveUpvalue_current, scope_of, cur.
  pose proof (scope_resolveUpvalue (compilers st) nm st) as H.
  destruct (resolveUpvalue (compilers st) nm st) as [[i chain] st1]. exact H.
Qed.

(** The scope of the current function is [F]. *)
Definition in_scope (F : list Local * Z * Z) (st : State) : Prop := scope_of st = F.

Create HintDb scope.
#[local] Hint Resolve scope_error scope_errorAtCurrent
  scope_advance scope_consume scope_match scope_emitByte
  scope_emitBytes scope_emitJump scope_makeConstant scope_identifierConstant
  scope_emitConstant scope_patchJump scope_resolveLocal
  scope_resolveUpvalue_current : scope.
#[local] Hint Extern 2 (scope_of (with_current _ _) = _) =>
  apply scope_with_current; reflexivity : scope.

Ltac scope_goal :=
  cbn beta;
  repeat match goal with
         | |- scope_of (match ?x with _ => _ end) = _ => destruct x
         | |- scope_of ((match ?x with _ => _ end) _) = _ => destruct x
         | |- scope_of (if ?x then _ else _) = _ => destruct x
         end;
  cbn beta; first [reflexivity | auto with scope].

Ltac stable_scope :=
  let st := fresh "st" in
  let H := fresh "H" in
  lazymatch goal with |- stable _ _ => idtac end;
  intros st H; unfold in_scope in *; cbn beta; rewrite <- H;
  scope_goal.

Section ScopeExpressions.

Variable op : OpCode -> Z.
Variable F : list Local * Z * Z.
Variable rec : ExprCall -> M Z.
Hypothesis rec_scope : forall c, keeps (in_scope F) (rec c).

Ltac go :=
  repeat match goal with
         | |- keeps _ (rec _) => apply rec_scope
         | |- keeps _ (and_match ?flag _) => destruct flag; simpl
         | _ => keeps_step
         end;
  try stable_scope.

Lemma keeps_scope_argumentList : keeps (in_scope F) (argumentList rec).
Proof. unfold argumentList. go. Qed.

Lemma keeps_scope_namedVariable nm canAssign :
  keeps (in_scope F) (namedVariable op rec nm canAssign).
Proof. unfold namedVariable, expression. go. Qed.

Lemma keeps_scope_callParseFn fn canAssign :
  keeps (in_scope F) (callParseFn op rec fn canAssign).
Proof.
  destruct fn; simpl;
    unfold grouping, call, dot, unary, binary, variable, string_, number, and_,
           literal, or_, super_, this_, variable, expression;
    repeat match goal with
           | |- keeps _ (rec _) => apply rec_scope
           | |- keeps _ (and_match ?flag _) => destruct flag; simpl
           | |- keeps _ (argumentList _) => apply keeps_scope_argumentList
           | |- keeps _ (namedVariable _ _ _ _) => apply keeps_scope_namedVariable
           | _ => keeps_step
           end;
    try stable_scope.
Qed.

Lemma keeps_scope_exprStep c : keeps (in_scope F) (exprStep op rec c).
Proof.
  destruct c; simpl; unfold parsePrecendence, infixLoop, argumentLoop, expression;
    repeat match goal with
           | |- keeps _ (rec _) => apply rec_scope
           | |- keeps _ (and_match ?flag _) => destruct flag; simpl
           | |- keeps _ (callParseFn _ _ _ _) => apply keeps_scope_callParseFn
           | _ => keeps_step
           end;
    try stable_scope.
Qed.

End ScopeExpressions.

(** No expression declares, drops or captures a local of the function it
    is compiled in. *)
Lemma keeps_scope_runExpr op F fuel c : keeps (in_scope F) (runExpr op fuel c).
Proof.
  revert c. induction fuel as [|fuel IH]; intros c; simpl.
  - apply keeps_noResult.
  - apply keeps_scope_exprStep. exact IH.
Qed.

Lemma current_declareVariable_loop c nm n st :
  current (parser (declareVariable_loop c nm n st)) = current (parser st).
Proof.
  revert st. induction n as [|i IH]; intros st; simpl; [reflexivity|].
  destruct (_ && _); [reflexivity|]. rewrite IH.
  destruct (identifiersEqual _ _); [apply current_error|reflexivity].
Qed.

Lemma current_addLocal nm st :
  current (parser (addLocal nm st)) = current (parser st).
Proof.
  unfold addLocal. destruct (_ =? _); [apply current_error|].
  rewrite parser_with_current. reflexivity.
Qed.

Lemma current_declareVariable st :
  current (parser (declareVariable st)) = current (parser st).
Proof.
  unfold declareVariable. destruct (_ =? _); [reflexivity|].
  rewrite current_addLocal. apply current_declareVariable_loop.
Qed.

(** A local variable is declared in the next slot. *)
Lemma scope_declareVariable st c cs :
  compilers st = c :: cs ->
  scopeDepth c <> 0 -> localCount c <> UINT8_COUNT ->
  scope_of (declareVariable st)
  = (<[Z.to_nat (localCount c) := mkLocal (previous (parser st)) (-1) false]>
       (locals c),
     localCount c + 1, scopeDepth c)
  /\ currentChunk (declareVariable st) = currentChunk st
  /\ linked (declareVariable st).
Proof.
  intros Hch Hd Hroom.
  assert (Hcur : cur st = c) by (unfold cur; rewrite Hch; reflexivity).
  unfold declareVariable. rewrite Hcur.
  destruct (scopeDepth c =? 0) eqn:E; [apply Z.eqb_eq in E; contradiction|].
  set (s := declareVariable_loop c _ _ st).
  assert (Hs : compilers s = c :: cs)
    by (unfold s; rewrite compilers_declareVariable_loop; exact Hch).
  unfold addLocal, scope_of, currentChunk, linked, cur, with_current.
  rewrite Hs. cbn [hd].
  destruct (localCount c =? UINT8_COUNT) eqn:E1;
    [apply Z.eqb_eq in E1; contradiction|].
  cbn. rewrite Hch. repeat split. discriminate.
Qed.

(** [markInitialized] gives the topmost local the current depth. *)
Lemma scope_markInitialized st :
  linked st -> scopeDepth (cur st) <> 0 ->
  let c := cur st in
  let l := local_at c (localCount c - 1) in
  scope_of (markInitialized st)
  = (<[Z.to_nat (localCount c - 1) :=
         mkLocal (name l) (scopeDepth c) (isCaptured l)]> (locals c),
     localCount c, scopeDepth c)
  /\ currentChunk (markInitialized st) = currentChunk st.
Proof.
  intros Hl Hd. cbv zeta. unfold markInitialized.
  destruct (scopeDepth (cur st) =? 0) eqn:E; [apply Z.eqb_eq in E; contradiction|].
  unfold scope_of, currentChunk, with_current, linked, cur in *.
  destruct (compilers st) as [|c cs]; [congruence|]. split; reflexivity.
Qed.


(** ** Statements leave the locals as they found them *)

(** A frame: the number of locals, the scope depth and the depths of the
    locals a statement starts from. *)
Record Frame := mkFrame { base : Z; floor : Z; below : list Z }.

(** There is room for one more local, and no local is deeper than the
    scope it is in. *)
Definition sound (F : Frame) : Prop :=
  0 <= base F < UINT8_COUNT /\ 0 <= floor F
  /\ forall i, 0 <= i < base F -> depth_at (below F) i <= floor F.

(** A compiler above the frame, between two declarations: the locals of
    the frame are as they were, every local above them was declared in a
    deeper scope, and at the depth of the frame there is none. *)
Definition framed (F : Frame) (s : Z * Z * list Z) : Prop :=
  let '(sd, lc, ds) := s in
  floor F <= sd /\ base F <= lc <= UINT8_COUNT
  /\ length ds = Z.to_nat UINT8_COUNT
  /\ (forall i, 0 <= i < base F -> depth_at ds i = depth_at (below F) i)
  /\ (forall i, base F <= i < lc -> floor F + 1 <= depth_at ds i)
  /\ (sd = floor F -> lc = base F).

(** The same between the declaration of a variable and its definition:
    nothing is known of the depth of the topmost local. *)
Definition framed_declaring (F : Frame) (s : Z * Z * list Z) : Prop :=
  let '(sd, lc, ds) := s in
  floor F + 1 <= sd /\ base F + 1 <= lc <= UINT8_COUNT
  /\ length ds = Z.to_nat UINT8_COUNT
  /\ (forall i, 0 <= i < base F -> depth_at ds i = depth_at (below F) i)
  /\ (forall i, base F <= i < lc - 1 -> floor F + 1 <= depth_at ds i).

Lemma framed_begin F s : framed F s -> framed F (begin_skeleton s).
Proof.
  destruct s as [[sd lc] ds]. unfold framed, begin_skeleton.
  intros (H1 & H2 & H3 & H4 & H5 & H6). repeat split; try lia; auto.
Qed.

Lemma pop_skeleton_frame F ds sd n lc :
  sound F -> floor F <= sd -> base F <= lc ->
  (forall i, 0 <= i < base F -> depth_at ds i = depth_at (below F) i) ->
  (forall i, base F <= i < lc -> floor F + 1 <= depth_at ds i) ->
  (Z.to_nat lc <= n)%nat ->
  base F <= pop_skeleton n sd lc ds <= lc
  /\ (sd = floor F -> pop_skeleton n sd lc ds = base F).
Proof.
  intros (HB & Hf & Hlow) Hsd. revert lc.
  induction n as [|n IH]; intros lc Hlc Hsame Hdeep Hn.
  - simpl. split; [lia|]. intros _. lia.
  - simpl.
    destruct ((lc >? 0) && (depth_at ds (lc - 1) >? sd)) eqn:E.
    + apply andb_true_iff in E as [E0 E]. rewrite Z.gtb_ltb in E, E0.
      apply Z.ltb_lt in E. apply Z.ltb_lt in E0.
      assert (base F + 1 <= lc).
      { destruct (Z.eq_dec lc (base F)) as [->|]; [|lia].
        specialize (Hsame (base F - 1)). specialize (Hlow (base F - 1)). lia. }
      destruct (IH (lc - 1)) as [H1 H2]; [lia|exact Hsame| |lia|].
      * intros i Hi. apply Hdeep. lia.
      * split; [lia|exact H2].
    + split; [lia|]. intros ->.
      apply andb_false_iff in E as [E|E];
        rewrite Z.gtb_ltb in E; apply Z.ltb_ge in E; [lia|].
      destruct (Z.eq_dec lc (base F)) as [->|]; [reflexivity|].
      specialize (Hdeep (lc - 1)). lia.
Qed.

Lemma framed_end F s :
  sound F -> framed F s -> floor F + 1 <= fst (fst s) ->
  framed F (end_skeleton s) /\ fst (fst (end_skeleton s)) = fst (fst s) - 1.
Proof.
  destruct s as [[sd lc] ds]. unfold framed, end_skeleton. simpl.
  intros HF (H1 & H2 & H3 & H4 & H5 & H6) Hsd.
  destruct (pop_skeleton_frame F ds (sd - 1) (Z.to_nat lc) lc) as [Hr Hz];
    try lia; auto.
  pose proof HF as (HB & _).
  split; [|reflexivity].
  repeat split; try lia; auto.
  intros i Hi. apply H5. lia.
Qed.

Lemma declaring_add_frame F s :
  sound F -> framed F s -> floor F + 1 <= fst (fst s) ->
  framed_declaring F (add_skeleton s)
  /\ fst (fst (add_skeleton s)) = fst (fst s).
Proof.
  destruct s as [[sd lc] ds].
  unfold sound, framed, framed_declaring, add_skeleton, UINT8_COUNT.
  simpl. intros (HB & Hf & Hlow) (H1 & H2 & H3 & H4 & H5 & H6) Hsd.
  destruct (lc =? 256) eqn:E.
  - apply Z.eqb_eq in E. split; [|reflexivity]. repeat split; try lia; auto.
    intros i Hi. apply H5. lia.
  - apply Z.eqb_neq in E. split; [|reflexivity]. rewrite length_insert.
    repeat split; try lia.
    + intros i Hi. rewrite depth_at_insert_ne by lia. apply H4. lia.
    + intros i Hi. rewrite depth_at_insert_ne by lia. apply H5. lia.
Qed.

Lemma declaring_declare_frame F s :
  sound F -> framed F s -> floor F + 1 <= fst (fst s) ->
  framed_declaring F (declare_skeleton s)
  /\ fst (fst (declare_skeleton s)) = fst (fst s).
Proof.
  intros HF H Hd. destruct s as [[sd lc] ds]. unfold declare_skeleton.
  destruct (sd =? 0) eqn:E.
  - apply Z.eqb_eq in E. destruct HF as (_ & Hf & _). simpl in Hd. lia.
  - apply declaring_add_frame; assumption.
Qed.

Lemma framed_mark F s :
  sound F -> framed_declaring F s ->
  framed F (mark_skeleton s) /\ fst (fst (mark_skeleton s)) = fst (fst s).
Proof.
  destruct s as [[sd lc] ds]. unfold sound, framed_declaring, mark_skeleton.
  intros (HB & Hf & Hlow) (H1 & H2 & H3 & H4 & H5).
  destruct (sd =? 0) eqn:E; [apply Z.eqb_eq in E; lia|].
  split; [|reflexivity].
  unfold framed, UINT8_COUNT in *. rewrite length_insert.
  repeat split; try lia.
  - intros i Hi. rewrite depth_at_insert_ne by lia. apply H4. lia.
  - intros i Hi. destruct (Z.eq_dec i (lc - 1)) as [->|Hne].
    + rewrite depth_at_insert_eq by lia. lia.
    + rewrite depth_at_insert_ne by lia. apply H5. lia.
Qed.

Lemma framed_define F s :
  sound F -> framed_declaring F s ->
  framed F (define_skeleton s) /\ fst (fst (define_skeleton s)) = fst (fst s).
Proof.
  intros HF H. destruct s as [[sd lc] ds]. unfold define_skeleton.
  destruct (sd >? 0) eqn:E; [apply framed_mark; assumption|].
  rewrite Z.gtb_ltb in E. apply Z.ltb_ge in E.
  destruct HF as (_ & Hf & _). unfold framed_declaring in H. lia.
Qed.

(** The current compiler is above the frame [F] at scope depth [d], and
    the enclosing compilers have the shape [R]. *)
Definition within (F : Frame) (d : Z) (R sh : list (Z * Z * list Z)) : Prop :=
  exists s, sh = s :: R /\ fst (fst s) = d /\ framed F s.

Definition within_declaring (F : Frame) (d : Z) (R sh : list (Z * Z * list Z))
  : Prop :=
  exists s, sh = s :: R /\ fst (fst s) = d /\ framed_declaring F s.

Lemma within_beginScope F d R st :
  on_shape (within F d R) st -> on_shape (within F (d + 1) R) (beginScope st).
Proof.
  unfold on_shape. rewrite shape_beginScope.
  intros (s & -> & Hd & Hs). exists (begin_skeleton s).
  split; [reflexivity|]. split; [|apply framed_begin, Hs].
  destruct s as [[sd lc] ds]. simpl in *. lia.
Qed.

Lemma within_endScope op F d R st :
  sound F -> floor F <= d ->
  on_shape (within F (d + 1) R) st -> on_shape (within F d R) (endScope op st).
Proof.
  unfold on_shape. rewrite shape_endScope.
  intros HF Hd0 (s & -> & Hd & Hs). exists (end_skeleton s).
  destruct (framed_end F s HF Hs) as [H1 H2]; [lia|].
  split; [reflexivity|]. split; [lia|exact H1].
Qed.

Lemma within_declaring_on_head (f : Z * Z * list Z -> Z * Z * list Z) F d R sh :
  (forall s, framed F s -> floor F + 1 <= fst (fst s) ->
             framed_declaring F (f s) /\ fst (fst (f s)) = fst (fst s)) ->
  floor F + 1 <= d ->
  within F d R sh -> within_declaring F d R (on_head f sh).
Proof.
  intros Hf Hd (s & -> & Hds & Hs). exists (f s).
  destruct (Hf s Hs) as [H1 H2]; [lia|].
  split; [reflexivity|]. split; [lia|exact H1].
Qed.

Lemma within_on_head (f : Z * Z * list Z -> Z * Z * list Z) F d R sh :
  (forall s, framed_declaring F s ->
             framed F (f s) /\ fst (fst (f s)) = fst (fst s)) ->
  within_declaring F d R sh -> within F d R (on_head f sh).
Proof.
  intros Hf (s & -> & Hd & Hs). exists (f s).
  destruct (Hf s Hs) as [H1 H2].
  split; [reflexivity|]. split; [lia|exact H1].
Qed.

Lemma declaring_parseVariable msg F d R st :
  sound F -> floor F + 1 <= d ->
  on_shape (within F d R) st ->
  on_shape (within_declaring F d R) (snd (parseVariable msg st)).
Proof.
  intros HF Hd. unfold on_shape. rewrite shape_parseVariable.
  apply within_declaring_on_head; [|exact Hd].
  intros s. apply declaring_declare_frame, HF.
Qed.

Lemma declaring_declareVariable F d R st :
  sound F -> floor F + 1 <= d ->
  on_shape (within F d R) st ->
  on_shape (within_declaring F d R) (declareVariable st).
Proof.
  intros HF Hd. unfold on_shape. rewrite shape_declareVariable.
  apply within_declaring_on_head; [|exact Hd].
  intros s. apply declaring_declare_frame, HF.
Qed.

Lemma declaring_addLocal nm F d R st :
  sound F -> floor F + 1 <= d ->
  on_shape (within F d R) st ->
  on_shape (within_declaring F d R) (addLocal nm st).
Proof.
  intros HF Hd. unfold on_shape. rewrite shape_addLocal.
  apply within_declaring_on_head; [|exact Hd].
  intros s. apply declaring_add_frame, HF.
Qed.

Lemma within_defineVariable op g F d R st :
  sound F ->
  on_shape (within_declaring F d R) st ->
  on_shape (within F d R) (defineVariable op g st).
Proof.
  intros HF. unfold on_shape. rewrite shape_defineVariable.
  apply within_on_head. intros s. apply framed_define, HF.
Qed.

(** The frame of a function that [initCompiler] has just set up. *)
Definition function_frame : Frame := mkFrame 1 0 (replicate 256 0).

Lemma sound_function_frame : sound function_frame.
Proof.
  unfold sound, function_frame, UINT8_COUNT. simpl.
  split; [lia|]. split; [lia|]. intros i Hi. replace i with 0 by lia. reflexivity.
Qed.

Lemma framed_init : framed function_frame init_skeleton.
Proof.
  unfold framed, function_frame, init_skeleton, UINT8_COUNT. simpl.
  repeat split; try lia; intros; lia.
Qed.

Section FramedStatements.

Variable op : OpCode -> Z.
Variable expr : ExprCall -> M Z.
Variable rec : StmtCall -> M Z.
Hypothesis expr_shape : forall Q c, keeps (on_shape Q) (expr c).
Hypothesis rec_inner : forall F d R c,
  sound F -> floor F + 1 <= d -> keeps (on_shape (within F d R)) (rec c).
Hypothesis rec_base : forall F R,
  sound F -> keeps (on_shape (within F (floor F) R)) (rec call_statement).

Lemma rec_statement F d R :
  sound F -> floor F <= d -> keeps (on_shape (within F d R)) (rec call_statement).
Proof.
  intros HF Hd. destruct (Z.eq_dec d (floor F)) as [->|Hne].
  - apply rec_base, HF.
  - apply rec_inner; [exact HF|lia].
Qed.

Ltac deeper :=
  solve [ lia
        | match goal with
          | |- context [if ?b then _ else _] => destruct b; lia
          end ].

Ltac go :=
  repeat keeps_shape_step;
  try (apply rec_inner; [assumption|deeper]);
  try (apply rec_statement; [assumption|deeper]);
  try apply expr_shape;
  try (apply keeps_shape_namedVariable; apply expr_shape);
  try stable_shape; auto.

(** A step under which the assertion stays [I]. *)
Ltac same I := apply (hoare_bind _ I); [apply hoare_keeps; go|intros ?].

Lemma keeps_within_block F d R :
  sound F -> floor F + 1 <= d -> keeps (on_shape (within F d R)) (block rec).
Proof. intros HF Hd. unfold block. go. Qed.

Lemma keeps_within_braces F d R :
  sound F -> floor F <= d ->
  keeps (on_shape (within F d R))
        (exec beginScope ;; block rec ;; exec (endScope op) ;; ret 0).
Proof.
  intros HF Hd. apply keeps_hoare.
  apply (hoare_bind _ (on_shape (within F (d + 1) R))).
  { apply hoare_exec. apply within_beginScope. }
  intros _. apply (hoare_bind _ (on_shape (within F (d + 1) R))).
  { apply hoare_keeps, keeps_within_block; [exact HF|lia]. }
  intros _. apply (hoare_bind _ (on_shape (within F d R))).
  { apply hoare_exec. intros st. apply within_endScope; assumption. }
  intros _. apply hoare_ret.
Qed.

Lemma keeps_within_varDeclaration F d R :
  sound F -> floor F + 1 <= d ->
  keeps (on_shape (within F d R)) (varDeclaration op expr).
Proof.
  intros HF Hd. unfold varDeclaration, expression. apply keeps_hoare.
  apply (hoare_bind _ (on_shape (within_declaring F d R))).
  { apply hoare_lift. intros st. apply declaring_parseVariable; assumption. }
  intros global.
  same (on_shape (within_declaring F d R)).
  same (on_shape (within_declaring F d R)).
  same (on_shape (within_declaring F d R)).
  apply (hoare_bind _ (on_shape (within F d R))).
  { apply hoare_exec. intros st. apply within_defineVariable, HF. }
  intros _. apply hoare_ret.
Qed.

Lemma keeps_within_expressionStatement F d R :
  keeps (on_shape (within F d R)) (expressionStatement op expr).
Proof. unfold expressionStatement, expression. go. Qed.

Lemma keeps_within_parameterLoop F d R :
  sound F -> floor F + 1 <= d ->
  keeps (on_shape (within F d R)) (parameterLoop op rec).
Proof.
  intros HF Hd. unfold parameterLoop. apply keeps_hoare.
  apply (hoare_bind _ (on_shape (within F d R))).
  { apply hoare_exec. intros st H. unfold on_shape.
    rewrite shape_with_current; [exact H|reflexivity]. }
  intros _.
  same (on_shape (within F d R)).
  same (on_shape (within F d R)).
  apply (hoare_bind _ (on_shape (within_declaring F d R))).
  { apply hoare_lift. intros st. apply declaring_parseVariable; assumption. }
  intros constant.
  apply (hoare_bind _ (on_shape (within F d R))).
  { apply hoare_exec. intros st. apply within_defineVariable, HF. }
  intros _. apply hoare_keeps. go.
Qed.

(** [function] pushes a compiler, compiles the body above the frame of a
    new function and unlinks the compiler: the shape of the chain is the
    same before and after. *)
Lemma hoare_frame_function_ ty K :
  hoare (on_shape (eq K)) (function_ op rec ty) (on_shape (eq K)).
Proof.
  pose proof sound_function_frame as HF.
  unfold function_.
  apply (hoare_bind _ (on_shape (within function_frame 0 K))).
  { apply hoare_exec. intros st H. unfold on_shape in *.
    rewrite shape_initCompiler, <- H. exists init_skeleton.
    split; [reflexivity|]. split; [reflexivity|apply framed_init]. }
  intros _. apply (hoare_bind _ (on_shape (within function_frame (0 + 1) K))).
  { apply hoare_exec. apply within_beginScope. }
  intros _.
  assert (Hd : floor function_frame + 1 <= 0 + 1) by (simpl; lia).
  same (on_shape (within function_frame (0 + 1) K)).
  same (on_shape (within function_frame (0 + 1) K)).
  same (on_shape (within function_frame (0 + 1) K)).
  same (on_shape (within function_frame (0 + 1) K)).
  same (on_shape (within function_frame (0 + 1) K)).
  apply (hoare_bind _ (on_shape (within function_frame (0 + 1) K))).
  { apply hoare_keeps, keeps_within_block; assumption. }
  intros _.
  same (on_shape (within function_frame (0 + 1) K)).
  apply (hoare_bind _ (on_shape (eq K))).
  { apply hoare_lift. intros st (s & Hsh & _). unfold on_shape.
    rewrite shape_endCompiler, Hsh. reflexivity. }
  intros f. apply hoare_keeps. go.
Qed.

Lemma keeps_shape_function_ ty (Q : list (Z * Z * list Z) -> Prop) :
  keeps (on_shape Q) (function_ op rec ty).
Proof.
  intros st a st' Hrun H.
  pose proof (hoare_frame_function_ ty (shape st) st a st' Hrun eq_refl) as E.
  unfold on_shape in *. rewrite <- E. exact H.
Qed.

Lemma keeps_within_funDeclaration F d R :
  sound F -> floor F + 1 <= d ->
  keeps (on_shape (within F d R)) (funDeclaration op rec).
Proof.
  intros HF Hd. unfold funDeclaration. apply keeps_hoare.
  apply (hoare_bind _ (on_shape (within_declaring F d R))).
  { apply hoare_lift. intros st. apply declaring_parseVariable; assumption. }
  intros global.
  set (marked := fun sh => exists sh0, within_declaring F d R sh0
                                       /\ sh = on_head mark_skeleton sh0).
  assert (Hmarked : forall sh, marked sh -> within F d R sh).
  { intros sh (sh0 & H0 & ->). revert H0. apply within_on_head.
    intros s. apply framed_mark, HF. }
  apply (hoare_bind _ (on_shape marked)).
  { apply hoare_exec. intros st H. exists (shape st).
    split; [exact H|apply shape_markInitialized]. }
  intros _. apply (hoare_bind _ (on_shape marked)).
  { apply hoare_keeps, keeps_shape_function_. }
  intros _. apply (hoare_bind _ (on_shape (within F d R))).
  { apply hoare_exec. intros st H. unfold on_shape in *.
    rewrite shape_defineVariable. apply Hmarked.
    destruct H as (sh0 & H0 & ->). exists sh0. split; [exact H0|].
    rewrite on_head_on_head. destruct sh0 as [|s rest]; [reflexivity|].
    simpl. rewrite define_after_mark. reflexivity. }
  intros _. apply hoare_ret.
Qed.

Lemma keeps_within_method F d R : keeps (on_shape (within F d R)) (method op rec).
Proof.
  pose proof keeps_shape_function_. unfold method. go.
Qed.

Lemma keeps_within_forStatement F d R :
  sound F -> floor F <= d ->
  keeps (on_shape (within F d R)) (forStatement op expr rec).
Proof.
  intros HF Hd.
  assert (Hvar : keeps (on_shape (within F (d + 1) R)) (varDeclaration op expr))
    by (apply keeps_within_varDeclaration; [exact HF|lia]).
  pose proof keeps_within_expressionStatement.
  unfold forStatement, statement, expression. apply keeps_hoare.
  apply (hoare_bind _ (on_shape (within F (d + 1) R))).
  { apply hoare_exec. apply within_beginScope. }
  intros _.
  do 11 same (on_shape (within F (d + 1) R)).
  apply (hoare_bind _ (on_shape (within F d R))).
  { apply hoare_exec. intros st. apply within_endScope; assumption. }
  intros _. apply hoare_ret.
Qed.

Lemma keeps_within_classDeclaration F d R :
  sound F -> floor F + 1 <= d ->
  keeps (on_shape (within F d R)) (classDeclaration op expr rec).
Proof.
  intros HF Hd.
  pose proof keeps_within_method.
  unfold classDeclaration, variable, expression. apply keeps_hoare.
  same (on_shape (within F d R)).
  same (on_shape (within F d R)).
  same (on_shape (within F d R)).
  apply (hoare_bind _ (on_shape (within_declaring F d R))).
  { apply hoare_exec. intros st. apply declaring_declareVariable; assumption. }
  intros _.
  same (on_shape (within_declaring F d R)).
  apply (hoare_bind _ (on_shape (within F d R))).
  { apply hoare_exec. intros st. apply within_defineVariable, HF. }
  intros _.
  same (on_shape (within F d R)).
  apply (hoare_bind _ (on_shape (within F d R))); [apply hoare_keeps; go|intros inherits].
  apply (hoare_bind _ (on_shape (within F (if inherits then d + 1 else d) R))).
  { destruct inherits; [|apply hoare_ret].
    same (on_shape (within F d R)).
    same (on_shape (within F d R)).
    same (on_shape (within F d R)).
    same (on_shape (within F d R)).
    apply (hoare_bind _ (on_shape (within F (d + 1) R))).
    { apply hoare_exec. apply within_beginScope. }
    intros _.
    apply (hoare_bind _ (on_shape (within_declaring F (d + 1) R))).
    { apply hoare_exec. intros st. apply declaring_addLocal; [exact HF|lia]. }
    intros _.
    apply (hoare_bind _ (on_shape (within F (d + 1) R))).
    { apply hoare_exec. intros st. apply within_defineVariable, HF. }
    intros _. apply hoare_keeps. go. }
  intros _.
  do 5 same (on_shape (within F (if inherits then d + 1 else d) R)).
  apply (hoare_bind _ (on_shape (within F d R))).
  { destruct inherits; simpl; [|apply hoare_ret].
    apply hoare_exec. intros st. apply within_endScope; [exact HF|lia]. }
  intros _. apply hoare_keeps. go.
Qed.

(** A statement, at the depth of the frame or deeper. *)
Lemma keeps_within_statement_ F d R :
  sound F -> floor F <= d ->
  keeps (on_shape (within F d R)) (statement_ op expr rec).
Proof.
  intros HF Hd.
  pose proof (keeps_within_braces F d R HF Hd).
  pose proof keeps_within_expressionStatement.
  pose proof (keeps_within_forStatement F d R HF Hd).
  unfold statement_, ifStatement, printStatement, returnStatement,
         whileStatement, statement, expression;
    repeat first [apply keeps_within_braces; assumption|keeps_shape_step];
    go.
Qed.

(** Every call, deeper than the frame. *)
Lemma keeps_within_stmtStep F d R c :
  sound F -> floor F + 1 <= d ->
  keeps (on_shape (within F d R)) (stmtStep op expr rec c).
Proof.
  intros HF Hd.
  pose proof (keeps_within_statement_ F d R HF ltac:(lia)).
  pose proof (keeps_within_varDeclaration F d R HF Hd).
  pose proof (keeps_within_parameterLoop F d R HF Hd).
  pose proof (keeps_within_funDeclaration F d R HF Hd).
  pose proof (keeps_within_classDeclaration F d R HF Hd).
  pose proof keeps_within_method.
  destruct c; simpl; auto;
    unfold declaration_, blockLoop, methodLoop,
           synchronizeLoop, compileLoop, synchronize, declaration, statement;
    repeat keeps_shape_step;
    go.
Qed.

End FramedStatements.

(** Deeper than a frame every call returns at the scope depth it was called
    at, the locals of the frame untouched; a statement does so from the
    depth of the frame as well, with the locals of the frame and no
    other. *)
Lemma keeps_within_runStmt op fuel :
  (forall F d R c,
     sound F -> floor F + 1 <= d ->
     keeps (on_shape (within F d R)) (runStmt op fuel c))
  /\ (forall F R,
        sound F ->
        keeps (on_shape (within F (floor F) R)) (runStmt op fuel call_statement)).
Proof.
  induction fuel as [|fuel [IH1 IH2]]; simpl.
  - split; intros; apply keeps_noResult.
  - split.
    + intros F d R c HF Hd. apply keeps_within_stmtStep; auto.
      intros Q c'. apply keeps_shape_runExpr.
    + intros F R HF. apply keeps_within_statement_; auto; [|lia].
      intros Q c'. apply keeps_shape_runExpr.
Qed.

(** X25: a statement leaves the locals as it found them.  If the function
    being compiled has room for one more local and none of its locals is
    deeper than the current scope, then whatever statement is compiled
    (blocks, loops, nested functions and classes included, with or without
    errors), the compiler returns at the same scope depth with the same
    number of locals, each at the depth it had, and the enclosing compilers
    keep their depths and their locals' depths: what a block declares is
    gone when the block ends. *)
Theorem statement_leaves_locals_as_found
  (op : OpCode -> Z) (fuel : nat) (st : State) (c : Compiler)
  (cs : list Compiler) (r : Z) (st' : State) :
  compilers st = c :: cs ->
  0 <= scopeDepth c ->
  0 <= localCount c < UINT8_COUNT ->
  length (locals c) = Z.to_nat UINT8_COUNT ->
  (forall i, 0 <= i < localCount c -> depth (local_at c i) <= scopeDepth c) ->
  runStmt op fuel call_statement st = Some (r, st') ->
  scopeDepth (cur st') = scopeDepth c
  /\ localCount (cur st') = localCount c
  /\ (forall i, 0 <= i < localCount c ->
        depth (local_at (cur st') i) = depth (local_at c i))
  /\ length (compilers st') = length (compilers st)
  /\ map skeleton (tl (compilers st')) = map skeleton cs.
Proof.
  intros Hch Hd Hlc Hlen Htidy Hrun.
  set (F := mkFrame (localCount c) (scopeDepth c) (map depth (locals c))).
  assert (HF : sound F).
  { unfold sound, F. cbn [base floor below]. split; [exact Hlc|]. split; [exact Hd|].
    intros i Hi. rewrite <- depth_local_at. apply Htidy, Hi. }
  assert (Hstart : on_shape (within F (floor F) (map skeleton cs)) st).
  { unfold on_shape, shape. rewrite Hch. exists (skeleton c).
    split; [reflexivity|]. split; [reflexivity|].
    unfold framed, skeleton, F. cbn [base floor below].
    rewrite length_map. repeat split; try lia; auto. }
  destruct (proj2 (keeps_within_runStmt op fuel) F (map skeleton cs) HF
              st r st' Hrun Hstart) as (s & Hsh & Hds & Hs).
  unfold shape in Hsh. unfold cur.
  destruct (compilers st') as [|c' cs']; [discriminate|].
  cbn [map] in Hsh. injection Hsh as Hc' Hcs'. subst s.
  unfold skeleton, framed, F in Hs, Hds. cbn [base floor below fst] in Hs, Hds.
  destruct Hs as (_ & _ & _ & Hsame & _ & Hbase).
  cbn [hd tl]. split; [exact Hds|]. split; [exact (Hbase Hds)|].
  split.
  { intros i Hi. rewrite !depth_local_at. apply Hsame, Hi. }
  split; [|exact Hcs'].
  rewrite Hch. cbn [length]. f_equal.
  apply (f_equal length) in Hcs'. rewrite !length_map in Hcs'. exact Hcs'.
Qed.

(** In a block with the local [a]; the parser is in front of
    [{ var b; }]. *)
Definition before_block : State :=
  markInitialized
    (addLocal (ident "a")
       (beginScope
          (compile_start
             [tok TOKEN_LEFT_BRACE "{"; tok TOKEN_VAR "var"; ident "b";
              tok TOKEN_SEMICOLON ";"; tok TOKEN_RIGHT_BRACE "}";
              tok TOKEN_EOF ""]))).

Lemma statement_leaves_locals_as_found_witness :
  compilers before_block = [cur before_block]
  /\ scopeDepth (cur before_block) = 1
  /\ localCount (cur before_block) = 2
  /\ exists r st',
       runStmt opcode 5 call_statement before_block = Some (r, st')
       /\ scopeDepth (cur st') = 1
       /\ localCount (cur st') = 2.
Proof.
  assert (H0 : compilers before_block = [cur before_block]) by reflexivity.
  assert (H1 : 0 <= scopeDepth (cur before_block)) by (vm_compute; discriminate).
  assert (H2 : 0 <= localCount (cur before_block) < UINT8_COUNT)
    by (vm_compute; split; [discriminate|reflexivity]).
  assert (H3 : length (locals (cur before_block)) = Z.to_nat UINT8_COUNT)
    by reflexivity.
  assert (H4 : forall i, 0 <= i < localCount (cur before_block) ->
                 depth (local_at (cur before_block) i)
                 <= scopeDepth (cur before_block)).
  { intros i Hi. change (localCount (cur before_block)) with 2 in Hi.
    assert (Hi' : i = 0 \/ i = 1) by lia.
    destruct Hi' as [->| ->]; vm_compute; discriminate. }
  split; [exact H0|]. split; [reflexivity|]. split; [reflexivity|].
  destruct (runStmt opcode 5 call_statement before_block) as [[r st']|] eqn:E;
    [|vm_compute in E; discriminate E].
  destruct (statement_leaves_locals_as_found opcode 5 before_block
              (cur before_block) [] r st' H0 H1 H2 H3 H4 E) as (H5 & H6 & _).
  exists r, st'. split; [reflexivity|]. split; [exact H5|exact H6].
Defined.

(** ** Concrete runs of the further properties *)

(** The script compiler, at the start of an empty source. *)
Definition in_script : State := compile_start [tok TOKEN_EOF ""].

Lemma linked_in_script : linked in_script.
Proof. unfold linked. simpl. discriminate. Defined.

Lemma backward_jump_encodes_distance_witness :
  linked in_script
  /\ 0 <= 0 <= count (currentChunk in_script)
  /\ code (currentChunk (emitLoop opcode 0 in_script)) = [opcode OP_LOOP; 0; 3]
  /\ count (currentChunk (emitLoop opcode 0 in_script)) - 3 = 0.
Proof.
  assert (H0 : 0 <= 0 <= count (currentChunk in_script)) by (vm_compute; split; discriminate).
  split; [exact linked_in_script|]. split; [exact H0|].
  destruct (backward_jump_encodes_distance opcode 0 in_script linked_in_script H0)
    as (H1 & H2 & _).
  split; [exact H1|exact H2].
Defined.

Lemma constant_index_addresses_value_witness :
  linked in_script
  /\ Z.of_nat (length (constants (currentChunk in_script))) <= UINT8_MAX
  /\ fst (makeConstant (NUMBER_VAL "3") in_script) = 0
  /\ constants (currentChunk (snd (makeConstant (NUMBER_VAL "3") in_script))) !! 0%nat
     = Some (NUMBER_VAL "3")
  /\ fst (makeConstant (NUMBER_VAL "3")
            (snd (makeConstant (NUMBER_VAL "3") in_script))) = 1.
Proof.
  assert (H0 : Z.of_nat (length (constants (currentChunk in_script))) <= UINT8_MAX)
    by (vm_compute; discriminate).
  split; [exact linked_in_script|]. split; [exact H0|].
  destruct (constant_index_addresses_value opcode (NUMBER_VAL "3") in_script
              linked_in_script H0)
    as (H1 & H2 & _ & _ & _ & _ & _ & _ & H3).
  split; [exact H1|]. split; [exact H2|]. apply H3. vm_compute. reflexivity.
Defined.

(** Inside a block of the script: [a] and [b] are declared and defined at
    depth 1, and [b] has been captured. *)
Definition two_locals : State :=
  with_current (capture 2)
    (markInitialized
       (addLocal (ident "b")
          (markInitialized (addLocal (ident "a") (beginScope in_script))))).

Lemma scope_end_discards_its_locals_witness :
  compilers two_locals = [cur two_locals]
  /\ 0 <= localCount (cur two_locals)
  /\ localCount (cur two_locals) = 3
  /\ localCount (cur (endScope opcode two_locals)) = 1
  /\ code (currentChunk (endScope opcode two_locals))
     = [opcode OP_CLOSE_UPVALUE; opcode OP_POP].
Proof.
  assert (H0 : compilers two_locals = [cur two_locals]) by reflexivity.
  assert (H1 : 0 <= localCount (cur two_locals)) by (vm_compute; discriminate).
  split; [exact H0|]. split; [exact H1|]. split; [reflexivity|].
  destruct (scope_end_discards_its_locals opcode two_locals (cur two_locals) []
              H0 H1)
    as (_ & H2 & _ & H3 & _).
  split; [exact H2|exact H3].
Defined.

Lemma well_formed_in_script : well_formed (cur in_script).
Proof. unfold well_formed. simpl. unfold UINT8_COUNT. repeat split; lia. Defined.

Lemma upvalue_recorded_once_witness :
  well_formed (cur in_script)
  /\ fst (fst (addUpvalue (cur in_script) 1 true in_script)) = 0
  /\ upvalueCount (function (snd (fst (addUpvalue (cur in_script) 1 true in_script))))
     = 1
  /\ addUpvalue (snd (fst (addUpvalue (cur in_script) 1 true in_script))) 1 true
       (snd (addUpvalue (cur in_script) 1 true in_script))
     = addUpvalue (cur in_script) 1 true in_script.
Proof.
  split; [exact well_formed_in_script|]. split; [reflexivity|].
  split; [reflexivity|].
  exact (proj1 (proj2 (upvalue_recorded_once (cur in_script) 1 true in_script
                         well_formed_in_script))).
Defined.

(** Inside a block: [a] is declared at depth 1, and the parser has just
    consumed a second [a]. *)
Definition redeclaring_a : State :=
  markInitialized
    (addLocal (ident "a")
       (beginScope (advance (compile_start [ident "a"; tok TOKEN_EOF ""])))).

Lemma redeclaration_in_scope_is_reported_witness :
  compilers redeclaring_a = [cur redeclaring_a]
  /\ scopeDepth (cur redeclaring_a) <> 0
  /\ previous (parser redeclaring_a) = ident "a"
  /\ diagnostics (declareVariable redeclaring_a)
     = [(ident "a", "Already a variable with this name in this scope.")]
  /\ localCount (cur (declareVariable redeclaring_a)) = 3.
Proof.
  assert (H0 : compilers redeclaring_a = [cur redeclaring_a]) by reflexivity.
  assert (H1 : scopeDepth (cur redeclaring_a) <> 0) by (vm_compute; discriminate).
  split; [exact H0|]. split; [exact H1|]. split; [reflexivity|].
  rewrite (proj1 (redeclaration_in_scope_is_reported redeclaring_a
                    (cur redeclaring_a) [] H0 H1)).
  split; reflexivity.
Defined.

Lemma declared_local_is_resolved_witness :
  let st := beginScope in_script in
  let st2 := markInitialized (addLocal (ident "a") st) in
  compilers st = [cur st]
  /\ 0 <= localCount (cur st) <= UINT8_COUNT
  /\ length (locals (cur st)) = Z.to_nat UINT8_COUNT
  /\ local_at (cur st2) 1 = mkLocal (ident "a") 1 false
  /\ resolveLocal (cur st2) (ident "a") st2 = (1, st2).
Proof.
  cbv zeta.
  assert (H0 : compilers (beginScope in_script) = [cur (beginScope in_script)])
    by reflexivity.
  assert (H1 : 0 <= localCount (cur (beginScope in_script)) <= UINT8_COUNT)
    by (vm_compute; split; discriminate).
  assert (H2 : length (locals (cur (beginScope in_script))) = Z.to_nat UINT8_COUNT)
    by reflexivity.
  split; [exact H0|]. split; [exact H1|]. split; [exact H2|].
  destruct (declared_local_is_resolved (ident "a") (beginScope in_script)
              (cur (beginScope in_script)) [] H0 H1 H2) as (_ & H3).
  destruct H3 as (_ & _ & _ & _ & _ & H4); [vm_compute; reflexivity|].
  destruct H4 as (H5 & _ & H6); [vm_compute; reflexivity|].
  split; [exact H5|exact H6].
Defined.

(** [true and false;]: the parser has consumed [and]. *)
Definition after_and : State :=
  advance
    (advance
       (compile_start
          [tok TOKEN_TRUE "true"; tok TOKEN_AND "and"; tok TOKEN_FALSE "false";
           tok TOKEN_SEMICOLON ";"; tok TOKEN_EOF ""])).

Lemma short_circuit_jumps_over_right_operand_witness :
  linked after_and
  /\ exists r st' right,
       and_ opcode (runExpr opcode 3) false after_and = Some (r, st')
       /\ code (currentChunk st')
          = code (currentChunk after_and)
            ++ [opcode OP_JUMP_IF_FALSE; high_of (Z.of_nat (length right) + 1);
                low_of (Z.of_nat (length right) + 1); opcode OP_POP] ++ right.
Proof.
  assert (H : linked after_and) by (unfold linked; simpl; discriminate).
  split; [exact H|].
  destruct (and_ opcode (runExpr opcode 3) false after_and) as [[r st']|] eqn:E;
    [|vm_compute in E; discriminate E].
  destruct (proj1 (short_circuit_jumps_over_right_operand opcode 3 false after_and H)
              r st' E) as (right & z & s & _ & _ & H3).
  exists r, st', right. split; [reflexivity|exact H3].
Defined.

(** [while (true) print 1;] and [if (true) print 1; else print 2;]: the
    parser has consumed the keyword. *)
Definition after_while : State :=
  advance
    (compile_start
       [tok TOKEN_WHILE "while"; tok TOKEN_LEFT_PAREN "("; tok TOKEN_TRUE "true";
        tok TOKEN_RIGHT_PAREN ")"; tok TOKEN_PRINT "print"; tok TOKEN_NUMBER "1";
        tok TOKEN_SEMICOLON ";"; tok TOKEN_EOF ""]).

Definition after_if : State :=
  advance
    (compile_start
       [tok TOKEN_IF "if"; tok TOKEN_LEFT_PAREN "("; tok TOKEN_TRUE "true";
        tok TOKEN_RIGHT_PAREN ")"; tok TOKEN_PRINT "print"; tok TOKEN_NUMBER "1";
        tok TOKEN_SEMICOLON ";"; tok TOKEN_ELSE "else";
        tok TOKEN_PRINT "print"; tok TOKEN_NUMBER "2";
        tok TOKEN_SEMICOLON ";"; tok TOKEN_EOF ""]).

Lemma while_loop_layout_witness :
  linked after_while
  /\ exists r st' cond body,
       whileStatement opcode (runExpr opcode 5) (runStmt opcode 5) after_while
       = Some (r, st')
       /\ code (currentChunk st')
          = code (currentChunk after_while) ++ cond
            ++ [opcode OP_JUMP_IF_FALSE; high_of (Z.of_nat (length body) + 4);
                low_of (Z.of_nat (length body) + 4); opcode OP_POP] ++ body
            ++ [opcode OP_LOOP;
                high_of (Z.of_nat (length cond) + Z.of_nat (length body) + 7);
                low_of (Z.of_nat (length cond) + Z.of_nat (length body) + 7);
                opcode OP_POP].
Proof.
  assert (H : linked after_while) by (unfold linked; simpl; discriminate).
  split; [exact H|].
  destruct (whileStatement opcode (runExpr opcode 5) (runStmt opcode 5) after_while)
    as [[r st']|] eqn:E; [|vm_compute in E; discriminate E].
  destruct (while_loop_layout opcode 5 after_while r st' H E)
    as (cond & body & z1 & s1 & s2 & z2 & s3 & _ & _ & _ & _ & _ & H6).
  exists r, st', cond, body. split; [reflexivity|exact H6].
Defined.

Lemma if_statement_layout_witness :
  linked after_if
  /\ exists r st' cond thenBranch elseBranch,
       ifStatement opcode (runExpr opcode 5) (runStmt opcode 5) after_if
       = Some (r, st')
       /\ code (currentChunk st')
          = code (currentChunk after_if) ++ cond
            ++ [opcode OP_JUMP_IF_FALSE;
                high_of (Z.of_nat (length thenBranch) + 4);
                low_of (Z.of_nat (length thenBranch) + 4); opcode OP_POP]
            ++ thenBranch
            ++ [opcode OP_JUMP; high_of (Z.of_nat (length elseBranch) + 1);
                low_of (Z.of_nat (length elseBranch) + 1); opcode OP_POP]
            ++ elseBranch.
Proof.
  assert (H : linked after_if) by (unfold linked; simpl; discriminate).
  split; [exact H|].
  destruct (ifStatement opcode (runExpr opcode 5) (runStmt opcode 5) after_if)
    as [[r st']|] eqn:E; [|vm_compute in E; discriminate E].
  destruct (if_statement_layout opcode 5 after_if r st' H E)
    as (cond & thenBranch & elseBranch & z1 & s1 & s2 & z2 & s3 & s4
        & _ & _ & _ & _ & _ & _ & H7).
  exists r, st', cond, thenBranch, elseBranch. split; [reflexivity|exact H7].
Defined.

(** [1 + 2;]: the parser has consumed [+]. *)
Definition after_plus : State :=
  advance
    (advance
       (compile_start
          [tok TOKEN_NUMBER "1"; tok TOKEN_PLUS "+"; tok TOKEN_NUMBER "2";
           tok TOKEN_SEMICOLON ";"; tok TOKEN_EOF ""])).

Lemma operators_follow_their_operands_witness :
  linked after_plus
  /\ exists r st' right,
       binary opcode (runExpr opcode 3) false after_plus = Some (r, st')
       /\ code (currentChunk st')
          = code (currentChunk after_plus) ++ right ++ [opcode OP_ADD].
Proof.
  assert (H : linked after_plus) by (unfold linked; simpl; discriminate).
  split; [exact H|].
  destruct (binary opcode (runExpr opcode 3) false after_plus) as [[r st']|] eqn:E;
    [|vm_compute in E; discriminate E].
  destruct (proj1 (operators_follow_their_operands opcode 3 false after_plus H)
              r st' E) as (right & z & s & _ & _ & H3 & _).
  exists r, st', right. split; [reflexivity|exact H3].
Defined.

(** [fun f() {}]: the parser has consumed the name. *)
Definition after_fun_name : State :=
  advance
    (advance
       (compile_start
          [tok TOKEN_FUN "fun"; ident "f"; tok TOKEN_LEFT_PAREN "(";
           tok TOKEN_RIGHT_PAREN ")"; tok TOKEN_LEFT_BRACE "{";
           tok TOKEN_RIGHT_BRACE "}"; tok TOKEN_EOF ""])).

Lemma function_compiles_to_closure_witness :
  linked after_fun_name
  /\ exists r st' compiler (f : ObjFunction) k,
       function_ opcode (runStmt opcode 3) TYPE_FUNCTION after_fun_name
       = Some (r, st')
       /\ code (chunk f)
          = code (chunk (function compiler)) ++ [opcode OP_NIL; opcode OP_RETURN]
       /\ code (currentChunk st')
          = code (currentChunk after_fun_name) ++ [opcode OP_CLOSURE; k]
            ++ upvalue_pairs compiler (Z.to_nat (upvalueCount f)).
Proof.
  assert (H : linked after_fun_name) by (unfold linked; simpl; discriminate).
  split; [exact H|].
  destruct (function_ opcode (runStmt opcode 3) TYPE_FUNCTION after_fun_name)
    as [[r st']|] eqn:E; [|vm_compute in E; discriminate E].
  destruct (function_compiles_to_closure opcode 3 TYPE_FUNCTION after_fun_name
              r st' H E) as (compiler & f & k & _ & _ & _ & H4 & H5 & _).
  exists r, st', compiler, f, k. split; [reflexivity|]. split; [exact H4|exact H5].
Defined.

(** [return;] at top level: the parser has consumed [return]. *)
Definition after_return : State :=
  advance
    (compile_start
       [tok TOKEN_RETURN "return"; tok TOKEN_SEMICOLON ";"; tok TOKEN_EOF ""]).

Lemma return_statement_rules_witness :
  linked after_return
  /\ exists r st',
       returnStatement opcode (runExpr opcode 1) after_return = Some (r, st')
       /\ code (currentChunk st') = [opcode OP_NIL; opcode OP_RETURN]
       /\ flags st'
          = (true, true,
             [(tok TOKEN_RETURN "return", "can't return from top-level code.")]).
Proof.
  assert (H : linked after_return) by (unfold linked; simpl; discriminate).
  split; [exact H|].
  destruct (returnStatement opcode (runExpr opcode 1) after_return)
    as [[r st']|] eqn:E; [|vm_compute in E; discriminate E].
  destruct (return_statement_rules opcode 1 after_return r st' H E)
    as (H1 & H2 & _).
  exists r, st'. split; [reflexivity|]. split; [exact H1|].
  apply H2; reflexivity.
Defined.

(** [for (;;) print 1;]: the parser has consumed [for]. *)
Definition after_for : State :=
  advance
    (compile_start
       [tok TOKEN_FOR "for"; tok TOKEN_LEFT_PAREN "("; tok TOKEN_SEMICOLON ";";
        tok TOKEN_SEMICOLON ";"; tok TOKEN_RIGHT_PAREN ")";
        tok TOKEN_PRINT "print"; tok TOKEN_NUMBER "1"; tok TOKEN_SEMICOLON ";";
        tok TOKEN_EOF ""]).

Lemma for_loop_layout_witness :
  linked after_for
  /\ exists r st' sE closing,
       forStatement opcode (runExpr opcode 5) (runStmt opcode 5) after_for
       = Some (r, st')
       /\ st' = endScope opcode sE
       /\ code (currentChunk st') = code (currentChunk sE) ++ closing.
Proof.
  assert (H : linked after_for) by (unfold linked; simpl; discriminate).
  split; [exact H|].
  destruct (forStatement opcode (runExpr opcode 5) (runStmt opcode 5) after_for)
    as [[r st']|] eqn:E; [|vm_compute in E; discriminate E].
  destruct (for_loop_layout opcode 5 after_for r st' H E)
    as (init & cond & incr & body & closing & hasCond & hasIncr & sI & sC & sE
        & _ & _ & _ & _ & H5 & H6).
  exists r, st', sE, closing. split; [reflexivity|]. split; [exact H5|exact H6].
Defined.

(** [{ var a = 1; }]: the block is open and the parser has consumed [var]. *)
Definition after_var : State :=
  beginScope
    (advance
       (advance
          (compile_start
             [tok TOKEN_LEFT_BRACE "{"; tok TOKEN_VAR "var"; ident "a";
              tok TOKEN_EQUAL "="; tok TOKEN_NUMBER "1"; tok TOKEN_SEMICOLON ";";
              tok TOKEN_RIGHT_BRACE "}"; tok TOKEN_EOF ""]))).

